(** * Lithium IA-32 code generator and snapshot blob: a shallow embedding

    The development follows two translation units of the repository:

    - [src/snapshot/snapshot-common.cc]: the snapshot blob writer
      [Snapshot::CreateSnapshotBlob] with the first page sizes that it
      computes, and the readers of the blob;
    - the IA-32 Lithium code generator ([LCodeGen]): integer division and
      multiplication lowering, bounds checks, keyed loads, branch emission,
      deoptimization guards with their jump table, environment registration
      with translation writing, and safepoint recording.

    C++ [int] values are [Z] with the 32-bit wrap-around written out, byte
    buffers are [list byte], [ZoneList]s are [list]s, and the mutable state
    of the code generator is threaded explicitly.

    Part I holds the definitions, Part II the lemmas and theorems. *)

From Stdlib Require Import ZArith Lia Bool List.
From Stdlib Require Import Strings.Byte.
From stdpp Require Import base option list gmap.

Local Open Scope Z_scope.

(** * Part I: definitions *)

(** ** 32-bit integers *)

Module Int32.

Definition modulus : Z := 2 ^ 32.
Definition half_modulus : Z := 2 ^ 31.
Definition kMinInt : Z := - 2 ^ 31.
Definition kMaxInt : Z := 2 ^ 31 - 1.

(** The unsigned residue of [z]: the contents of a 32-bit register. *)
Definition wrap (z : Z) : Z := z mod modulus.

(** The signed reading of a 32-bit pattern, also the result of an [int]
    computation that wraps. *)
Definition signed (z : Z) : Z :=
  let u := wrap z in if u <? half_modulus then u else u - modulus.

Definition in_range (z : Z) : Prop := kMinInt <= z <= kMaxInt.

(** Unfolds the constants of this module to numerals, for [lia]. *)
Ltac numerals :=
  unfold in_range, kMinInt, kMaxInt, half_modulus, modulus in *;
  change (2 ^ 32) with 4294967296 in *;
  change (2 ^ 31) with 2147483648 in *.

End Int32.

(** ** Bytes and [memcpy] *)

Module Bytes.

Definition to_Z (b : byte) : Z := Z.of_N (Byte.to_N b).

Definition of_Z (z : Z) : byte :=
  match Byte.of_N (Z.to_N (z mod 256)) with
  | Some b => b
  | None => x00
  end.

(** [memcpy(&dst, &x, kInt32Size)] on a little-endian host: the four bytes
    of the 32-bit pattern of [x], least significant first. *)
Definition int32_bytes (x : Z) : list byte :=
  let u := Int32.wrap x in
  [ of_Z u; of_Z (u / 2 ^ 8); of_Z (u / 2 ^ 16); of_Z (u / 2 ^ 24) ].

(** [memcpy(&x, src, kInt32Size)] into an [int]. *)
Definition int32_of_bytes (bs : list byte) : option Z :=
  match bs with
  | [b0; b1; b2; b3] =>
      Some (Int32.signed (to_Z b0 + to_Z b1 * 2 ^ 8 + to_Z b2 * 2 ^ 16
                          + to_Z b3 * 2 ^ 24))
  | _ => None
  end.

(** A buffer is a list of bytes; a copy that leaves the destination block
    is undefined behaviour and yields [None]. *)
Definition memcpy (data : list byte) (off : Z) (src : list byte)
  : option (list byte) :=
  if (0 <=? off) && (off + Z.of_nat (length src) <=? Z.of_nat (length data))
  then Some (take (Z.to_nat off) data ++ src
             ++ drop (Z.to_nat off + length src) data)
  else None.

(** Reading [len] bytes at [off]; [None] outside the block. *)
Definition read (data : list byte) (off len : Z) : option (list byte) :=
  if (0 <=? off) && (0 <=? len) && (off + len <=? Z.of_nat (length data))
  then Some (take (Z.to_nat len) (drop (Z.to_nat off) data))
  else None.

Definition read_int32 (data : list byte) (off : Z) : option Z :=
  read data off 4 ≫= int32_of_bytes.

End Bytes.

(** ** The snapshot blob ([snapshot-common.cc]) *)

Module Snapshot.

Import Bytes.

(** A [CHECK_LT] that fails aborts the process; a copy or read outside a
    block is undefined behaviour. Both are kept apart from a result. *)
Inductive Result (A : Type) : Type :=
| Ok (a : A)
| CheckFailed
| Undefined.
Arguments Ok {A} a.
Arguments CheckFailed {A}.
Arguments Undefined {A}.

#[export] Instance Result_bind : MBind Result := fun A B k r =>
  match r with
  | Ok a => k a
  | CheckFailed => CheckFailed
  | Undefined => Undefined
  end.

Definition defined {A} (o : option A) : Result A :=
  match o with Some a => Ok a | None => Undefined end.

Definition CHECK_LT (a b : Z) : Result unit :=
  if a <? b then Ok tt else CheckFailed.

Definition kInt32Size : Z := 4.

(** [int] addition, wrapping. *)
Definition int_add (a b : Z) : Z := Int32.signed (a + b).

(** [SnapshotData]: the blob writer only uses [RawData()]. *)
Record SnapshotData : Type := { RawData : list byte }.

(** [Vector<const byte>::length()] as an [int]. *)
Definition length_int (bs : list byte) : Z := Z.of_nat (length bs).

(** [v8::StartupData]. *)
Record StartupData : Type := { data : list byte; raw_size : Z }.

(** [Vector<const byte>(start, length)], with [start] as an offset into
    the blob it points into. *)
Record Vector : Type := { start : Z; vlength : Z }.

Definition Vector_bytes (blob : StartupData) (v : Vector)
  : option (list byte) :=
  read (data blob) (start v) (vlength v).

(** *** The sizes of the first pages *)

(** [SerializedData::Reservation], as far as this file reads it. *)
Record Reservation : Type := { chunk_size : Z; is_last : bool }.

(** What the page-size code takes from outside this file: the numbering
    of the spaces, [MemoryAllocator::PageAreaSize],
    [Page::kObjectStartOffset], [KB], and the reservations of a snapshot,
    which [SnapshotData::Reservations] reads through header accessors that
    are not among the sources. *)
Record Spaces : Type := {
  kNumberOfSpaces : Z;
  FIRST_PAGED_SPACE : Z;
  LAST_PAGED_SPACE : Z;
  CODE_SPACE : Z;
  PageAreaSize : Z -> Z;
  kObjectStartOffset : Z;
  KB : Z;
  Reservations : SnapshotData -> list Reservation
}.

(** [uint32_t] addition. *)
Definition uint32_add (a b : Z) : Z := Int32.wrap (a + b).

(** [xs[i]] as a read and as a write; outside the array both are
    undefined behaviour. *)
Definition at_index (xs : list Z) (i : Z) : Result Z :=
  if i <? 0 then Undefined else defined (xs !! Z.to_nat i).

Definition put_index (xs : list Z) (i v : Z) : Result (list Z) :=
  if (0 <=? i) && (i <? Z.of_nat (length xs))
  then Ok (<[Z.to_nat i := v]> xs)
  else Undefined.

(** The loop of [UpdateMaxRequirementPerPage], with its three variables;
    it returns the array and the final [space]. *)
Fixpoint update_requirements (reservations : list Reservation)
         (space : Z) (current_requirement : Z) (requirements : list Z)
  : Result (list Z * Z) :=
  match reservations with
  | [] => Ok (requirements, space)
  | reservation :: rest =>
      let current_requirement :=
        uint32_add current_requirement (chunk_size reservation) in
      if is_last reservation then
        old ← at_index requirements space;
        requirements ←
          put_index requirements space (Z.max old current_requirement);
        update_requirements rest (space + 1) 0 requirements
      else update_requirements rest space current_requirement requirements
  end.

(** [UpdateMaxRequirementPerPage]; the closing [DCHECK_EQ] on [space] is
    compiled in debug builds only. *)
Definition UpdateMaxRequirementPerPage (requirements : list Z)
           (reservations : list Reservation) : Result (list Z) :=
  '(requirements, _) ← update_requirements reservations 0 0 requirements;
  Ok requirements.

(** The last loop of [CalculateFirstPageSizes], over the spaces
    [spaces]. *)
Fixpoint limit_first_pages (sp : Spaces)
         (startup_requirements context_requirements : list Z)
         (spaces : list Z) (sizes_out : list Z) : Result (list Z) :=
  match spaces with
  | [] => Ok sizes_out
  | space :: rest =>
      startup ← at_index startup_requirements space;
      context ← at_index context_requirements space;
      let required :=
        uint32_add (uint32_add startup (Int32.wrap (2 * context)))
                   (kObjectStartOffset sp) in
      (* Add a small allowance to the code space for small scripts. *)
      let required :=
        if space =? CODE_SPACE sp then uint32_add required (32 * KB sp)
        else required in
      if (FIRST_PAGED_SPACE sp <=? space) && (space <=? LAST_PAGED_SPACE sp)
      then
        let max_size := Int32.wrap (PageAreaSize sp space) in
        sizes_out ←
          put_index sizes_out (space - FIRST_PAGED_SPACE sp)
                    (Z.min required max_size);
        limit_first_pages sp startup_requirements context_requirements
                          rest sizes_out
      else
        limit_first_pages sp startup_requirements context_requirements
                          rest sizes_out
  end.

(** [for (context_snapshot : *context_snapshots)
       UpdateMaxRequirementPerPage(context_requirements, ...)] *)
Fixpoint update_for_contexts (sp : Spaces) (requirements : list Z)
         (context_snapshots : list SnapshotData) : Result (list Z) :=
  match context_snapshots with
  | [] => Ok requirements
  | context_snapshot :: rest =>
      requirements ←
        UpdateMaxRequirementPerPage requirements
          (Reservations sp context_snapshot);
      update_for_contexts sp requirements rest
  end.

(** [CalculateFirstPageSizes]; the block under
    [FLAG_profile_deserialization] only prints. *)
Definition CalculateFirstPageSizes (sp : Spaces)
           (startup_snapshot : SnapshotData)
           (context_snapshots : list SnapshotData) (sizes_out : list Z)
  : Result (list Z) :=
  let spaces := Z.of_nat <$> seq 0 (Z.to_nat (kNumberOfSpaces sp)) in
  let startup_requirements := (fun _ => 0) <$> spaces in
  let context_requirements := (fun _ => 0) <$> spaces in
  startup_requirements ←
    UpdateMaxRequirementPerPage startup_requirements
      (Reservations sp startup_snapshot);
  context_requirements ←
    update_for_contexts sp context_requirements context_snapshots;
  limit_first_pages sp startup_requirements context_requirements
                    spaces sizes_out.

(** *** The blob *)

(** What the blob code takes from outside this file: the layout constants
    and offset functions of [snapshot.h] (a header that is not among the
    sources at hand), and the two arrays that [CreateSnapshotBlob] uses
    before it has written them, the local
    [uint32_t first_page_sizes[kNumPagedSpaces]] and [new char[n]],
    whose contents are unspecified. *)
Record Header : Type := {
  kNumPagedSpaces : Z;
  kFirstPageSizesOffset : Z;
  kNumberOfContextsOffset : Z;
  StartupSnapshotOffset : Z -> Z;
  ContextSnapshotOffsetOffset : Z -> Z;
  uint32_array : Z -> list Z;
  new_char_array : Z -> list byte
}.

(** The memory image of a [uint32_t] array. *)
Definition uint32_image (xs : list Z) : list byte :=
  flat_map int32_bytes xs.

(** [for (context_snapshot : *context_snapshots) total_length += ...] *)
Definition add_lengths (total : Z) (context_snapshots : list SnapshotData)
  : Z :=
  fold_left (fun t c => int_add t (length_int (RawData c)))
            context_snapshots total.

(** The loop [for (int i = 0; i < num_contexts; i++)] of
    [CreateSnapshotBlob], from index [i] on. *)
Fixpoint copy_contexts (h : Header) (context_snapshots : list SnapshotData)
         (i : Z) (payload_offset : Z) (data : list byte)
  : Result (list byte) :=
  match context_snapshots with
  | [] => Ok data
  | context_snapshot :: rest =>
      data ← defined (memcpy data (ContextSnapshotOffsetOffset h i)
                             (int32_bytes payload_offset));
      let payload_length := length_int (RawData context_snapshot) in
      data ← defined (memcpy data payload_offset
                             (RawData context_snapshot));
      copy_contexts h rest (i + 1) (int_add payload_offset payload_length)
                    data
  end.

Definition CreateSnapshotBlob (h : Header) (sp : Spaces)
           (startup_snapshot : SnapshotData)
           (context_snapshots : list SnapshotData) : Result StartupData :=
  let num_contexts := Z.of_nat (length context_snapshots) in
  let startup_snapshot_offset := StartupSnapshotOffset h num_contexts in
  let total_length := startup_snapshot_offset in
  let total_length :=
    int_add total_length (length_int (RawData startup_snapshot)) in
  let total_length := add_lengths total_length context_snapshots in
  let first_page_sizes := uint32_array h (kNumPagedSpaces h) in
  first_page_sizes ←
    CalculateFirstPageSizes sp startup_snapshot context_snapshots
                            first_page_sizes;
  if total_length <? 0 then Undefined else
  let data := new_char_array h total_length in
  sizes ← defined (read (uint32_image first_page_sizes) 0
                        (kNumPagedSpaces h * kInt32Size));
  data ← defined (memcpy data (kFirstPageSizesOffset h) sizes);
  data ← defined (memcpy data (kNumberOfContextsOffset h)
                         (int32_bytes num_contexts));
  let payload_offset := StartupSnapshotOffset h num_contexts in
  let payload_length := length_int (RawData startup_snapshot) in
  data ← defined (memcpy data payload_offset (RawData startup_snapshot));
  let payload_offset := int_add payload_offset payload_length in
  data ← copy_contexts h context_snapshots 0 payload_offset data;
  Ok {| data := data; raw_size := total_length |}.

Definition ExtractNumContexts (h : Header) (blob : StartupData) : Result Z :=
  CHECK_LT (kNumberOfContextsOffset h) (raw_size blob) ;;
  defined (read_int32 (data blob) (kNumberOfContextsOffset h)).

Definition ExtractStartupData (h : Header) (blob : StartupData)
  : Result Vector :=
  num_contexts ← ExtractNumContexts h blob;
  let startup_offset := StartupSnapshotOffset h num_contexts in
  CHECK_LT startup_offset (raw_size blob) ;;
  first_context_offset ←
    defined (read_int32 (data blob) (ContextSnapshotOffsetOffset h 0));
  CHECK_LT first_context_offset (raw_size blob) ;;
  let startup_length :=
    Int32.signed (first_context_offset - startup_offset) in
  Ok {| start := startup_offset; vlength := startup_length |}.

Definition ExtractContextData (h : Header) (blob : StartupData) (index : Z)
  : Result Vector :=
  num_contexts ← ExtractNumContexts h blob;
  CHECK_LT index num_contexts ;;
  context_offset ←
    defined (read_int32 (data blob) (ContextSnapshotOffsetOffset h index));
  next_context_offset ←
    (if index =? Int32.signed (num_contexts - 1)
     then Ok (raw_size blob)
     else
       next ← defined (read_int32 (data blob)
                         (ContextSnapshotOffsetOffset h (index + 1)));
       CHECK_LT next (raw_size blob) ;;
       Ok next);
  let context_length :=
    Int32.signed (next_context_offset - context_offset) in
  Ok {| start := context_offset; vlength := context_length |}.

(** The bytes of all context payloads together. *)
Definition payload_size (context_snapshots : list SnapshotData) : Z :=
  fold_right (fun c t => length_int (RawData c) + t) 0 context_snapshots.

(** What is known of the absent header: the fields of the blob header lie
    in this order and do not overlap, the header ends where the startup
    payload starts, and a fresh array has the size asked for. *)
Record HeaderLaws (h : Header) : Prop := {
  page_sizes_in_header : forall n, 0 <= n ->
    0 <= kFirstPageSizesOffset h /\ 0 <= kNumPagedSpaces h /\
    kFirstPageSizesOffset h + kNumPagedSpaces h * kInt32Size
    <= StartupSnapshotOffset h n;
  num_contexts_before_offsets :
    0 <= kNumberOfContextsOffset h /\
    kNumberOfContextsOffset h + kInt32Size <= ContextSnapshotOffsetOffset h 0;
  offsets_in_sequence : forall i, 0 <= i ->
    ContextSnapshotOffsetOffset h i + kInt32Size
    <= ContextSnapshotOffsetOffset h (i + 1);
  offsets_before_startup : forall n, 0 <= n ->
    ContextSnapshotOffsetOffset h n <= StartupSnapshotOffset h n;
  uint32_array_length : forall n, 0 <= n ->
    Z.of_nat (length (uint32_array h n)) = n;
  new_char_array_length : forall n, 0 <= n ->
    Z.of_nat (length (new_char_array h n)) = n
}.

(** A header with the fields in that order: page sizes first, then the
    number of contexts, then one offset per context, then the payloads.
    Three paged spaces are fixed here; a fresh [char] array is filled
    with zeros and a fresh [uint32_t] array with [0x10101010]. *)
Definition kFirstContextOffsetOffset (paged_spaces : Z) : Z :=
  0 + paged_spaces * kInt32Size + kInt32Size.

Definition example_header : Header := {|
  kNumPagedSpaces := 3;
  kFirstPageSizesOffset := 0;
  kNumberOfContextsOffset := 0 + 3 * kInt32Size;
  StartupSnapshotOffset := fun num_contexts =>
    kFirstContextOffsetOffset 3 + num_contexts * kInt32Size;
  ContextSnapshotOffsetOffset := fun index =>
    kFirstContextOffsetOffset 3 + index * kInt32Size;
  uint32_array := fun n => repeat 269488144 (Z.to_nat n);
  new_char_array := fun n => repeat x00 (Z.to_nat n)
|}.

(** Sample snapshots. *)
Definition startup1 : SnapshotData := {| RawData := [xaa; xbb; xcc] |}.
Definition context1 : SnapshotData := {| RawData := [x01; x02] |}.
Definition context2 : SnapshotData := {| RawData := [x03] |}.

(** A startup snapshot whose first four bytes read as the [int] 17. *)
Definition startup17 : SnapshotData :=
  {| RawData := [x11; x00; x00; x00; xcc] |}.

End Snapshot.

(** ** Reading a blob at start-up ([snapshot-common.cc]) *)

Module SnapshotPages.

Import Bytes Snapshot.

(** [memcpy(&size, src, kInt32Size)] into a [uint32_t]. *)
Definition uint32_of_bytes (bs : list byte) : option Z :=
  match bs with
  | [b0; b1; b2; b3] =>
      Some (to_Z b0 + to_Z b1 * 2 ^ 8 + to_Z b2 * 2 ^ 16 + to_Z b3 * 2 ^ 24)
  | _ => None
  end.

Definition read_uint32 (data : list byte) (off : Z) : option Z :=
  read data off 4 ≫= uint32_of_bytes.

(** [Snapshot::SizeOfFirstPage], with [isolate->snapshot_available()] and
    [isolate->snapshot_blob()] as arguments. *)
Definition SizeOfFirstPage (h : Header) (sp : Spaces)
           (snapshot_available : bool) (snapshot_blob : StartupData)
           (space : Z) : Result Z :=
  if negb snapshot_available
  then Ok (Int32.wrap (PageAreaSize sp space))
  else
    let offset :=
      int_add (kFirstPageSizesOffset h)
              (Int32.signed ((space - FIRST_PAGED_SPACE sp) * kInt32Size)) in
    defined (read_uint32 (data snapshot_blob) offset).

(** [Snapshot::SnapshotIsValid]. *)
Definition SnapshotIsValid (h : Header) (snapshot_blob : StartupData)
  : Result bool :=
  num_contexts ← ExtractNumContexts h snapshot_blob;
  Ok (0 <? num_contexts).

(** The chunk sizes that the reservations ask for in each space, in the
    order of the spaces. *)
Fixpoint space_totals (reservations : list Reservation) (current : Z)
  : list Z :=
  match reservations with
  | [] => []
  | reservation :: rest =>
      let current := uint32_add current (chunk_size reservation) in
      if is_last reservation then current :: space_totals rest 0
      else space_totals rest current
  end.

(** A snapshot reserves in no more spaces than there are. *)
Definition reserves_in_spaces (sp : Spaces) (snapshot : SnapshotData)
  : Prop :=
  Z.of_nat (length (space_totals (Reservations sp snapshot) 0))
  <= kNumberOfSpaces sp.

(** What is known of the absent headers about the spaces: the paged
    spaces are among the spaces, and the blob header has one first page
    size for each of them. *)
Record SpacesLaws (h : Header) (sp : Spaces) : Prop := {
  paged_spaces_are_spaces :
    0 <= FIRST_PAGED_SPACE sp /\
    LAST_PAGED_SPACE sp < kNumberOfSpaces sp;
  paged_spaces_counted :
    kNumPagedSpaces h
    = LAST_PAGED_SPACE sp - FIRST_PAGED_SPACE sp + 1
}.

(** The requirements raised to the totals of the spaces that have one. *)
Definition raise_to (requirements totals : list Z) : list Z :=
  zip_with Z.max requirements totals
  ++ drop (length totals) requirements.

(** Sample reservations: two chunks in space 0, one in space 1. *)
Definition reservations_a : list Reservation :=
  [ {| chunk_size := 100; is_last := false |};
    {| chunk_size := 50; is_last := true |};
    {| chunk_size := 70; is_last := true |} ].

Definition reservations_b : list Reservation :=
  [ {| chunk_size := 120; is_last := true |};
    {| chunk_size := 300; is_last := true |} ].

(** Sample spaces: three spaces, the last two paged, pages of 1000
    bytes. *)
Definition example_spaces : Spaces := {|
  kNumberOfSpaces := 3;
  FIRST_PAGED_SPACE := 1;
  LAST_PAGED_SPACE := 2;
  CODE_SPACE := 2;
  PageAreaSize := fun _ => 1000;
  kObjectStartOffset := 24;
  KB := 1024;
  Reservations := fun snapshot =>
    (fun b => {| chunk_size := to_Z b; is_last := true |})
      <$> RawData snapshot
|}.

(** Sample spaces for the sample header: five spaces, of which the
    spaces 1 to 3 are paged, with the same pages and reservations. *)
Definition blob_spaces : Spaces := {|
  kNumberOfSpaces := 5;
  FIRST_PAGED_SPACE := 1;
  LAST_PAGED_SPACE := 3;
  CODE_SPACE := 2;
  PageAreaSize := PageAreaSize example_spaces;
  kObjectStartOffset := kObjectStartOffset example_spaces;
  KB := KB example_spaces;
  Reservations := Reservations example_spaces
|}.

End SnapshotPages.

(** ** The IA-32 subset the lowering functions emit *)

Module Ia32.

Inductive Register : Type := eax | ecx | edx | ebx | esp | ebp | esi | edi.

#[export] Instance Register_eq_dec : EqDecision Register.
Proof. solve_decision. Defined.

(** [enum Condition] of the IA-32 assembler; [zero], [not_zero], [sign] and
    [not_sign] are aliases there. *)
Inductive Condition : Type :=
| no_condition
| overflow | no_overflow
| below | above_equal
| equal | not_equal
| below_equal | above
| negative | positive
| parity_even | parity_odd
| less | greater_equal
| less_equal | greater.

#[export] Instance Condition_eq_dec : EqDecision Condition.
Proof. solve_decision. Defined.

Definition zero : Condition := equal.
Definition not_zero : Condition := not_equal.
Definition sign : Condition := negative.
Definition not_sign : Condition := positive.

(** [NegateCondition(cc)] is [cc ^ 1]: the conditions come in pairs. *)
Definition NegateCondition (cc : Condition) : Condition :=
  match cc with
  | no_condition => no_condition
  | overflow => no_overflow | no_overflow => overflow
  | below => above_equal | above_equal => below
  | equal => not_equal | not_equal => equal
  | below_equal => above | above => below_equal
  | negative => positive | positive => negative
  | parity_even => parity_odd | parity_odd => parity_even
  | less => greater_equal | greater_equal => less
  | less_equal => greater | greater => less_equal
  end.

(** [CommuteCondition(cc)]: the condition that holds after the operands of
    the comparison are exchanged. *)
Definition CommuteCondition (cc : Condition) : Condition :=
  match cc with
  | below => above | above => below
  | above_equal => below_equal | below_equal => above_equal
  | less => greater | greater => less
  | greater_equal => less_equal | less_equal => greater_equal
  | _ => cc
  end.

(** [Deoptimizer::DeoptReason], the reasons used by the functions below. *)
Inductive DeoptReason : Type :=
| kDivisionByZero | kMinusZero | kOverflow | kLostPrecision
| kOutOfBounds | kHole | kNotASmi | kUnexpectedObject.

#[export] Instance DeoptReason_eq_dec : EqDecision DeoptReason.
Proof. solve_decision. Defined.

(** A [Label] is named by the variable that declares it. *)
Definition Label : Type := nat.

(** [ScaleFactor]: [times_1] to [times_8], as the shift it stands for. *)
Definition ScaleFactor : Type := Z.
Definition times_1 : ScaleFactor := 0.
Definition times_2 : ScaleFactor := 1.
Definition times_4 : ScaleFactor := 2.
Definition times_8 : ScaleFactor := 3.

(** [Operand] and [Immediate] of the assembler: a register, a memory
    location [base + index * 2^scale + disp], or a constant (an integer, or
    the address of the object behind a handle). *)
Inductive Operand : Type :=
| Reg (r : Register)
| Mem (base : Register) (index : option (Register * ScaleFactor)) (disp : Z)
| Immediate (value : Z).

Coercion Reg : Register >-> Operand.

(** The instructions, with the two macros of the code generator kept as
    units: [TruncatingDiv] of the macro assembler and the guard
    [DeoptimizeIf]. *)
Inductive Instr : Type :=
| mov (dst : Operand) (src : Operand)
| test (a b : Operand)
| cmp (a b : Operand)
| add (dst : Register) (src : Operand)
| sub (dst : Register) (src : Operand)
| and_ (dst : Register) (src : Operand)
| or_ (dst : Register) (src : Operand)
| xor_ (dst : Register) (src : Operand)
| neg (dst : Register)
| imul (dst : Register) (src : Operand)
| imul3 (dst src : Register) (imm : Z)
| lea (dst : Register) (src : Operand)
| shl (dst : Register) (imm8 : Z)
| sar (dst : Register) (imm8 : Z)
| shr (dst : Register) (imm8 : Z)
| cdq
| idiv (src : Register)
| j (cc : Condition) (L : Label)
| jmp (L : Label)
| bind (L : Label)
| int3
| TruncatingDiv (dividend : Register) (divisor : Z)
| Guard (cc : Condition) (reason : DeoptReason).

(** *** Machine state *)

(** The four status flags the conditions read; [None] after an instruction
    that leaves the flag undefined. *)
Record Flags : Type := mkFlags {
  ZF : option bool; SF : option bool; CF : option bool; OF : option bool
}.

Record Machine : Type := mkMachine {
  regs : Register -> Z;
  flags : Flags;
  mem : Z -> Z
}.

Definition get (m : Machine) (r : Register) : Z := Int32.wrap (regs m r).

Definition set (m : Machine) (r : Register) (v : Z) : Machine :=
  {| regs := fun r' => if decide (r' = r) then Int32.wrap v else regs m r';
     flags := flags m; mem := mem m |}.

Definition set_flags (m : Machine) (f : Flags) : Machine :=
  {| regs := regs m; flags := f; mem := mem m |}.

Definition store (m : Machine) (addr v : Z) : Machine :=
  {| regs := regs m; flags := flags m;
     mem := fun a => if a =? Int32.wrap addr then Int32.wrap v else mem m a |}.

Definition address (m : Machine) (base : Register)
           (index : option (Register * ScaleFactor)) (disp : Z) : Z :=
  Int32.wrap (get m base
              + match index with
                | Some (r, s) => get m r * 2 ^ s
                | None => 0
                end
              + disp).

(** The 32-bit value of an operand. *)
Definition value (m : Machine) (o : Operand) : Z :=
  match o with
  | Reg r => get m r
  | Mem b i d => Int32.wrap (mem m (address m b i d))
  | Immediate v => Int32.wrap v
  end.

Definition write (m : Machine) (o : Operand) (v : Z) : Machine :=
  match o with
  | Reg r => set m r v
  | Mem b i d => store m (address m b i d) v
  | Immediate _ => m
  end.

Definition msb (v : Z) : bool := Int32.half_modulus <=? Int32.wrap v.

(** [ZF] and [SF] of a result, with the given carry and overflow. *)
Definition result_flags (res : Z) (carry ovf : option bool) : Flags :=
  {| ZF := Some (Int32.wrap res =? 0); SF := Some (msb res);
     CF := carry; OF := ovf |}.

Definition undefined_flags : Flags :=
  {| ZF := None; SF := None; CF := None; OF := None |}.

Definition out_of_range (z : Z) : bool :=
  (z <? Int32.kMinInt) || (Int32.kMaxInt <? z).

Definition lift2 (f : bool -> bool -> bool) (a b : option bool)
  : option bool :=
  match a, b with Some x, Some y => Some (f x y) | _, _ => None end.

(** Whether a condition holds for the flags; [None] when it reads an
    undefined flag (or the parity flag, which is not kept). *)
Definition holds (f : Flags) (cc : Condition) : option bool :=
  match cc with
  | no_condition => Some true
  | overflow => OF f
  | no_overflow => negb <$> OF f
  | below => CF f
  | above_equal => negb <$> CF f
  | equal => ZF f
  | not_equal => negb <$> ZF f
  | below_equal => lift2 orb (CF f) (ZF f)
  | above => lift2 (fun c z => negb c && negb z) (CF f) (ZF f)
  | negative => SF f
  | positive => negb <$> SF f
  | parity_even | parity_odd => None
  | less => lift2 xorb (SF f) (OF f)
  | greater_equal => lift2 (fun s o => negb (xorb s o)) (SF f) (OF f)
  | less_equal =>
      lift2 orb (ZF f) (lift2 xorb (SF f) (OF f))
  | greater =>
      lift2 (fun z l => negb z && negb l) (ZF f) (lift2 xorb (SF f) (OF f))
  end.

(** *** Arithmetic instructions *)

Definition do_add (m : Machine) (dst : Register) (src : Operand) : Machine :=
  let a := get m dst in let b := value m src in
  set_flags (set m dst (a + b))
    (result_flags (a + b) (Some (Int32.modulus <=? a + b))
       (Some (out_of_range (Int32.signed a + Int32.signed b)))).

Definition sub_flags (a b : Z) : Flags :=
  result_flags (a - b) (Some (a <? b))
    (Some (out_of_range (Int32.signed a - Int32.signed b))).

Definition do_sub (m : Machine) (dst : Register) (src : Operand) : Machine :=
  let a := get m dst in let b := value m src in
  set_flags (set m dst (a - b)) (sub_flags a b).

Definition do_cmp (m : Machine) (a b : Operand) : Machine :=
  set_flags m (sub_flags (value m a) (value m b)).

Definition logic_flags (res : Z) : Flags :=
  result_flags res (Some false) (Some false).

Definition do_test (m : Machine) (a b : Operand) : Machine :=
  set_flags m (logic_flags (Z.land (value m a) (value m b))).

Definition do_logic (op : Z -> Z -> Z) (m : Machine) (dst : Register)
           (src : Operand) : Machine :=
  let res := op (get m dst) (value m src) in
  set_flags (set m dst res) (logic_flags res).

Definition do_neg (m : Machine) (dst : Register) : Machine :=
  let a := get m dst in
  set_flags (set m dst (- a))
    (result_flags (- a) (Some (negb (a =? 0)))
       (Some (a =? Int32.half_modulus))).

(** [imul]: the low 32 bits of the signed product; carry and overflow tell
    whether the product left the [int32] range, the other flags are
    undefined. *)
Definition do_imul (m : Machine) (dst : Register) (a b : Z) : Machine :=
  let p := Int32.signed a * Int32.signed b in
  set_flags (set m dst p)
    {| ZF := None; SF := None;
       CF := Some (out_of_range p); OF := Some (out_of_range p) |}.

(** Shifts by an immediate count, masked to five bits; a count of zero
    changes nothing. The overflow flag is defined for a count of one
    only. *)
Definition do_shl (m : Machine) (dst : Register) (imm8 : Z) : Machine :=
  let n := Z.land imm8 31 in
  if n =? 0 then m else
  let a := get m dst in
  let res := Z.shiftl a n in
  let cf := Z.testbit a (32 - n) in
  set_flags (set m dst res)
    (result_flags res (Some cf)
       (if n =? 1 then Some (xorb (msb res) cf) else None)).

Definition do_sar (m : Machine) (dst : Register) (imm8 : Z) : Machine :=
  let n := Z.land imm8 31 in
  if n =? 0 then m else
  let a := get m dst in
  let res := Z.shiftr (Int32.signed a) n in
  set_flags (set m dst res)
    (result_flags res (Some (Z.testbit a (n - 1)))
       (if n =? 1 then Some false else None)).

Definition do_shr (m : Machine) (dst : Register) (imm8 : Z) : Machine :=
  let n := Z.land imm8 31 in
  if n =? 0 then m else
  let a := get m dst in
  let res := Z.shiftr a n in
  set_flags (set m dst res)
    (result_flags res (Some (Z.testbit a (n - 1)))
       (if n =? 1 then Some (msb a) else None)).

Definition do_cdq (m : Machine) : Machine :=
  set m edx (if msb (get m eax) then -1 else 0).

(** [idiv]: the signed 64-bit [edx:eax] divided by the operand, quotient
    rounded toward zero in [eax] and remainder in [edx]; a zero divisor or
    a quotient outside [int32] raises the divide error. *)
Definition do_idiv (m : Machine) (src : Register) : option Machine :=
  let dividend :=
    Int32.signed (get m edx) * Int32.modulus + get m eax in
  let divisor := Int32.signed (get m src) in
  if divisor =? 0 then None else
  let q := Z.quot dividend divisor in
  if out_of_range q then None else
  Some (set_flags (set (set m eax q) edx (Z.rem dividend divisor))
          undefined_flags).

(** Modelled from the spec: [MacroAssembler::TruncatingDiv] is not among
    the sources; the division it stands for is the "signed 32-bit
    truncating" one. The quotient rounded toward zero is left in [edx],
    which is what the callers read; [eax] and the flags, which every caller
    overwrites before reading them, are cleared here. *)
Definition do_TruncatingDiv (m : Machine) (dividend : Register)
           (divisor : Z) : Machine :=
  let q := Z.quot (Int32.signed (get m dividend)) divisor in
  set_flags (set (set m edx q) eax 0) undefined_flags.

(** *** Running emitted code *)

Inductive Outcome : Type :=
| Done (m : Machine)                 (* fell off the end of the sequence *)
| Deopt (reason : DeoptReason) (m : Machine)
| Breakpoint (m : Machine)           (* [int3] *)
| DivideError                        (* [idiv] fault *)
| UndefinedFlag                      (* a jump on an undefined flag *)
| UnboundLabel (L : Label).          (* a jump to a label never bound *)

(** [run target code m]: with [target = None] the instructions execute in
    order; after a taken jump, [target = Some L] and the instructions are
    skipped up to [bind L]. All labels of the lowering functions are bound
    after the jumps to them. *)
Fixpoint run (target : option Label) (code : list Instr) (m : Machine)
  : Outcome :=
  match code with
  | [] =>
      match target with
      | None => Done m
      | Some L => UnboundLabel L
      end
  | i :: rest =>
      match target with
      | Some L =>
          match i with
          | bind L' => if decide (L' = L) then run None rest m
                       else run target rest m
          | _ => run target rest m
          end
      | None =>
          match i with
          | mov dst src => run None rest (write m dst (value m src))
          | test a b => run None rest (do_test m a b)
          | cmp a b => run None rest (do_cmp m a b)
          | add dst src => run None rest (do_add m dst src)
          | sub dst src => run None rest (do_sub m dst src)
          | and_ dst src => run None rest (do_logic Z.land m dst src)
          | or_ dst src => run None rest (do_logic Z.lor m dst src)
          | xor_ dst src => run None rest (do_logic Z.lxor m dst src)
          | neg dst => run None rest (do_neg m dst)
          | imul dst src =>
              run None rest (do_imul m dst (get m dst) (value m src))
          | imul3 dst src imm =>
              run None rest (do_imul m dst (get m src) (Int32.wrap imm))
          | lea dst src =>
              match src with
              | Mem b i d => run None rest (set m dst (address m b i d))
              | _ => run None rest m
              end
          | shl dst n => run None rest (do_shl m dst n)
          | sar dst n => run None rest (do_sar m dst n)
          | shr dst n => run None rest (do_shr m dst n)
          | cdq => run None rest (do_cdq m)
          | idiv src =>
              match do_idiv m src with
              | Some m' => run None rest m'
              | None => DivideError
              end
          | j cc L =>
              match holds (flags m) cc with
              | Some true => run (Some L) rest m
              | Some false => run None rest m
              | None => UndefinedFlag
              end
          | jmp L => run (Some L) rest m
          | bind _ => run None rest m
          | int3 => Breakpoint m
          | TruncatingDiv dividend divisor =>
              run None rest (do_TruncatingDiv m dividend divisor)
          | Guard cc reason =>
              match holds (flags m) cc with
              | Some true => Deopt reason m
              | Some false => run None rest m
              | None => UndefinedFlag
              end
          end
      end
  end.

Definition execute (code : list Instr) (m : Machine) : Outcome :=
  run None code m.

(** Whether an operand reads the register [r]. *)
Definition reads (o : Operand) (r : Register) : bool :=
  match o with
  | Reg r' => bool_decide (r' = r)
  | Mem b i _ =>
      bool_decide (b = r)
      || match i with
         | Some (r', _) => bool_decide (r' = r)
         | None => false
         end
  | Immediate _ => false
  end.

(** Whether the code holds a guard with the given reason. *)
Definition is_guard (reason : DeoptReason) (i : Instr) : bool :=
  match i with
  | Guard _ reason' => bool_decide (reason' = reason)
  | _ => false
  end.

Definition has_guard (reason : DeoptReason) (code : list Instr) : bool :=
  existsb (is_guard reason) code.

(** The machine state in which a run ends, by falling through or by a
    deoptimization. *)
Definition final_machine (o : Outcome) : option Machine :=
  match o with
  | Done m | Deopt _ m => Some m
  | _ => None
  end.

End Ia32.

(** ** Lithium instructions and their lowering ([LCodeGen::Do...]) *)

Module Lithium.

Import Ia32.

(** [LOperand::Kind] and [LOperand]: a kind and an index, fixed by the
    register allocator. *)
Inductive LOperandKind : Type :=
| INVALID | UNALLOCATED | CONSTANT_OPERAND
| STACK_SLOT | DOUBLE_STACK_SLOT
| FLOAT32x4_STACK_SLOT | FLOAT64x2_STACK_SLOT | INT32x4_STACK_SLOT
| REGISTER | DOUBLE_REGISTER
| FLOAT32x4_REGISTER | FLOAT64x2_REGISTER | INT32x4_REGISTER.

#[export] Instance LOperandKind_eq_dec : EqDecision LOperandKind.
Proof. solve_decision. Defined.

Record LOperand : Type := mkLOperand { kind : LOperandKind; index : Z }.

#[export] Instance LOperand_eq_dec : EqDecision LOperand.
Proof. solve_decision. Defined.

Definition IsConstantOperand (op : LOperand) : bool :=
  bool_decide (kind op = CONSTANT_OPERAND).
Definition IsStackSlot (op : LOperand) : bool :=
  bool_decide (kind op = STACK_SLOT).
Definition IsDoubleStackSlot (op : LOperand) : bool :=
  bool_decide (kind op = DOUBLE_STACK_SLOT).
Definition IsFloat32x4StackSlot (op : LOperand) : bool :=
  bool_decide (kind op = FLOAT32x4_STACK_SLOT).
Definition IsFloat64x2StackSlot (op : LOperand) : bool :=
  bool_decide (kind op = FLOAT64x2_STACK_SLOT).
Definition IsInt32x4StackSlot (op : LOperand) : bool :=
  bool_decide (kind op = INT32x4_STACK_SLOT).
Definition IsRegister (op : LOperand) : bool :=
  bool_decide (kind op = REGISTER).
Definition IsDoubleRegister (op : LOperand) : bool :=
  bool_decide (kind op = DOUBLE_REGISTER).
Definition IsFloat32x4Register (op : LOperand) : bool :=
  bool_decide (kind op = FLOAT32x4_REGISTER).
Definition IsFloat64x2Register (op : LOperand) : bool :=
  bool_decide (kind op = FLOAT64x2_REGISTER).
Definition IsInt32x4Register (op : LOperand) : bool :=
  bool_decide (kind op = INT32x4_REGISTER).

(** [Representation], as far as the lowering asks. *)
Inductive Representation : Type :=
| kNone | kSmi | kInteger32 | kDouble | kHeapObject | kTagged | kExternal.

Definition IsSmi (r : Representation) : bool :=
  match r with kSmi => true | _ => false end.
Definition IsInteger32 (r : Representation) : bool :=
  match r with kInteger32 => true | _ => false end.
Definition IsDouble (r : Representation) : bool :=
  match r with kDouble => true | _ => false end.

(** [HValue::Flag], the flags the functions below check. *)
Inductive Flag : Type :=
| kCanOverflow | kBailoutOnMinusZero | kCanBeDivByZero
| kLeftCanBeMinInt | kLeftCanBeNegative | kLeftCanBePositive
| kAllUsesTruncatingToInt32.

(** An [HConstant], with what the lowering reads of it. *)
Record HConstant : Type := { Integer32Value : Z; handle : Z }.

(** [ElementsKind]: the fast kinds by name, any other kind by its enum
    value. *)
Inductive ElementsKind : Type :=
| FAST_SMI_ELEMENTS | FAST_HOLEY_SMI_ELEMENTS
| FAST_ELEMENTS | FAST_HOLEY_ELEMENTS
| FAST_DOUBLE_ELEMENTS | FAST_HOLEY_DOUBLE_ELEMENTS
| OtherElementsKind (value : Z).

Inductive BailoutReason : Type :=
| kArrayIndexConstantValueTooBig | kBailoutWasNotPrepared.

(** The tag of a small integer; the code generator itself asserts
    [kSmiTagSize == 1 && kSmiTag == 0]. *)
Definition kSmiTagSize : Z := 1.
Definition kSmiTag : Z := 0.
Definition kSmiTagMask : Z := 2 ^ kSmiTagSize - 1.

(** What the lowering functions take from the rest of the compiler: the
    chunk, the allocator's register numbering, the frame layout, the flags
    and the isolate's constant objects. None of their declarations is
    among the sources, so they are the fields of one record. *)
Record Context : Type := {
  FromAllocationIndex : Z -> Register;
  LookupConstant : Z -> HConstant;
  LookupDestination : Z -> Z;
  GetNextEmittedBlock : Z;
  GetAssemblyLabel : Z -> Label;
  NeedsEagerFrame : bool;
  StackSlotOffset : Z -> Z;
  kPointerSize : Z;
  kPCOnStackSize : Z;
  FLAG_debug_code : bool;
  IsStub : bool;
  the_hole_value : Z;
  undefined_value : Z;
  array_protector : Z;
  kArrayProtectorValid : Z;
  PropertyCell_kValueOffset : Z;
  kHeapObjectTag : Z;
  ElementsKindToShiftSize : ElementsKind -> Z;
  IsFastSmiElementsKind : ElementsKind -> bool;
  ExternalArrayOpRequiresPreScale : Representation -> ElementsKind -> bool;
  maximal_scale_factor : Z
}.

(** *** Operand resolution *)

Definition ToRegister (c : Context) (op : LOperand) : Register :=
  FromAllocationIndex c (index op).

Definition ArgumentsOffsetWithoutFrame (c : Context) (index : Z) : Z :=
  - (index + 1) * kPointerSize c + kPCOnStackSize c.

(** [LCodeGen::ToOperand]. The XMM register operands of the double and
    SIMD kinds are outside the integer subset; [Xmm] stands for them. *)
Definition Xmm (index : Z) : Operand := Immediate 0.

Definition ToOperand (c : Context) (op : LOperand) : Operand :=
  if IsRegister op then Reg (ToRegister c op)
  else if IsDoubleRegister op then Xmm (index op)
  else if IsFloat32x4Register op then Xmm (index op)
  else if IsFloat64x2Register op then Xmm (index op)
  else if IsInt32x4Register op then Xmm (index op)
  else if NeedsEagerFrame c
       then Mem ebp None (StackSlotOffset c (index op))
       else Mem esp None (ArgumentsOffsetWithoutFrame c (index op)).

(** Modelled from the spec: [Smi::FromInt] is declared in a header that is
    not among the sources; a small integer carries "an extra tag bit", so
    the value is shifted left by the tag size. *)
Definition Smi_FromInt (value : Z) : Z :=
  Int32.signed (Z.shiftl value kSmiTagSize + kSmiTag).

Definition ToRepresentation (c : Context) (op : LOperand)
           (r : Representation) : Z :=
  let constant := LookupConstant c (index op) in
  let value := Integer32Value constant in
  if IsInteger32 r then value else Smi_FromInt value.

Definition ToInteger32 (c : Context) (op : LOperand) : Z :=
  ToRepresentation c op kInteger32.

(** [ToImmediate(op, r)] is [Immediate(ToRepresentation(op, r))]. *)
Definition ToImmediate (c : Context) (op : LOperand) (r : Representation)
  : Operand :=
  Immediate (ToRepresentation c op r).

(** *** Macros of the macro assembler and the guard *)

(** Modelled from the spec: [MacroAssembler::Move] is not among the
    sources; a register-to-register move, emitted when the registers
    differ. *)
Definition Move (dst src : Register) : list Instr :=
  if decide (dst = src) then [] else [mov dst src].

(** Modelled from the spec: [MacroAssembler::SmiUntag] is not among the
    sources; it removes the tag bit by an arithmetic shift. *)
Definition SmiUntag (reg : Register) : list Instr := [sar reg kSmiTagSize].

(** [FieldOperand(object, offset)]: the field of a tagged heap object. *)
Definition FieldOperand (c : Context) (object : Register) (offset : Z)
  : Operand :=
  Mem object None (offset - kHeapObjectTag c).

(** A deoptimization guard, kept as one unit of the emitted code: control
    leaves the optimized code with [reason] when [cc] holds. What
    [LCodeGen::DeoptimizeIf] emits for it (a direct call, or a jump to a
    jump-table entry) and what it records is [LCodeGen.DeoptimizeIf]
    below. *)
Definition DeoptimizeIf (cc : Condition) (reason : DeoptReason)
  : list Instr :=
  [Guard cc reason].

(** [WhichPowerOf2Abs(x)]: the exponent of [|x|], 31 for [kMinInt]. *)
Definition WhichPowerOf2Abs (x : Z) : Z := Z.log2 (Z.abs x).

Definition Abs (x : Z) : Z := Z.abs x.

(** Emits [code] when [b] holds: an [if] without [else] around emitting
    statements. *)
Definition when (b : bool) (code : list Instr) : list Instr :=
  if b then code else [].

(** *** Division *)

Module LDivByPowerOf2I.
Record t : Type := {
  dividend : LOperand; divisor : Z; result : LOperand;
  CheckFlag : Flag -> bool
}.
End LDivByPowerOf2I.

Definition DoDivByPowerOf2I (c : Context) (instr : LDivByPowerOf2I.t)
  : list Instr :=
  let dividend := ToRegister c (LDivByPowerOf2I.dividend instr) in
  let divisor := LDivByPowerOf2I.divisor instr in
  let result := ToRegister c (LDivByPowerOf2I.result instr) in
  let hdiv := LDivByPowerOf2I.CheckFlag instr in
  (* Check for (0 / -x) that will produce negative zero. *)
  when (hdiv kBailoutOnMinusZero && (divisor <? 0))
    ([test dividend dividend] ++ DeoptimizeIf zero kMinusZero) ++
  (* Check for (kMinInt / -1). *)
  when (hdiv kCanOverflow && (divisor =? -1))
    ([cmp dividend (Immediate Int32.kMinInt)]
     ++ DeoptimizeIf zero kOverflow) ++
  (* Deoptimize if remainder will not be 0. *)
  when (negb (hdiv kAllUsesTruncatingToInt32)
        && negb (divisor =? 1) && negb (divisor =? -1))
    (let mask := if divisor <? 0 then - (divisor + 1) else divisor - 1 in
     [test dividend (Immediate mask)]
     ++ DeoptimizeIf not_zero kLostPrecision) ++
  Move result dividend ++
  let shift := WhichPowerOf2Abs divisor in
  when (0 <? shift)
    (when (1 <? shift) [sar result 31] ++
     [shr result (32 - shift); add result dividend; sar result shift]) ++
  when (divisor <? 0) [neg result].

Module LDivByConstI.
Record t : Type := {
  dividend : LOperand; divisor : Z; result : LOperand;
  CheckFlag : Flag -> bool
}.
End LDivByConstI.

Definition DoDivByConstI (c : Context) (instr : LDivByConstI.t)
  : list Instr :=
  let dividend := ToRegister c (LDivByConstI.dividend instr) in
  let divisor := LDivByConstI.divisor instr in
  let hdiv := LDivByConstI.CheckFlag instr in
  if divisor =? 0 then
    DeoptimizeIf no_condition kDivisionByZero
  else
    (* Check for (0 / -x) that will produce negative zero. *)
    when (hdiv kBailoutOnMinusZero && (divisor <? 0))
      ([test dividend dividend] ++ DeoptimizeIf zero kMinusZero) ++
    [TruncatingDiv dividend (Abs divisor)] ++
    when (divisor <? 0) [neg edx] ++
    when (negb (hdiv kAllUsesTruncatingToInt32))
      ([mov eax edx; imul3 eax eax divisor; sub eax dividend]
       ++ DeoptimizeIf not_equal kLostPrecision).

Module LDivI.
Record t : Type := {
  dividend : LOperand; divisor : LOperand; temp : LOperand;
  result : LOperand;
  CheckFlag : Flag -> bool
}.
End LDivI.

Definition DoDivI (c : Context) (instr : LDivI.t) : list Instr :=
  let hdiv := LDivI.CheckFlag instr in
  let dividend := ToRegister c (LDivI.dividend instr) in
  let divisor := ToRegister c (LDivI.divisor instr) in
  let remainder := ToRegister c (LDivI.temp instr) in
  let dividend_not_zero : Label := 0%nat in
  let dividend_not_min_int : Label := 1%nat in
  (* Check for x / 0. *)
  when (hdiv kCanBeDivByZero)
    ([test divisor divisor] ++ DeoptimizeIf zero kDivisionByZero) ++
  (* Check for (0 / -x) that will produce negative zero. *)
  when (hdiv kBailoutOnMinusZero)
    ([test dividend dividend;
      j not_zero dividend_not_zero;
      test divisor divisor]
     ++ DeoptimizeIf sign kMinusZero
     ++ [bind dividend_not_zero]) ++
  (* Check for (kMinInt / -1). *)
  when (hdiv kCanOverflow)
    ([cmp dividend (Immediate Int32.kMinInt);
      j not_zero dividend_not_min_int;
      cmp divisor (Immediate (-1))]
     ++ DeoptimizeIf zero kOverflow
     ++ [bind dividend_not_min_int]) ++
  (* Sign extend to edx (= remainder). *)
  [cdq; idiv divisor] ++
  when (negb (hdiv kAllUsesTruncatingToInt32))
    (* Deoptimize if remainder is not 0. *)
    ([test remainder remainder] ++ DeoptimizeIf not_zero kLostPrecision).

(** *** Multiplication *)

Module LMulI.
Record t : Type := {
  left : LOperand; right : LOperand; temp : LOperand;
  CheckFlag : Flag -> bool;
  representation : Representation
}.
End LMulI.

Definition DoMulI (c : Context) (instr : LMulI.t) : list Instr :=
  let left := ToRegister c (LMulI.left instr) in
  let right := LMulI.right instr in
  let hydrogen := LMulI.CheckFlag instr in
  let done : Label := 0%nat in
  when (hydrogen kBailoutOnMinusZero)
    [mov (ToRegister c (LMulI.temp instr)) left] ++
  (if IsConstantOperand right then
     (* Try strength reductions on the multiplication. *)
     let constant := ToInteger32 c right in
     if constant =? -1 then [neg left]
     else if constant =? 0 then [xor_ left left]
     else if constant =? 2 then [add left left]
     else if negb (hydrogen kCanOverflow) then
       match constant with
       | 1 => []
       | 3 => [lea left (Mem left (Some (left, times_2)) 0)]
       | 4 => [shl left 2]
       | 5 => [lea left (Mem left (Some (left, times_4)) 0)]
       | 8 => [shl left 3]
       | 9 => [lea left (Mem left (Some (left, times_8)) 0)]
       | 16 => [shl left 4]
       | _ => [imul3 left left constant]
       end
     else [imul3 left left constant]
   else
     when (IsSmi (LMulI.representation instr)) (SmiUntag left) ++
     [imul left (ToOperand c right)]) ++
  when (hydrogen kCanOverflow) (DeoptimizeIf overflow kOverflow) ++
  when (hydrogen kBailoutOnMinusZero)
    (* Bail out if the result is supposed to be negative zero. *)
    ([test left left; j not_zero done] ++
     (if IsConstantOperand right then
        if ToInteger32 c right <? 0 then
          DeoptimizeIf no_condition kMinusZero
        else if ToInteger32 c right =? 0 then
          [cmp (ToRegister c (LMulI.temp instr)) (Immediate 0)]
          ++ DeoptimizeIf less kMinusZero
        else []
      else
        (* Test the non-zero operand for negative sign. *)
        [or_ (ToRegister c (LMulI.temp instr)) (ToOperand c right)]
        ++ DeoptimizeIf sign kMinusZero) ++
     [bind done]).

(** The general lowering of a multiplication by the constant [constant]. *)
Definition general_imul (left : Register) (constant : Z) : list Instr :=
  [imul3 left left constant].

(** *** Bounds checks *)

(** [BuiltinFunctionId]: the SIMD128 typed-array loads and stores that the
    two functions below name, and any other builtin. *)
Inductive BuiltinFunctionId : Type :=
| kFloat32ArrayGetFloat32x4XYZW | kFloat32ArrayGetFloat32x4X
| kFloat32ArrayGetFloat32x4XY | kFloat32ArrayGetFloat32x4XYZ
| kFloat64ArrayGetFloat64x2XY | kFloat64ArrayGetFloat64x2X
| kInt32ArrayGetInt32x4XYZW | kInt32ArrayGetInt32x4X
| kInt32ArrayGetInt32x4XY | kInt32ArrayGetInt32x4XYZ
| kInt8ArrayGetFloat32x4XYZW | kInt8ArrayGetFloat32x4X
| kInt8ArrayGetFloat32x4XY | kInt8ArrayGetFloat32x4XYZ
| kInt8ArrayGetFloat64x2XY | kInt8ArrayGetFloat64x2X
| kInt8ArrayGetInt32x4XYZW | kInt8ArrayGetInt32x4X | kInt8ArrayGetInt32x4XY
| kInt8ArrayGetInt32x4XYZ | kUint8ArrayGetFloat32x4XYZW
| kUint8ArrayGetFloat32x4X | kUint8ArrayGetFloat32x4XY
| kUint8ArrayGetFloat32x4XYZ | kUint8ArrayGetFloat64x2XY
| kUint8ArrayGetFloat64x2X | kUint8ArrayGetInt32x4XYZW
| kUint8ArrayGetInt32x4X | kUint8ArrayGetInt32x4XY | kUint8ArrayGetInt32x4XYZ
| kFloat32ArraySetFloat32x4XYZW | kFloat32ArraySetFloat32x4X
| kFloat32ArraySetFloat32x4XY | kFloat32ArraySetFloat32x4XYZ
| kFloat64ArraySetFloat64x2XY | kFloat64ArraySetFloat64x2X
| kInt32ArraySetInt32x4XYZW | kInt32ArraySetInt32x4X
| kInt32ArraySetInt32x4XY | kInt32ArraySetInt32x4XYZ
| kInt8ArraySetFloat32x4XYZW | kInt8ArraySetFloat32x4X
| kInt8ArraySetFloat32x4XY | kInt8ArraySetFloat32x4XYZ
| kInt8ArraySetFloat64x2XY | kInt8ArraySetFloat64x2X
| kInt8ArraySetInt32x4XYZW | kInt8ArraySetInt32x4X | kInt8ArraySetInt32x4XY
| kInt8ArraySetInt32x4XYZ | kUint8ArraySetFloat32x4XYZW
| kUint8ArraySetFloat32x4X | kUint8ArraySetFloat32x4XY
| kUint8ArraySetFloat32x4XYZ | kUint8ArraySetFloat64x2XY
| kUint8ArraySetFloat64x2X | kUint8ArraySetInt32x4XYZW
| kUint8ArraySetInt32x4X | kUint8ArraySetInt32x4XY | kUint8ArraySetInt32x4XYZ
| kOtherBuiltinFunction (id : Z).

Definition IsSIMD128LoadStoreOp (op : BuiltinFunctionId) : bool :=
  match op with
  | kFloat32ArrayGetFloat32x4XYZW | kFloat32ArrayGetFloat32x4X
  | kFloat32ArrayGetFloat32x4XY | kFloat32ArrayGetFloat32x4XYZ
  | kFloat64ArrayGetFloat64x2XY | kFloat64ArrayGetFloat64x2X
  | kInt32ArrayGetInt32x4XYZW | kInt32ArrayGetInt32x4X
  | kInt32ArrayGetInt32x4XY | kInt32ArrayGetInt32x4XYZ
  | kInt8ArrayGetFloat32x4XYZW | kInt8ArrayGetFloat32x4X
  | kInt8ArrayGetFloat32x4XY | kInt8ArrayGetFloat32x4XYZ
  | kInt8ArrayGetFloat64x2XY | kInt8ArrayGetFloat64x2X
  | kInt8ArrayGetInt32x4XYZW | kInt8ArrayGetInt32x4X | kInt8ArrayGetInt32x4XY
  | kInt8ArrayGetInt32x4XYZ | kUint8ArrayGetFloat32x4XYZW
  | kUint8ArrayGetFloat32x4X | kUint8ArrayGetFloat32x4XY
  | kUint8ArrayGetFloat32x4XYZ | kUint8ArrayGetFloat64x2XY
  | kUint8ArrayGetFloat64x2X | kUint8ArrayGetInt32x4XYZW
  | kUint8ArrayGetInt32x4X | kUint8ArrayGetInt32x4XY
  | kUint8ArrayGetInt32x4XYZ | kFloat32ArraySetFloat32x4XYZW
  | kFloat32ArraySetFloat32x4X | kFloat32ArraySetFloat32x4XY
  | kFloat32ArraySetFloat32x4XYZ | kFloat64ArraySetFloat64x2XY
  | kFloat64ArraySetFloat64x2X | kInt32ArraySetInt32x4XYZW
  | kInt32ArraySetInt32x4X | kInt32ArraySetInt32x4XY
  | kInt32ArraySetInt32x4XYZ | kInt8ArraySetFloat32x4XYZW
  | kInt8ArraySetFloat32x4X | kInt8ArraySetFloat32x4XY
  | kInt8ArraySetFloat32x4XYZ | kInt8ArraySetFloat64x2XY
  | kInt8ArraySetFloat64x2X | kInt8ArraySetInt32x4XYZW
  | kInt8ArraySetInt32x4X | kInt8ArraySetInt32x4XY | kInt8ArraySetInt32x4XYZ
  | kUint8ArraySetFloat32x4XYZW | kUint8ArraySetFloat32x4X
  | kUint8ArraySetFloat32x4XY | kUint8ArraySetFloat32x4XYZ
  | kUint8ArraySetFloat64x2XY | kUint8ArraySetFloat64x2X
  | kUint8ArraySetInt32x4XYZW | kUint8ArraySetInt32x4X
  | kUint8ArraySetInt32x4XY | kUint8ArraySetInt32x4XYZ => true
  | _ => false
  end.

(** The last branch is [UNREACHABLE(); return -1;]. *)
Definition GetSIMD128LoadStoreBytes (op : BuiltinFunctionId) : Z :=
  match op with
  | kFloat32ArrayGetFloat32x4XYZW | kFloat64ArrayGetFloat64x2XY
  | kInt32ArrayGetInt32x4XYZW | kInt8ArrayGetFloat32x4XYZW
  | kInt8ArrayGetFloat64x2XY | kInt8ArrayGetInt32x4XYZW
  | kUint8ArrayGetFloat32x4XYZW | kUint8ArrayGetFloat64x2XY
  | kUint8ArrayGetInt32x4XYZW | kFloat32ArraySetFloat32x4XYZW
  | kFloat64ArraySetFloat64x2XY | kInt32ArraySetInt32x4XYZW
  | kInt8ArraySetFloat32x4XYZW | kInt8ArraySetFloat64x2XY
  | kInt8ArraySetInt32x4XYZW | kUint8ArraySetFloat32x4XYZW
  | kUint8ArraySetFloat64x2XY | kUint8ArraySetInt32x4XYZW => 16
  | kFloat32ArrayGetFloat32x4X | kInt32ArrayGetInt32x4X
  | kInt8ArrayGetFloat32x4X | kInt8ArrayGetInt32x4X
  | kUint8ArrayGetFloat32x4X | kUint8ArrayGetInt32x4X
  | kFloat32ArraySetFloat32x4X | kInt32ArraySetInt32x4X
  | kInt8ArraySetFloat32x4X | kInt8ArraySetInt32x4X
  | kUint8ArraySetFloat32x4X | kUint8ArraySetInt32x4X => 4
  | kFloat32ArrayGetFloat32x4XY | kFloat64ArrayGetFloat64x2X
  | kInt32ArrayGetInt32x4XY | kInt8ArrayGetFloat32x4XY
  | kInt8ArrayGetFloat64x2X | kInt8ArrayGetInt32x4XY
  | kUint8ArrayGetFloat32x4XY | kUint8ArrayGetFloat64x2X
  | kUint8ArrayGetInt32x4XY | kFloat32ArraySetFloat32x4XY
  | kFloat64ArraySetFloat64x2X | kInt32ArraySetInt32x4XY
  | kInt8ArraySetFloat32x4XY | kInt8ArraySetFloat64x2X
  | kInt8ArraySetInt32x4XY | kUint8ArraySetFloat32x4XY
  | kUint8ArraySetFloat64x2X | kUint8ArraySetInt32x4XY => 8
  | kFloat32ArrayGetFloat32x4XYZ | kInt32ArrayGetInt32x4XYZ
  | kInt8ArrayGetFloat32x4XYZ | kInt8ArrayGetInt32x4XYZ
  | kUint8ArrayGetFloat32x4XYZ | kUint8ArrayGetInt32x4XYZ
  | kFloat32ArraySetFloat32x4XYZ | kInt32ArraySetInt32x4XYZ
  | kInt8ArraySetFloat32x4XYZ | kInt8ArraySetInt32x4XYZ
  | kUint8ArraySetFloat32x4XYZ | kUint8ArraySetInt32x4XYZ => 12
  | _ => -1
  end.

Module LBoundsCheck.
Record t : Type := {
  index : LOperand; length : LOperand; temp0 : LOperand; temp1 : LOperand;
  allow_equality : bool;
  op : BuiltinFunctionId;
  element_kind : ElementsKind;
  index_representation : Representation;
  length_representation : Representation;
  skip_check : bool
}.
End LBoundsCheck.

(** The comparison that [DoBoundsCheck] emits and the condition under
    which the check fails. *)
Definition BoundsCheckCompare (c : Context) (instr : LBoundsCheck.t)
  : list Instr * Condition :=
  let index := LBoundsCheck.index instr in
  let length := LBoundsCheck.length instr in
  let cc := if LBoundsCheck.allow_equality instr then above
            else above_equal in
  let op := LBoundsCheck.op instr in
  if IsSIMD128LoadStoreOp op then
    let cc := above in
    let index_in_bytes := ToRegister c (LBoundsCheck.temp0 instr) in
    let length_in_bytes := ToRegister c (LBoundsCheck.temp1 instr) in
    let index_shift_size :=
      ElementsKindToShiftSize c (LBoundsCheck.element_kind instr)
      - (if IsSmi (LBoundsCheck.index_representation instr)
         then kSmiTagSize else 0) in
    let bytes := GetSIMD128LoadStoreBytes op in
    let length_shift_size :=
      ElementsKindToShiftSize c (LBoundsCheck.element_kind instr)
      - (if IsSmi (LBoundsCheck.length_representation instr)
         then kSmiTagSize else 0) in
    ((if IsConstantOperand index
      then [mov index_in_bytes
              (ToImmediate c index (LBoundsCheck.index_representation instr))]
      else [mov index_in_bytes (ToOperand c index)]) ++
     when (0 <? index_shift_size) [shl index_in_bytes index_shift_size] ++
     [add index_in_bytes (Immediate bytes)] ++
     (if IsConstantOperand length
      then [mov length_in_bytes
              (ToImmediate c length
                 (LBoundsCheck.length_representation instr))]
      else [mov length_in_bytes (ToOperand c length)]) ++
     when (0 <? length_shift_size) [shl length_in_bytes length_shift_size] ++
     [cmp index_in_bytes length_in_bytes],
     cc)
  else
    if IsConstantOperand index then
      ([cmp (ToOperand c length)
            (ToImmediate c index (LBoundsCheck.length_representation instr))],
       CommuteCondition cc)
    else if IsConstantOperand length then
      ([cmp (ToOperand c index)
            (ToImmediate c length (LBoundsCheck.index_representation instr))],
       cc)
    else
      ([cmp (ToRegister c index) (ToOperand c length)], cc).

Definition DoBoundsCheck (c : Context) (instr : LBoundsCheck.t)
  : list Instr :=
  let '(compare, cc) := BoundsCheckCompare c instr in
  let done : Label := 0%nat in
  compare ++
  if FLAG_debug_code c && LBoundsCheck.skip_check instr then
    [j (NegateCondition cc) done; int3; bind done]
  else
    DeoptimizeIf cc kOutOfBounds.

(** The 32-bit value that the comparison of a bounds check reads for an
    operand: a constant is encoded in the representation [r], anything else
    is read where the allocator put it. *)
Definition compared_operand (c : Context) (m : Machine) (op : LOperand)
           (r : Representation) : Z :=
  if IsConstantOperand op then Int32.wrap (ToRepresentation c op r)
  else value m (ToOperand c op).

(** A value shifted left when the shift size is positive. *)
Definition scaled (v shift : Z) : Z :=
  if 0 <? shift then Int32.wrap (Z.shiftl v shift) else v.

(** *** Keyed loads from a fixed array *)

Inductive LoadKeyedHoleMode : Type :=
| NEVER_RETURN_HOLE | ALLOW_RETURN_HOLE | CONVERT_HOLE_TO_UNDEFINED.

Module LLoadKeyed.
Record t : Type := {
  elements : LOperand; key : LOperand; result : LOperand;
  key_representation : Representation;
  base_offset : Z;
  RequiresHoleCheck : bool;
  elements_kind : ElementsKind;
  hole_mode : LoadKeyedHoleMode
}.
End LLoadKeyed.

(** [BuildFastArrayOperand], with the [Abort] it may request: an abort
    marks the compilation as failed and emission goes on. *)
Definition BuildFastArrayOperand (c : Context)
           (elements_pointer key : LOperand)
           (key_representation : Representation)
           (elements_kind : ElementsKind) (base_offset : Z)
  : Operand * option BailoutReason :=
  let elements_pointer_reg := ToRegister c elements_pointer in
  let element_shift_size := ElementsKindToShiftSize c elements_kind in
  let shift_size := element_shift_size in
  if IsConstantOperand key then
    let constant_value := ToInteger32 c key in
    (Mem elements_pointer_reg None
         (Int32.signed (Z.shiftl constant_value shift_size + base_offset)),
     if Z.land (Int32.wrap constant_value) 4026531840 =? 0 then None
     else Some kArrayIndexConstantValueTooBig)
  else
    let shift_size :=
      if ExternalArrayOpRequiresPreScale c key_representation elements_kind
      then maximal_scale_factor c
      else if IsSmi key_representation && (1 <=? shift_size)
           then shift_size - kSmiTagSize
           else shift_size in
    (Mem elements_pointer_reg (Some (ToRegister c key, shift_size))
         base_offset,
     None).

Definition DoLoadKeyedFixedArray (c : Context) (instr : LLoadKeyed.t)
  : list Instr * option BailoutReason :=
  let result := ToRegister c (LLoadKeyed.result instr) in
  let done : Label := 0%nat in
  let '(operand, aborted) :=
    BuildFastArrayOperand c (LLoadKeyed.elements instr)
      (LLoadKeyed.key instr) (LLoadKeyed.key_representation instr)
      FAST_ELEMENTS (LLoadKeyed.base_offset instr) in
  (* Load the result. *)
  ([mov result operand] ++
   (* Check for the hole value. *)
   (if LLoadKeyed.RequiresHoleCheck instr then
      if IsFastSmiElementsKind c (LLoadKeyed.elements_kind instr) then
        [test result (Immediate kSmiTagMask)]
        ++ DeoptimizeIf not_equal kNotASmi
      else
        [cmp result (Immediate (the_hole_value c))]
        ++ DeoptimizeIf equal kHole
    else
      match LLoadKeyed.hole_mode instr with
      | CONVERT_HOLE_TO_UNDEFINED =>
          [cmp result (Immediate (the_hole_value c));
           j not_equal done] ++
          when (IsStub c)
            ([mov result (Immediate (array_protector c));
              cmp (FieldOperand c result (PropertyCell_kValueOffset c))
                  (Immediate (Smi_FromInt (kArrayProtectorValid c)))]
             ++ DeoptimizeIf not_equal kHole) ++
          [mov result (Immediate (undefined_value c));
           bind done]
      | _ => []
      end),
   aborted).

(** The value field of the array protector cell, as a stub reads it. *)
Definition protector_cell_value (c : Context) (m : Machine) : Z :=
  Int32.wrap
    (mem m (Int32.wrap (Int32.wrap (array_protector c)
                        + (PropertyCell_kValueOffset c - kHeapObjectTag c)))).

(** The array element that [DoLoadKeyedFixedArray] loads. *)
Definition loaded_element (c : Context) (instr : LLoadKeyed.t) (m : Machine)
  : Z :=
  value m (fst (BuildFastArrayOperand c (LLoadKeyed.elements instr)
                  (LLoadKeyed.key instr) (LLoadKeyed.key_representation instr)
                  FAST_ELEMENTS (LLoadKeyed.base_offset instr))).

(** *** Branches *)

Module LControlInstruction.
Record t : Type := { true_block_id : Z; false_block_id : Z }.
End LControlInstruction.

(** Modelled from the spec: [TrueDestination] and [FalseDestination] are
    declared in [lithium.h], which is not among the sources; the
    destinations of a branch "resolve to a physical block" through the
    chunk. *)
Definition TrueDestination (c : Context) (instr : LControlInstruction.t)
  : Z :=
  LookupDestination c (LControlInstruction.true_block_id instr).

Definition FalseDestination (c : Context) (instr : LControlInstruction.t)
  : Z :=
  LookupDestination c (LControlInstruction.false_block_id instr).

(** Modelled from the spec: [IsNextEmittedBlock] is declared in
    [lithium-codegen.h], which is not among the sources; it tells whether
    "the next physical block is already the target". *)
Definition IsNextEmittedBlock (c : Context) (block_id : Z) : bool :=
  LookupDestination c block_id =? GetNextEmittedBlock c.

Definition EmitGoto (c : Context) (block : Z) : list Instr :=
  when (negb (IsNextEmittedBlock c block))
    [jmp (GetAssemblyLabel c (LookupDestination c block))].

Definition EmitBranch (c : Context) (instr : LControlInstruction.t)
           (cc : Condition) : list Instr :=
  let left_block := TrueDestination c instr in
  let right_block := FalseDestination c instr in
  let next_block := GetNextEmittedBlock c in
  if (right_block =? left_block) || bool_decide (cc = no_condition) then
    EmitGoto c left_block
  else if left_block =? next_block then
    [j (NegateCondition cc) (GetAssemblyLabel c right_block)]
  else if right_block =? next_block then
    [j cc (GetAssemblyLabel c left_block)]
  else
    [j cc (GetAssemblyLabel c left_block);
     jmp (GetAssemblyLabel c right_block)].

(** The jumps of an instruction sequence, counted. *)
Definition is_conditional_jump (i : Instr) : bool :=
  match i with j _ _ => true | _ => false end.
Definition is_unconditional_jump (i : Instr) : bool :=
  match i with jmp _ => true | _ => false end.
Definition count_conditional_jumps (code : list Instr) : nat :=
  length (filter (fun i => is_conditional_jump i = true) code).
Definition count_unconditional_jumps (code : list Instr) : nat :=
  length (filter (fun i => is_unconditional_jump i = true) code).

End Lithium.

(** ** Sample surroundings for running the lowering functions *)

Module Sample.

Import Ia32 Lithium.

(** Allocation indices 0 to 5 name [eax], [ecx], [edx], [ebx], [esi] and
    [edi]; constant number [n] is the integer [n - 100], with its handle at
    the address [4000 + n]; every block is its own destination, and its
    label has its number. *)
Definition context : Context := {|
  FromAllocationIndex := fun i =>
    match i with
    | 0 => eax | 1 => ecx | 2 => edx | 3 => ebx | 4 => esi | _ => edi
    end;
  LookupConstant := fun n =>
    {| Integer32Value := n - 100; handle := 4000 + n |};
  LookupDestination := fun b => b;
  GetNextEmittedBlock := 7;
  GetAssemblyLabel := fun b => Z.to_nat b;
  NeedsEagerFrame := true;
  StackSlotOffset := fun i => - (i + 1) * 4 - 8;
  kPointerSize := 4;
  kPCOnStackSize := 4;
  FLAG_debug_code := false;
  IsStub := false;
  the_hole_value := 1001;
  undefined_value := 1005;
  array_protector := 1009;
  kArrayProtectorValid := 1;
  PropertyCell_kValueOffset := 4;
  kHeapObjectTag := 1;
  ElementsKindToShiftSize := fun k =>
    match k with
    | FAST_DOUBLE_ELEMENTS | FAST_HOLEY_DOUBLE_ELEMENTS => 3
    | OtherElementsKind v => v
    | _ => 2
    end;
  IsFastSmiElementsKind := fun k =>
    match k with
    | FAST_SMI_ELEMENTS | FAST_HOLEY_SMI_ELEMENTS => true
    | _ => false
    end;
  ExternalArrayOpRequiresPreScale := fun _ _ => false;
  maximal_scale_factor := 3
|}.

(** The same surroundings inside a stub. *)
Definition stub_context : Context := {|
  FromAllocationIndex := FromAllocationIndex context;
  LookupConstant := LookupConstant context;
  LookupDestination := LookupDestination context;
  GetNextEmittedBlock := GetNextEmittedBlock context;
  GetAssemblyLabel := GetAssemblyLabel context;
  NeedsEagerFrame := NeedsEagerFrame context;
  StackSlotOffset := StackSlotOffset context;
  kPointerSize := kPointerSize context;
  kPCOnStackSize := kPCOnStackSize context;
  FLAG_debug_code := FLAG_debug_code context;
  IsStub := true;
  the_hole_value := the_hole_value context;
  undefined_value := undefined_value context;
  array_protector := array_protector context;
  kArrayProtectorValid := kArrayProtectorValid context;
  PropertyCell_kValueOffset := PropertyCell_kValueOffset context;
  kHeapObjectTag := kHeapObjectTag context;
  ElementsKindToShiftSize := ElementsKindToShiftSize context;
  IsFastSmiElementsKind := IsFastSmiElementsKind context;
  ExternalArrayOpRequiresPreScale := ExternalArrayOpRequiresPreScale context;
  maximal_scale_factor := maximal_scale_factor context
|}.

Definition reg (i : Z) : LOperand := {| kind := REGISTER; index := i |}.
Definition constant (n : Z) : LOperand :=
  {| kind := CONSTANT_OPERAND; index := n |}.

Definition no_flags : Flag -> bool := fun _ => false.

Definition clear_flags : Flags :=
  {| ZF := Some false; SF := Some false; CF := Some false;
     OF := Some false |}.

(** A machine with the given [eax], [ecx], [edx] and [ebx], the other
    registers zero, and memory that holds [word] everywhere. *)
Definition machine (a c d b word : Z) : Machine := {|
  regs := fun r =>
    match r with eax => a | ecx => c | edx => d | ebx => b | _ => 0 end;
  flags := clear_flags;
  mem := fun _ => word
|}.

(** [eax := eax * k] with the constant number [100 + k]. *)
Definition mul_by (k : Z) (can_overflow : bool) : LMulI.t := {|
  LMulI.left := reg 0; LMulI.right := constant (100 + k);
  LMulI.temp := reg 3;
  LMulI.CheckFlag := fun f =>
    match f with kCanOverflow => can_overflow | _ => false end;
  LMulI.representation := kInteger32
|}.

(** [eax / ecx] with remainder in [edx]. *)
Definition div_regs (check : Flag -> bool) : LDivI.t := {|
  LDivI.dividend := reg 0; LDivI.divisor := reg 1; LDivI.temp := reg 2;
  LDivI.result := reg 0; LDivI.CheckFlag := check
|}.

(** [ecx / k] into [edx]. *)
Definition div_const (k : Z) (check : Flag -> bool) : LDivByConstI.t := {|
  LDivByConstI.dividend := reg 1; LDivByConstI.divisor := k;
  LDivByConstI.result := reg 2; LDivByConstI.CheckFlag := check
|}.

(** [ecx / k] into [eax], for [k] a power of two or its negation. *)
Definition div_pow2 (k : Z) (check : Flag -> bool) : LDivByPowerOf2I.t := {|
  LDivByPowerOf2I.dividend := reg 1; LDivByPowerOf2I.divisor := k;
  LDivByPowerOf2I.result := reg 0; LDivByPowerOf2I.CheckFlag := check
|}.

(** A bounds check of the index in [eax] against the length in [ecx], with
    [edx] and [ebx] as temporaries, on four-byte elements. *)
Definition bounds_check (op : BuiltinFunctionId) (allow_equality : bool)
  : LBoundsCheck.t := {|
  LBoundsCheck.index := reg 0; LBoundsCheck.length := reg 1;
  LBoundsCheck.temp0 := reg 2; LBoundsCheck.temp1 := reg 3;
  LBoundsCheck.allow_equality := allow_equality;
  LBoundsCheck.op := op;
  LBoundsCheck.element_kind := OtherElementsKind 2;
  LBoundsCheck.index_representation := kInteger32;
  LBoundsCheck.length_representation := kInteger32;
  LBoundsCheck.skip_check := false
|}.

(** A keyed load of element [ecx] of the array at [eax] into [eax]. *)
Definition load_keyed (requires_hole_check : bool) (kind : ElementsKind)
           (mode : LoadKeyedHoleMode) : LLoadKeyed.t := {|
  LLoadKeyed.elements := reg 0; LLoadKeyed.key := reg 1;
  LLoadKeyed.result := reg 0;
  LLoadKeyed.key_representation := kInteger32;
  LLoadKeyed.base_offset := 7;
  LLoadKeyed.RequiresHoleCheck := requires_hole_check;
  LLoadKeyed.elements_kind := kind;
  LLoadKeyed.hole_mode := mode
|}.

(** A branch to block [t] when the condition holds and to block [f]
    otherwise; the next emitted block of [context] is block 7. *)
Definition branch (t f : Z) : LControlInstruction.t :=
  {| LControlInstruction.true_block_id := t;
     LControlInstruction.false_block_id := f |}.

End Sample.

(** ** More of the lowering: remainders, flooring division, absolute
    value, minimum and maximum, checks and branches *)

Module LithiumOps.

Import Ia32 Lithium.

(** *** Remainders *)

Module LModByPowerOf2I.
Record t : Type := {
  dividend : LOperand; divisor : Z; result : LOperand;
  CheckFlag : Flag -> bool
}.
End LModByPowerOf2I.

Definition DoModByPowerOf2I (c : Context) (instr : LModByPowerOf2I.t)
  : list Instr :=
  let dividend := ToRegister c (LModByPowerOf2I.dividend instr) in
  let divisor := LModByPowerOf2I.divisor instr in
  let hmod := LModByPowerOf2I.CheckFlag instr in
  let mask := if divisor <? 0 then - (divisor + 1) else divisor - 1 in
  let dividend_is_not_negative : Label := 0%nat in
  let done : Label := 1%nat in
  when (hmod kLeftCanBeNegative)
    ([test dividend dividend;
      j not_sign dividend_is_not_negative;
      (* Note that this is correct even for kMinInt operands. *)
      neg dividend;
      and_ dividend (Immediate mask);
      neg dividend] ++
     when (hmod kBailoutOnMinusZero) (DeoptimizeIf zero kMinusZero) ++
     [jmp done]) ++
  [bind dividend_is_not_negative;
   and_ dividend (Immediate mask);
   bind done].

Module LModByConstI.
Record t : Type := {
  dividend : LOperand; divisor : Z; result : LOperand;
  CheckFlag : Flag -> bool
}.
End LModByConstI.

Definition DoModByConstI (c : Context) (instr : LModByConstI.t)
  : list Instr :=
  let dividend := ToRegister c (LModByConstI.dividend instr) in
  let divisor := LModByConstI.divisor instr in
  let hmod := LModByConstI.CheckFlag instr in
  let remainder_not_zero : Label := 0%nat in
  if divisor =? 0 then
    DeoptimizeIf no_condition kDivisionByZero
  else
    [TruncatingDiv dividend (Abs divisor);
     imul3 edx edx (Abs divisor);
     mov eax dividend;
     sub eax edx] ++
    (* Check for negative zero. *)
    when (hmod kBailoutOnMinusZero)
      ([j not_zero remainder_not_zero;
        cmp dividend (Immediate 0)]
       ++ DeoptimizeIf less kMinusZero
       ++ [bind remainder_not_zero]).

(** Modelled from the spec: [MacroAssembler::Move] with an immediate is
    not among the sources; it loads the constant into the register. *)
Definition Move_immediate (dst : Register) (x : Z) : list Instr :=
  [mov dst (Immediate x)].

Module LModI.
Record t : Type := {
  left : LOperand; right : LOperand; result : LOperand;
  CheckFlag : Flag -> bool
}.
End LModI.

Definition DoModI (c : Context) (instr : LModI.t) : list Instr :=
  let hmod := LModI.CheckFlag instr in
  let left_reg := ToRegister c (LModI.left instr) in
  let right_reg := ToRegister c (LModI.right instr) in
  let result_reg := ToRegister c (LModI.result instr) in
  let done : Label := 0%nat in
  let no_overflow_possible : Label := 1%nat in
  let positive_left : Label := 2%nat in
  (* Check for x % 0, idiv would signal a divide error. *)
  when (hmod kCanBeDivByZero)
    ([test right_reg (Reg right_reg)]
     ++ DeoptimizeIf zero kDivisionByZero) ++
  (* Check for kMinInt % -1, idiv would signal a divide error. *)
  when (hmod kCanOverflow)
    ([cmp left_reg (Immediate Int32.kMinInt);
      j not_equal no_overflow_possible;
      cmp right_reg (Immediate (-1))] ++
     (if hmod kBailoutOnMinusZero then
        DeoptimizeIf equal kMinusZero
      else
        [j not_equal no_overflow_possible]
        ++ Move_immediate result_reg 0
        ++ [jmp done]) ++
     [bind no_overflow_possible]) ++
  (* Sign extend dividend in eax into edx:eax. *)
  [cdq] ++
  (* If we care about -0, test if the dividend is <0 and the result is 0. *)
  when (hmod kBailoutOnMinusZero)
    ([test left_reg (Reg left_reg);
      j not_sign positive_left;
      idiv right_reg;
      test result_reg (Reg result_reg)]
     ++ DeoptimizeIf zero kMinusZero
     ++ [jmp done; bind positive_left]) ++
  [idiv right_reg; bind done].

(** *** Flooring division *)

Module LFlooringDivByPowerOf2I.
Record t : Type := {
  dividend : LOperand; divisor : Z; result : LOperand;
  CheckFlag : Flag -> bool
}.
End LFlooringDivByPowerOf2I.

Definition DoFlooringDivByPowerOf2I (c : Context)
           (instr : LFlooringDivByPowerOf2I.t) : list Instr :=
  let dividend := ToRegister c (LFlooringDivByPowerOf2I.dividend instr) in
  let divisor := LFlooringDivByPowerOf2I.divisor instr in
  let hydrogen := LFlooringDivByPowerOf2I.CheckFlag instr in
  let not_kmin_int : Label := 0%nat in
  let done : Label := 1%nat in
  (* If the divisor is positive, things are easy. *)
  if divisor =? 1 then [] else
  let shift := WhichPowerOf2Abs divisor in
  if 1 <? divisor then [sar dividend shift] else
  (* If the divisor is negative, we have to negate and handle edge
     cases. *)
  [neg dividend] ++
  when (hydrogen kBailoutOnMinusZero) (DeoptimizeIf zero kMinusZero) ++
  (* Dividing by -1 is basically negation, unless we overflow. *)
  if divisor =? -1 then
    when (hydrogen kLeftCanBeMinInt) (DeoptimizeIf overflow kOverflow)
  else
  (* If the negation could not overflow, simply shifting is OK. *)
  if negb (hydrogen kLeftCanBeMinInt) then [sar dividend shift] else
  [j no_overflow not_kmin_int;
   mov dividend (Immediate (Z.quot Int32.kMinInt divisor));
   jmp done;
   bind not_kmin_int;
   sar dividend shift;
   bind done].

Module LFlooringDivI.
Record t : Type := {
  dividend : LOperand; divisor : LOperand; temp : LOperand;
  result : LOperand;
  CheckFlag : Flag -> bool
}.
End LFlooringDivI.

Definition DoFlooringDivI (c : Context) (instr : LFlooringDivI.t)
  : list Instr :=
  let hdiv := LFlooringDivI.CheckFlag instr in
  let dividend := ToRegister c (LFlooringDivI.dividend instr) in
  let divisor := ToRegister c (LFlooringDivI.divisor instr) in
  let remainder := ToRegister c (LFlooringDivI.temp instr) in
  let result := ToRegister c (LFlooringDivI.result instr) in
  let dividend_not_zero : Label := 0%nat in
  let dividend_not_min_int : Label := 1%nat in
  let done : Label := 2%nat in
  (* Check for x / 0. *)
  when (hdiv kCanBeDivByZero)
    ([test divisor divisor] ++ DeoptimizeIf zero kDivisionByZero) ++
  (* Check for (0 / -x) that will produce negative zero. *)
  when (hdiv kBailoutOnMinusZero)
    ([test dividend dividend;
      j not_zero dividend_not_zero;
      test divisor divisor]
     ++ DeoptimizeIf sign kMinusZero
     ++ [bind dividend_not_zero]) ++
  (* Check for (kMinInt / -1). *)
  when (hdiv kCanOverflow)
    ([cmp dividend (Immediate Int32.kMinInt);
      j not_zero dividend_not_min_int;
      cmp divisor (Immediate (-1))]
     ++ DeoptimizeIf zero kOverflow
     ++ [bind dividend_not_min_int]) ++
  (* Sign extend to edx (= remainder). *)
  [cdq; idiv divisor;
   test remainder remainder;
   j zero done;
   xor_ remainder divisor;
   sar remainder 31;
   add result remainder;
   bind done].

(** *** Absolute value, minimum and maximum *)

Definition EmitIntegerMathAbs (c : Context) (value : LOperand)
  : list Instr :=
  let input_reg := ToRegister c value in
  let is_positive : Label := 0%nat in
  [test input_reg (Reg input_reg);
   j not_sign is_positive;
   neg input_reg]                       (* Sets flags. *)
  ++ DeoptimizeIf negative kOverflow
  ++ [bind is_positive].

Inductive MinMaxOperation : Type := kMathMin | kMathMax.

Module LMathMinMax.
Record t : Type := {
  left : LOperand; right : LOperand;
  operation : MinMaxOperation;
  representation : Representation
}.
End LMathMinMax.

Definition IsSmiOrInteger32 (r : Representation) : bool :=
  IsSmi r || IsInteger32 r.

(** [DoMathMinMax]. The branch for the double representation works on
    XMM registers, outside the integer subset: [None] stands for it. *)
Definition DoMathMinMax (c : Context) (instr : LMathMinMax.t)
  : option (list Instr) :=
  let left := LMathMinMax.left instr in
  let right := LMathMinMax.right instr in
  let operation := LMathMinMax.operation instr in
  if IsSmiOrInteger32 (LMathMinMax.representation instr) then
    let return_left : Label := 0%nat in
    let condition :=
      match operation with
      | kMathMin => less_equal
      | kMathMax => greater_equal
      end in
    Some
      ((if IsConstantOperand right then
          let left_op := ToOperand c left in
          let immediate :=
            ToImmediate c right (LMathMinMax.representation instr) in
          [cmp left_op immediate;
           j condition return_left;
           mov left_op immediate]
        else
          let left_reg := ToRegister c left in
          let right_op := ToOperand c right in
          [cmp left_reg right_op;
           j condition return_left;
           mov left_reg right_op]) ++
       [bind return_left])
  else None.

(** *** Checks and branches on the tag of a small integer *)

Definition DoCheckSmi (c : Context) (value : LOperand) : list Instr :=
  [test (ToOperand c value) (Immediate kSmiTagMask)]
  ++ DeoptimizeIf not_zero kNotASmi.

Module LIsSmiAndBranch.
Record t : Type := { value : LOperand; control : LControlInstruction.t }.
End LIsSmiAndBranch.

Definition DoIsSmiAndBranch (c : Context) (instr : LIsSmiAndBranch.t)
  : list Instr :=
  let input := ToOperand c (LIsSmiAndBranch.value instr) in
  [test input (Immediate kSmiTagMask)]
  ++ EmitBranch c (LIsSmiAndBranch.control instr) zero.

Definition EmitFalseBranch (c : Context) (instr : LControlInstruction.t)
           (cc : Condition) : list Instr :=
  let false_block := FalseDestination c instr in
  if decide (cc = no_condition) then
    [jmp (GetAssemblyLabel c false_block)]
  else
    [j cc (GetAssemblyLabel c false_block)].

Definition DoGoto (c : Context) (block_id : Z) : list Instr :=
  EmitGoto c block_id.

(** *** Comparison tokens *)

(** [Token::Value]: the comparison tokens by name, any other token by its
    enum value. *)
Inductive Token : Type :=
| EQ | EQ_STRICT | NE | NE_STRICT | LT | GT | LTE | GTE
| IN | INSTANCEOF | OtherToken (value : Z).

(** [TokenToCondition]; [None] is the [UNREACHABLE()] of the other
    tokens. *)
Definition TokenToCondition (op : Token) (is_unsigned : bool)
  : option Condition :=
  match op with
  | EQ | EQ_STRICT => Some equal
  | NE | NE_STRICT => Some not_equal
  | LT => Some (if is_unsigned then below else less)
  | GT => Some (if is_unsigned then above else greater)
  | LTE => Some (if is_unsigned then below_equal else less_equal)
  | GTE => Some (if is_unsigned then above_equal else greater_equal)
  | IN | INSTANCEOF | OtherToken _ => None
  end.

(** What a comparison token asks of two numbers. *)
Definition compares (op : Token) (a b : Z) : bool :=
  match op with
  | EQ | EQ_STRICT => a =? b
  | NE | NE_STRICT => negb (a =? b)
  | LT => a <? b
  | GT => b <? a
  | LTE => a <=? b
  | GTE => b <=? a
  | IN | INSTANCEOF | OtherToken _ => false
  end.

(** *** Numeric comparison and branch *)

Module LCompareNumericAndBranch.
(** [left_kUint32] and [right_kUint32] are
    [hydrogen()->left()->CheckFlag(HInstruction::kUint32)] and the same of
    the right operand. *)
Record t : Type := {
  left : LOperand; right : LOperand;
  op : Token;
  is_double : bool;
  left_kUint32 : bool; right_kUint32 : bool;
  representation : Representation;
  control : LControlInstruction.t
}.
End LCompareNumericAndBranch.

(** [DoCompareNumericAndBranch]. Two constant operands are compared at
    compile time through [ToDouble] and [EvalComparison], which are not
    among the sources, and doubles are compared in XMM registers, outside
    the integer subset: [None] stands for both, and for the
    [UNREACHABLE()] of [TokenToCondition]. *)
Definition DoCompareNumericAndBranch (c : Context)
           (instr : LCompareNumericAndBranch.t) : option (list Instr) :=
  let left := LCompareNumericAndBranch.left instr in
  let right := LCompareNumericAndBranch.right instr in
  let representation := LCompareNumericAndBranch.representation instr in
  let is_unsigned :=
    LCompareNumericAndBranch.is_double instr
    || LCompareNumericAndBranch.left_kUint32 instr
    || LCompareNumericAndBranch.right_kUint32 instr in
  cc ← TokenToCondition (LCompareNumericAndBranch.op instr) is_unsigned;
  if IsConstantOperand left && IsConstantOperand right then None
  else if LCompareNumericAndBranch.is_double instr then None
  else
    let '(compare, cc) :=
      if IsConstantOperand right then
        ([cmp (ToOperand c left) (ToImmediate c right representation)], cc)
      else if IsConstantOperand left then
        (* We commuted the operands, so commute the condition. *)
        ([cmp (ToOperand c right) (ToImmediate c left representation)],
         CommuteCondition cc)
      else
        ([cmp (ToRegister c left) (ToOperand c right)], cc) in
    Some (compare
          ++ EmitBranch c (LCompareNumericAndBranch.control instr) cc).

(** *** Shuffle selectors *)

(** [static_cast<uint8_t>]. *)
Definition uint8 (z : Z) : Z := z mod 256.

Definition ComputeShuffleSelect64x2 (x y : Z) : Z :=
  uint8 (Z.land (Z.lor (Int32.wrap (Z.shiftl y 1))
                       (Int32.wrap (Z.shiftl x 0))) 255).

Definition ComputeShuffleSelect (x y z w : Z) : Z :=
  uint8 (Z.land
           (Z.lor (Z.lor (Z.lor (Int32.wrap (Z.shiftl w 6))
                                (Int32.wrap (Z.shiftl z 4)))
                         (Int32.wrap (Z.shiftl y 2)))
                  (Int32.wrap (Z.shiftl x 0))) 255).

(** *** Where control goes *)

(** The outcome of code that hands control to the block [block]: it
    falls through when the block is emitted next, and jumps to the label
    of the block otherwise. *)
Definition goes_to (c : Context) (block : Z) (m : Machine) : Outcome :=
  if block =? GetNextEmittedBlock c then Done m
  else UnboundLabel (GetAssemblyLabel c block).

End LithiumOps.

(** ** Sample instructions for the arithmetic lowerings *)

Module SampleOps.

Import Ia32 Lithium LithiumOps.

Definition all_flags : Flag -> bool := fun _ => true.

(** [eax % ecx] into [edx]. *)
Definition mod_regs (check : Flag -> bool) : LModI.t := {|
  LModI.left := Sample.reg 0; LModI.right := Sample.reg 1;
  LModI.result := Sample.reg 2; LModI.CheckFlag := check
|}.

(** The flooring [eax / ecx] with the remainder in [edx]. *)
Definition flooring_div_regs (check : Flag -> bool) : LFlooringDivI.t := {|
  LFlooringDivI.dividend := Sample.reg 0;
  LFlooringDivI.divisor := Sample.reg 1;
  LFlooringDivI.temp := Sample.reg 2;
  LFlooringDivI.result := Sample.reg 0;
  LFlooringDivI.CheckFlag := check
|}.

(** [ecx % k] in place, for [k] a power of two or its negation. *)
Definition mod_pow2 (k : Z) (check : Flag -> bool) : LModByPowerOf2I.t := {|
  LModByPowerOf2I.dividend := Sample.reg 1;
  LModByPowerOf2I.divisor := k;
  LModByPowerOf2I.result := Sample.reg 1;
  LModByPowerOf2I.CheckFlag := check
|}.

(** The flooring [ecx / k] in place. *)
Definition flooring_div_pow2 (k : Z) (check : Flag -> bool)
  : LFlooringDivByPowerOf2I.t := {|
  LFlooringDivByPowerOf2I.dividend := Sample.reg 1;
  LFlooringDivByPowerOf2I.divisor := k;
  LFlooringDivByPowerOf2I.result := Sample.reg 1;
  LFlooringDivByPowerOf2I.CheckFlag := check
|}.

(** [ecx % k] into [eax]. *)
Definition mod_const (k : Z) (check : Flag -> bool) : LModByConstI.t := {|
  LModByConstI.dividend := Sample.reg 1; LModByConstI.divisor := k;
  LModByConstI.result := Sample.reg 0; LModByConstI.CheckFlag := check
|}.

(** [eax := eax * ecx] with [ebx] as the temporary register. *)
Definition mul_regs (check : Flag -> bool) : LMulI.t := {|
  LMulI.left := Sample.reg 0; LMulI.right := Sample.reg 1;
  LMulI.temp := Sample.reg 3;
  LMulI.CheckFlag := check;
  LMulI.representation := kInteger32
|}.

(** The smaller, or the larger, of [eax] and [ecx], into [eax]. *)
Definition min_max (operation : MinMaxOperation) : LMathMinMax.t := {|
  LMathMinMax.left := Sample.reg 0; LMathMinMax.right := Sample.reg 1;
  LMathMinMax.operation := operation;
  LMathMinMax.representation := kInteger32
|}.

(** Whether [eax] is less than the constant number 103, the integer 3;
    to block 3 if so, to block 7, the next block, otherwise. *)
Definition compare_less : LCompareNumericAndBranch.t := {|
  LCompareNumericAndBranch.left := Sample.reg 0;
  LCompareNumericAndBranch.right := Sample.constant 103;
  LCompareNumericAndBranch.op := LT;
  LCompareNumericAndBranch.is_double := false;
  LCompareNumericAndBranch.left_kUint32 := false;
  LCompareNumericAndBranch.right_kUint32 := false;
  LCompareNumericAndBranch.representation := kInteger32;
  LCompareNumericAndBranch.control := Sample.branch 3 7
|}.

End SampleOps.

(** ** The code generator's bookkeeping ([LCodeGen]) *)

Module LCodeGen.

Import Ia32 Lithium.

(** *** Results of fallible steps

    An access past the end of a [ZoneList] and an [UNREACHABLE()] are
    contract violations of the compiler; [OutOfFuel] belongs to the model
    alone (the recursion of [AddToTranslation] is bounded by a counter) and
    is shown never to occur. *)
Inductive Res (A : Type) : Type :=
| Ok (a : A)
| OutOfRange
| Unreachable
| OutOfFuel.
Arguments Ok {A} a.
Arguments OutOfRange {A}.
Arguments Unreachable {A}.
Arguments OutOfFuel {A}.

#[export] Instance Res_bind : MBind Res := fun A B k r =>
  match r with
  | Ok a => k a
  | OutOfRange => OutOfRange
  | Unreachable => Unreachable
  | OutOfFuel => OutOfFuel
  end.

#[export] Instance Res_fmap : FMap Res := fun A B f r =>
  match r with
  | Ok a => Ok (f a)
  | OutOfRange => OutOfRange
  | Unreachable => Unreachable
  | OutOfFuel => OutOfFuel
  end.

(** [ZoneList::at(i)]. *)
Definition at_ {A} (l : list A) (i : nat) : Res A :=
  match l !! i with
  | Some a => Ok a
  | None => OutOfRange
  end.

(** *** Environments *)

(** An entry of [LEnvironment::values()]: the materialization marker, or an
    operand. *)
Inductive EnvValue : Type :=
| materialization_marker
| operand (op : LOperand).

(** Modelled from the spec: the object mapping of an [LEnvironment] is
    declared in [lithium.h], which is not among the sources. For each
    marker in order of appearance it tells whether the object is a
    duplicate and of which object, or else its "declared field count" and
    whether it is an arguments object. *)
Record ObjectMapping : Type := {
  LengthOrDupe : nat;
  IsArguments : bool;
  IsDuplicate : bool
}.

Inductive FrameType : Type :=
| JS_FUNCTION | JS_CONSTRUCT | JS_GETTER | JS_SETTER
| ARGUMENTS_ADAPTOR | STUB.

#[export] Instance FrameType_eq_dec : EqDecision FrameType.
Proof. solve_decision. Defined.

(** The immutable part of an [LEnvironment]; [env_id] stands for the
    identity of the object. Sizes and indices are natural numbers: they
    index lists. *)
#[local] Set Warnings "-register-all".
Inductive LEnvironment : Type := mkLEnvironment {
  env_id : nat;
  frame_type : FrameType;
  parameter_count : Z;
  closure : Z;
  translation_size : nat;
  values : list EnvValue;
  is_tagged_ : list bool;
  is_uint32_ : list bool;
  object_mapping_ : list ObjectMapping;
  outer : option LEnvironment
}.
#[local] Set Warnings "register-all".

(** [BitVector::Contains]. *)
Definition Contains (bits : list bool) (i : nat) : bool :=
  default false (bits !! i).

Definition HasTaggedValueAt (e : LEnvironment) (i : nat) : bool :=
  Contains (is_tagged_ e) i.
Definition HasUint32ValueAt (e : LEnvironment) (i : nat) : bool :=
  Contains (is_uint32_ e) i.

Definition ObjectIsDuplicateAt (e : LEnvironment) (i : nat) : Res bool :=
  IsDuplicate <$> at_ (object_mapping_ e) i.
Definition ObjectDuplicateOfAt (e : LEnvironment) (i : nat) : Res nat :=
  LengthOrDupe <$> at_ (object_mapping_ e) i.
Definition ObjectLengthAt (e : LEnvironment) (i : nat) : Res nat :=
  LengthOrDupe <$> at_ (object_mapping_ e) i.
Definition ObjectIsArgumentsAt (e : LEnvironment) (i : nat) : Res bool :=
  IsArguments <$> at_ (object_mapping_ e) i.

(** Modelled from the spec: the registration fields of an [LEnvironment]
    ([Register], [HasBeenRegistered], declared in [lithium.h]). An
    environment is unregistered, or registered with "a unique translation
    index and, for lazy deopt, a code offset". *)
Record Registration : Type := {
  deoptimization_index : nat;
  translation_index : nat;
  pc_offset : Z
}.

(** The mutable fields of an environment object. *)
Record EnvFields : Type := {
  has_been_used : bool;
  registration : option Registration
}.

Definition fresh_fields : EnvFields :=
  {| has_been_used := false; registration := None |}.

(** *** Translations *)

Definition XMMRegister : Type := Z.

Inductive SIMD128Kind : Type :=
| FLOAT32x4 | FLOAT64x2 | INT32x4.

(** Modelled from the spec: the [Translation] class is declared in
    [deoptimizer.h], which is not among the sources. A translation is "an
    ordered command stream"; one constructor per emitting method, with the
    operands the method is given. *)
Inductive Command : Type :=
| BEGIN (frame_count jsframe_count : nat)
| BeginFrame (type : FrameType) (parameter_count : Z) (function : Z)
| BeginArgumentsObject (length : nat)
| BeginCapturedObject (length : nat)
| DuplicateObject (object_index : nat)
| StoreRegister (reg : Register)
| StoreInt32Register (reg : Register)
| StoreUint32Register (reg : Register)
| StoreDoubleRegister (reg : XMMRegister)
| StoreSIMD128Register (reg : XMMRegister) (kind : SIMD128Kind)
| StoreStackSlot (index : Z)
| StoreInt32StackSlot (index : Z)
| StoreUint32StackSlot (index : Z)
| StoreDoubleStackSlot (index : Z)
| StoreSIMD128StackSlot (index : Z) (kind : SIMD128Kind)
| StoreLiteral (literal_id : nat).

(** *** Jump table, safepoints, emitted code *)

Inductive BailoutType : Type := EAGER | LAZY | SOFT.

#[export] Instance BailoutType_eq_dec : EqDecision BailoutType.
Proof. solve_decision. Defined.

(** Modelled from the spec: [Deoptimizer::DeoptInfo] and
    [Deoptimizer::JumpTableEntry] are declared in [deoptimizer.h]; an entry
    holds the "target runtime entry address, associated deopt info,
    bailout-type, needs-frame flag". Its label is its position in the
    table. *)
Record DeoptInfo : Type := {
  raw_position : Z;
  deopt_reason : DeoptReason;
  inlining_id : Z
}.

#[export] Instance DeoptInfo_eq_dec : EqDecision DeoptInfo.
Proof. solve_decision. Defined.

Record JumpTableEntry : Type := {
  address : Z;
  deopt_info : DeoptInfo;
  bailout_type : BailoutType;
  needs_frame : bool
}.

#[export] Instance JumpTableEntry_eq_dec : EqDecision JumpTableEntry.
Proof. solve_decision. Defined.

Inductive DeoptMode : Type := kNoLazyDeopt | kLazyDeopt.

#[export] Instance DeoptMode_eq_dec : EqDecision DeoptMode.
Proof. solve_decision. Defined.

(** Modelled from the spec: [Safepoint::Kind] is declared in
    [safepoint-table.h]; a kind is a set of bits, and the variants with the
    registers bit "explicitly preserve registers". *)
Definition Kind : Type := Z.
Definition kSimple : Kind := 0.
Definition kWithRegisters : Kind := 1.
Definition kWithDoubles : Kind := 2.
Definition kWithRegistersAndDoubles : Kind := 3.

(** Modelled from the spec: the safepoint table builder is declared in
    [safepoint-table.h]; a safepoint is a "(code-offset -> {pointer
    registers, pointer stack slots, optional lazy-deopt back-reference,
    optional outgoing-argument count}) record". *)
Record Safepoint : Type := {
  sp_pc : Z;
  sp_kind : Kind;
  sp_arguments : Z;
  sp_deopt_mode : DeoptMode;
  sp_indexes : list Z;
  sp_registers : list Register
}.

(** What the bookkeeping functions emit: instructions of the subset
    above, the stack and static-variable accesses of the stress mode, a
    call to a deoptimization entry, jumps to the label of a jump-table
    entry, and the deoptimization comment. *)
Inductive Emitted : Type :=
| Asm (i : Instr)
| pushfd
| popfd
| push (r : Register)
| pop (r : Register)
| mov_from_stress_count (r : Register)
| mov_to_stress_count (r : Register)
| call (entry : Z)
| jmp_table (entry_index : nat)
| j_table (cc : Condition) (entry_index : nat)
| DeoptComment (info : DeoptInfo).

(** The pointer map and the instruction, with what is read of them. *)
Record LPointerMap : Type := { pointer_operands_ : list LOperand }.

Record LInstruction : Type := {
  environment : LEnvironment;
  pointer_map : LPointerMap;
  position : Z;
  instr_inlining_id : Z
}.

(** The surroundings of the bookkeeping functions, none of which is
    declared in the sources at hand: flags, the compilation info, the
    deoptimizer's entry table and the equivalence of jump-table
    entries. *)
Record Config : Type := {
  context : Context;
  XMM_FromAllocationIndex : Z -> XMMRegister;
  FLAG_trace_deopt : bool;
  is_profiling : bool;
  FLAG_trap_on_deopt : bool;
  FLAG_deopt_every_n_times : Z;
  DeoptEveryNTimes : bool;
  ShouldTrapOnDeopt : bool;
  GetDeoptimizationEntry : nat -> BailoutType -> option Z;
  IsEquivalentTo : JumpTableEntry -> JumpTableEntry -> bool
}.

(** The state of the code generator that the functions below change. The
    code offset of the assembler is the number of entries emitted so
    far. *)
Record State : Type := {
  code : list Emitted;
  aborted : option BailoutReason;
  frame_is_built_ : bool;
  jump_table_ : list JumpTableEntry;
  deoptimizations_ : list LEnvironment;
  deoptimization_literals_ : list Z;
  translations_ : list Command;
  safepoints_ : list Safepoint;
  environments : gmap nat EnvFields;
  deopt_call_positions : list (Z * Z)
}.

Definition masm_pc_offset (s : State) : Z := Z.of_nat (length (code s)).

Definition emit (new : list Emitted) (s : State) : State :=
  {| code := code s ++ new; aborted := aborted s;
     frame_is_built_ := frame_is_built_ s; jump_table_ := jump_table_ s;
     deoptimizations_ := deoptimizations_ s;
     deoptimization_literals_ := deoptimization_literals_ s;
     translations_ := translations_ s; safepoints_ := safepoints_ s;
     environments := environments s;
     deopt_call_positions := deopt_call_positions s |}.

Definition Abort (reason : BailoutReason) (s : State) : State :=
  {| code := code s; aborted := Some reason;
     frame_is_built_ := frame_is_built_ s; jump_table_ := jump_table_ s;
     deoptimizations_ := deoptimizations_ s;
     deoptimization_literals_ := deoptimization_literals_ s;
     translations_ := translations_ s; safepoints_ := safepoints_ s;
     environments := environments s;
     deopt_call_positions := deopt_call_positions s |}.

Definition set_jump_table (table : list JumpTableEntry) (s : State)
  : State :=
  {| code := code s; aborted := aborted s;
     frame_is_built_ := frame_is_built_ s; jump_table_ := table;
     deoptimizations_ := deoptimizations_ s;
     deoptimization_literals_ := deoptimization_literals_ s;
     translations_ := translations_ s; safepoints_ := safepoints_ s;
     environments := environments s;
     deopt_call_positions := deopt_call_positions s |}.

Definition set_deoptimizations (envs : list LEnvironment) (s : State)
  : State :=
  {| code := code s; aborted := aborted s;
     frame_is_built_ := frame_is_built_ s; jump_table_ := jump_table_ s;
     deoptimizations_ := envs;
     deoptimization_literals_ := deoptimization_literals_ s;
     translations_ := translations_ s; safepoints_ := safepoints_ s;
     environments := environments s;
     deopt_call_positions := deopt_call_positions s |}.

Definition set_literals (literals : list Z) (s : State) : State :=
  {| code := code s; aborted := aborted s;
     frame_is_built_ := frame_is_built_ s; jump_table_ := jump_table_ s;
     deoptimizations_ := deoptimizations_ s;
     deoptimization_literals_ := literals;
     translations_ := translations_ s; safepoints_ := safepoints_ s;
     environments := environments s;
     deopt_call_positions := deopt_call_positions s |}.

Definition set_translations (commands : list Command) (s : State) : State :=
  {| code := code s; aborted := aborted s;
     frame_is_built_ := frame_is_built_ s; jump_table_ := jump_table_ s;
     deoptimizations_ := deoptimizations_ s;
     deoptimization_literals_ := deoptimization_literals_ s;
     translations_ := commands; safepoints_ := safepoints_ s;
     environments := environments s;
     deopt_call_positions := deopt_call_positions s |}.

Definition set_safepoints (safepoints : list Safepoint) (s : State)
  : State :=
  {| code := code s; aborted := aborted s;
     frame_is_built_ := frame_is_built_ s; jump_table_ := jump_table_ s;
     deoptimizations_ := deoptimizations_ s;
     deoptimization_literals_ := deoptimization_literals_ s;
     translations_ := translations_ s; safepoints_ := safepoints;
     environments := environments s;
     deopt_call_positions := deopt_call_positions s |}.

Definition set_environments (envs : gmap nat EnvFields) (s : State)
  : State :=
  {| code := code s; aborted := aborted s;
     frame_is_built_ := frame_is_built_ s; jump_table_ := jump_table_ s;
     deoptimizations_ := deoptimizations_ s;
     deoptimization_literals_ := deoptimization_literals_ s;
     translations_ := translations_ s; safepoints_ := safepoints_ s;
     environments := envs;
     deopt_call_positions := deopt_call_positions s |}.

Definition LogDeoptCallPosition (pc_offset inlining_id : Z) (s : State)
  : State :=
  {| code := code s; aborted := aborted s;
     frame_is_built_ := frame_is_built_ s; jump_table_ := jump_table_ s;
     deoptimizations_ := deoptimizations_ s;
     deoptimization_literals_ := deoptimization_literals_ s;
     translations_ := translations_ s; safepoints_ := safepoints_ s;
     environments := environments s;
     deopt_call_positions :=
       deopt_call_positions s ++ [(pc_offset, inlining_id)] |}.

(** The fields of an environment object; an object not yet touched has
    fresh fields. *)
Definition fields_of (e : LEnvironment) (s : State) : EnvFields :=
  default fresh_fields (environments s !! env_id e).

Definition set_has_been_used (e : LEnvironment) (s : State) : State :=
  set_environments
    (<[env_id e := {| has_been_used := true;
                      registration := registration (fields_of e s) |}]>
       (environments s)) s.

Definition HasBeenRegistered (e : LEnvironment) (s : State) : bool :=
  bool_decide (is_Some (registration (fields_of e s))).

Definition LEnvironment_Register (e : LEnvironment)
           (deoptimization_index translation_index : nat) (pc_offset : Z)
           (s : State) : State :=
  set_environments
    (<[env_id e := {| has_been_used := has_been_used (fields_of e s);
                      registration :=
                        Some {| deoptimization_index := deoptimization_index;
                                translation_index := translation_index;
                                pc_offset := pc_offset |} |}]>
       (environments s)) s.

(** Appending commands to the translation buffer. *)
Definition translate (commands : list Command) (s : State) : State :=
  set_translations (translations_ s ++ commands) s.

(** *** Writing translations *)

Definition ToDoubleRegister (cfg : Config) (op : LOperand) : XMMRegister :=
  XMM_FromAllocationIndex cfg (index op).
Definition ToSIMD128Register (cfg : Config) (op : LOperand) : XMMRegister :=
  XMM_FromAllocationIndex cfg (index op).
Definition ToFloat32x4Register := ToSIMD128Register.
Definition ToFloat64x2Register := ToSIMD128Register.
Definition ToInt32x4Register := ToSIMD128Register.

(** Modelled from the spec: [DefineDeoptimizationLiteral] is defined in
    [lithium-codegen.cc], which is not among the sources; a literal is
    stored by "literal-pool index (deduplicated against previously emitted
    literals by value-identity)". *)
Definition DefineDeoptimizationLiteral (literal : Z) (s : State)
  : nat * State :=
  match list_find (fun l => l = literal) (deoptimization_literals_ s) with
  | Some (i, _) => (i, s)
  | None =>
      (length (deoptimization_literals_ s),
       set_literals (deoptimization_literals_ s ++ [literal]) s)
  end.

(** Modelled from the spec: [WriteTranslationFrame] is defined in
    [lithium-codegen.cc], which is not among the sources; it emits "one
    'begin frame' command per chain link (carrying argument count and
    function identity)". *)
Definition WriteTranslationFrame (e : LEnvironment) (s : State) : State :=
  translate [BeginFrame (frame_type e) (parameter_count e) (closure e)] s.

(** The cursors [object_index] and [dematerialized_index] that
    [WriteTranslation] hands to [AddToTranslation] by pointer. *)
Record Cursor : Type := {
  object_index_pointer : nat;
  dematerialized_index_pointer : nat
}.

(** A loop [for (int i = 0; i < count; ++i)] that hands the value at
    [offset + i], with its two flags, to [add]: the loop over the fields of
    a captured object in [AddToTranslation], and the loop over the values
    in [WriteTranslation]. *)
Definition for_each_value
           (add : EnvValue -> bool -> bool -> Cursor -> State
                  -> Res (Cursor * State))
           (environment : LEnvironment) (offset : nat)
  : nat -> nat -> Cursor -> State -> Res (Cursor * State) :=
  fix loop (count i : nat) (cur : Cursor) (s : State) :=
    match count with
    | O => Ok (cur, s)
    | S count =>
        value ← at_ (values environment) (offset + i);
        '(cur, s) ←
          add value
              (HasTaggedValueAt environment (offset + i))
              (HasUint32ValueAt environment (offset + i))
              cur s;
        loop count (S i) cur s
    end.

(** [AddToTranslation]. The counter [fuel] bounds the depth of the
    recursion into the fields of captured objects. *)
Fixpoint AddToTranslation (fuel : nat) (cfg : Config)
         (environment : LEnvironment) (op : EnvValue)
         (is_tagged is_uint32 : bool) (cur : Cursor) (s : State)
  : Res (Cursor * State) :=
  match fuel with
  | O => OutOfFuel
  | S fuel =>
      match op with
      | materialization_marker =>
          let object_index := object_index_pointer cur in
          let cur :=
            {| object_index_pointer := S object_index;
               dematerialized_index_pointer :=
                 dematerialized_index_pointer cur |} in
          is_duplicate ← ObjectIsDuplicateAt environment object_index;
          if (is_duplicate : bool) then
            dupe_of ← ObjectDuplicateOfAt environment object_index;
            Ok (cur, translate [DuplicateObject dupe_of] s)
          else
            object_length ← ObjectLengthAt environment object_index;
            is_arguments ← ObjectIsArgumentsAt environment object_index;
            let s :=
              if (is_arguments : bool)
              then translate [BeginArgumentsObject object_length] s
              else translate [BeginCapturedObject object_length] s in
            let dematerialized_index := dematerialized_index_pointer cur in
            let env_offset :=
              (translation_size environment + dematerialized_index)%nat in
            let cur :=
              {| object_index_pointer := object_index_pointer cur;
                 dematerialized_index_pointer :=
                   (dematerialized_index + object_length)%nat |} in
            for_each_value (AddToTranslation fuel cfg environment)
                           environment env_offset object_length 0%nat cur s
      | operand op =>
          if IsStackSlot op then
            if is_tagged then
              Ok (cur, translate [StoreStackSlot (index op)] s)
            else if is_uint32 then
              Ok (cur, translate [StoreUint32StackSlot (index op)] s)
            else
              Ok (cur, translate [StoreInt32StackSlot (index op)] s)
          else if IsDoubleStackSlot op then
            Ok (cur, translate [StoreDoubleStackSlot (index op)] s)
          else if IsFloat32x4StackSlot op then
            Ok (cur, translate [StoreSIMD128StackSlot (index op) FLOAT32x4] s)
          else if IsFloat64x2StackSlot op then
            Ok (cur, translate [StoreSIMD128StackSlot (index op) FLOAT64x2] s)
          else if IsInt32x4StackSlot op then
            Ok (cur, translate [StoreSIMD128StackSlot (index op) INT32x4] s)
          else if IsRegister op then
            let reg := ToRegister (context cfg) op in
            if is_tagged then
              Ok (cur, translate [StoreRegister reg] s)
            else if is_uint32 then
              Ok (cur, translate [StoreUint32Register reg] s)
            else
              Ok (cur, translate [StoreInt32Register reg] s)
          else if IsDoubleRegister op then
            let reg := ToDoubleRegister cfg op in
            Ok (cur, translate [StoreDoubleRegister reg] s)
          else if IsFloat32x4Register op then
            let reg := ToFloat32x4Register cfg op in
            Ok (cur, translate [StoreSIMD128Register reg FLOAT32x4] s)
          else if IsFloat64x2Register op then
            let reg := ToFloat64x2Register cfg op in
            Ok (cur, translate [StoreSIMD128Register reg FLOAT64x2] s)
          else if IsInt32x4Register op then
            let reg := ToInt32x4Register cfg op in
            Ok (cur, translate [StoreSIMD128Register reg INT32x4] s)
          else if IsConstantOperand op then
            let constant := LookupConstant (context cfg) (index op) in
            let '(src_index, s) :=
              DefineDeoptimizationLiteral (handle constant) s in
            Ok (cur, translate [StoreLiteral src_index] s)
          else
            Unreachable
      end
  end.

(** Enough fuel for an environment: the recursion into captured objects
    is never deeper than the number of values. *)
Definition enough_fuel (environment : LEnvironment) : nat :=
  S (S (length (values environment))).

(** [WriteTranslation], on an optional environment as the code has it on a
    pointer that may be [NULL]. *)
Fixpoint WriteTranslation (cfg : Config) (environment : LEnvironment)
         (s : State) : Res State :=
  (* The translation includes one command per value in the environment. *)
  let translation_size := translation_size environment in
  s ← match outer environment with
      | None => Ok s
      | Some outer => WriteTranslation cfg outer s
      end;
  let s := WriteTranslationFrame environment s in
  let cur := {| object_index_pointer := 0;
                dematerialized_index_pointer := 0 |} in
  '(_, s) ←
    for_each_value (AddToTranslation (enough_fuel environment) cfg environment)
                   environment 0%nat translation_size 0%nat cur s;
  Ok s.

(** The environments from [e] outwards. *)
Fixpoint chain (e : LEnvironment) : list LEnvironment :=
  e :: match outer e with
       | None => []
       | Some o => chain o
       end.

Definition RegisterEnvironmentForDeoptimization (cfg : Config)
           (environment : LEnvironment) (mode : DeoptMode) (s : State)
  : Res State :=
  let s := set_has_been_used environment s in
  if HasBeenRegistered environment s then Ok s else
    let frame_count := length (chain environment) in
    let jsframe_count :=
      length (filter (fun e => frame_type e = JS_FUNCTION)
                     (chain environment)) in
    (* Translation translation(&translations_, frame_count, jsframe_count) *)
    let translation_index := length (translations_ s) in
    let s := translate [BEGIN frame_count jsframe_count] s in
    s ← WriteTranslation cfg environment s;
    let deoptimization_index := length (deoptimizations_ s) in
    let pc_offset := masm_pc_offset s in
    let s :=
      LEnvironment_Register environment deoptimization_index
        translation_index
        (if decide (mode = kLazyDeopt) then pc_offset else -1) s in
    Ok (set_deoptimizations (deoptimizations_ s ++ [environment]) s).

(** *** Deoptimization guards and the jump table *)

(** Modelled from the spec: [MakeDeoptInfo] is defined in
    [lithium-codegen.cc], which is not among the sources; it gives the
    "associated deopt info" of a guard: the position and inlining id of the
    instruction, and the reason. *)
Definition MakeDeoptInfo (instr : LInstruction) (reason : DeoptReason)
  : DeoptInfo :=
  {| raw_position := position instr; deopt_reason := reason;
     inlining_id := instr_inlining_id instr |}.

(** The index of the last entry: [&jump_table_.last().label]. *)
Definition last_label (s : State) : nat := pred (length (jump_table_ s)).

Definition DeoptimizeIf (cfg : Config) (cc : Condition)
           (instr : LInstruction) (deopt_reason : DeoptReason)
           (bailout_type : BailoutType) (s : State) : Res State :=
  let environment := environment instr in
  s ← RegisterEnvironmentForDeoptimization cfg environment kNoLazyDeopt s;
  match registration (fields_of environment s) with
  | None => Unreachable          (* DCHECK(environment->HasBeenRegistered()) *)
  | Some r =>
      let id := deoptimization_index r in
      match GetDeoptimizationEntry cfg id bailout_type with
      | None => Ok (Abort kBailoutWasNotPrepared s)
      | Some entry =>
          let no_deopt : Label := 0%nat in
          let done : Label := 1%nat in
          let s :=
            if DeoptEveryNTimes cfg then
              emit ([pushfd; push eax; mov_from_stress_count eax;
                     Asm (sub eax (Immediate 1));
                     Asm (j not_zero no_deopt)]
                    ++ (if FLAG_trap_on_deopt cfg then [Asm int3] else [])
                    ++ [Asm (mov eax
                               (Immediate (FLAG_deopt_every_n_times cfg)));
                        mov_to_stress_count eax; pop eax; popfd;
                        call entry;
                        Asm (bind no_deopt);
                        mov_to_stress_count eax; pop eax; popfd]) s
            else s in
          let s :=
            if ShouldTrapOnDeopt cfg then
              emit ((if decide (cc = no_condition) then []
                     else [Asm (j (NegateCondition cc) done)])
                    ++ [Asm int3; Asm (bind done)]) s
            else s in
          let deopt_info := MakeDeoptInfo instr deopt_reason in
          if bool_decide (cc = no_condition) && frame_is_built_ s then
            let s := emit [DeoptComment deopt_info; call entry] s in
            Ok (LogDeoptCallPosition (masm_pc_offset s)
                  (inlining_id deopt_info) s)
          else
            let table_entry :=
              {| address := entry; deopt_info := deopt_info;
                 bailout_type := bailout_type;
                 needs_frame := negb (frame_is_built_ s) |} in
            (* We often have several deopts to the same entry, reuse the
               last jump entry if this is the case. *)
            let s :=
              if FLAG_trace_deopt cfg || is_profiling cfg
                 || match last (jump_table_ s) with
                    | None => true                      (* is_empty() *)
                    | Some last_entry =>
                        negb (IsEquivalentTo cfg table_entry last_entry)
                    end
              then set_jump_table (jump_table_ s ++ [table_entry]) s
              else s in
            if decide (cc = no_condition) then
              Ok (emit [jmp_table (last_label s)] s)
            else
              Ok (emit [j_table cc (last_label s)] s)
      end
  end.

(** *** Safepoints *)

(** Modelled from the spec: [SafepointTableBuilder::DefineSafepoint],
    [Safepoint::DefinePointerSlot] and [Safepoint::DefinePointerRegister]
    are declared in [safepoint-table.h]; a new record is opened "at the
    instruction's resulting code offset", and pointer slots and registers
    are added to it. The handle returned is the position of the record. *)
Definition DefineSafepoint (s : State) (kind : Kind) (arguments : Z)
           (deopt_mode : DeoptMode) : nat * State :=
  (length (safepoints_ s),
   set_safepoints
     (safepoints_ s
      ++ [{| sp_pc := masm_pc_offset s; sp_kind := kind;
             sp_arguments := arguments; sp_deopt_mode := deopt_mode;
             sp_indexes := []; sp_registers := [] |}]) s).

Definition add_index (index : Z) (sp : Safepoint) : Safepoint :=
  {| sp_pc := sp_pc sp; sp_kind := sp_kind sp;
     sp_arguments := sp_arguments sp; sp_deopt_mode := sp_deopt_mode sp;
     sp_indexes := sp_indexes sp ++ [index];
     sp_registers := sp_registers sp |}.

Definition add_register (reg : Register) (sp : Safepoint) : Safepoint :=
  {| sp_pc := sp_pc sp; sp_kind := sp_kind sp;
     sp_arguments := sp_arguments sp; sp_deopt_mode := sp_deopt_mode sp;
     sp_indexes := sp_indexes sp;
     sp_registers := sp_registers sp ++ [reg] |}.

Definition DefinePointerSlot (safepoint : nat) (index : Z) (s : State)
  : State :=
  set_safepoints (alter (add_index index) safepoint (safepoints_ s)) s.

Definition DefinePointerRegister (safepoint : nat) (reg : Register)
           (s : State) : State :=
  set_safepoints (alter (add_register reg) safepoint (safepoints_ s)) s.

(** Modelled from the spec: [LPointerMap::GetNormalizedOperands] is
    declared in [lithium.h], which is not among the sources; the spec has
    the operand entries of the map normalized before they are recorded,
    so that no duplicate is retained and no entry is dropped: of entries
    that name the same operand one is kept. *)
Definition GetNormalizedOperands (pointers : LPointerMap)
  : list LOperand :=
  remove_dups (pointer_operands_ pointers).

(** The loop over the normalized operands of [RecordSafepoint]. *)
Fixpoint RecordPointers (cfg : Config) (safepoint : nat) (kind : Kind)
         (operands : list LOperand) (s : State) : State :=
  match operands with
  | [] => s
  | pointer :: operands =>
      let s :=
        if IsStackSlot pointer then
          DefinePointerSlot safepoint (index pointer) s
        else if IsRegister pointer
                && negb (Z.land kind kWithRegisters =? 0) then
          DefinePointerRegister safepoint (ToRegister (context cfg) pointer)
                                s
        else s in
      RecordPointers cfg safepoint kind operands s
  end.

Definition RecordSafepoint (cfg : Config) (pointers : LPointerMap)
           (kind : Kind) (arguments : Z) (deopt_mode : DeoptMode)
           (s : State) : State :=
  let operands := GetNormalizedOperands pointers in
  let '(safepoint, s) := DefineSafepoint s kind arguments deopt_mode in
  RecordPointers cfg safepoint kind operands s.

(** The stack slots and the registers among operands, as a safepoint of
    the given kind keeps them. *)
Definition pointer_slots (operands : list LOperand) : list Z :=
  index <$> filter (fun op => IsStackSlot op = true) operands.

Definition pointer_registers (cfg : Config) (kind : Kind)
           (operands : list LOperand) : list Register :=
  if Z.land kind kWithRegisters =? 0 then []
  else ToRegister (context cfg)
       <$> filter (fun op => IsStackSlot op = false /\ IsRegister op = true)
                  operands.

(** *** What a translation leaves untouched *)

(** Writing a translation changes the translation buffer and the literal
    pool of the state, and nothing else. *)
Definition same_but_translation (s s' : State) : Prop :=
  code s' = code s /\ aborted s' = aborted s /\
  frame_is_built_ s' = frame_is_built_ s /\
  jump_table_ s' = jump_table_ s /\
  deoptimizations_ s' = deoptimizations_ s /\
  safepoints_ s' = safepoints_ s /\
  environments s' = environments s /\
  deopt_call_positions s' = deopt_call_positions s.

(** The jump-table entry of a guard. *)
Definition guard_entry (instr : LInstruction) (reason : DeoptReason)
           (bailout_type : BailoutType) (entry : Z) (s : State)
  : JumpTableEntry :=
  {| address := entry; deopt_info := MakeDeoptInfo instr reason;
     bailout_type := bailout_type;
     needs_frame := negb (frame_is_built_ s) |}.

(** The jump to a jump-table entry that a guard with condition [cc]
    emits. *)
Definition jump_to_entry (cc : Condition) (entry_index : nat) : Emitted :=
  if decide (cc = no_condition) then jmp_table entry_index
  else j_table cc entry_index.

(** The jump table after a guard with entry [table_entry] has gone
    through it: the test of [DeoptimizeIf] before
    [jump_table_.Add(table_entry, zone())]. *)
Definition table_after (cfg : Config) (table_entry : JumpTableEntry)
           (table : list JumpTableEntry) : list JumpTableEntry :=
  if FLAG_trace_deopt cfg || is_profiling cfg
     || match last table with
        | None => true
        | Some last_entry =>
            negb (IsEquivalentTo cfg table_entry last_entry)
        end
  then table ++ [table_entry] else table.

(** Consecutive guards of one instruction, with one reason and bailout
    type, under the conditions [ccs]. *)
Fixpoint consecutive_guards (cfg : Config) (instr : LInstruction)
         (reason : DeoptReason) (bailout_type : BailoutType)
         (ccs : list Condition) (s : State) : Res State :=
  match ccs with
  | [] => Ok s
  | cc :: ccs =>
      s ← DeoptimizeIf cfg cc instr reason bailout_type s;
      consecutive_guards cfg instr reason bailout_type ccs s
  end.

(** A guard calls the deoptimization entry in line when it is
    unconditional and the frame is built. *)
Definition calls_in_line (cc : Condition) (s : State) : bool :=
  bool_decide (cc = no_condition) && frame_is_built_ s.

(** The jumps that consecutive guards through the jump table emit, each
    to the entry that is last when it is emitted. *)
Fixpoint guard_jumps (cfg : Config) (table_entry : JumpTableEntry)
         (table : list JumpTableEntry) (ccs : list Condition)
  : list Emitted :=
  match ccs with
  | [] => []
  | cc :: ccs =>
      let table := table_after cfg table_entry table in
      jump_to_entry cc (pred (length table))
      :: guard_jumps cfg table_entry table ccs
  end.

(** *** Reading translations back *)

(** What a slot of an environment says: how its value is stored and
    where, or which literal it is, or that an object stands there. *)
Inductive StoreKind : Type :=
| kTagged | kInt32 | kUint32 | kDouble | kSIMD128 (kind : SIMD128Kind).

Inductive Location : Type :=
| in_register (reg : Register)
| in_xmm_register (reg : XMMRegister)
| in_stack_slot (index : Z).

Inductive Logical : Type :=
| stored (kind : StoreKind) (location : Location)
| literal (handle : Z)
| object_marker.

(** What the object mapping says of an object. *)
Inductive ObjectView : Type :=
| object_of (length : nat) (is_arguments : bool)
| duplicate_of (object_index : nat).

Definition object_view (m : ObjectMapping) : ObjectView :=
  if IsDuplicate m then duplicate_of (LengthOrDupe m)
  else object_of (LengthOrDupe m) (IsArguments m).

Definition object_views (e : LEnvironment) : list ObjectView :=
  object_view <$> object_mapping_ e.

(** The kind of a word-sized value, from the two bit vectors of the
    environment. *)
Definition word_kind (is_tagged is_uint32 : bool) : StoreKind :=
  if is_tagged then kTagged else if is_uint32 then kUint32 else kInt32.

Definition logical_operand (cfg : Config) (op : LOperand)
           (is_tagged is_uint32 : bool) : option Logical :=
  match kind op with
  | STACK_SLOT =>
      Some (stored (word_kind is_tagged is_uint32)
                   (in_stack_slot (index op)))
  | DOUBLE_STACK_SLOT => Some (stored kDouble (in_stack_slot (index op)))
  | FLOAT32x4_STACK_SLOT =>
      Some (stored (kSIMD128 FLOAT32x4) (in_stack_slot (index op)))
  | FLOAT64x2_STACK_SLOT =>
      Some (stored (kSIMD128 FLOAT64x2) (in_stack_slot (index op)))
  | INT32x4_STACK_SLOT =>
      Some (stored (kSIMD128 INT32x4) (in_stack_slot (index op)))
  | REGISTER =>
      Some (stored (word_kind is_tagged is_uint32)
                   (in_register (ToRegister (context cfg) op)))
  | DOUBLE_REGISTER =>
      Some (stored kDouble
                   (in_xmm_register (XMM_FromAllocationIndex cfg (index op))))
  | FLOAT32x4_REGISTER =>
      Some (stored (kSIMD128 FLOAT32x4)
                   (in_xmm_register (XMM_FromAllocationIndex cfg (index op))))
  | FLOAT64x2_REGISTER =>
      Some (stored (kSIMD128 FLOAT64x2)
                   (in_xmm_register (XMM_FromAllocationIndex cfg (index op))))
  | INT32x4_REGISTER =>
      Some (stored (kSIMD128 INT32x4)
                   (in_xmm_register (XMM_FromAllocationIndex cfg (index op))))
  | CONSTANT_OPERAND =>
      Some (literal (handle (LookupConstant (context cfg) (index op))))
  | INVALID | UNALLOCATED => None
  end.

(** The slot at position [i] of the values of an environment. *)
Definition logical_slot (cfg : Config) (e : LEnvironment) (i : nat)
  : option Logical :=
  match values e !! i with
  | Some materialization_marker => Some object_marker
  | Some (operand op) =>
      logical_operand cfg op (HasTaggedValueAt e i) (HasUint32ValueAt e i)
  | None => None
  end.

Definition logical_slots (cfg : Config) (e : LEnvironment)
  : list (option Logical) :=
  logical_slot cfg e <$> seq 0 (length (values e)).

(** A decoded slot: a value, a reference back to an object decoded
    before, or an object with its fields. *)
#[local] Set Warnings "-register-all".
Inductive Slot : Type :=
| SValue (value : Logical)
| SDuplicate (object_index : nat)
| SObject (is_arguments : bool) (fields : list Slot).
#[local] Set Warnings "register-all".

(** A decoded frame. *)
Record Frame : Type := {
  frame_kind : FrameType;
  frame_parameter_count : Z;
  frame_function : Z;
  slots : list Slot
}.

(** Modelled from the spec: the decoder of translations belongs to the
    deoptimizer, which is not among the sources. A store command gives
    one value, with a literal looked up in the literal pool. *)
Definition decode_store (literals : list Z) (c : Command)
  : option Logical :=
  match c with
  | StoreRegister reg => Some (stored kTagged (in_register reg))
  | StoreInt32Register reg => Some (stored kInt32 (in_register reg))
  | StoreUint32Register reg => Some (stored kUint32 (in_register reg))
  | StoreDoubleRegister reg => Some (stored kDouble (in_xmm_register reg))
  | StoreSIMD128Register reg kind =>
      Some (stored (kSIMD128 kind) (in_xmm_register reg))
  | StoreStackSlot index => Some (stored kTagged (in_stack_slot index))
  | StoreInt32StackSlot index => Some (stored kInt32 (in_stack_slot index))
  | StoreUint32StackSlot index =>
      Some (stored kUint32 (in_stack_slot index))
  | StoreDoubleStackSlot index =>
      Some (stored kDouble (in_stack_slot index))
  | StoreSIMD128StackSlot index kind =>
      Some (stored (kSIMD128 kind) (in_stack_slot index))
  | StoreLiteral literal_id => literal <$> literals !! literal_id
  | _ => None
  end.

(** [count] slots, one after the other. *)
Definition decode_fields
           (decode : list Command -> option (Slot * list Command))
  : nat -> list Command -> option (list Slot * list Command) :=
  fix loop (count : nat) (cs : list Command) :=
    match count with
    | O => Some ([], cs)
    | S count =>
        '(x, cs) ← decode cs;
        '(xs, cs) ← loop count cs;
        Some (x :: xs, cs)
    end.

(** Modelled from the spec: one slot of a translation. A begin command
    of an object "carr[ies] its declared field count", and the decoder
    "recurses into that many subsequent slots"; a duplicate is a
    "back-reference" with no fields of its own. The counter [fuel] bounds
    the depth of the nesting. *)
Fixpoint decode_slot (fuel : nat) (literals : list Z) (cs : list Command)
  : option (Slot * list Command) :=
  match fuel with
  | O => None
  | S fuel =>
      match cs with
      | [] => None
      | BEGIN _ _ :: _ => None
      | BeginFrame _ _ _ :: _ => None
      | BeginArgumentsObject length :: cs =>
          '(fields, cs) ←
            decode_fields (decode_slot fuel literals) length cs;
          Some (SObject true fields, cs)
      | BeginCapturedObject length :: cs =>
          '(fields, cs) ←
            decode_fields (decode_slot fuel literals) length cs;
          Some (SObject false fields, cs)
      | DuplicateObject object_index :: cs =>
          Some (SDuplicate object_index, cs)
      | c :: cs =>
          value ← decode_store literals c;
          Some (SValue value, cs)
      end
  end.

(** The slots of a frame: up to the next frame or the end. *)
Fixpoint decode_values (fuel : nat) (literals : list Z) (cs : list Command)
  : option (list Slot * list Command) :=
  match cs with
  | [] => Some ([], [])
  | BeginFrame _ _ _ :: _ => Some ([], cs)
  | _ =>
      match fuel with
      | O => None
      | S fuel' =>
          '(x, cs) ← decode_slot fuel literals cs;
          '(xs, cs) ← decode_values fuel' literals cs;
          Some (x :: xs, cs)
      end
  end.

(** The frames of a translation, outermost first. *)
Fixpoint decode_frames (fuel : nat) (literals : list Z) (cs : list Command)
  : option (list Frame) :=
  match cs with
  | [] => Some []
  | BeginFrame type parameter_count function :: cs =>
      match fuel with
      | O => None
      | S fuel =>
          '(xs, cs) ← decode_values fuel literals cs;
          frames ← decode_frames fuel literals cs;
          Some ({| frame_kind := type;
                   frame_parameter_count := parameter_count;
                   frame_function := function; slots := xs |} :: frames)
      end
  | _ => None
  end.

(** A whole translation, with a counter as large as it is long. *)
Definition decode (literals : list Z) (cs : list Command)
  : option (nat * nat * list Frame) :=
  match cs with
  | BEGIN frame_count jsframe_count :: cs =>
      frames ← decode_frames (length cs) literals cs;
      Some (frame_count, jsframe_count, frames)
  | _ => None
  end.

(** *** Decoded slots against the environment *)

(** What stands at the position of a decoded slot. *)
Definition own (x : Slot) : Logical :=
  match x with
  | SValue value => value
  | SDuplicate _ | SObject _ _ => object_marker
  end.

(** The fields of the objects of a decoded slot, in the order in which
    the objects begin: the fields of an object, then what the fields
    hold. *)
Fixpoint region (x : Slot) : list Logical :=
  match x with
  | SValue _ | SDuplicate _ => []
  | SObject _ fields => map own fields ++ flat_map region fields
  end.

(** The objects of a decoded slot, in the order in which they begin. *)
Fixpoint objects (x : Slot) : list ObjectView :=
  match x with
  | SValue _ => []
  | SDuplicate object_index => [duplicate_of object_index]
  | SObject is_arguments fields =>
      object_of (length fields) is_arguments :: flat_map objects fields
  end.

(** The values of an environment as its decoded slots give them: the
    slots themselves, then the fields of their objects. *)
Definition layout (xs : list Slot) : list Logical :=
  map own xs ++ flat_map region xs.

(** [xs] stands in [l] from position [start] on. *)
Definition segment {A} (l : list A) (start : nat) (xs : list A) : Prop :=
  take (length xs) (drop start l) = xs.

(** A decoded frame gives an environment back: its frame type, parameter
    count and function, one slot for each of the [translation_size]
    values, the slots and the fields of their objects as the values of
    the environment have them, and the objects as its object mapping has
    them. *)
Definition frame_of (cfg : Config) (e : LEnvironment) (frame : Frame)
  : Prop :=
  frame_kind frame = frame_type e /\
  frame_parameter_count frame = parameter_count e /\
  frame_function frame = closure e /\
  length (slots frame) = translation_size e /\
  segment (logical_slots cfg e) 0 (Some <$> layout (slots frame)) /\
  segment (object_views e) 0 (flat_map objects (slots frame)).

(** *** The encoder against the decoder, step by step *)

(** The commands [cmds] are read back as the slot [x], whatever follows
    them, whenever the literal pool has grown from [pool] and the counter
    is as large as [cmds] is long. *)
Definition slot_code (pool : list Z) (x : Slot) (cmds : list Command)
  : Prop :=
  forall literals rest fuel,
    pool `prefix_of` literals -> (length cmds <= fuel)%nat ->
    decode_slot fuel literals (cmds ++ rest) = Some (x, rest).

(** The commands [cmds] are read back as the frames [frames], before
    whatever frames follow them. *)
Definition frames_code (pool : list Z) (frames : list Frame)
           (cmds : list Command) : Prop :=
  forall literals rest rest_frames,
    pool `prefix_of` literals ->
    (forall fuel, (length rest <= fuel)%nat ->
                  decode_frames fuel literals rest = Some rest_frames) ->
    forall fuel, (length (cmds ++ rest) <= fuel)%nat ->
      decode_frames fuel literals (cmds ++ rest)
      = Some (frames ++ rest_frames).

(** One step of the encoder, on the value at position [i], from the
    cursor [cur] and state [s] to [cur'] and [s']: it appends [cmds],
    which are read back as [x]; [x] is what stands at position [i]; its
    objects are those of the object mapping from the object index on, and
    their fields are the values from the dematerialized index on. *)
Definition reads_slot (cfg : Config) (e : LEnvironment) (i : nat)
           (cur : Cursor) (s : State) (cur' : Cursor) (s' : State)
           (x : Slot) (cmds : list Command) : Prop :=
  translations_ s' = translations_ s ++ cmds /\
  deoptimization_literals_ s `prefix_of` deoptimization_literals_ s' /\
  slot_code (deoptimization_literals_ s') x cmds /\
  logical_slot cfg e i = Some (own x) /\
  object_index_pointer cur'
  = (object_index_pointer cur + length (objects x))%nat /\
  dematerialized_index_pointer cur'
  = (dematerialized_index_pointer cur + length (region x))%nat /\
  segment (object_views e) (object_index_pointer cur) (objects x) /\
  segment (logical_slots cfg e)
          (translation_size e + dematerialized_index_pointer cur)
          (Some <$> region x).

(** The same for the values from position [start] on, one list of
    commands for each. *)
Definition reads_slots (cfg : Config) (e : LEnvironment) (start : nat)
           (cur : Cursor) (s : State) (cur' : Cursor) (s' : State)
           (xs : list Slot) (cmdss : list (list Command)) : Prop :=
  translations_ s' = translations_ s ++ concat cmdss /\
  deoptimization_literals_ s `prefix_of` deoptimization_literals_ s' /\
  Forall2 (slot_code (deoptimization_literals_ s')) xs cmdss /\
  segment (logical_slots cfg e) start (Some <$> map own xs) /\
  object_index_pointer cur'
  = (object_index_pointer cur + length (flat_map objects xs))%nat /\
  dematerialized_index_pointer cur'
  = (dematerialized_index_pointer cur + length (flat_map region xs))%nat /\
  segment (object_views e) (object_index_pointer cur)
          (flat_map objects xs) /\
  segment (logical_slots cfg e)
          (translation_size e + dematerialized_index_pointer cur)
          (Some <$> flat_map region xs).

(** *** The other entry points of guards *)

(** [DeoptimizeIf(cc, instr, deopt_reason)]: the bailout type is lazy in
    a stub and eager otherwise. *)
Definition DeoptimizeIf_default (cfg : Config) (cc : Condition)
           (instr : LInstruction) (deopt_reason : DeoptReason) (s : State)
  : Res State :=
  let bailout_type := if IsStub (context cfg) then LAZY else EAGER in
  DeoptimizeIf cfg cc instr deopt_reason bailout_type s.

(** [DoDeoptimize], with the type and the reason of the hydrogen
    instruction. *)
Definition DoDeoptimize (cfg : Config) (instr : LInstruction)
           (hydrogen_type : BailoutType) (hydrogen_reason : DeoptReason)
           (s : State) : Res State :=
  let type := hydrogen_type in
  let type :=
    if IsStub (context cfg) && bool_decide (type = EAGER) then LAZY
    else type in
  DeoptimizeIf cfg no_condition instr hydrogen_reason type s.

(** *** Invariants of the state *)

(** Every jump to a jump-table entry in the emitted code names an entry
    of the table. *)
Definition names_entry (table : list JumpTableEntry) (e : Emitted) : Prop :=
  match e with
  | jmp_table entry_index | j_table _ entry_index =>
      (entry_index < length table)%nat
  | _ => True
  end.

Definition table_jumps_bound (s : State) : Prop :=
  Forall (names_entry (jump_table_ s)) (code s).

(** No entry of the jump table bails out eagerly. *)
Definition no_eager_entry (s : State) : Prop :=
  Forall (fun e => bailout_type e <> EAGER) (jump_table_ s).

End LCodeGen.

(** ** Sample surroundings for the bookkeeping functions *)

Module SampleCodeGen.

Import Ia32 Lithium LCodeGen.

Definition stack_slot (i : Z) : LOperand :=
  {| kind := STACK_SLOT; index := i |}.
Definition double_reg (i : Z) : LOperand :=
  {| kind := DOUBLE_REGISTER; index := i |}.

(** Deoptimization entry number [id] of a bailout type lies at
    [9000 + 16 * id], and there are 64 entries; two jump-table entries
    are equivalent when all their fields agree. *)
Definition config : Config := {|
  context := Sample.context;
  XMM_FromAllocationIndex := fun i => i;
  FLAG_trace_deopt := false;
  is_profiling := false;
  FLAG_trap_on_deopt := false;
  FLAG_deopt_every_n_times := 0;
  DeoptEveryNTimes := false;
  ShouldTrapOnDeopt := false;
  GetDeoptimizationEntry := fun id _ =>
    if (id <? 64)%nat then Some (9000 + 16 * Z.of_nat id) else None;
  IsEquivalentTo := fun a b => bool_decide (a = b)
|}.

(** The same with [--trace-deopt]. *)
Definition tracing_config : Config := {|
  context := context config;
  XMM_FromAllocationIndex := XMM_FromAllocationIndex config;
  FLAG_trace_deopt := true;
  is_profiling := is_profiling config;
  FLAG_trap_on_deopt := FLAG_trap_on_deopt config;
  FLAG_deopt_every_n_times := FLAG_deopt_every_n_times config;
  DeoptEveryNTimes := DeoptEveryNTimes config;
  ShouldTrapOnDeopt := ShouldTrapOnDeopt config;
  GetDeoptimizationEntry := GetDeoptimizationEntry config;
  IsEquivalentTo := IsEquivalentTo config
|}.

(** A code generator that has emitted nothing, with the frame built or
    not. *)
Definition initial (frame_is_built : bool) : State := {|
  code := []; aborted := None; frame_is_built_ := frame_is_built;
  jump_table_ := []; deoptimizations_ := [];
  deoptimization_literals_ := []; translations_ := [];
  safepoints_ := []; environments := ∅; deopt_call_positions := []
|}.

(** An outer frame with one tagged stack slot. *)
Definition outer_environment : LEnvironment := {|
  env_id := 1; frame_type := JS_FUNCTION; parameter_count := 1;
  closure := 70; translation_size := 1;
  values := [operand (stack_slot 0)];
  is_tagged_ := [true]; is_uint32_ := [false];
  object_mapping_ := []; outer := None
|}.

(** An inner frame with four values: a tagged register, a captured object
    of two fields, a constant, and a duplicate of the captured object.
    The fields of the captured object follow the four values: an int32
    stack slot and an arguments object of one field, a double register,
    which follows in turn. *)
Definition inner_environment : LEnvironment := {|
  env_id := 2; frame_type := JS_FUNCTION; parameter_count := 2;
  closure := 71; translation_size := 4;
  values := [operand (Sample.reg 0); materialization_marker;
             operand (Sample.constant 105); materialization_marker;
             operand (stack_slot 4); materialization_marker;
             operand (double_reg 1)];
  is_tagged_ := [true; false; true; false; false; false; false];
  is_uint32_ := [false; false; false; false; false; false; false];
  object_mapping_ :=
    [{| LengthOrDupe := 2; IsArguments := false; IsDuplicate := false |};
     {| LengthOrDupe := 1; IsArguments := true; IsDuplicate := false |};
     {| LengthOrDupe := 0; IsArguments := false; IsDuplicate := true |}];
  outer := Some outer_environment
|}.

(** A pointer map with a stack slot, two registers, and an operand that
    is neither. *)
Definition pointers : LPointerMap :=
  {| pointer_operands_ :=
       [stack_slot 3; Sample.reg 1; double_reg 0; stack_slot 5;
        Sample.reg 2] |}.

(** A pointer map in which a stack slot and a register are entered
    twice. *)
Definition repeated_pointers : LPointerMap :=
  {| pointer_operands_ :=
       [stack_slot 3; Sample.reg 1; double_reg 0; stack_slot 3;
        Sample.reg 2; Sample.reg 1; stack_slot 5] |}.

Definition instruction : LInstruction := {|
  environment := inner_environment; pointer_map := pointers;
  position := 42; instr_inlining_id := 0
|}.

(** Another instruction, at another position, with the outer frame as
    its environment. *)
Definition other_instruction : LInstruction := {|
  environment := outer_environment; pointer_map := pointers;
  position := 77; instr_inlining_id := 0
|}.

(** The frames of the sample environments, as they are read back from
    their translation. *)
Definition outer_frame : Frame :=
  {| frame_kind := JS_FUNCTION; frame_parameter_count := 1;
     frame_function := 70;
     slots := [SValue (stored kTagged (in_stack_slot 0))] |}.

Definition inner_frame : Frame :=
  {| frame_kind := JS_FUNCTION; frame_parameter_count := 2;
     frame_function := 71;
     slots :=
       [SValue (stored kTagged (in_register eax));
        SObject false
          [SValue (stored kInt32 (in_stack_slot 4));
           SObject true [SValue (stored kDouble (in_xmm_register 1))]];
        SValue (literal 4105);
        SDuplicate 0] |}.

Definition sample_frames : list Frame := [outer_frame; inner_frame].

End SampleCodeGen.

(** ** More sample surroundings for guards *)

Module SampleGuards.

Import Ia32 Lithium LCodeGen SampleCodeGen.

(** A deoptimizer that has prepared no entry. *)
Definition unprepared_config : Config := {|
  context := context config;
  XMM_FromAllocationIndex := XMM_FromAllocationIndex config;
  FLAG_trace_deopt := FLAG_trace_deopt config;
  is_profiling := is_profiling config;
  FLAG_trap_on_deopt := FLAG_trap_on_deopt config;
  FLAG_deopt_every_n_times := FLAG_deopt_every_n_times config;
  DeoptEveryNTimes := DeoptEveryNTimes config;
  ShouldTrapOnDeopt := ShouldTrapOnDeopt config;
  GetDeoptimizationEntry := fun _ _ => None;
  IsEquivalentTo := IsEquivalentTo config
|}.

(** The sample surroundings inside a stub. *)
Definition stub_config : Config := {|
  context := Sample.stub_context;
  XMM_FromAllocationIndex := XMM_FromAllocationIndex config;
  FLAG_trace_deopt := FLAG_trace_deopt config;
  is_profiling := is_profiling config;
  FLAG_trap_on_deopt := FLAG_trap_on_deopt config;
  FLAG_deopt_every_n_times := FLAG_deopt_every_n_times config;
  DeoptEveryNTimes := DeoptEveryNTimes config;
  ShouldTrapOnDeopt := ShouldTrapOnDeopt config;
  GetDeoptimizationEntry := GetDeoptimizationEntry config;
  IsEquivalentTo := IsEquivalentTo config
|}.

(** The stress mode [--deopt-every-n-times] with [--trap-on-deopt]. *)
Definition stress_config : Config := {|
  context := context config;
  XMM_FromAllocationIndex := XMM_FromAllocationIndex config;
  FLAG_trace_deopt := FLAG_trace_deopt config;
  is_profiling := is_profiling config;
  FLAG_trap_on_deopt := true;
  FLAG_deopt_every_n_times := 5;
  DeoptEveryNTimes := true;
  ShouldTrapOnDeopt := true;
  GetDeoptimizationEntry := GetDeoptimizationEntry config;
  IsEquivalentTo := IsEquivalentTo config
|}.

End SampleGuards.

(** * Part II: lemmas and theorems *)

(** ** 32-bit integers *)

Section Int32Facts.

Import Int32.

Lemma wrap_range z : 0 <= wrap z < modulus.
Proof. unfold wrap, modulus. apply Z.mod_pos_bound. lia. Qed.

Lemma wrap_small z : 0 <= z < modulus -> wrap z = z.
Proof. intros. unfold wrap. now apply Z.mod_small. Qed.

Lemma wrap_wrap z : wrap (wrap z) = wrap z.
Proof. unfold wrap. apply Z.mod_mod. unfold modulus. lia. Qed.

Lemma signed_in_range z : in_range z -> signed z = z.
Proof.
  unfold signed, wrap. numerals. intros [Hlo Hhi].
  destruct (Z.ltb_spec z 0) as [Hneg | Hpos].
  - replace (z mod 4294967296) with (z + 4294967296)
      by (apply Z.mod_unique with (q := -1); lia).
    destruct (Z.ltb_spec (z + 4294967296) 2147483648); lia.
  - rewrite Z.mod_small by lia.
    destruct (Z.ltb_spec z 2147483648); lia.
Qed.

Lemma signed_range z : in_range (signed z).
Proof.
  unfold signed. pose proof (wrap_range z) as H. numerals.
  destruct (Z.ltb_spec (wrap z) 2147483648); lia.
Qed.

Lemma wrap_signed z : wrap (signed z) = wrap z.
Proof.
  unfold signed. destruct (_ <? _).
  - apply wrap_wrap.
  - unfold wrap. replace (z mod modulus - modulus)
      with (z mod modulus + (-1) * modulus) by lia.
    rewrite Z.mod_add by (unfold modulus; lia).
    apply Z.mod_mod. unfold modulus. lia.
Qed.

End Int32Facts.

(** ** Bytes and [memcpy] *)

Section BytesFacts.

Import Bytes.

Lemma to_Z_range b : 0 <= to_Z b < 256.
Proof.
  unfold to_Z. pose proof (Byte.to_N_bounded b). lia.
Qed.

Lemma to_of_Z z : to_Z (of_Z z) = z mod 256.
Proof.
  unfold of_Z, to_Z.
  assert (Hr : 0 <= z mod 256 < 256) by (apply Z.mod_pos_bound; lia).
  destruct (Byte.of_N (Z.to_N (z mod 256))) as [b |] eqn:E.
  - apply Byte.to_of_N in E. rewrite E. lia.
  - apply Byte.of_N_None_iff in E. lia.
Qed.

Lemma int32_bytes_length x : length (int32_bytes x) = 4%nat.
Proof. reflexivity. Qed.

Lemma int32_roundtrip x :
  Int32.in_range x -> int32_of_bytes (int32_bytes x) = Some x.
Proof.
  intros Hx. unfold int32_bytes, int32_of_bytes.
  rewrite !to_of_Z. f_equal.
  pose proof (wrap_range x) as Hu. unfold Int32.modulus in Hu.
  set (u := Int32.wrap x) in *.
  assert (E : u mod 256 + (u / 2 ^ 8) mod 256 * 2 ^ 8
              + (u / 2 ^ 16) mod 256 * 2 ^ 16
              + (u / 2 ^ 24) mod 256 * 2 ^ 24 = u).
  { assert (H24 : u / 2 ^ 24 < 256)
      by (apply Z.div_lt_upper_bound; lia).
    assert (H24' : 0 <= u / 2 ^ 24) by (apply Z.div_pos; lia).
    rewrite (Z.mod_small (u / 2 ^ 24)) by lia.
    replace (u / 2 ^ 24) with (u / 2 ^ 16 / 2 ^ 8)
      by (rewrite Z.div_div by lia; f_equal).
    replace (u / 2 ^ 16) with (u / 2 ^ 8 / 2 ^ 8)
      by (rewrite Z.div_div by lia; f_equal).
    pose proof (Z.div_mod u 256 ltac:(lia)) as D0.
    pose proof (Z.div_mod (u / 2 ^ 8) 256 ltac:(lia)) as D1.
    pose proof (Z.div_mod (u / 2 ^ 8 / 2 ^ 8) 256 ltac:(lia)) as D2.
    change (2 ^ 8) with 256 in *. lia. }
  rewrite E. subst u.
  rewrite <- (signed_in_range x Hx) at 2.
  unfold Int32.signed. now rewrite wrap_wrap.
Qed.

Lemma memcpy_length data off src data' :
  memcpy data off src = Some data' -> length data' = length data.
Proof.
  unfold memcpy. destruct (_ && _) eqn:E; [|discriminate].
  intros [= <-]. apply andb_true_iff in E as [E1 E2].
  apply Z.leb_le in E1, E2.
  rewrite !length_app, length_take, length_drop. lia.
Qed.

Lemma memcpy_defined data off src :
  0 <= off -> off + Z.of_nat (length src) <= Z.of_nat (length data) ->
  exists data', memcpy data off src = Some data'.
Proof.
  intros H1 H2. unfold memcpy.
  apply Z.leb_le in H1, H2. rewrite H1, H2. eauto.
Qed.

Lemma read_memcpy_same data off src data' :
  memcpy data off src = Some data' ->
  read data' off (Z.of_nat (length src)) = Some src.
Proof.
  intros Hm. pose proof (memcpy_length _ _ _ _ Hm) as Hl.
  unfold memcpy in Hm. destruct (_ && _) eqn:E; [|discriminate].
  injection Hm as <-. apply andb_true_iff in E as [E1 E2].
  unfold read. rewrite Hl, E1, E2.
  replace (0 <=? Z.of_nat (length src)) with true
    by (symmetry; apply Z.leb_le; lia).
  simpl. f_equal. apply Z.leb_le in E1, E2.
  rewrite drop_app_length'
    by (rewrite length_take; lia).
  rewrite Nat2Z.id. now rewrite take_app_length.
Qed.

Lemma read_memcpy_other data off src data' o n :
  memcpy data off src = Some data' ->
  o + n <= off \/ off + Z.of_nat (length src) <= o ->
  read data' o n = read data o n.
Proof.
  intros Hm Hdisj. pose proof (memcpy_length _ _ _ _ Hm) as Hl.
  unfold memcpy in Hm. destruct (_ && _) eqn:E; [|discriminate].
  injection Hm as <-. apply andb_true_iff in E as [E1 E2].
  apply Z.leb_le in E1, E2.
  unfold read. rewrite Hl.
  destruct (_ && _) eqn:E'; [|reflexivity].
  apply andb_true_iff in E' as [E' E5]. apply andb_true_iff in E' as [E3 E4].
  apply Z.leb_le in E3, E4, E5. f_equal.
  apply list_eq. intros i.
  rewrite !lookup_take, !lookup_drop.
  destruct (decide (i < Z.to_nat n)%nat) as [Hi | Hi]; [|reflexivity].
  destruct Hdisj as [Hd | Hd].
  - rewrite lookup_app_l by (rewrite length_take; lia).
    rewrite lookup_take. rewrite decide_True by lia. reflexivity.
  - rewrite app_assoc.
    rewrite lookup_app_r by (rewrite length_app, length_take; lia).
    rewrite length_app, length_take, lookup_drop.
    f_equal. lia.
Qed.

End BytesFacts.

(** ** The snapshot blob: reading back what [CreateSnapshotBlob] wrote *)

Section SnapshotFacts.

Import Bytes Snapshot.

Lemma length_int_nonneg bs : 0 <= length_int bs.
Proof. unfold length_int. lia. Qed.

Lemma payload_size_nonneg cs : 0 <= payload_size cs.
Proof.
  induction cs as [| c cs IH]; simpl; [lia |].
  pose proof (length_int_nonneg (RawData c)). lia.
Qed.

Lemma payload_size_app cs1 cs2 :
  payload_size (cs1 ++ cs2) = payload_size cs1 + payload_size cs2.
Proof. induction cs1 as [| c cs1 IH]; simpl; lia. Qed.

Lemma payload_size_take_S cs (j : nat) c :
  cs !! j = Some c ->
  payload_size (take (S j) cs)
  = payload_size (take j cs) + length_int (RawData c).
Proof.
  intros Hj. rewrite (take_S_r _ _ _ Hj), payload_size_app. simpl. lia.
Qed.

Lemma payload_size_take_le cs (j : nat) :
  payload_size (take j cs) <= payload_size cs.
Proof.
  rewrite <- (take_drop j cs) at 2. rewrite payload_size_app.
  pose proof (payload_size_nonneg (drop j cs)). lia.
Qed.

Lemma payload_size_before_last cs (j : nat) c :
  last cs = Some c -> (S j < length cs)%nat ->
  payload_size (take (S j) cs) + length_int (RawData c)
  <= payload_size cs.
Proof.
  intros Hl Hj. rewrite <- (take_drop (S j) cs) at 2.
  rewrite payload_size_app.
  assert (Hd : last (drop (S j) cs) = Some c).
  { rewrite <- Hl. rewrite <- (take_drop (S j) cs) at 2.
    destruct (drop (S j) cs) as [| d ds] eqn:E.
    - apply (f_equal length) in E. rewrite length_drop in E.
      simpl in E. lia.
    - now rewrite last_app_cons. }
  destruct (drop (S j) cs) as [| d ds] using rev_ind; [discriminate |].
  rewrite last_snoc in Hd. injection Hd as ->.
  rewrite payload_size_app. simpl.
  pose proof (payload_size_nonneg ds). lia.
Qed.

Lemma int_add_exact a b :
  Int32.in_range (a + b) -> int_add a b = a + b.
Proof. apply signed_in_range. Qed.

Lemma add_lengths_exact cs total :
  0 <= total -> total + payload_size cs <= Int32.kMaxInt ->
  add_lengths total cs = total + payload_size cs.
Proof.
  revert total. induction cs as [| c cs IH]; intros total H0 Hmax.
  - simpl. lia.
  - simpl in *. pose proof (length_int_nonneg (RawData c)).
    pose proof (payload_size_nonneg cs).
    unfold add_lengths in *. rewrite int_add_exact
      by (Int32.numerals; lia).
    rewrite IH by lia. lia.
Qed.

Lemma read_int32_frame d d' o :
  read d' o 4 = read d o 4 -> read_int32 d' o = read_int32 d o.
Proof. unfold read_int32. now intros ->. Qed.

Lemma read_int32_memcpy d off x d' :
  Int32.in_range x ->
  memcpy d off (int32_bytes x) = Some d' -> read_int32 d' off = Some x.
Proof.
  intros Hx Hm. unfold read_int32.
  apply read_memcpy_same in Hm. rewrite int32_bytes_length in Hm.
  change (Z.of_nat 4) with 4 in Hm. rewrite Hm. simpl.
  now apply int32_roundtrip.
Qed.

Variable h : Header.
Hypothesis laws : HeaderLaws h.

Lemma offsets_monotone (k : nat) i : 0 <= i ->
  ContextSnapshotOffsetOffset h i + kInt32Size * Z.of_nat k
  <= ContextSnapshotOffsetOffset h (i + Z.of_nat k).
Proof.
  intros Hi. induction k as [| k IH].
  - replace (i + Z.of_nat 0) with i by lia. lia.
  - pose proof (offsets_in_sequence h laws (i + Z.of_nat k) ltac:(lia)).
    replace (i + Z.of_nat (S k)) with (i + Z.of_nat k + 1) by lia.
    unfold kInt32Size in *. lia.
Qed.

Lemma offsets_nonneg i : 0 <= i -> 0 <= ContextSnapshotOffsetOffset h i.
Proof.
  intros Hi. pose proof (offsets_monotone (Z.to_nat i) 0 ltac:(lia)) as H.
  rewrite Z2Nat.id, Z.add_0_l in H by lia.
  destruct (num_contexts_before_offsets h laws).
  unfold kInt32Size in *. lia.
Qed.

Lemma copy_contexts_spec cs : forall i off d,
  0 <= i ->
  ContextSnapshotOffsetOffset h (i + Z.of_nat (length cs)) <= off ->
  off + payload_size cs <= Z.of_nat (length d) ->
  off + payload_size cs <= Int32.kMaxInt ->
  exists d',
    copy_contexts h cs i off d = Ok d' /\
    length d' = length d /\
    (forall o n,
        o + n <= ContextSnapshotOffsetOffset h i \/
        (ContextSnapshotOffsetOffset h (i + Z.of_nat (length cs)) <= o /\
         o + n <= off) \/
        off + payload_size cs <= o ->
        read d' o n = read d o n) /\
    (forall (j : nat) c, cs !! j = Some c ->
        read_int32 d' (ContextSnapshotOffsetOffset h (i + Z.of_nat j))
        = Some (off + payload_size (take j cs)) /\
        read d' (off + payload_size (take j cs))
             (length_int (RawData c))
        = Some (RawData c)).
Proof.
  induction cs as [| c cs IH]; intros i off d Hi Hhdr Hlen Hmax.
  - exists d. repeat split; try reflexivity; intros; discriminate.
  - pose proof (offsets_nonneg i Hi) as Hnn.
    pose proof (offsets_in_sequence h laws i Hi) as Hstep.
    pose proof (offsets_monotone (length cs) (i + 1) ltac:(lia)) as Hmono.
    pose proof (length_int_nonneg (RawData c)) as Hc.
    pose proof (payload_size_nonneg cs) as Hps.
    replace (i + Z.of_nat (length (c :: cs)))
      with (i + 1 + Z.of_nat (length cs)) in Hhdr
      by (simpl length; lia).
    simpl payload_size in Hlen, Hmax. unfold kInt32Size in *.
    destruct (memcpy_defined d (ContextSnapshotOffsetOffset h i)
                (int32_bytes off)) as [d1 Hd1];
      [lia | rewrite int32_bytes_length; lia |].
    pose proof (memcpy_length _ _ _ _ Hd1) as Hl1.
    destruct (memcpy_defined d1 off (RawData c)) as [d2 Hd2];
      [lia | unfold length_int in *; lia |].
    pose proof (memcpy_length _ _ _ _ Hd2) as Hl2.
    destruct (IH (i + 1) (off + length_int (RawData c)) d2)
      as (d' & Hrun & Hl' & Hframe & Hread); try lia.
    exists d'. split; [| split; [lia | split]].
    + simpl. rewrite Hd1. simpl. rewrite Hd2. simpl.
      rewrite int_add_exact by (Int32.numerals; lia). exact Hrun.
    + intros o n Ho.
      replace (i + Z.of_nat (length (c :: cs)))
        with (i + 1 + Z.of_nat (length cs)) in Ho
        by (simpl length; lia).
      simpl payload_size in Ho.
      rewrite Hframe by lia.
      rewrite (read_memcpy_other _ _ _ _ _ _ Hd2)
        by (unfold length_int in *; lia).
      rewrite (read_memcpy_other _ _ _ _ _ _ Hd1)
        by (rewrite int32_bytes_length; lia).
      reflexivity.
    + intros [| j] c' Hj.
      * injection Hj as <-. simpl take. simpl payload_size.
        rewrite !Z.add_0_r. split.
        -- rewrite (read_int32_frame d2)
             by (apply Hframe; lia).
           rewrite (read_int32_frame d1)
             by (apply (read_memcpy_other _ _ _ _ _ _ Hd2); lia).
           apply (read_int32_memcpy d); [Int32.numerals; lia | exact Hd1].
        -- rewrite Hframe by lia.
           apply (read_memcpy_same _ _ _ _ Hd2).
      * simpl in Hj. destruct (Hread j c' Hj) as [R1 R2].
        simpl take. simpl payload_size.
        replace (i + Z.of_nat (S j)) with (i + 1 + Z.of_nat j) by lia.
        rewrite Z.add_assoc. split; assumption.
Qed.

End SnapshotFacts.

(** ** The sizes of the first pages *)

Section SnapshotPagesFacts.

Import Bytes Snapshot SnapshotPages.

Lemma lookup_raise_to requirements totals (i : nat) :
  raise_to requirements totals !! i
  = match requirements !! i with
    | Some v =>
        Some (match totals !! i with Some t => Z.max v t | None => v end)
    | None => None
    end.
Proof.
  unfold raise_to.
  destruct (decide (i < length totals)%nat) as [Hi | Hi].
  - destruct (lookup_lt_is_Some_2 totals i Hi) as [t Ht]. rewrite Ht.
    destruct (requirements !! i) as [v |] eqn:Hv.
    + rewrite lookup_app_l
        by (rewrite length_zip_with; apply lookup_lt_Some in Hv; lia).
      rewrite lookup_zip_with, Hv. simpl. now rewrite Ht.
    + apply lookup_ge_None in Hv. apply lookup_ge_None.
      rewrite length_app, length_zip_with, length_drop. lia.
  - rewrite (lookup_ge_None_2 totals i) by lia.
    destruct (decide (length requirements <= length totals)%nat) as [Hl | Hl].
    + rewrite (lookup_ge_None_2 requirements i) by lia.
      apply lookup_ge_None.
      rewrite length_app, length_zip_with, length_drop. lia.
    + rewrite lookup_app_r by (rewrite length_zip_with; lia).
      rewrite length_zip_with, lookup_drop.
      replace (length totals
               + (i - length requirements `min` length totals))%nat
        with i by lia.
      now destruct (requirements !! i).
Qed.

Lemma length_raise_to requirements totals :
  length (raise_to requirements totals) = length requirements.
Proof.
  unfold raise_to. rewrite length_app, length_zip_with, length_drop. lia.
Qed.

(** The loop, from any state: it raises the entries from [space] on. *)
Lemma update_requirements_spec reservations :
  forall (s : nat) current requirements,
    (s <= length requirements)%nat ->
    let totals := space_totals reservations current in
    update_requirements reservations (Z.of_nat s) current requirements
    = if (s + length totals <=? length requirements)%nat
      then Ok (take s requirements
               ++ raise_to (drop s requirements) totals,
               Z.of_nat (s + length totals))
      else Undefined.
Proof.
  induction reservations as [| r rest IH]; intros s current reqs Hs; cbn.
  - rewrite Nat.add_0_r.
    destruct (Nat.leb_spec s (length reqs)) as [_ | ?]; [| lia].
    unfold raise_to. rewrite zip_with_nil_r. cbn [length app].
    rewrite drop_0, take_drop. reflexivity.
  - destruct (is_last r); cbn.
    + unfold at_index.
      destruct (Z.ltb_spec (Z.of_nat s) 0) as [? | _]; [lia |].
      rewrite Nat2Z.id.
      destruct (reqs !! s) as [old |] eqn:Hold; cbn.
      * pose proof (lookup_lt_Some _ _ _ Hold) as Hlt.
        unfold put_index.
        destruct (Z.leb_spec 0 (Z.of_nat s)) as [_ | ?]; [| lia].
        destruct (Z.ltb_spec (Z.of_nat s) (Z.of_nat (length reqs)))
          as [_ | ?]; [| lia].
        cbn. rewrite Nat2Z.id.
        replace (Z.of_nat s + 1) with (Z.of_nat (S s)) by lia.
        rewrite IH by (rewrite length_insert; lia).
        rewrite length_insert.
        replace (s + S (length (space_totals rest 0)))%nat
          with (S s + length (space_totals rest 0))%nat by lia.
        destruct (_ <=? _)%nat; [| reflexivity].
        do 2 f_equal.
        rewrite (take_S_r _ _ (Z.max old (uint32_add current (chunk_size r))))
          by (apply list_lookup_insert_eq; lia).
        rewrite take_insert_ge by lia.
        rewrite drop_insert_lt by lia.
        rewrite <- app_assoc. f_equal.
        rewrite (drop_S _ _ _ Hold). unfold raise_to. cbn.
        reflexivity.
      * apply lookup_ge_None in Hold.
        destruct (Nat.leb_spec (s + S (length (space_totals rest 0)))
                    (length reqs)); [lia | reflexivity].
    + apply IH. exact Hs.
Qed.

Lemma UpdateMaxRequirementPerPage_eq requirements reservations :
  UpdateMaxRequirementPerPage requirements reservations
  = if (length (space_totals reservations 0) <=? length requirements)%nat
    then Ok (raise_to requirements (space_totals reservations 0))
    else Undefined.
Proof.
  unfold UpdateMaxRequirementPerPage.
  change 0 with (Z.of_nat 0) at 1.
  rewrite update_requirements_spec by lia. cbn [Nat.add].
  destruct (_ <=? _)%nat; [| reflexivity]. cbn.
  now rewrite drop_0.
Qed.

(** X21: [UpdateMaxRequirementPerPage] is defined exactly when the
    reservations name no more spaces than the array has entries; it then
    keeps the number of entries and raises the entry of each space to the
    sum of the chunk sizes reserved in that space, if that is larger, so
    that no entry gets smaller. *)
Theorem UpdateMaxRequirementPerPage_raises requirements reservations :
  let totals := space_totals reservations 0 in
  if (length totals <=? length requirements)%nat
  then exists requirements',
      UpdateMaxRequirementPerPage requirements reservations
      = Ok requirements' /\
      length requirements' = length requirements /\
      forall (space : nat) v,
        requirements !! space = Some v ->
        exists v',
          requirements' !! space = Some v' /\ v <= v' /\
          v' = match totals !! space with
               | Some total => Z.max v total
               | None => v
               end
  else UpdateMaxRequirementPerPage requirements reservations = Undefined.
Proof.
  intros totals. rewrite UpdateMaxRequirementPerPage_eq. fold totals.
  destruct (_ <=? _)%nat; [| reflexivity].
  eexists. split; [reflexivity |]. split; [apply length_raise_to |].
  intros space v Hv. rewrite lookup_raise_to, Hv.
  eexists. split; [reflexivity |]. split; [| reflexivity].
  destruct (totals !! space); lia.
Qed.

(** X22: The order in which [UpdateMaxRequirementPerPage] sees two lists
    of reservations does not matter, and seeing a list a second time
    changes nothing: the requirements are those of the largest
    snapshot. *)
Theorem UpdateMaxRequirementPerPage_commutes requirements a b :
  (UpdateMaxRequirementPerPage requirements a
   ≫= fun r => UpdateMaxRequirementPerPage r b)
  = (UpdateMaxRequirementPerPage requirements b
     ≫= fun r => UpdateMaxRequirementPerPage r a) /\
  (UpdateMaxRequirementPerPage requirements a
   ≫= fun r => UpdateMaxRequirementPerPage r a)
  = UpdateMaxRequirementPerPage requirements a.
Proof.
  rewrite !UpdateMaxRequirementPerPage_eq.
  set (ta := space_totals a 0). set (tb := space_totals b 0).
  split.
  - destruct (Nat.leb_spec (length ta) (length requirements)) as [Ha | Ha],
      (Nat.leb_spec (length tb) (length requirements)) as [Hb | Hb];
      cbn; rewrite ?UpdateMaxRequirementPerPage_eq, ?length_raise_to;
      fold ta tb.
    + destruct (Nat.leb_spec (length tb) (length requirements)); [| lia].
      destruct (Nat.leb_spec (length ta) (length requirements)); [| lia].
      f_equal. apply list_eq. intros i. rewrite !lookup_raise_to.
      destruct (requirements !! i), (ta !! i), (tb !! i);
        try reflexivity; f_equal; lia.
    + destruct (Nat.leb_spec (length tb) (length requirements));
        [lia | reflexivity].
    + destruct (Nat.leb_spec (length ta) (length requirements));
        [lia | reflexivity].
    + reflexivity.
  - destruct (Nat.leb_spec (length ta) (length requirements)) as [Ha | Ha];
      cbn; [| reflexivity].
    rewrite UpdateMaxRequirementPerPage_eq, length_raise_to. fold ta.
    destruct (Nat.leb_spec (length ta) (length requirements)); [| lia].
    f_equal. apply list_eq. intros i. rewrite !lookup_raise_to.
    destruct (requirements !! i), (ta !! i); try reflexivity; f_equal; lia.
Qed.

Lemma at_index_defined xs i :
  0 <= i < Z.of_nat (length xs) -> exists v, at_index xs i = Ok v.
Proof.
  intros Hi. unfold at_index.
  destruct (Z.ltb_spec i 0) as [? | _]; [lia |].
  destruct (lookup_lt_is_Some_2 xs (Z.to_nat i) ltac:(lia)) as [v ->].
  now exists v.
Qed.

Variable sp : Spaces.

Lemma update_for_contexts_length contexts : forall requirements,
  Forall (fun context =>
            (length (space_totals (Reservations sp context) 0)
             <= length requirements)%nat) contexts ->
  exists requirements',
    update_for_contexts sp requirements contexts = Ok requirements' /\
    length requirements' = length requirements.
Proof.
  induction contexts as [| context rest IH]; intros reqs Hfit; cbn.
  - now exists reqs.
  - apply Forall_cons in Hfit as [Hhead Hrest].
    rewrite UpdateMaxRequirementPerPage_eq.
    destruct (Nat.leb_spec
                (length (space_totals (Reservations sp context) 0))
                (length reqs)); [| lia].
    cbn. destruct (IH (raise_to reqs
                         (space_totals (Reservations sp context) 0)))
      as (r' & Hrun & Hlen).
    + now rewrite length_raise_to.
    + exists r'. split; [exact Hrun |].
      now rewrite Hlen, length_raise_to.
Qed.

(** The last loop writes, for every paged space it visits, a size that is
    at most the page area of the space, and nothing else. *)
Lemma limit_first_pages_spec startup context spaces : forall sizes_out,
  length context = length startup ->
  Forall (fun space => 0 <= space < Z.of_nat (length startup)) spaces ->
  (forall space, In space spaces ->
     FIRST_PAGED_SPACE sp <= space <= LAST_PAGED_SPACE sp ->
     0 <= space - FIRST_PAGED_SPACE sp < Z.of_nat (length sizes_out)) ->
  exists sizes,
    limit_first_pages sp startup context spaces sizes_out = Ok sizes /\
    length sizes = length sizes_out /\
    forall space, In space spaces ->
      FIRST_PAGED_SPACE sp <= space <= LAST_PAGED_SPACE sp ->
      exists v,
        sizes !! Z.to_nat (space - FIRST_PAGED_SPACE sp) = Some v /\
        0 <= v <= Int32.wrap (PageAreaSize sp space).
Proof.
  induction spaces as [| space rest IH]; intros sizes_out Hlen Hin Hpaged.
  - exists sizes_out. repeat split. intros ? [].
  - apply Forall_cons in Hin as [Hspace Hrest]. cbn.
    destruct (at_index_defined startup space Hspace) as [st ->].
    destruct (at_index_defined context space ltac:(lia)) as [ct ->].
    cbn.
    set (required := if space =? CODE_SPACE sp then _ else _).
    assert (Hreq : 0 <= required).
    { unfold required, uint32_add.
      destruct (space =? CODE_SPACE sp); apply wrap_range. }
    pose proof (wrap_range (PageAreaSize sp space)) as Hmax.
    destruct (Z.leb_spec (FIRST_PAGED_SPACE sp) space) as [Hlo | Hlo];
      [destruct (Z.leb_spec space (LAST_PAGED_SPACE sp)) as [Hhi | Hhi] |];
      cbn [andb].
    + (* A paged space: its size is written. *)
      destruct (Hpaged space ltac:(now left) ltac:(lia)) as [Hi0 Hi1].
      unfold put_index.
      destruct (Z.leb_spec 0 (space - FIRST_PAGED_SPACE sp)); [| lia].
      destruct (Z.ltb_spec (space - FIRST_PAGED_SPACE sp)
                  (Z.of_nat (length sizes_out))); [| lia].
      cbn.
      set (v := Z.min required (Int32.wrap (PageAreaSize sp space))).
      set (sizes1 := <[Z.to_nat (space - FIRST_PAGED_SPACE sp) := v]>
                       sizes_out).
      destruct (IH sizes1 Hlen Hrest) as (sizes & Hrun & Hl & Hall).
      { intros space' Hin' Hp'. unfold sizes1. rewrite length_insert.
        apply Hpaged; [now right | exact Hp']. }
      exists sizes. split; [exact Hrun |].
      split; [unfold sizes1 in Hl; now rewrite length_insert in Hl |].
      intros space' [<- | Hin'] Hp'; [| now apply Hall].
      destruct (in_dec Z.eq_dec space rest) as [Hagain | Hnew];
        [now apply Hall |].
      (* No later space writes this entry. *)
      assert (Hkeep : forall l sizes0,
        ~ In space l ->
        limit_first_pages sp startup context l sizes0 = Ok sizes ->
        sizes !! Z.to_nat (space - FIRST_PAGED_SPACE sp)
        = sizes0 !! Z.to_nat (space - FIRST_PAGED_SPACE sp)).
      { clear - Hlo. induction l as [| s l IHl]; intros sizes0 Hnot Hrun.
        - cbn in Hrun. now injection Hrun as ->.
        - cbn in Hrun.
          destruct (at_index startup s); try discriminate.
          destruct (at_index context s); try discriminate. cbn in Hrun.
          assert (Hs : s <> space) by (intros ->; apply Hnot; now left).
          assert (Hl : ~ In space l) by (intros H; apply Hnot; now right).
          destruct (_ && _) eqn:Epaged.
          + unfold put_index in Hrun.
            destruct (_ && _) eqn:Ein in Hrun; try discriminate.
            cbn in Hrun. rewrite (IHl _ Hl Hrun).
            apply andb_true_iff in Ein as [E0 _]. apply Z.leb_le in E0.
            apply andb_true_iff in Epaged as [E1 _]. apply Z.leb_le in E1.
            apply list_lookup_insert_ne. lia.
          + now apply IHl. }
      rewrite (Hkeep rest sizes1 Hnew Hrun). unfold sizes1.
      rewrite list_lookup_insert_eq by lia.
      exists v. split; [reflexivity |]. unfold v. lia.
    + destruct (IH sizes_out Hlen Hrest) as (sizes & Hrun & Hl & Hall).
      { intros space' Hin' Hp'. apply Hpaged; [now right | exact Hp']. }
      exists sizes. split; [exact Hrun |]. split; [exact Hl |].
      intros space' [<- | Hin'] Hp'; [lia | now apply Hall].
    + destruct (IH sizes_out Hlen Hrest) as (sizes & Hrun & Hl & Hall).
      { intros space' Hin' Hp'. apply Hpaged; [now right | exact Hp']. }
      exists sizes. split; [exact Hrun |]. split; [exact Hl |].
      intros space' [<- | Hin'] Hp'; [lia | now apply Hall].
Qed.

(** X23: [CalculateFirstPageSizes] stays inside its arrays and leaves
    for every paged space a first page that is no larger than the page
    area of the space, when no snapshot reserves in more spaces than
    there are, the paged spaces are among the spaces, and the output
    array has an entry for each of them. *)
Theorem CalculateFirstPageSizes_bounded
        (startup_snapshot : SnapshotData)
        (context_snapshots : list SnapshotData) (sizes_out : list Z) :
  let fits snapshot :=
    Z.of_nat (length (space_totals (Reservations sp snapshot) 0))
    <= kNumberOfSpaces sp in
  fits startup_snapshot -> Forall fits context_snapshots ->
  0 <= FIRST_PAGED_SPACE sp ->
  LAST_PAGED_SPACE sp < kNumberOfSpaces sp ->
  LAST_PAGED_SPACE sp - FIRST_PAGED_SPACE sp
  < Z.of_nat (length sizes_out) ->
  exists sizes,
    CalculateFirstPageSizes sp startup_snapshot context_snapshots sizes_out
    = Ok sizes /\
    length sizes = length sizes_out /\
    forall space,
      FIRST_PAGED_SPACE sp <= space <= LAST_PAGED_SPACE sp ->
      exists v,
        sizes !! Z.to_nat (space - FIRST_PAGED_SPACE sp) = Some v /\
        0 <= v <= Int32.wrap (PageAreaSize sp space).
Proof.
  intros fits Hstartup Hcontexts Hfirst Hlast Hout.
  unfold CalculateFirstPageSizes.
  set (n := Z.to_nat (kNumberOfSpaces sp)).
  set (spaces := Z.of_nat <$> seq 0 n).
  set (zeros := (fun _ : Z => 0) <$> spaces).
  assert (Hzeros : length zeros = n).
  { unfold zeros, spaces. now rewrite !length_fmap, length_seq. }
  rewrite UpdateMaxRequirementPerPage_eq, Hzeros.
  destruct (Nat.leb_spec
              (length (space_totals (Reservations sp startup_snapshot) 0))
              n) as [_ | Hbad]; [| unfold fits in Hstartup; lia].
  cbn.
  destruct (update_for_contexts_length context_snapshots zeros)
    as (context & -> & Hclen).
  { rewrite Hzeros. eapply Forall_impl; [exact Hcontexts |].
    intros snapshot Hfit. unfold fits in Hfit. cbn beta in Hfit. lia. }
  cbn.
  set (startup := raise_to zeros _).
  assert (Hslen : length startup = n)
    by (unfold startup; now rewrite length_raise_to).
  destruct (limit_first_pages_spec startup context spaces sizes_out)
    as (sizes & Hrun & Hlen & Hall).
  - congruence.
  - unfold spaces. apply Forall_fmap, Forall_forall.
    intros i Hi. apply elem_of_seq in Hi. cbn. lia.
  - intros space _ Hp. lia.
  - exists sizes. split; [exact Hrun |]. split; [exact Hlen |].
    intros space Hp. apply Hall; [| exact Hp].
    unfold spaces. apply list_elem_of_In, list_elem_of_fmap.
    exists (Z.to_nat space). split; [lia |].
    apply elem_of_seq. lia.
Qed.

(** The same for spaces that are laid out in any way: the computation
    is defined when the output array has an entry for each paged space,
    and every paged space that is a space gets its size. *)
Lemma CalculateFirstPageSizes_defined
      (startup_snapshot : SnapshotData)
      (context_snapshots : list SnapshotData) (sizes_out : list Z) :
  reserves_in_spaces sp startup_snapshot ->
  Forall (reserves_in_spaces sp) context_snapshots ->
  LAST_PAGED_SPACE sp - FIRST_PAGED_SPACE sp
  < Z.of_nat (length sizes_out) ->
  exists sizes,
    CalculateFirstPageSizes sp startup_snapshot context_snapshots sizes_out
    = Ok sizes /\
    length sizes = length sizes_out /\
    forall space,
      0 <= space < kNumberOfSpaces sp ->
      FIRST_PAGED_SPACE sp <= space <= LAST_PAGED_SPACE sp ->
      exists v,
        sizes !! Z.to_nat (space - FIRST_PAGED_SPACE sp) = Some v /\
        0 <= v <= Int32.wrap (PageAreaSize sp space).
Proof.
  unfold reserves_in_spaces. intros Hstartup Hcontexts Hout.
  unfold CalculateFirstPageSizes.
  set (n := Z.to_nat (kNumberOfSpaces sp)).
  set (spaces := Z.of_nat <$> seq 0 n).
  set (zeros := (fun _ : Z => 0) <$> spaces).
  assert (Hzeros : length zeros = n).
  { unfold zeros, spaces. now rewrite !length_fmap, length_seq. }
  rewrite UpdateMaxRequirementPerPage_eq, Hzeros.
  destruct (Nat.leb_spec
              (length (space_totals (Reservations sp startup_snapshot) 0))
              n) as [_ | Hbad]; [| lia].
  cbn.
  destruct (update_for_contexts_length context_snapshots zeros)
    as (context & -> & Hclen).
  { rewrite Hzeros. eapply Forall_impl; [exact Hcontexts |].
    intros snapshot Hfit. cbn beta in Hfit. lia. }
  cbn.
  set (startup := raise_to zeros _).
  assert (Hslen : length startup = n)
    by (unfold startup; now rewrite length_raise_to).
  destruct (limit_first_pages_spec startup context spaces sizes_out)
    as (sizes & Hrun & Hlen & Hall).
  - congruence.
  - unfold spaces. apply Forall_fmap, Forall_forall.
    intros i Hi. apply elem_of_seq in Hi. cbn. lia.
  - intros space _ Hp. lia.
  - exists sizes. split; [exact Hrun |]. split; [exact Hlen |].
    intros space Hspace Hp. apply Hall; [| exact Hp].
    unfold spaces. apply list_elem_of_In, list_elem_of_fmap.
    exists (Z.to_nat space). split; [lia |].
    apply elem_of_seq. lia.
Qed.

End SnapshotPagesFacts.



Section SnapshotRoundTrip.

Import Bytes Snapshot SnapshotPages.

Lemma uint32_image_length xs :
  Z.of_nat (length (uint32_image xs)) = Z.of_nat (length xs) * 4.
Proof.
  unfold uint32_image. rewrite length_flat_map.
  rewrite (sum_list_fmap_const _ 4%nat) by (intros; reflexivity). lia.
Qed.

Lemma read_all data : read data 0 (Z.of_nat (length data)) = Some data.
Proof.
  unfold read. rewrite Nat2Z.id, drop_0, firstn_all.
  destruct (Z.leb_spec 0 0); [| lia].
  destruct (Z.leb_spec 0 (Z.of_nat (length data))); [| lia].
  destruct (Z.leb_spec (0 + Z.of_nat (length data))
              (Z.of_nat (length data))); [| lia].
  reflexivity.
Qed.

Variable h : Header.
Hypothesis laws : HeaderLaws h.

Variable sp : Spaces.
Hypothesis spaces_laws : SpacesLaws h sp.

Variable startup : SnapshotData.
Variable contexts : list SnapshotData.

Hypothesis startup_reserves : reserves_in_spaces sp startup.
Hypothesis contexts_reserve : Forall (reserves_in_spaces sp) contexts.

Let n : Z := Z.of_nat (length contexts).
Let off0 : Z := StartupSnapshotOffset h n + length_int (RawData startup).
Let total : Z := off0 + payload_size contexts.

(** What [CreateSnapshotBlob] writes: the first page sizes that
    [CalculateFirstPageSizes] has put into the local array, the number
    of contexts, the startup data, and the offset and the data of every
    context. The first page sizes are still there at the end when they
    lie before the number of contexts. *)
Lemma blob_written :
  total <= Int32.kMaxInt ->
  exists d sizes,
    CreateSnapshotBlob h sp startup contexts
    = Ok {| data := d; raw_size := total |} /\
    Z.of_nat (length d) = total /\
    read_int32 d (kNumberOfContextsOffset h) = Some n /\
    read d (StartupSnapshotOffset h n) (length_int (RawData startup))
    = Some (RawData startup) /\
    (forall (j : nat) c, contexts !! j = Some c ->
        read_int32 d (ContextSnapshotOffsetOffset h (Z.of_nat j))
        = Some (off0 + payload_size (take j contexts)) /\
        read d (off0 + payload_size (take j contexts))
             (length_int (RawData c))
        = Some (RawData c)) /\
    CalculateFirstPageSizes sp startup contexts
      (uint32_array h (kNumPagedSpaces h)) = Ok sizes /\
    Z.of_nat (length sizes) = kNumPagedSpaces h /\
    (forall space,
        FIRST_PAGED_SPACE sp <= space <= LAST_PAGED_SPACE sp ->
        exists v,
          sizes !! Z.to_nat (space - FIRST_PAGED_SPACE sp) = Some v /\
          0 <= v <= Int32.wrap (PageAreaSize sp space)) /\
    (kFirstPageSizesOffset h + kNumPagedSpaces h * kInt32Size
     <= kNumberOfContextsOffset h ->
     read d (kFirstPageSizesOffset h) (kNumPagedSpaces h * kInt32Size)
     = Some (uint32_image sizes)).
Proof.
  intros Hmax.
  assert (Hn : 0 <= n) by (unfold n; lia).
  destruct (page_sizes_in_header h laws n Hn) as (Hp0 & Hp1 & Hp2).
  destruct (num_contexts_before_offsets h laws) as [Hc0 Hc1].
  pose proof (offsets_before_startup h laws n Hn) as Hos.
  pose proof (offsets_monotone h laws (length contexts) 0 ltac:(lia)) as Hom.
  rewrite Z.add_0_l in Hom. fold n in Hom.
  pose proof (length_int_nonneg (RawData startup)) as Hs.
  pose proof (payload_size_nonneg contexts) as Hps.
  destruct (paged_spaces_are_spaces h sp spaces_laws) as [Hfirst Hlast].
  pose proof (paged_spaces_counted h sp spaces_laws) as Hcount.
  pose proof (uint32_array_length h laws (kNumPagedSpaces h) Hp1) as Hlocal.
  unfold kInt32Size in *.
  assert (Htot : 0 <= total) by (unfold total, off0; lia).
  pose proof (new_char_array_length h laws total Htot) as Hlen0.
  destruct (CalculateFirstPageSizes_defined sp startup contexts
              (uint32_array h (kNumPagedSpaces h)))
    as (sizes & Hsizes & Hslen & Hpaged);
    [exact startup_reserves | exact contexts_reserve | lia |].
  assert (Hslen' : Z.of_nat (length sizes) = kNumPagedSpaces h) by lia.
  unfold CreateSnapshotBlob. fold n.
  rewrite (int_add_exact (StartupSnapshotOffset h n))
    by (unfold total, off0 in *; Int32.numerals; lia).
  fold off0. rewrite add_lengths_exact by (unfold total, off0 in *; lia).
  fold total. rewrite Hsizes. cbn [mbind Result_bind].
  destruct (Z.ltb_spec total 0) as [Hneg | _]; [lia |].
  pose proof (uint32_image_length sizes) as Himage.
  replace (kNumPagedSpaces h * kInt32Size)
    with (Z.of_nat (length (uint32_image sizes)))
    by (unfold kInt32Size; lia).
  rewrite read_all. cbn [defined mbind Result_bind].
  destruct (memcpy_defined (new_char_array h total)
              (kFirstPageSizesOffset h) (uint32_image sizes)) as [d1 Hd1];
    [lia | unfold total, off0 in *; lia |].
  pose proof (memcpy_length _ _ _ _ Hd1) as Hl1.
  destruct (memcpy_defined d1 (kNumberOfContextsOffset h) (int32_bytes n))
    as [d2 Hd2];
    [lia | rewrite int32_bytes_length; unfold total, off0 in *; lia |].
  pose proof (memcpy_length _ _ _ _ Hd2) as Hl2.
  destruct (memcpy_defined d2 (StartupSnapshotOffset h n) (RawData startup))
    as [d3 Hd3];
    [lia | unfold total, off0, length_int in *; lia |].
  pose proof (memcpy_length _ _ _ _ Hd3) as Hl3.
  destruct (copy_contexts_spec h laws contexts 0 off0 d3)
    as (d & Hrun & Hl & Hframe & Hread);
    [lia | rewrite Z.add_0_l; fold n; unfold off0; lia
     | fold total; lia | fold total; lia |].
  exists d, sizes. rewrite Hd1. simpl. rewrite Hd2. simpl.
  rewrite Hd3. simpl. rewrite Hrun. simpl.
  split; [reflexivity |]. split; [lia |].
  split; [| split; [| split; [| split; [| split; [| split]]]]].
  - rewrite (read_int32_frame d3) by (apply Hframe; lia).
    rewrite (read_int32_frame d2)
      by (apply (read_memcpy_other _ _ _ _ _ _ Hd3); lia).
    apply (read_int32_memcpy d1); [Int32.numerals; lia | exact Hd2].
  - rewrite Hframe by (rewrite Z.add_0_l; fold n; unfold off0; lia).
    apply (read_memcpy_same _ _ _ _ Hd3).
  - intros j c Hj. specialize (Hread j c Hj).
    now rewrite Z.add_0_l in Hread.
  - reflexivity.
  - exact Hslen'.
  - intros space Hspace. apply Hpaged; [lia | exact Hspace].
  - intros Hlayout.
    rewrite Hframe by lia.
    rewrite (read_memcpy_other _ _ _ _ _ _ Hd3) by lia.
    rewrite (read_memcpy_other _ _ _ _ _ _ Hd2) by lia.
    replace (kNumPagedSpaces h * 4)
      with (Z.of_nat (length (uint32_image sizes))) by lia.
    apply (read_memcpy_same _ _ _ _ Hd1).
Qed.

(** C10, as the code has it: with at least one context snapshot, a last
    context snapshot whose raw data is not empty, snapshots of which none
    reserves in more spaces than there are, and a blob length that fits
    an [int], [CreateSnapshotBlob] returns a blob from which
    [ExtractNumContexts] reads the number of context snapshots,
    [ExtractStartupData] the raw data of the startup snapshot, and
    [ExtractContextData] at every index the raw data of that context
    snapshot. *)
Theorem snapshot_blob_roundtrip (c_last : SnapshotData) :
  last contexts = Some c_last ->
  RawData c_last <> [] ->
  total <= Int32.kMaxInt ->
  exists blob,
    CreateSnapshotBlob h sp startup contexts = Ok blob /\
    ExtractNumContexts h blob = Ok (Z.of_nat (length contexts)) /\
    (exists v, ExtractStartupData h blob = Ok v /\
               Vector_bytes blob v = Some (RawData startup)) /\
    (forall (i : nat) c, contexts !! i = Some c ->
       exists v, ExtractContextData h blob (Z.of_nat i) = Ok v /\
                 Vector_bytes blob v = Some (RawData c)).
Proof.
  intros Hlast Hne Hmax.
  destruct (blob_written Hmax)
    as (d & sizes & Hcreate & Hlen & Hnum & Hst & Hctx & _).
  assert (Hn : 0 <= n) by (unfold n; lia).
  destruct (page_sizes_in_header h laws n Hn) as (Hp0 & Hp1 & Hp2).
  destruct (num_contexts_before_offsets h laws) as [Hc0 Hc1].
  pose proof (offsets_before_startup h laws n Hn) as Hos.
  pose proof (offsets_monotone h laws (length contexts) 0 ltac:(lia)) as Hom.
  rewrite Z.add_0_l in Hom. fold n in Hom.
  pose proof (length_int_nonneg (RawData startup)) as Hs.
  pose proof (payload_size_nonneg contexts) as Hps.
  assert (Hlast_pos : 0 < length_int (RawData c_last)).
  { unfold length_int. destruct (RawData c_last); [congruence | simpl; lia]. }
  assert (Hn1 : 1 <= n).
  { unfold n. destruct contexts; [discriminate | simpl; lia]. }
  assert (Hlast_le : length_int (RawData c_last) <= payload_size contexts).
  { destruct contexts as [| c0 cs] using rev_ind; [discriminate |].
    rewrite last_snoc in Hlast. injection Hlast as ->.
    rewrite payload_size_app. simpl.
    pose proof (payload_size_nonneg cs). lia. }
  unfold kInt32Size in *.
  assert (Hnum' : ExtractNumContexts h {| data := d; raw_size := total |}
                  = Ok n).
  { unfold ExtractNumContexts. simpl. unfold CHECK_LT.
    destruct (Z.ltb_spec (kNumberOfContextsOffset h) total);
      [| unfold total, off0 in *; lia].
    simpl. now rewrite Hnum. }
  exists {| data := d; raw_size := total |}.
  split; [exact Hcreate |]. split; [exact Hnum' |]. split.
  - destruct contexts as [| c0 cs] eqn:Ecs; [discriminate |].
    destruct (Hctx 0%nat c0 eq_refl) as [Hoff _].
    simpl take in Hoff. simpl payload_size in Hoff at 1.
    rewrite Z.add_0_r in Hoff. change (Z.of_nat 0) with 0 in Hoff.
    eexists. split.
    + unfold ExtractStartupData. rewrite Hnum'. simpl. unfold CHECK_LT.
      destruct (Z.ltb_spec (StartupSnapshotOffset h n) total);
        [| unfold total, off0 in *; lia].
      simpl. rewrite Hoff. simpl.
      destruct (Z.ltb_spec off0 total); [| unfold total in *; lia].
      simpl. reflexivity.
    + unfold Vector_bytes. simpl.
      replace (off0 - StartupSnapshotOffset h n)
        with (length_int (RawData startup)) by (unfold off0; lia).
      rewrite signed_in_range
        by (unfold total, off0 in *; Int32.numerals; lia).
      exact Hst.
  - intros i c Hi. destruct (Hctx i c Hi) as [Hoff Hdata].
    pose proof (lookup_lt_Some _ _ _ Hi) as Hlt.
    pose proof (payload_size_take_le contexts i) as Hle.
    pose proof (payload_size_nonneg (take i contexts)) as Hge.
    pose proof (payload_size_take_S contexts i c Hi) as HS.
    pose proof (payload_size_take_le contexts (S i)) as HleS.
    pose proof (length_int_nonneg (RawData c)) as Hc.
    assert (Hhead : forall next,
      (if Z.of_nat i =? n - 1
       then Ok total
       else nx ← defined (read_int32 d
                 (ContextSnapshotOffsetOffset h (Z.of_nat i + 1)));
            CHECK_LT nx total ;; Ok nx) = Ok next ->
      ExtractContextData h {| data := d; raw_size := total |} (Z.of_nat i)
      = Ok {| start := off0 + payload_size (take i contexts);
              vlength := Int32.signed
                (next - (off0 + payload_size (take i contexts))) |}).
    { intros next Hnext. unfold ExtractContextData. rewrite Hnum'. simpl.
      unfold CHECK_LT.
      destruct (Z.ltb_spec (Z.of_nat i) n); [| unfold n in *; lia].
      simpl. rewrite Hoff. simpl.
      rewrite (signed_in_range (n - 1))
        by (unfold total, off0 in *; Int32.numerals; lia).
      destruct (Z.of_nat i =? n - 1).
      - now injection Hnext as <-.
      - unfold CHECK_LT in Hnext.
        destruct (read_int32 d
                    (ContextSnapshotOffsetOffset h (Z.of_nat i + 1)))
          as [nx |]; simpl in *; [| discriminate].
        destruct (nx <? total); simpl in *; [| discriminate].
        now injection Hnext as <-. }
    destruct (Z.eqb_spec (Z.of_nat i) (n - 1)) as [Heq | Hneq].
    + eexists. split; [apply Hhead; reflexivity |].
      unfold Vector_bytes. simpl.
      assert (Hall : take (S i) contexts = contexts)
        by (apply take_ge; unfold n in *; lia).
      rewrite Hall in HS.
      replace (total - (off0 + payload_size (take i contexts)))
        with (length_int (RawData c)) by (unfold total; lia).
      rewrite signed_in_range
        by (unfold total, off0 in *; Int32.numerals; lia).
      exact Hdata.
    + assert (HSi : (S i < length contexts)%nat) by (unfold n in *; lia).
      destruct (lookup_lt_is_Some_2 contexts (S i) HSi) as [c' Hc'].
      destruct (Hctx (S i) c' Hc') as [Hoff' _].
      pose proof (payload_size_before_last contexts i c_last Hlast HSi).
      eexists. split.
      * apply Hhead.
        replace (Z.of_nat i + 1) with (Z.of_nat (S i)) by lia.
        rewrite Hoff'. simpl. unfold CHECK_LT.
        destruct (Z.ltb_spec (off0 + payload_size (take (S i) contexts))
                             total); [| unfold total in *; lia].
        reflexivity.
      * unfold Vector_bytes. simpl.
        replace (off0 + payload_size (take (S i) contexts)
                 - (off0 + payload_size (take i contexts)))
          with (length_int (RawData c)) by lia.
        rewrite signed_in_range
          by (unfold total, off0 in *; Int32.numerals; lia).
        exact Hdata.
Qed.

End SnapshotRoundTrip.

Section SnapshotExamples.

Import Bytes Snapshot SnapshotPages.

Lemma example_header_laws : HeaderLaws example_header.
Proof.
  split; simpl; unfold kFirstContextOffsetOffset, kInt32Size; intros;
    try lia; rewrite repeat_length; lia.
Qed.

Lemma blob_spaces_laws : SpacesLaws example_header blob_spaces.
Proof. split; simpl; lia. Qed.

Lemma snapshot_blob_roundtrip_witness :
  exists blob,
    CreateSnapshotBlob example_header blob_spaces startup1
                       [context1; context2]
    = Ok blob /\
    ExtractNumContexts example_header blob = Ok 2 /\
    (exists v, ExtractStartupData example_header blob = Ok v /\
               Vector_bytes blob v = Some (RawData startup1)) /\
    (forall (i : nat) c, [context1; context2] !! i = Some c ->
       exists v, ExtractContextData example_header blob (Z.of_nat i) = Ok v /\
                 Vector_bytes blob v = Some (RawData c)).
Proof.
  apply (snapshot_blob_roundtrip example_header example_header_laws
           blob_spaces blob_spaces_laws startup1 [context1; context2])
    with (c_last := context2).
  - vm_compute. discriminate.
  - repeat constructor; vm_compute; discriminate.
  - reflexivity.
  - discriminate.
  - vm_compute. discriminate.
Defined.

(** C10 as stated fails without context snapshots: [ExtractStartupData]
    takes the end of the startup data from the offset field of context 0,
    which an empty list never writes; the four bytes read there are the
    first bytes of the startup data itself. *)
Lemma snapshot_blob_no_contexts :
  exists blob v,
    CreateSnapshotBlob example_header blob_spaces startup17 [] = Ok blob /\
    ExtractNumContexts example_header blob = Ok 0 /\
    ExtractStartupData example_header blob = Ok v /\
    Vector_bytes blob v = Some [x11] /\
    Vector_bytes blob v <> Some (RawData startup17).
Proof.
  eexists. eexists. split; [vm_compute; reflexivity |].
  split; [vm_compute; reflexivity |].
  split; [vm_compute; reflexivity |].
  split; [vm_compute; reflexivity | vm_compute; discriminate].
Qed.

(** With an empty last context snapshot the [CHECK_LT] on the next offset
    fails for the context before it. *)
Example snapshot_blob_empty_last_context :
  CreateSnapshotBlob example_header blob_spaces startup1
    [context1; {| RawData := [] |}]
  ≫= (fun blob => ExtractContextData example_header blob 0)
  = CheckFailed.
Proof. vm_compute. reflexivity. Qed.

(** A snapshot that reserves in six spaces, where there are five, takes
    [UpdateMaxRequirementPerPage] out of its array: no blob is
    written. *)
Example snapshot_blob_too_many_spaces :
  CreateSnapshotBlob example_header blob_spaces
    {| RawData := [x01; x02; x03; x04; x05; x06] |} [context1]
  = Undefined.
Proof. vm_compute. reflexivity. Qed.

End SnapshotExamples.

(** ** Reading the first page sizes back from a blob *)

Section FirstPageFacts.

Import Bytes Snapshot SnapshotPages.

(** A read inside a block that was read before. *)
Lemma read_inside data off len bs a n :
  read data off len = Some bs ->
  0 <= a -> 0 <= n -> a + n <= len ->
  read data (off + a) n = read bs a n.
Proof.
  unfold read. intros Hread Ha Hn Hlen.
  destruct (_ && _) eqn:E in Hread; [| discriminate].
  injection Hread as <-.
  apply andb_true_iff in E as [E E3]. apply andb_true_iff in E as [E1 E2].
  apply Z.leb_le in E1, E2, E3.
  rewrite length_take, length_drop.
  destruct (Z.leb_spec 0 (off + a)); [| lia].
  destruct (Z.leb_spec 0 n); [| lia].
  destruct (Z.leb_spec 0 a); [| lia].
  destruct (Z.leb_spec (off + a + n) (Z.of_nat (length data))); [| lia].
  destruct (Z.leb_spec (a + n)
     (Z.of_nat (Z.to_nat len `min` (length data - Z.to_nat off)))); [| lia].
  cbn. f_equal.
  rewrite (take_drop_commute _ (Z.to_nat n) (Z.to_nat a)), take_take.
  replace ((Z.to_nat a + Z.to_nat n) `min` Z.to_nat len)%nat
    with (Z.to_nat a + Z.to_nat n)%nat by lia.
  rewrite <- take_drop_commute, drop_drop. do 2 f_equal. lia.
Qed.

Lemma uint32_roundtrip x :
  uint32_of_bytes (int32_bytes x) = Some (Int32.wrap x).
Proof.
  unfold int32_bytes, uint32_of_bytes. rewrite !to_of_Z. f_equal.
  pose proof (wrap_range x) as Hu. unfold Int32.modulus in Hu.
  set (u := Int32.wrap x) in *. clearbody u.
  assert (H24 : u / 2 ^ 24 < 256) by (apply Z.div_lt_upper_bound; lia).
  assert (H24' : 0 <= u / 2 ^ 24) by (apply Z.div_pos; lia).
  rewrite (Z.mod_small (u / 2 ^ 24)) by lia.
  replace (u / 2 ^ 24) with (u / 2 ^ 16 / 2 ^ 8)
    by (rewrite Z.div_div by lia; f_equal).
  replace (u / 2 ^ 16) with (u / 2 ^ 8 / 2 ^ 8)
    by (rewrite Z.div_div by lia; f_equal).
  pose proof (Z.div_mod u 256 ltac:(lia)) as D0.
  pose proof (Z.div_mod (u / 2 ^ 8) 256 ltac:(lia)) as D1.
  pose proof (Z.div_mod (u / 2 ^ 8 / 2 ^ 8) 256 ltac:(lia)) as D2.
  change (2 ^ 8) with 256 in *. lia.
Qed.

(** The memory image of a [uint32_t] array, read at an index. *)
Lemma read_uint32_image sizes : forall (i : nat) size,
  sizes !! i = Some size ->
  read_uint32 (uint32_image sizes) (4 * Z.of_nat i)
  = Some (Int32.wrap size).
Proof.
  unfold uint32_image.
  induction sizes as [| s sizes IH]; intros i size Hi; [discriminate |].
  destruct i as [| i].
  - injection Hi as ->. unfold read_uint32, read. cbn [flat_map].
    rewrite length_app, int32_bytes_length. cbn [Z.mul Z.of_nat].
    destruct (_ && _) eqn:E.
    + exact (uint32_roundtrip size).
    + apply andb_false_iff in E as [E | E].
      * discriminate.
      * apply Z.leb_gt in E. lia.
  - cbn in Hi. specialize (IH i size Hi).
    unfold read_uint32 in *. cbn [flat_map].
    replace (4 * Z.of_nat (S i)) with (4 + 4 * Z.of_nat i) by lia.
    assert (Hhead : read (int32_bytes s ++ flat_map int32_bytes sizes) 4
                         (Z.of_nat (length (flat_map int32_bytes sizes)))
                    = Some (flat_map int32_bytes sizes)).
    { unfold read. rewrite length_app, int32_bytes_length.
      destruct (_ && _) eqn:E.
      - f_equal. change (Z.to_nat 4) with (length (int32_bytes s)).
        rewrite drop_app_length, Nat2Z.id. apply firstn_all.
      - apply andb_false_iff in E as [E | E].
        + apply andb_false_iff in E as [E | E]; [discriminate |].
          apply Z.leb_gt in E. lia.
        + apply Z.leb_gt in E. lia. }
    destruct (read (flat_map int32_bytes sizes) (4 * Z.of_nat i) 4)
      as [bs |] eqn:Hbs; [| discriminate].
    rewrite (read_inside _ _ _ _ (4 * Z.of_nat i) 4 Hhead); try lia.
    + now rewrite Hbs.
    + unfold read in Hbs. destruct (_ && _) eqn:E in Hbs; [| discriminate].
      apply andb_true_iff in E as [_ E]. apply Z.leb_le in E. lia.
Qed.

Variable h : Header.
Hypothesis laws : HeaderLaws h.

Variable sp : Spaces.
Hypothesis spaces_laws : SpacesLaws h sp.

Variable startup : SnapshotData.
Variable contexts : list SnapshotData.

Hypothesis startup_reserves : reserves_in_spaces sp startup.
Hypothesis contexts_reserve : Forall (reserves_in_spaces sp) contexts.

Let total : Z :=
  StartupSnapshotOffset h (Z.of_nat (length contexts))
  + length_int (RawData startup) + payload_size contexts.

(** X24: The first page sizes make the round trip through the blob:
    [SizeOfFirstPage] reads from the blob that [CreateSnapshotBlob]
    returns, for a paged space, the size that [CalculateFirstPageSizes]
    has computed for that space, which is no larger than the page area
    that [SizeOfFirstPage] gives without a snapshot. No snapshot reserves
    in more spaces than there are, the page sizes lie before the number
    of contexts in the header, and the blob length fits an [int]. *)
Theorem SizeOfFirstPage_roundtrip (space : Z) :
  kFirstPageSizesOffset h + kNumPagedSpaces h * kInt32Size
  <= kNumberOfContextsOffset h ->
  total <= Int32.kMaxInt ->
  FIRST_PAGED_SPACE sp <= space <= LAST_PAGED_SPACE sp ->
  exists blob sizes size,
    CreateSnapshotBlob h sp startup contexts = Ok blob /\
    CalculateFirstPageSizes sp startup contexts
      (uint32_array h (kNumPagedSpaces h)) = Ok sizes /\
    sizes !! Z.to_nat (space - FIRST_PAGED_SPACE sp) = Some size /\
    SizeOfFirstPage h sp true blob space = Ok size /\
    exists whole_page,
      SizeOfFirstPage h sp false blob space = Ok whole_page /\
      0 <= size <= whole_page.
Proof.
  intros Hlayout Hmax Hspace.
  destruct (blob_written h laws sp spaces_laws startup contexts
              startup_reserves contexts_reserve Hmax)
    as (d & sizes & Hcreate & _ & _ & _ & _ & Hsizes & Hlen & Hpaged
        & Hread).
  specialize (Hread Hlayout).
  destruct (Hpaged space Hspace) as (size & Hsize & Hbound).
  exists {| data := d; raw_size := total |}, sizes, size.
  split; [exact Hcreate |]. split; [exact Hsizes |].
  split; [exact Hsize |].
  split; [| eexists; split; [reflexivity | exact Hbound]].
  pose proof (lookup_lt_Some _ _ _ Hsize) as Hidx.
  set (i := space - FIRST_PAGED_SPACE sp) in *.
  assert (Hn : 0 <= Z.of_nat (length contexts)) by lia.
  destruct (page_sizes_in_header h laws _ Hn) as (Hp0 & Hp1 & Hp2).
  pose proof (length_int_nonneg (RawData startup)) as Hs.
  pose proof (payload_size_nonneg contexts) as Hps.
  unfold kInt32Size in *.
  unfold SizeOfFirstPage. cbn [negb data]. unfold kInt32Size. fold i.
  rewrite (signed_in_range (i * 4)) by (Int32.numerals; lia).
  rewrite int_add_exact by (Int32.numerals; lia).
  unfold read_uint32.
  rewrite (read_inside _ _ _ _ (i * 4) 4 Hread) by lia.
  pose proof (read_uint32_image sizes (Z.to_nat i) size Hsize) as Himg.
  unfold read_uint32 in Himg.
  rewrite Z2Nat.id, Z.mul_comm in Himg by lia.
  rewrite Himg. cbn. f_equal. apply wrap_small.
  pose proof (wrap_range (PageAreaSize sp space)). lia.
Qed.

(** X25: [SnapshotIsValid] accepts the blob that [CreateSnapshotBlob]
    returns exactly when there is a context snapshot in it, for
    snapshots of which none reserves in more spaces than there are. *)
Theorem SnapshotIsValid_created :
  total <= Int32.kMaxInt ->
  exists blob,
    CreateSnapshotBlob h sp startup contexts = Ok blob /\
    SnapshotIsValid h blob = Ok (negb (bool_decide (contexts = []))).
Proof.
  intros Hmax.
  destruct (blob_written h laws sp spaces_laws startup contexts
              startup_reserves contexts_reserve Hmax)
    as (d & sizes & Hcreate & Hlen & Hnum & _).
  eexists. split; [exact Hcreate |].
  assert (Hn : 0 <= Z.of_nat (length contexts)) by lia.
  destruct (page_sizes_in_header h laws _ Hn) as (Hp0 & Hp1 & Hp2).
  destruct (num_contexts_before_offsets h laws) as [Hc0 Hc1].
  pose proof (offsets_before_startup h laws _ Hn) as Hos.
  pose proof (offsets_monotone h laws (length contexts) 0 ltac:(lia)) as Hom.
  rewrite Z.add_0_l in Hom.
  pose proof (length_int_nonneg (RawData startup)) as Hs.
  pose proof (payload_size_nonneg contexts) as Hps.
  unfold kInt32Size in *.
  unfold SnapshotIsValid, ExtractNumContexts, CHECK_LT. cbn [raw_size data].
  destruct (Z.ltb_spec (kNumberOfContextsOffset h)
              (StartupSnapshotOffset h (Z.of_nat (length contexts))
               + length_int (RawData startup) + payload_size contexts));
    [| lia].
  cbn. rewrite Hnum. cbn. f_equal.
  destruct contexts; reflexivity.
Qed.

End FirstPageFacts.

Section SnapshotPagesExamples.

Import Bytes Snapshot SnapshotPages.

(** Three spaces with the paged spaces 1 and 2: both first pages fit a
    page of 1000 bytes. *)
Lemma CalculateFirstPageSizes_bounded_witness :
  exists sizes,
    CalculateFirstPageSizes example_spaces startup1 [context1; context2]
                            [0; 0] = Ok sizes /\
    length sizes = 2%nat /\
    forall space, 1 <= space <= 2 ->
      exists v, sizes !! Z.to_nat (space - 1) = Some v /\ 0 <= v <= 1000.
Proof.
  apply (CalculateFirstPageSizes_bounded example_spaces startup1
           [context1; context2] [0; 0]).
  - vm_compute. discriminate.
  - repeat constructor; vm_compute; discriminate.
  - vm_compute. discriminate.
  - reflexivity.
  - reflexivity.
Defined.

(** The first page of space 1 in the sample blob: the 187 bytes that the
    startup snapshot reserves there, twice the 2 bytes of the larger
    context snapshot, and the 24 bytes before the first object. *)
Lemma SizeOfFirstPage_roundtrip_witness :
  exists blob sizes size,
    CreateSnapshotBlob example_header blob_spaces startup1
                       [context1; context2]
    = Ok blob /\
    CalculateFirstPageSizes blob_spaces startup1 [context1; context2]
      (uint32_array example_header 3) = Ok sizes /\
    sizes !! 0%nat = Some size /\
    SizeOfFirstPage example_header blob_spaces true blob 1 = Ok size /\
    exists whole_page,
      SizeOfFirstPage example_header blob_spaces false blob 1
      = Ok whole_page /\
      0 <= size <= whole_page.
Proof.
  apply (SizeOfFirstPage_roundtrip example_header example_header_laws
           blob_spaces blob_spaces_laws startup1 [context1; context2])
    with (space := 1).
  - vm_compute. discriminate.
  - repeat constructor; vm_compute; discriminate.
  - vm_compute. discriminate.
  - vm_compute. discriminate.
  - split; vm_compute; discriminate.
Defined.

(** The sizes in the sample blob. *)
Example SizeOfFirstPage_sample :
  CalculateFirstPageSizes blob_spaces startup1 [context1; context2]
    (uint32_array example_header 3) = Ok [215; 1000; 24] /\
  (CreateSnapshotBlob example_header blob_spaces startup1
                      [context1; context2]
   ≫= fun blob => SizeOfFirstPage example_header blob_spaces true blob 1)
  = Ok 215 /\
  (CreateSnapshotBlob example_header blob_spaces startup1
                      [context1; context2]
   ≫= fun blob => SizeOfFirstPage example_header blob_spaces true blob 2)
  = Ok 1000.
Proof. repeat split; vm_compute; reflexivity. Qed.

(** A blob with two context snapshots is valid. *)
Lemma SnapshotIsValid_created_witness :
  exists blob,
    CreateSnapshotBlob example_header blob_spaces startup1
                       [context1; context2]
    = Ok blob /\
    SnapshotIsValid example_header blob = Ok true.
Proof.
  apply (SnapshotIsValid_created example_header example_header_laws
           blob_spaces blob_spaces_laws startup1 [context1; context2]).
  - vm_compute. discriminate.
  - repeat constructor; vm_compute; discriminate.
  - vm_compute. discriminate.
Defined.

(** The requirements of two snapshots, in either order. *)
Example UpdateMaxRequirementPerPage_sample :
  UpdateMaxRequirementPerPage [0; 0; 0] reservations_a = Ok [150; 70; 0] /\
  (UpdateMaxRequirementPerPage [0; 0; 0] reservations_a
   ≫= fun r => UpdateMaxRequirementPerPage r reservations_b)
  = Ok [150; 300; 0] /\
  UpdateMaxRequirementPerPage [0] reservations_a = Undefined.
Proof. repeat split. Qed.

(** Without a snapshot the first page is a whole page; a blob without
    context snapshots is not valid. *)
Example SizeOfFirstPage_no_snapshot :
  SizeOfFirstPage example_header example_spaces false
                  {| data := []; raw_size := 0 |} 2 = Ok 1000 /\
  (CreateSnapshotBlob example_header blob_spaces startup1 []
   ≫= SnapshotIsValid example_header) = Ok false.
Proof. split; vm_compute; reflexivity. Qed.

End SnapshotPagesExamples.

(** ** The IA-32 subset: registers and arithmetic modulo [2^32] *)

Section Ia32Facts.

Import Ia32.

Lemma get_range m r : 0 <= get m r < Int32.modulus.
Proof. apply wrap_range. Qed.

Lemma get_set_same m r v : get (set m r v) r = Int32.wrap v.
Proof.
  unfold get, set. simpl. rewrite decide_True by reflexivity.
  apply wrap_wrap.
Qed.

Lemma get_set_other m r r' v : r' <> r -> get (set m r v) r' = get m r'.
Proof.
  intros Hne. unfold get, set. simpl. now rewrite decide_False.
Qed.

Lemma get_set_flags m f r : get (set_flags m f) r = get m r.
Proof. reflexivity. Qed.

Lemma flags_set_flags m f : flags (set_flags m f) = f.
Proof. reflexivity. Qed.

Lemma flags_set m r v : flags (set m r v) = flags m.
Proof. reflexivity. Qed.

Lemma mem_set m r v : mem (set m r v) = mem m.
Proof. reflexivity. Qed.

Lemma mem_set_flags m f : mem (set_flags m f) = mem m.
Proof. reflexivity. Qed.

Lemma wrap_get m r : Int32.wrap (get m r) = get m r.
Proof. apply wrap_wrap. Qed.

Lemma wrap_eq_mod a b :
  (a - b) mod Int32.modulus = 0 -> Int32.wrap a = Int32.wrap b.
Proof.
  unfold Int32.wrap, Int32.modulus. intros H.
  apply Z.mod_divide in H; [| lia]. destruct H as [q Hq].
  replace a with (b + q * 2 ^ 32) by lia.
  apply Z.mod_add. lia.
Qed.

(** The signed reading differs from the register contents by a multiple
    of [2^32]. *)
Lemma signed_congruent a : exists q, Int32.signed a = a + q * Int32.modulus.
Proof.
  unfold Int32.signed, Int32.wrap.
  pose proof (Z.div_mod a Int32.modulus ltac:(unfold Int32.modulus; lia)).
  destruct (_ <? _).
  - exists (- (a / Int32.modulus)). lia.
  - exists (- (a / Int32.modulus) - 1). lia.
Qed.

Lemma wrap_add_multiple a q : Int32.wrap (a + q * Int32.modulus) = Int32.wrap a.
Proof. unfold Int32.wrap. apply Z.mod_add. unfold Int32.modulus. lia. Qed.

Lemma wrap_signed_mul a k :
  Int32.wrap (Int32.signed a * k) = Int32.wrap (a * k).
Proof.
  destruct (signed_congruent a) as [q ->].
  replace ((a + q * Int32.modulus) * k) with (a * k + (q * k) * Int32.modulus)
    by lia.
  apply wrap_add_multiple.
Qed.

Lemma wrap_mul_wrap_l a k : Int32.wrap (Int32.wrap a * k) = Int32.wrap (a * k).
Proof.
  unfold Int32.wrap. rewrite Z.mul_mod_idemp_l; [reflexivity |].
  unfold Int32.modulus. lia.
Qed.

Lemma signed_small k : Int32.in_range k -> Int32.signed (Int32.wrap k) = k.
Proof.
  intros H. unfold Int32.signed. rewrite wrap_wrap.
  now apply signed_in_range.
Qed.

(** Code that runs to its end hands over to the code that follows. *)
Lemma run_app_done a : forall t m m',
  run t a m = Done m' -> forall b, run t (a ++ b) m = run None b m'.
Proof.
  induction a as [| i a IH]; intros t m m' H b.
  - destruct t; simpl in H; [discriminate |]. now injection H as ->.
  - destruct t as [L |]; simpl in H |- *.
    + destruct i; eauto. destruct (decide _); eauto.
    + destruct i; eauto; repeat case_match; eauto; discriminate.
Qed.

End Ia32Facts.

(** ** Multiplication by a constant: strength reduction *)

Section MulFacts.

Import Ia32 Lithium.

Local Arguments Int32.wrap : simpl never.
Local Arguments Int32.signed : simpl never.
Local Arguments get : simpl never.
Local Arguments set : simpl never.
Local Arguments set_flags : simpl never.
Local Arguments Z.mul : simpl never.
Local Arguments Z.add : simpl never.
Local Arguments Z.opp : simpl never.
Local Arguments out_of_range : simpl never.
Local Arguments msb : simpl never.

(** One step of symbolic execution of straight-line code. *)
Ltac exec_step :=
  unfold do_neg, do_test, do_cmp, do_add, do_sub, do_logic, do_imul,
    write, value, sub_flags, logic_flags, result_flags, address;
  simpl;
  rewrite ?get_set_flags, ?get_set_same, ?flags_set_flags, ?flags_set.

Ltac split_ifs :=
  repeat match goal with
         | |- context [if ?b then _ else _] => destruct b
         end.

(** The products the replacement instructions compute, modulo [2^32]. *)
Ltac product :=
  rewrite ?wrap_wrap, ?wrap_signed_mul, ?Z.lxor_nilpotent,
    ?Z.shiftl_mul_pow2 by (vm_compute; discriminate);
  try (rewrite Z.mul_1_r; symmetry; apply wrap_get);
  unfold times_2, times_4, times_8;
  f_equal;
  repeat match goal with
         | |- context [Z.land ?a ?b] =>
             let v := eval vm_compute in (Z.land a b) in
             change (Z.land a b) with v
         | |- context [2 ^ ?n] =>
             let v := eval vm_compute in (2 ^ n) in
             change (2 ^ n) with v
         end;
  lia.

(** C8: for a constant right operand, every strength-reduced sequence of
    [DoMulI] ([neg] for -1, [xor] for 0, [add] for 2 always; [lea] or [shl]
    for 1, 3, 4, 5, 8, 9, 16 when the instruction cannot overflow) leaves
    in the left register the same 32-bit product as the general [imul]
    lowering, for every value of the left operand, whether the run then
    falls through or leaves through one of the guards that follow. *)
Theorem DoMulI_strength_reduction c instr m k :
  IsConstantOperand (LMulI.right instr) = true ->
  ToInteger32 c (LMulI.right instr) = k ->
  (k = -1 \/ k = 0 \/ k = 2 \/
   (LMulI.CheckFlag instr kCanOverflow = false /\
    (k = 1 \/ k = 3 \/ k = 4 \/ k = 5 \/ k = 8 \/ k = 9 \/ k = 16))) ->
  (LMulI.CheckFlag instr kBailoutOnMinusZero = true ->
   ToRegister c (LMulI.temp instr) <> ToRegister c (LMulI.left instr)) ->
  let left := ToRegister c (LMulI.left instr) in
  exists m1 m2,
    final_machine (execute (DoMulI c instr) m) = Some m1 /\
    execute (general_imul left k) m = Done m2 /\
    get m1 left = get m2 left /\
    get m2 left = Int32.wrap (Int32.signed (get m left) * k).
Proof.
  intros Hc Hk Hcases Htemp left.
  assert (Hgen : exists m2,
    execute (general_imul left k) m = Done m2 /\
    get m2 left = Int32.wrap (Int32.signed (get m left) * k)).
  { eexists. split; [reflexivity |]. repeat exec_step.
    rewrite signed_small; [reflexivity |].
    Int32.numerals.
    destruct Hcases as
      [-> | [-> | [-> | [_ [-> | [-> | [-> | [-> | [-> | [-> | ->]]]]]]]]]];
      lia. }
  destruct Hgen as (m2 & Hrun2 & Hm2).
  enough (exists m1,
    final_machine (execute (DoMulI c instr) m) = Some m1 /\
    get m1 left = Int32.wrap (Int32.signed (get m left) * k)) as (m1 & H1 & H2).
  { exists m1, m2. rewrite H2, Hm2. auto. }
  clear m2 Hrun2 Hm2.
  unfold DoMulI, execute. rewrite Hc, Hk. fold left.
  set (temp := ToRegister c (LMulI.temp instr)) in *.
  assert (Hother : forall v,
    LMulI.CheckFlag instr kBailoutOnMinusZero = true ->
    get (set m temp v) left = get m left).
  { intros v Hmz. apply get_set_other. intros E. now apply Htemp. }
  destruct (LMulI.CheckFlag instr kBailoutOnMinusZero) eqn:Emz;
    destruct (LMulI.CheckFlag instr kCanOverflow) eqn:Eov;
    destruct Hcases as
      [-> | [-> | [-> | [Hf [-> | [-> | [-> | [-> | [-> | [-> | ->]]]]]]]]]];
    try discriminate Hf; simpl.
  all: repeat exec_step.
  all: unfold do_shl; simpl.
  all: repeat exec_step.
  all: split_ifs.
  all: eexists; (split; [reflexivity |]).
  all: repeat exec_step.
  all: rewrite ?Hother by reflexivity.
  all: product.
Qed.

Lemma DoMulI_strength_reduction_witness :
  exists m1 m2,
    final_machine (execute (DoMulI Sample.context (Sample.mul_by 9 false))
                     (Sample.machine 7 0 0 0 0)) = Some m1 /\
    execute (general_imul eax 9) (Sample.machine 7 0 0 0 0) = Done m2 /\
    get m1 eax = get m2 eax /\
    get m2 eax = Int32.wrap (Int32.signed 7 * 9).
Proof.
  apply (DoMulI_strength_reduction Sample.context (Sample.mul_by 9 false)
           (Sample.machine 7 0 0 0 0) 9).
  - reflexivity.
  - reflexivity.
  - right. right. right. split; [reflexivity |]. tauto.
  - discriminate.
Defined.

(** Multiplying by 9 is one [lea]; by -1 with a possible overflow, a [neg]
    whose overflow flag feeds the guard. *)
Example DoMulI_by_9 :
  DoMulI Sample.context (Sample.mul_by 9 false)
  = [lea eax (Mem eax (Some (eax, times_8)) 0)].
Proof. reflexivity. Qed.

Example DoMulI_by_minus_1 :
  DoMulI Sample.context (Sample.mul_by (-1) true)
  = [neg eax; Guard overflow kOverflow].
Proof. reflexivity. Qed.

End MulFacts.

(** ** Division: where the division-by-zero guard is *)

Section DivFacts.

Import Ia32 Lithium.

Local Arguments Int32.wrap : simpl never.
Local Arguments get : simpl never.
Local Arguments set_flags : simpl never.

Lemma has_guard_app reason a b :
  has_guard reason (a ++ b) = has_guard reason a || has_guard reason b.
Proof. apply existsb_app. Qed.

Lemma has_guard_when reason b code :
  has_guard reason (when b code) = b && has_guard reason code.
Proof. now destruct b. Qed.



Lemma DoDivI_guard c instr :
  has_guard kDivisionByZero (DoDivI c instr)
  = LDivI.CheckFlag instr kCanBeDivByZero.
Proof.
  unfold DoDivI. rewrite !has_guard_app, !has_guard_when.
  destruct (LDivI.CheckFlag instr kCanBeDivByZero); simpl;
    rewrite ?andb_false_r; reflexivity.
Qed.

Lemma DoDivByPowerOf2I_guard c instr :
  has_guard kDivisionByZero (DoDivByPowerOf2I c instr) = false.
Proof.
  unfold DoDivByPowerOf2I, Move.
  rewrite !has_guard_app, !has_guard_when. simpl.
  rewrite !andb_false_r. simpl.
  destruct (decide _), (0 <? _), (1 <? _); reflexivity.
Qed.




End DivFacts.

(** ** Bounds checks *)

Section BoundsFacts.

Import Ia32 Lithium.

Local Arguments Int32.wrap : simpl never.
Local Arguments get : simpl never.
Local Arguments set : simpl never.
Local Arguments set_flags : simpl never.
Local Arguments Z.sub : simpl never.
Local Arguments Z.add : simpl never.
Local Arguments Z.shiftl : simpl never.

Lemma value_range m o : 0 <= value m o < Int32.modulus.
Proof. destruct o; simpl; apply wrap_range. Qed.

Lemma value_set_flags m f o : value (set_flags m f) o = value m o.
Proof. destruct o; reflexivity. Qed.

Lemma value_set_unread m r v o :
  reads o r = false -> value (set m r v) o = value m o.
Proof.
  destruct o as [r' | b i d | k]; simpl; intros H.
  - apply bool_decide_eq_false in H. now apply get_set_other.
  - apply orb_false_iff in H as [Hb Hi].
    apply bool_decide_eq_false in Hb.
    unfold address. rewrite (get_set_other _ _ _ _ Hb).
    destruct i as [[r' s] |]; [| reflexivity].
    apply bool_decide_eq_false in Hi.
    now rewrite (get_set_other _ _ _ _ Hi).
  - reflexivity.
Qed.

Lemma compared_operand_range c m op r :
  0 <= compared_operand c m op r < Int32.modulus.
Proof.
  unfold compared_operand. destruct (IsConstantOperand op).
  - apply wrap_range.
  - apply value_range.
Qed.

Lemma wrap_sub_zero a b :
  0 <= a < Int32.modulus -> 0 <= b < Int32.modulus ->
  (Int32.wrap (a - b) =? 0) = (a =? b).
Proof.
  intros Ha Hb. unfold Int32.wrap.
  destruct (Z.eqb_spec a b) as [-> | Hne].
  - rewrite Z.sub_diag. reflexivity.
  - apply Z.eqb_neq. intros H.
    apply Z.mod_divide in H; [| unfold Int32.modulus; lia].
    destruct H as [q Hq]. unfold Int32.modulus in *. nia.
Qed.

(** The conditions of the unsigned comparisons after [cmp a, b]. *)
Lemma holds_above a b :
  0 <= a < Int32.modulus -> 0 <= b < Int32.modulus ->
  holds (sub_flags a b) above = Some (b <? a).
Proof.
  intros Ha Hb. unfold sub_flags, result_flags. simpl.
  rewrite wrap_sub_zero by assumption. f_equal.
  destruct (Z.ltb_spec a b), (Z.eqb_spec a b), (Z.ltb_spec b a);
    simpl; try reflexivity; lia.
Qed.

Lemma holds_above_equal a b :
  holds (sub_flags a b) above_equal = Some (b <=? a).
Proof.
  unfold sub_flags, result_flags. simpl. f_equal.
  destruct (Z.ltb_spec a b), (Z.leb_spec b a); simpl; try reflexivity; lia.
Qed.

Lemma holds_below a b :
  holds (sub_flags a b) below = Some (a <? b).
Proof. reflexivity. Qed.

Lemma holds_below_equal a b :
  0 <= a < Int32.modulus -> 0 <= b < Int32.modulus ->
  holds (sub_flags a b) below_equal = Some (a <=? b).
Proof.
  intros Ha Hb. unfold sub_flags, result_flags. simpl.
  rewrite wrap_sub_zero by assumption. f_equal.
  destruct (Z.ltb_spec a b), (Z.eqb_spec a b), (Z.leb_spec a b);
    simpl; try reflexivity; lia.
Qed.

(** What the emitted comparison decides, for the two kinds of check:
    the condition under which the check fails. *)
Lemma compare_plain c instr m :
  IsSIMD128LoadStoreOp (LBoundsCheck.op instr) = false ->
  (IsConstantOperand (LBoundsCheck.index instr) = true ->
   IsConstantOperand (LBoundsCheck.length instr) = false) ->
  (IsConstantOperand (LBoundsCheck.index instr) = false ->
   IsConstantOperand (LBoundsCheck.length instr) = false ->
   IsRegister (LBoundsCheck.index instr) = true) ->
  let idx := compared_operand c m (LBoundsCheck.index instr)
               (LBoundsCheck.length_representation instr) in
  let len := compared_operand c m (LBoundsCheck.length instr)
               (LBoundsCheck.index_representation instr) in
  exists f,
    run None (fst (BoundsCheckCompare c instr)) m = Done (set_flags m f) /\
    holds f (snd (BoundsCheckCompare c instr))
    = Some (if LBoundsCheck.allow_equality instr then len <? idx
            else len <=? idx).
Proof.
  intros Hop Hshape Hreg.
  pose proof (compared_operand_range c m (LBoundsCheck.index instr)
                (LBoundsCheck.length_representation instr)) as Hi.
  pose proof (compared_operand_range c m (LBoundsCheck.length instr)
                (LBoundsCheck.index_representation instr)) as Hl.
  cbv zeta. unfold BoundsCheckCompare. rewrite Hop.
  unfold compared_operand in *.
  destruct (IsConstantOperand (LBoundsCheck.index instr)) eqn:Ei.
  - rewrite (Hshape eq_refl) in *. simpl. eexists. split; [reflexivity |].
    unfold ToImmediate, value at 2.
    destruct (LBoundsCheck.allow_equality instr); simpl CommuteCondition.
    + apply holds_below.
    + now apply holds_below_equal.
  - destruct (IsConstantOperand (LBoundsCheck.length instr)) eqn:El.
    + simpl. eexists. split; [reflexivity |].
      unfold ToImmediate, value at 2.
      destruct (LBoundsCheck.allow_equality instr).
      * now apply holds_above.
      * apply holds_above_equal.
    + simpl. eexists. split; [reflexivity |].
      assert (E : ToOperand c (LBoundsCheck.index instr)
                  = Reg (ToRegister c (LBoundsCheck.index instr))).
      { unfold ToOperand. now rewrite (Hreg eq_refl eq_refl). }
      rewrite E in *.
      destruct (LBoundsCheck.allow_equality instr).
      * now apply holds_above.
      * apply holds_above_equal.
Qed.

Lemma land_31 s : 0 <= s <= 31 -> Z.land s 31 = s.
Proof.
  intros H. change 31 with (Z.ones 5). rewrite Z.land_ones by lia.
  apply Z.mod_small. change (2 ^ 5) with 32. lia.
Qed.

Lemma do_shl_spec m r s :
  0 < s <= 31 ->
  exists f, do_shl m r s = set_flags (set m r (Z.shiftl (get m r) s)) f.
Proof.
  intros H. unfold do_shl. rewrite land_31 by lia.
  destruct (Z.eqb_spec s 0); [lia |]. eauto.
Qed.

Lemma wrap_add_wrap_r a b :
  Int32.wrap (a + Int32.wrap b) = Int32.wrap (a + b).
Proof.
  unfold Int32.wrap. apply Z.add_mod_idemp_r. unfold Int32.modulus. lia.
Qed.

Lemma value_ext m1 m2 o :
  (forall r, reads o r = true -> get m1 r = get m2 r) ->
  mem m1 = mem m2 ->
  value m1 o = value m2 o.
Proof.
  intros Hr Hm. destruct o as [r | b i d | k]; simpl.
  - apply Hr. simpl. now apply bool_decide_eq_true.
  - unfold address. rewrite Hm.
    rewrite (Hr b) by (simpl; rewrite bool_decide_eq_true_2; auto).
    destruct i as [[r' s] |]; [| reflexivity].
    rewrite (Hr r'); [reflexivity |]. simpl.
    rewrite (bool_decide_eq_true_2 (r' = r')) by reflexivity.
    apply orb_true_r.
  - reflexivity.
Qed.

(** Loading a register and shifting it left when the shift size is
    positive. *)
Lemma run_load_scaled m r src s rest :
  s <= 31 ->
  exists m1,
    run None ([mov (Reg r) src] ++ when (0 <? s) [shl r s] ++ rest) m
    = run None rest m1 /\
    get m1 r = scaled (value m src) s /\
    (forall r', r' <> r -> get m1 r' = get m r') /\
    mem m1 = mem m.
Proof.
  intros Hs. unfold when, scaled. pose proof (value_range m src) as Hv.
  destruct (Z.ltb_spec 0 s) as [Hpos | Hneg].
  - destruct (do_shl_spec (set m r (value m src)) r s ltac:(lia)) as [f Hf].
    eexists. simpl. rewrite Hf. split; [reflexivity |].
    rewrite get_set_flags, !get_set_same. split.
    + now rewrite (wrap_small (value m src)).
    + split; [| reflexivity]. intros r' Hne.
      now rewrite get_set_flags, !get_set_other.
  - eexists. simpl. split; [reflexivity |].
    rewrite get_set_same. split; [now apply wrap_small |].
    split; [| reflexivity]. intros r' Hne. now apply get_set_other.
Qed.

Lemma compare_simd c instr m :
  IsSIMD128LoadStoreOp (LBoundsCheck.op instr) = true ->
  let t0 := ToRegister c (LBoundsCheck.temp0 instr) in
  let t1 := ToRegister c (LBoundsCheck.temp1 instr) in
  let ishift :=
    ElementsKindToShiftSize c (LBoundsCheck.element_kind instr)
    - (if IsSmi (LBoundsCheck.index_representation instr)
       then kSmiTagSize else 0) in
  let lshift :=
    ElementsKindToShiftSize c (LBoundsCheck.element_kind instr)
    - (if IsSmi (LBoundsCheck.length_representation instr)
       then kSmiTagSize else 0) in
  let idx := compared_operand c m (LBoundsCheck.index instr)
               (LBoundsCheck.index_representation instr) in
  let len := compared_operand c m (LBoundsCheck.length instr)
               (LBoundsCheck.length_representation instr) in
  t0 <> t1 ->
  reads (ToOperand c (LBoundsCheck.length instr)) t0 = false ->
  ishift <= 31 -> lshift <= 31 ->
  exists m',
    run None (fst (BoundsCheckCompare c instr)) m = Done m' /\
    holds (flags m') (snd (BoundsCheckCompare c instr))
    = Some (scaled len lshift
            <? Int32.wrap (scaled idx ishift
                           + GetSIMD128LoadStoreBytes
                               (LBoundsCheck.op instr))).
Proof.
  intros Hop t0 t1 ishift lshift idx len Hne Hreads Hi Hl.
  unfold BoundsCheckCompare. rewrite Hop. fold t0 t1 ishift lshift.
  cbn [fst snd].
  set (isrc := if IsConstantOperand (LBoundsCheck.index instr)
               then ToImmediate c (LBoundsCheck.index instr)
                      (LBoundsCheck.index_representation instr)
               else ToOperand c (LBoundsCheck.index instr)).
  set (lsrc := if IsConstantOperand (LBoundsCheck.length instr)
               then ToImmediate c (LBoundsCheck.length instr)
                      (LBoundsCheck.length_representation instr)
               else ToOperand c (LBoundsCheck.length instr)).
  assert (Eidx : value m isrc = idx).
  { unfold isrc, idx, compared_operand.
    now destruct (IsConstantOperand (LBoundsCheck.index instr)). }
  assert (Elen : forall m2,
    (forall r, r <> t0 -> get m2 r = get m r) -> mem m2 = mem m ->
    value m2 lsrc = len).
  { intros m2 Hregs Hmem. unfold lsrc, len, compared_operand.
    destruct (IsConstantOperand (LBoundsCheck.length instr));
      [reflexivity |].
    apply value_ext; [| exact Hmem]. intros r Hr. apply Hregs.
    intros ->. congruence. }
  replace (if IsConstantOperand (LBoundsCheck.index instr)
           then [mov (Reg t0) (ToImmediate c (LBoundsCheck.index instr)
                          (LBoundsCheck.index_representation instr))]
           else [mov (Reg t0) (ToOperand c (LBoundsCheck.index instr))])
    with [mov (Reg t0) isrc]
    by (unfold isrc; now destruct (IsConstantOperand _)).
  replace (if IsConstantOperand (LBoundsCheck.length instr)
           then [mov (Reg t1) (ToImmediate c (LBoundsCheck.length instr)
                          (LBoundsCheck.length_representation instr))]
           else [mov (Reg t1) (ToOperand c (LBoundsCheck.length instr))])
    with [mov (Reg t1) lsrc].
  2:{ unfold lsrc.
      now destruct (IsConstantOperand (LBoundsCheck.length instr)). }
  destruct (run_load_scaled m t0 isrc ishift
              ([add t0 (Immediate (GetSIMD128LoadStoreBytes
                                     (LBoundsCheck.op instr)))]
               ++ [mov (Reg t1) lsrc]
               ++ when (0 <? lshift) [shl t1 lshift]
               ++ [cmp t0 t1]) Hi)
    as (m1 & Hrun1 & Hget1 & Hoth1 & Hmem1).
  rewrite Hrun1. cbn [app run].
  set (m2 := do_add m1 t0 _).
  assert (Hget2 : get m2 t0
                  = Int32.wrap (scaled idx ishift
                                + GetSIMD128LoadStoreBytes
                                    (LBoundsCheck.op instr))).
  { unfold m2, do_add. rewrite get_set_flags, get_set_same, Hget1, Eidx.
    simpl value. apply wrap_add_wrap_r. }
  assert (Hoth2 : forall r, r <> t0 -> get m2 r = get m r).
  { intros r Hr. unfold m2, do_add.
    rewrite get_set_flags, get_set_other by assumption. now apply Hoth1. }
  assert (Hmem2 : mem m2 = mem m) by exact Hmem1.
  destruct (run_load_scaled m2 t1 lsrc lshift [cmp t0 t1] Hl)
    as (m3 & Hrun3 & Hget3 & Hoth3 & Hmem3).
  change ([mov (Reg t1) lsrc] ++ when (0 <? lshift) [shl t1 lshift]
          ++ [cmp t0 t1])
    with ([mov (Reg t1) lsrc] ++ when (0 <? lshift) [shl t1 lshift]
          ++ [cmp (Reg t0) (Reg t1)]) in Hrun3.
  cbn [app run] in Hrun3. rewrite Hrun3. cbn [run].
  eexists. split; [reflexivity |].
  unfold do_cmp. rewrite flags_set_flags. cbn [value].
  rewrite Hget3, (Hoth3 t0 Hne), Hget2, (Elen m2 Hoth2 Hmem2).
  apply holds_above; [apply wrap_range |].
  unfold scaled. destruct (0 <? lshift); [apply wrap_range |].
  apply compared_operand_range.
Qed.

Lemma run_guard cc reason m b :
  holds (flags m) cc = Some b ->
  run None [Guard cc reason] m = if b then Deopt reason m else Done m.
Proof. intros H. simpl. rewrite H. now destruct b. Qed.

Lemma DoBoundsCheck_run c instr m m' b :
  FLAG_debug_code c && LBoundsCheck.skip_check instr = false ->
  run None (fst (BoundsCheckCompare c instr)) m = Done m' ->
  holds (flags m') (snd (BoundsCheckCompare c instr)) = Some b ->
  execute (DoBoundsCheck c instr) m
  = if b then Deopt kOutOfBounds m' else Done m'.
Proof.
  intros Hdebug Hrun Hholds. unfold execute, DoBoundsCheck.
  destruct (BoundsCheckCompare c instr) as [compare cc]. simpl in *.
  rewrite Hdebug, (run_app_done _ _ _ _ Hrun).
  now apply run_guard.
Qed.

(** A SIMD128 load or store reads or writes at least one byte. *)
Lemma SIMD128_bytes_nonneg op :
  IsSIMD128LoadStoreOp op = true -> 0 <= GetSIMD128LoadStoreBytes op.
Proof. destruct op; cbn; intros H; try discriminate H; lia. Qed.

(** A byte position that fits 32 bits is the product that it stands
    for. *)
Lemma scaled_exact v s :
  0 <= s -> 0 <= v -> v * 2 ^ s < Int32.modulus -> scaled v s = v * 2 ^ s.
Proof.
  intros Hs Hv Hfit. unfold scaled.
  destruct (Z.ltb_spec 0 s) as [Hpos | Hzero].
  - rewrite Z.shiftl_mul_pow2 by lia. apply wrap_small.
    pose proof (Z.pow_pos_nonneg 2 s ltac:(lia) ltac:(lia)). nia.
  - replace s with 0 by lia. lia.
Qed.

(** C5, as the code has it, with the debug-code variant of a skipped check
    set aside. For an access that is not a SIMD128 load or store, the index
    and the length are compared as unsigned 32-bit values: the check falls
    through exactly when index < length, or when [allow_equality] holds and
    index = length, and deoptimizes with "out of bounds" otherwise. For a
    SIMD128 load or store, [allow_equality] plays no part and the whole
    access must fit: with byte positions that fit 32 bits, the check
    falls through exactly when the index in bytes plus the bytes accessed
    does not exceed the length in bytes. *)
Theorem DoBoundsCheck_policy c instr m :
  FLAG_debug_code c && LBoundsCheck.skip_check instr = false ->
  (IsSIMD128LoadStoreOp (LBoundsCheck.op instr) = false ->
   (IsConstantOperand (LBoundsCheck.index instr) = true ->
    IsConstantOperand (LBoundsCheck.length instr) = false) ->
   (IsConstantOperand (LBoundsCheck.index instr) = false ->
    IsConstantOperand (LBoundsCheck.length instr) = false ->
    IsRegister (LBoundsCheck.index instr) = true) ->
   let idx := compared_operand c m (LBoundsCheck.index instr)
                (LBoundsCheck.length_representation instr) in
   let len := compared_operand c m (LBoundsCheck.length instr)
                (LBoundsCheck.index_representation instr) in
   exists m',
     execute (DoBoundsCheck c instr) m
     = if (idx <? len) || (LBoundsCheck.allow_equality instr && (idx =? len))
       then Done m' else Deopt kOutOfBounds m') /\
  (IsSIMD128LoadStoreOp (LBoundsCheck.op instr) = true ->
   let t0 := ToRegister c (LBoundsCheck.temp0 instr) in
   let t1 := ToRegister c (LBoundsCheck.temp1 instr) in
   let ishift :=
     ElementsKindToShiftSize c (LBoundsCheck.element_kind instr)
     - (if IsSmi (LBoundsCheck.index_representation instr)
        then kSmiTagSize else 0) in
   let lshift :=
     ElementsKindToShiftSize c (LBoundsCheck.element_kind instr)
     - (if IsSmi (LBoundsCheck.length_representation instr)
        then kSmiTagSize else 0) in
   let idx := compared_operand c m (LBoundsCheck.index instr)
                (LBoundsCheck.index_representation instr) in
   let len := compared_operand c m (LBoundsCheck.length instr)
                (LBoundsCheck.length_representation instr) in
   let bytes := GetSIMD128LoadStoreBytes (LBoundsCheck.op instr) in
   t0 <> t1 ->
   reads (ToOperand c (LBoundsCheck.length instr)) t0 = false ->
   0 <= ishift <= 31 -> 0 <= lshift <= 31 ->
   idx * 2 ^ ishift + bytes < Int32.modulus ->
   len * 2 ^ lshift < Int32.modulus ->
   exists m',
     execute (DoBoundsCheck c instr) m
     = if idx * 2 ^ ishift + bytes <=? len * 2 ^ lshift
       then Done m' else Deopt kOutOfBounds m').
Proof.
  intros Hdebug. split.
  - intros Hop Hshape Hreg idx len.
    destruct (compare_plain c instr m Hop Hshape Hreg) as (f & Hrun & Hh).
    exists (set_flags m f).
    rewrite (DoBoundsCheck_run c instr m _ _ Hdebug Hrun Hh).
    fold idx len.
    destruct (LBoundsCheck.allow_equality instr);
      destruct (Z.ltb_spec idx len), (Z.eqb_spec idx len);
      simpl; try reflexivity;
      try (destruct (Z.ltb_spec len idx); try reflexivity; lia);
      destruct (Z.leb_spec len idx); try reflexivity; lia.
  - intros Hop t0 t1 ishift lshift idx len bytes Hne Hreads Hi Hl Hifit
           Hlfit.
    destruct (compare_simd c instr m Hop Hne Hreads
                ltac:(apply Hi) ltac:(apply Hl))
      as (m' & Hrun & Hh).
    exists m'.
    rewrite (DoBoundsCheck_run c instr m _ _ Hdebug Hrun Hh).
    fold ishift lshift idx len bytes.
    pose proof (compared_operand_range c m (LBoundsCheck.index instr)
                  (LBoundsCheck.index_representation instr)) as Hidx.
    pose proof (compared_operand_range c m (LBoundsCheck.length instr)
                  (LBoundsCheck.length_representation instr)) as Hlen.
    fold idx in Hidx. fold len in Hlen.
    pose proof (SIMD128_bytes_nonneg _ Hop) as Hbytes. fold bytes in Hbytes.
    pose proof (Z.pow_pos_nonneg 2 ishift ltac:(lia) ltac:(lia)) as Hpow.
    rewrite (scaled_exact idx ishift) by nia.
    rewrite (scaled_exact len lshift) by lia.
    rewrite wrap_small by nia.
    set (ib := idx * 2 ^ ishift + bytes). set (lb := len * 2 ^ lshift).
    destruct (Z.ltb_spec lb ib), (Z.leb_spec ib lb); try reflexivity; lia.
Qed.

(** With [allow_equality] off and index = length, the check of an access
    that is not a SIMD128 load or store always deoptimizes. *)
Corollary DoBoundsCheck_index_equals_length c instr m :
  FLAG_debug_code c && LBoundsCheck.skip_check instr = false ->
  IsSIMD128LoadStoreOp (LBoundsCheck.op instr) = false ->
  (IsConstantOperand (LBoundsCheck.index instr) = true ->
   IsConstantOperand (LBoundsCheck.length instr) = false) ->
  (IsConstantOperand (LBoundsCheck.index instr) = false ->
   IsConstantOperand (LBoundsCheck.length instr) = false ->
   IsRegister (LBoundsCheck.index instr) = true) ->
  LBoundsCheck.allow_equality instr = false ->
  compared_operand c m (LBoundsCheck.index instr)
    (LBoundsCheck.length_representation instr)
  = compared_operand c m (LBoundsCheck.length instr)
      (LBoundsCheck.index_representation instr) ->
  exists m', execute (DoBoundsCheck c instr) m = Deopt kOutOfBounds m'.
Proof.
  intros Hdebug Hop Hshape Hreg Hallow Heq.
  destruct (compare_plain c instr m Hop Hshape Hreg) as (f & Hrun & Hh).
  exists (set_flags m f).
  rewrite (DoBoundsCheck_run c instr m _ _ Hdebug Hrun Hh).
  rewrite Hallow, Heq, Z.leb_refl. reflexivity.
Qed.

Lemma DoBoundsCheck_policy_witness :
  (exists m',
     execute (DoBoundsCheck Sample.context
                (Sample.bounds_check (kOtherBuiltinFunction 0) false))
             (Sample.machine 5 5 0 0 0)
     = Deopt kOutOfBounds m') /\
  (exists m',
     execute (DoBoundsCheck Sample.context
                (Sample.bounds_check kFloat32ArrayGetFloat32x4XYZW false))
             (Sample.machine 1 5 0 0 0)
     = Done m').
Proof.
  pose proof (DoBoundsCheck_policy Sample.context
                (Sample.bounds_check (kOtherBuiltinFunction 0) false)
                (Sample.machine 5 5 0 0 0) eq_refl) as [H1 _].
  pose proof (DoBoundsCheck_policy Sample.context
                (Sample.bounds_check kFloat32ArrayGetFloat32x4XYZW false)
                (Sample.machine 1 5 0 0 0) eq_refl) as [_ H2].
  split.
  - apply H1; [reflexivity | discriminate | reflexivity].
  - apply H2; [reflexivity | discriminate | reflexivity
               | vm_compute; split; discriminate
               | vm_compute; split; discriminate
               | vm_compute; reflexivity | vm_compute; reflexivity].
Defined.

(** C5 as stated fails for a SIMD128 access: reading four lanes at index 3
    of five four-byte elements, index < length holds and the check
    deoptimizes, since bytes 12 to 27 are not within the 20 bytes. *)
Lemma DoBoundsCheck_simd_index_below_length :
  exists m',
    execute (DoBoundsCheck Sample.context
               (Sample.bounds_check kFloat32ArrayGetFloat32x4XYZW false))
            (Sample.machine 3 5 0 0 0)
    = Deopt kOutOfBounds m'.
Proof. eexists. vm_compute. reflexivity. Qed.

End BoundsFacts.

(** ** Keyed loads: the hole *)

Section LoadKeyedFacts.

Import Ia32 Lithium.

Local Arguments Int32.wrap : simpl never.
Local Arguments get : simpl never.
Local Arguments set : simpl never.
Local Arguments set_flags : simpl never.
Local Arguments Z.sub : simpl never.
Local Arguments Z.add : simpl never.
Local Arguments Z.land : simpl never.

Lemma value_wrap m o : Int32.wrap (value m o) = value m o.
Proof. apply wrap_small, value_range. Qed.

Lemma holds_equal a b :
  0 <= a < Int32.modulus -> 0 <= b < Int32.modulus ->
  holds (sub_flags a b) equal = Some (a =? b).
Proof.
  intros Ha Hb. unfold sub_flags, result_flags. simpl.
  now rewrite wrap_sub_zero.
Qed.

Lemma holds_not_equal a b :
  0 <= a < Int32.modulus -> 0 <= b < Int32.modulus ->
  holds (sub_flags a b) not_equal = Some (negb (a =? b)).
Proof.
  intros Ha Hb. unfold sub_flags, result_flags. simpl.
  now rewrite wrap_sub_zero.
Qed.

Variable c : Context.
Variable instr : LLoadKeyed.t.
Variable m : Machine.

Let result : Register := ToRegister c (LLoadKeyed.result instr).
Let code : list Instr := fst (DoLoadKeyedFixedArray c instr).
Let loaded : Z := loaded_element c instr m.

Lemma loaded_range : 0 <= loaded < Int32.modulus.
Proof. apply value_range. Qed.

(** Declared "requires hole check", elements not known to be small
    integers: the hole deoptimizes, anything else is the result. *)
Lemma load_hole_check :
  LLoadKeyed.RequiresHoleCheck instr = true ->
  IsFastSmiElementsKind c (LLoadKeyed.elements_kind instr) = false ->
  exists m',
    execute code m
    = (if loaded =? Int32.wrap (the_hole_value c)
       then Deopt kHole m' else Done m') /\
    get m' result = loaded.
Proof.
  intros Hreq Hkind. pose proof loaded_range as Hl.
  unfold code, DoLoadKeyedFixedArray, execute.
  unfold loaded, loaded_element in *.
  destruct (BuildFastArrayOperand _ _ _ _ _ _) as [operand aborted].
  rewrite Hreq, Hkind. cbn [fst app DeoptimizeIf run write].
  fold result. eexists.
  unfold do_cmp. cbn [value]. rewrite flags_set_flags, get_set_same.
  rewrite value_wrap, holds_equal by (assumption || apply wrap_range).
  split; [reflexivity |].
  rewrite get_set_flags, get_set_same. apply value_wrap.
Qed.

(** Declared "requires hole check", elements known to be small integers:
    a value with a tag bit deoptimizes. *)
Lemma load_smi_check :
  LLoadKeyed.RequiresHoleCheck instr = true ->
  IsFastSmiElementsKind c (LLoadKeyed.elements_kind instr) = true ->
  exists m',
    execute code m
    = (if Z.land loaded kSmiTagMask =? 0
       then Done m' else Deopt kNotASmi m') /\
    get m' result = loaded.
Proof.
  intros Hreq Hkind. pose proof loaded_range as Hl.
  unfold code, DoLoadKeyedFixedArray, execute.
  unfold loaded, loaded_element in *.
  destruct (BuildFastArrayOperand _ _ _ _ _ _) as [operand aborted].
  rewrite Hreq, Hkind. cbn [fst app DeoptimizeIf run write].
  fold result. eexists.
  unfold do_test, logic_flags, result_flags. cbn [value].
  rewrite flags_set_flags, get_set_same, value_wrap.
  cbn [holds ZF fmap option_fmap option_map].
  change (Int32.wrap kSmiTagMask) with kSmiTagMask.
  assert (Hland : Int32.wrap (Z.land (value m operand) kSmiTagMask)
                  = Z.land (value m operand) kSmiTagMask).
  { apply wrap_small. change kSmiTagMask with (Z.ones 1).
    rewrite Z.land_ones by lia. unfold Int32.modulus.
    pose proof (Z.mod_pos_bound (value m operand) (2 ^ 1) ltac:(lia)).
    change (2 ^ 1) with 2 in *. change (2 ^ 32) with 4294967296. lia. }
  rewrite Hland. split.
  - rewrite if_negb. reflexivity.
  - rewrite get_set_flags, get_set_same. apply value_wrap.
Qed.

(** Declared "convert hole to undefined", in optimized code: the hole
    becomes the undefined value, anything else is the result; there is no
    deoptimization. *)
Lemma load_convert_hole :
  LLoadKeyed.RequiresHoleCheck instr = false ->
  LLoadKeyed.hole_mode instr = CONVERT_HOLE_TO_UNDEFINED ->
  IsStub c = false ->
  exists m',
    execute code m = Done m' /\
    get m' result = if loaded =? Int32.wrap (the_hole_value c)
                    then Int32.wrap (undefined_value c) else loaded.
Proof.
  intros Hreq Hmode Hstub. pose proof loaded_range as Hl.
  unfold code, DoLoadKeyedFixedArray, execute.
  unfold loaded, loaded_element in *.
  destruct (BuildFastArrayOperand _ _ _ _ _ _) as [operand aborted].
  rewrite Hreq, Hmode, Hstub. cbn [fst snd] in *.
  cbn [app when DeoptimizeIf run write]. fold result.
  unfold do_cmp. cbn [value]. rewrite flags_set_flags, get_set_same.
  rewrite value_wrap, holds_not_equal by (assumption || apply wrap_range).
  destruct (value m operand =? Int32.wrap (the_hole_value c));
    cbn [negb run write value decide]; eexists.
  - split; [reflexivity |]. rewrite get_set_same. apply wrap_wrap.
  - rewrite decide_True by reflexivity. split; [reflexivity |].
    rewrite get_set_flags, get_set_same. apply value_wrap.
Qed.

(** Declared "convert hole to undefined", in a stub: the hole becomes the
    undefined value only while the array protector cell is valid; the stub
    bails out with the reason "hole" otherwise. *)
Lemma load_convert_hole_stub :
  LLoadKeyed.RequiresHoleCheck instr = false ->
  LLoadKeyed.hole_mode instr = CONVERT_HOLE_TO_UNDEFINED ->
  IsStub c = true ->
  loaded = Int32.wrap (the_hole_value c) ->
  if protector_cell_value c m
     =? Int32.wrap (Smi_FromInt (kArrayProtectorValid c))
  then exists m', execute code m = Done m' /\
                  get m' result = Int32.wrap (undefined_value c)
  else exists m', execute code m = Deopt kHole m'.
Proof.
  intros Hreq Hmode Hstub Hhole. pose proof loaded_range as Hl.
  unfold code, DoLoadKeyedFixedArray, execute.
  unfold loaded, loaded_element in *.
  destruct (BuildFastArrayOperand _ _ _ _ _ _) as [operand aborted].
  rewrite Hreq, Hmode, Hstub. cbn [fst snd] in *.
  cbn [app when DeoptimizeIf run write]. fold result.
  unfold do_cmp. cbn [value]. rewrite flags_set_flags, get_set_same.
  rewrite value_wrap, holds_not_equal by (assumption || apply wrap_range).
  rewrite Hhole, Z.eqb_refl. cbn [negb run write value FieldOperand].
  rewrite flags_set_flags.
  assert (Hcell :
    Int32.wrap
      (mem (set (set_flags (set m result (Int32.wrap (the_hole_value c)))
                   (sub_flags (Int32.wrap (the_hole_value c))
                      (Int32.wrap (the_hole_value c))))
              result (Int32.wrap (array_protector c)))
         (address
            (set (set_flags (set m result (Int32.wrap (the_hole_value c)))
                    (sub_flags (Int32.wrap (the_hole_value c))
                       (Int32.wrap (the_hole_value c))))
               result (Int32.wrap (array_protector c)))
            result None (PropertyCell_kValueOffset c - kHeapObjectTag c)))
    = protector_cell_value c m).
  { unfold protector_cell_value, address.
    rewrite get_set_same, wrap_wrap, Z.add_0_r. reflexivity. }
  rewrite Hcell.
  rewrite holds_not_equal by (apply wrap_range).
  destruct (protector_cell_value c m =? _); cbn [negb run write value];
    eexists.
  - split; [reflexivity |]. rewrite get_set_same. apply wrap_wrap.
  - reflexivity.
Qed.

End LoadKeyedFacts.

Section LoadKeyedPolicy.

Import Ia32 Lithium.

(** C6, as the code has it. When the hole is loaded: a load declared
    "convert hole to undefined" yields the undefined value without
    deoptimizing in optimized code, and in a stub as long as the array
    protector cell is valid, while a stub with an invalid protector bails
    out with the reason "hole"; a load declared "requires hole check"
    deoptimizes with the reason "hole". For fast small-integer kinds the
    hole check is a tag test: a loaded value with a tag bit deoptimizes
    with the reason "not a smi". *)
Theorem DoLoadKeyedFixedArray_hole_policy c instr m :
  let result := ToRegister c (LLoadKeyed.result instr) in
  let code := fst (DoLoadKeyedFixedArray c instr) in
  let loaded := loaded_element c instr m in
  (LLoadKeyed.RequiresHoleCheck instr = false ->
   LLoadKeyed.hole_mode instr = CONVERT_HOLE_TO_UNDEFINED ->
   loaded = Int32.wrap (the_hole_value c) ->
   IsStub c = false ->
   exists m', execute code m = Done m' /\
              get m' result = Int32.wrap (undefined_value c)) /\
  (LLoadKeyed.RequiresHoleCheck instr = false ->
   LLoadKeyed.hole_mode instr = CONVERT_HOLE_TO_UNDEFINED ->
   loaded = Int32.wrap (the_hole_value c) ->
   IsStub c = true ->
   if protector_cell_value c m
      =? Int32.wrap (Smi_FromInt (kArrayProtectorValid c))
   then exists m', execute code m = Done m' /\
                   get m' result = Int32.wrap (undefined_value c)
   else exists m', execute code m = Deopt kHole m') /\
  (LLoadKeyed.RequiresHoleCheck instr = true ->
   IsFastSmiElementsKind c (LLoadKeyed.elements_kind instr) = false ->
   loaded = Int32.wrap (the_hole_value c) ->
   exists m', execute code m = Deopt kHole m') /\
  (LLoadKeyed.RequiresHoleCheck instr = true ->
   IsFastSmiElementsKind c (LLoadKeyed.elements_kind instr) = true ->
   Z.land loaded kSmiTagMask <> 0 ->
   exists m', execute code m = Deopt kNotASmi m').
Proof.
  intros result code loaded. split; [| split; [| split]].
  - intros Hreq Hmode Hhole Hstub.
    destruct (load_convert_hole c instr m Hreq Hmode Hstub) as (m' & H1 & H2).
    exists m'. split; [exact H1 |]. fold loaded in H2.
    now rewrite Hhole, Z.eqb_refl in H2.
  - intros Hreq Hmode Hhole Hstub.
    exact (load_convert_hole_stub c instr m Hreq Hmode Hstub Hhole).
  - intros Hreq Hkind Hhole.
    destruct (load_hole_check c instr m Hreq Hkind) as (m' & H1 & _).
    exists m'. fold loaded in H1. now rewrite Hhole, Z.eqb_refl in H1.
  - intros Hreq Hkind Htag.
    destruct (load_smi_check c instr m Hreq Hkind) as (m' & H1 & _).
    exists m'. fold loaded in H1.
    now destruct (Z.eqb_spec (Z.land loaded kSmiTagMask) 0).
Qed.

Lemma DoLoadKeyedFixedArray_hole_policy_witness :
  (exists m',
     execute (fst (DoLoadKeyedFixedArray Sample.context
                     (Sample.load_keyed false FAST_HOLEY_ELEMENTS
                        CONVERT_HOLE_TO_UNDEFINED)))
             (Sample.machine 64 2 0 0 1001)
     = Done m' /\ get m' eax = 1005) /\
  (exists m',
     execute (fst (DoLoadKeyedFixedArray Sample.context
                     (Sample.load_keyed true FAST_HOLEY_ELEMENTS
                        NEVER_RETURN_HOLE)))
             (Sample.machine 64 2 0 0 1001)
     = Deopt kHole m').
Proof.
  split.
  - apply (DoLoadKeyedFixedArray_hole_policy Sample.context
             (Sample.load_keyed false FAST_HOLEY_ELEMENTS
                CONVERT_HOLE_TO_UNDEFINED)
             (Sample.machine 64 2 0 0 1001)); reflexivity.
  - apply (DoLoadKeyedFixedArray_hole_policy Sample.context
             (Sample.load_keyed true FAST_HOLEY_ELEMENTS NEVER_RETURN_HOLE)
             (Sample.machine 64 2 0 0 1001)); reflexivity.
Defined.

(** C6 as stated fails in a stub: with the hole loaded and a protector
    cell that does not hold the valid marker, the load declared "convert
    hole to undefined" bails out. *)
Lemma load_convert_hole_stub_deopts :
  loaded_element Sample.stub_context
    (Sample.load_keyed false FAST_HOLEY_ELEMENTS CONVERT_HOLE_TO_UNDEFINED)
    (Sample.machine 64 2 0 0 1001)
  = Int32.wrap (the_hole_value Sample.stub_context) /\
  exists m',
    execute (fst (DoLoadKeyedFixedArray Sample.stub_context
                    (Sample.load_keyed false FAST_HOLEY_ELEMENTS
                       CONVERT_HOLE_TO_UNDEFINED)))
            (Sample.machine 64 2 0 0 1001)
    = Deopt kHole m'.
Proof. split; [reflexivity |]. eexists. vm_compute. reflexivity. Qed.

End LoadKeyedPolicy.

(** ** Branch emission *)

Section BranchFacts.

Import Ia32 Lithium.

(** C9, as the code has it. A branch whose destinations resolve to the
    same block, or whose condition is [no_condition], is a goto to the true
    destination: no conditional jump, and one unconditional jump unless
    that destination is the next emitted block. Otherwise, with a real
    condition: a single negated conditional jump to the false destination
    when the true destination is the next emitted block, a single
    conditional jump to the true destination when the false destination is,
    and a conditional jump followed by an unconditional one when neither
    is. *)
Theorem EmitBranch_shape c instr cc :
  let left_block := TrueDestination c instr in
  let right_block := FalseDestination c instr in
  let next_block := GetNextEmittedBlock c in
  let label := GetAssemblyLabel c in
  LookupDestination c left_block = left_block ->
  (right_block = left_block \/ cc = no_condition ->
   EmitBranch c instr cc
   = (if left_block =? next_block then [] else [jmp (label left_block)]) /\
   count_conditional_jumps (EmitBranch c instr cc) = 0%nat /\
   count_unconditional_jumps (EmitBranch c instr cc)
   = (if left_block =? next_block then 0%nat else 1%nat)) /\
  (right_block <> left_block -> cc <> no_condition ->
   EmitBranch c instr cc
   = if left_block =? next_block
     then [j (NegateCondition cc) (label right_block)]
     else if right_block =? next_block
          then [j cc (label left_block)]
          else [j cc (label left_block); jmp (label right_block)]).
Proof.
  intros left_block right_block next_block label Hidem. split.
  - intros Hsame.
    assert (E : EmitBranch c instr cc
                = if left_block =? next_block then []
                  else [jmp (label left_block)]).
    { unfold EmitBranch. fold left_block right_block next_block.
      assert (Hc : (right_block =? left_block)
                   || bool_decide (cc = no_condition) = true).
      { destruct Hsame as [-> | ->].
        - now rewrite Z.eqb_refl.
        - rewrite bool_decide_eq_true_2 by reflexivity. apply orb_true_r. }
      rewrite Hc. unfold EmitGoto, IsNextEmittedBlock.
      rewrite Hidem. fold next_block label.
      now destruct (left_block =? next_block). }
    rewrite E. split; [reflexivity |].
    destruct (left_block =? next_block); split; reflexivity.
  - intros Hdiff Hcc. unfold EmitBranch.
    fold left_block right_block next_block label.
    destruct (Z.eqb_spec right_block left_block) as [-> | _];
      [congruence |].
    rewrite bool_decide_eq_false_2 by assumption. reflexivity.
Qed.

Lemma EmitBranch_shape_witness :
  EmitBranch Sample.context (Sample.branch 7 3) less
  = [j greater_equal 3%nat] /\
  EmitBranch Sample.context (Sample.branch 3 3) less = [jmp 3%nat].
Proof.
  destruct (EmitBranch_shape Sample.context (Sample.branch 7 3) less eq_refl)
    as [_ H1].
  destruct (EmitBranch_shape Sample.context (Sample.branch 3 3) less eq_refl)
    as [H2 _].
  split.
  - apply H1; discriminate.
  - apply H2. now left.
Defined.

(** C9 as stated fails for [no_condition]: with exactly one destination
    being the next emitted block (block 7), no conditional jump is
    emitted; the branch is a goto to the true destination. *)
Lemma EmitBranch_no_condition :
  EmitBranch Sample.context (Sample.branch 3 7) no_condition = [jmp 3%nat] /\
  EmitBranch Sample.context (Sample.branch 7 3) no_condition = [].
Proof. split; reflexivity. Qed.

End BranchFacts.

(** ** Safepoints *)

Section SafepointFacts.

Import Ia32 Lithium LCodeGen.

Lemma pointer_slots_cons op operands :
  pointer_slots (op :: operands)
  = (if IsStackSlot op then [index op] else []) ++ pointer_slots operands.
Proof.
  unfold pointer_slots. rewrite filter_cons.
  destruct (decide (IsStackSlot op = true)) as [E | E].
  - rewrite E. reflexivity.
  - apply not_true_is_false in E. rewrite E. reflexivity.
Qed.

Lemma pointer_registers_cons cfg kind op operands :
  pointer_registers cfg kind (op :: operands)
  = (if negb (IsStackSlot op) && IsRegister op
        && negb (Z.land kind kWithRegisters =? 0)
     then [ToRegister (context cfg) op] else [])
    ++ pointer_registers cfg kind operands.
Proof.
  unfold pointer_registers.
  destruct (Z.land kind kWithRegisters =? 0);
    [now rewrite andb_false_r |].
  rewrite filter_cons.
  destruct (decide (IsStackSlot op = false /\ IsRegister op = true))
    as [[E1 E2] | E].
  - rewrite E1, E2. reflexivity.
  - destruct (IsStackSlot op), (IsRegister op); try reflexivity.
    exfalso. apply E. split; reflexivity.
Qed.

Lemma set_safepoints_same s : set_safepoints (safepoints_ s) s = s.
Proof. now destruct s. Qed.

(** The loop adds the stack slots and, for a kind with registers, the
    registers of the operands to the record it is given, in order. *)
Lemma RecordPointers_spec cfg kind operands : forall s pre sp,
  safepoints_ s = pre ++ [sp] ->
  RecordPointers cfg (length pre) kind operands s
  = set_safepoints
      (pre ++ [{| sp_pc := sp_pc sp; sp_kind := sp_kind sp;
                  sp_arguments := sp_arguments sp;
                  sp_deopt_mode := sp_deopt_mode sp;
                  sp_indexes := sp_indexes sp ++ pointer_slots operands;
                  sp_registers :=
                    sp_registers sp
                    ++ pointer_registers cfg kind operands |}]) s.
Proof.
  induction operands as [| op operands IH]; intros s pre sp Hs.
  - simpl. unfold pointer_slots, pointer_registers. simpl.
    replace (if Z.land kind kWithRegisters =? 0 then [] else [])
      with (@nil Register) by now destruct (_ =? _).
    rewrite !app_nil_r. destruct sp. simpl. rewrite <- Hs.
    symmetry. apply set_safepoints_same.
  - simpl RecordPointers.
    rewrite pointer_slots_cons, pointer_registers_cons.
    assert (Halter : forall f,
      alter f (length pre) (safepoints_ s) = pre ++ [f sp]).
    { intros f. rewrite Hs.
      replace (length pre) with (length pre + 0)%nat by lia.
      now rewrite alter_app_r. }
    destruct (IsStackSlot op) eqn:Eslot.
    + unfold DefinePointerSlot. rewrite Halter.
      erewrite IH by reflexivity. simpl.
      now rewrite <- app_assoc.
    + destruct (IsRegister op) eqn:Ereg; simpl;
        [destruct (Z.land kind kWithRegisters =? 0); simpl |].
      * erewrite IH by exact Hs. reflexivity.
      * unfold DefinePointerRegister. rewrite Halter.
        erewrite IH by reflexivity. simpl.
        now rewrite <- app_assoc.
      * erewrite IH by exact Hs. reflexivity.
Qed.

Lemma RecordSafepoint_spec cfg pointers kind arguments mode s :
  RecordSafepoint cfg pointers kind arguments mode s
  = set_safepoints
      (safepoints_ s
       ++ [{| sp_pc := masm_pc_offset s; sp_kind := kind;
              sp_arguments := arguments; sp_deopt_mode := mode;
              sp_indexes :=
                pointer_slots (GetNormalizedOperands pointers);
              sp_registers :=
                pointer_registers cfg kind
                  (GetNormalizedOperands pointers) |}]) s.
Proof.
  unfold RecordSafepoint, DefineSafepoint.
  erewrite RecordPointers_spec by reflexivity. reflexivity.
Qed.

(** The normalization drops no operand of the map and retains no
    duplicate. *)
Lemma GetNormalizedOperands_spec pointers :
  NoDup (GetNormalizedOperands pointers) /\
  forall op, op ∈ GetNormalizedOperands pointers
             <-> op ∈ pointer_operands_ pointers.
Proof.
  unfold GetNormalizedOperands. split.
  - apply NoDup_remove_dups.
  - intros op. apply elem_of_remove_dups.
Qed.

(** Operands of one kind differ in their index. *)
Lemma same_kind_same_index (P : LOperandKind) op1 op2 :
  kind op1 = P -> kind op2 = P -> index op1 = index op2 -> op1 = op2.
Proof. destruct op1, op2. simpl. congruence. Qed.

(** C3: [RecordSafepoint] defines exactly one record, at the code offset
    of the assembler. The record holds the index of every stack-slot
    operand of the pointer map and, exactly when the kind has the
    registers bit, the register of every register operand of the map,
    and nothing else: no entry is dropped. Every normalized operand is
    recorded once, in the order of the normalized map, which has no
    operand twice: no stack slot is recorded twice, and no register is,
    when the allocator numbers the register operands of the map
    injectively. *)
Theorem RecordSafepoint_complete cfg pointers kind arguments mode s :
  let operands := GetNormalizedOperands pointers in
  exists record,
    safepoints_ (RecordSafepoint cfg pointers kind arguments mode s)
    = safepoints_ s ++ [record] /\
    sp_pc record = masm_pc_offset s /\
    (forall i, i ∈ sp_indexes record <->
               exists op, op ∈ pointer_operands_ pointers /\
                          IsStackSlot op = true /\ index op = i) /\
    (forall r, r ∈ sp_registers record <->
               Z.land kind kWithRegisters <> 0 /\
               exists op, op ∈ pointer_operands_ pointers /\
                          IsRegister op = true /\
                          ToRegister (context cfg) op = r) /\
    NoDup operands /\
    sp_indexes record
    = index <$> filter (fun op => IsStackSlot op = true) operands /\
    sp_registers record
    = (if Z.land kind kWithRegisters =? 0 then []
       else ToRegister (context cfg)
            <$> filter (fun op => IsRegister op = true) operands) /\
    NoDup (sp_indexes record) /\
    ((forall op1 op2,
        op1 ∈ pointer_operands_ pointers ->
        op2 ∈ pointer_operands_ pointers ->
        IsRegister op1 = true -> IsRegister op2 = true ->
        FromAllocationIndex (context cfg) (index op1)
        = FromAllocationIndex (context cfg) (index op2) ->
        index op1 = index op2) ->
     NoDup (sp_registers record)).
Proof.
  intros operands. rewrite RecordSafepoint_spec. fold operands.
  destruct (GetNormalizedOperands_spec pointers) as [Hnd Hin].
  fold operands in Hnd, Hin.
  eexists. split; [reflexivity |]. split; [reflexivity |]. simpl.
  assert (Hkinds : forall op,
    IsRegister op = true -> IsStackSlot op = false).
  { intros op H. unfold IsRegister, IsStackSlot in *.
    apply bool_decide_eq_true in H. apply bool_decide_eq_false.
    rewrite H. discriminate. }
  assert (Hregs : filter (fun op => IsStackSlot op = false
                                    /\ IsRegister op = true) operands
                  = filter (fun op => IsRegister op = true) operands).
  { apply list_filter_iff. intros op. split; [tauto | auto]. }
  split; [| split; [| split; [| split; [| split; [| split]]]]].
  - intros i. unfold pointer_slots. rewrite list_elem_of_fmap.
    split.
    + intros (op & -> & Hop). apply list_elem_of_filter in Hop as [H1 H2].
      apply Hin in H2. eauto.
    + intros (op & Hop & Hslot & <-). exists op. split; [reflexivity |].
      apply list_elem_of_filter. split; [exact Hslot | now apply Hin].
  - intros r. unfold pointer_registers.
    destruct (Z.eqb_spec (Z.land kind kWithRegisters) 0) as [E | E].
    + split; [intros H; inversion H | intros [H _]; contradiction].
    + rewrite list_elem_of_fmap. split.
      * intros (op & -> & Hop).
        apply list_elem_of_filter in Hop as [[H1 H2] H3].
        apply Hin in H3. eauto 6.
      * intros (_ & op & Hop & Hreg & <-). exists op.
        split; [reflexivity |]. apply list_elem_of_filter.
        split; [auto | now apply Hin].
  - exact Hnd.
  - reflexivity.
  - unfold pointer_registers. now rewrite Hregs.
  - unfold pointer_slots.
    apply NoDup_fmap_2_strong; [| now apply NoDup_filter].
    intros op1 op2 H1 H2 Hidx.
    apply list_elem_of_filter in H1 as [S1 _].
    apply list_elem_of_filter in H2 as [S2 _].
    unfold IsStackSlot in *.
    apply bool_decide_eq_true in S1, S2.
    now apply (same_kind_same_index STACK_SLOT).
  - intros Hinj. unfold pointer_registers.
    destruct (_ =? _); [constructor |].
    apply NoDup_fmap_2_strong; [| now apply NoDup_filter].
    intros op1 op2 H1 H2 Hreg.
    apply list_elem_of_filter in H1 as [[_ R1] I1].
    apply list_elem_of_filter in H2 as [[_ R2] I2].
    apply Hin in I1, I2.
    pose proof (Hinj op1 op2 I1 I2 R1 R2 Hreg) as Hidx.
    unfold IsRegister in *.
    apply bool_decide_eq_true in R1, R2.
    now apply (same_kind_same_index REGISTER).
Qed.

End SafepointFacts.

Section SafepointExamples.

Import Ia32 Lithium LCodeGen SampleCodeGen.

(** A pointer map that names a stack slot and a register twice,
    recorded with registers after three emitted instructions: one record
    at offset 3 with the two stack slots and the two registers, each
    once. *)
Lemma RecordSafepoint_complete_witness :
  let s := emit [pushfd; popfd; call 9000] (initial true) in
  exists record,
    safepoints_ (RecordSafepoint config repeated_pointers kWithRegisters
                                 0 kLazyDeopt s) = [record] /\
    sp_pc record = 3 /\
    sp_indexes record = [3; 5] /\ sp_registers record = [edx; ecx] /\
    NoDup (sp_indexes record) /\ NoDup (sp_registers record).
Proof.
  intros s.
  destruct (RecordSafepoint_complete config repeated_pointers
                                     kWithRegisters 0 kLazyDeopt s)
    as (record & H1 & H2 & _ & _ & _ & H5 & H6 & H7 & H8).
  exists record. split; [exact H1 |]. split; [exact H2 |].
  split; [rewrite H5; vm_compute; reflexivity |].
  split; [rewrite H6; vm_compute; reflexivity |].
  split; [exact H7 |]. apply H8.
  intros op1 op2 M1 M2 R1 R2 E.
  assert (Hall : Forall (fun a => Forall (fun b =>
    IsRegister a = true -> IsRegister b = true ->
    FromAllocationIndex (context config) (index a)
    = FromAllocationIndex (context config) (index b) ->
    index a = index b) (pointer_operands_ repeated_pointers))
    (pointer_operands_ repeated_pointers)).
  { apply (bool_decide_unpack _). vm_compute. exact I. }
  eapply Forall_forall in Hall; [| exact M1].
  eapply Forall_forall in Hall; [| exact M2]. now apply Hall.
Defined.

(** Recorded with the kind [kSimple], the same map leaves its two stack
    slots, each once. *)
Example RecordSafepoint_repeated :
  safepoints_ (RecordSafepoint config repeated_pointers kSimple 0
                               kNoLazyDeopt (initial true))
  = [{| sp_pc := 0; sp_kind := kSimple; sp_arguments := 0;
        sp_deopt_mode := kNoLazyDeopt; sp_indexes := [3; 5];
        sp_registers := [] |}].
Proof. reflexivity. Qed.

(** With the kind [kSimple] the registers of the sample pointer map are
    left out, and its stack slots kept. *)
Example RecordSafepoint_simple :
  safepoints_ (RecordSafepoint config pointers kSimple 0 kNoLazyDeopt
                               (initial true))
  = [{| sp_pc := 0; sp_kind := kSimple; sp_arguments := 0;
        sp_deopt_mode := kNoLazyDeopt; sp_indexes := [3; 5];
        sp_registers := [] |}].
Proof. reflexivity. Qed.

Example RecordSafepoint_with_registers :
  safepoints_ (RecordSafepoint config pointers kWithRegisters 0
                               kNoLazyDeopt (initial true))
  = [{| sp_pc := 0; sp_kind := kWithRegisters; sp_arguments := 0;
        sp_deopt_mode := kNoLazyDeopt; sp_indexes := [3; 5];
        sp_registers := [ecx; edx] |}].
Proof. reflexivity. Qed.

End SafepointExamples.

(** ** Translations: what writing one leaves untouched *)

Section TranslationFrame.

Import Ia32 Lithium LCodeGen.

Lemma LEnvironment_outer_ind (P : LEnvironment -> Prop) :
  (forall e, (forall o, outer e = Some o -> P o) -> P e) ->
  forall e, P e.
Proof.
  intros H. fix IH 1. intros e. apply H. intros o Ho.
  destruct e as [? ? ? ? ? ? ? ? ? [o' |]]; simpl in Ho;
    [| discriminate].
  injection Ho as <-. apply IH.
Qed.

Lemma same_but_translation_refl s : same_but_translation s s.
Proof. repeat split. Qed.

Lemma same_but_translation_trans s1 s2 s3 :
  same_but_translation s1 s2 -> same_but_translation s2 s3 ->
  same_but_translation s1 s3.
Proof.
  unfold same_but_translation. intros H1 H2.
  destruct H1 as (?&?&?&?&?&?&?&?), H2 as (?&?&?&?&?&?&?&?).
  repeat split; congruence.
Qed.

Lemma translate_frame commands s :
  same_but_translation s (translate commands s).
Proof. repeat split. Qed.

Lemma DefineDeoptimizationLiteral_frame literal s :
  same_but_translation s (DefineDeoptimizationLiteral literal s).2.
Proof.
  unfold DefineDeoptimizationLiteral.
  destruct (list_find _ _) as [[i x] |]; repeat split.
Qed.

(** The loop keeps what each of its steps keeps. *)
Lemma for_each_value_preserves (P : State -> State -> Prop) add e offset :
  (forall s, P s s) ->
  (forall s1 s2 s3, P s1 s2 -> P s2 s3 -> P s1 s3) ->
  (forall v t u cur s cur' s',
      add v t u cur s = Ok (cur', s') -> P s s') ->
  forall count i cur s cur' s',
    for_each_value add e offset count i cur s = Ok (cur', s') -> P s s'.
Proof.
  intros Hrefl Htrans Hadd.
  induction count as [| count IH]; intros i cur s cur' s' H; simpl in H.
  - injection H as <- <-. apply Hrefl.
  - destruct (at_ (values e) (offset + i)) as [v | | |]; try discriminate.
    simpl in H.
    destruct (add v _ _ cur s) as [[cur1 s1] | | |] eqn:E; try discriminate.
    simpl in H. eapply Htrans; [eapply Hadd, E | eapply IH, H].
Qed.

Lemma AddToTranslation_frame fuel cfg e : forall v t u cur s cur' s',
  AddToTranslation fuel cfg e v t u cur s = Ok (cur', s') ->
  same_but_translation s s'.
Proof.
  induction fuel as [| fuel IH]; intros v t u cur s cur' s' H;
    [discriminate |].
  destruct v as [| op]; simpl in H.
  - destruct (ObjectIsDuplicateAt e _) as [[] | | |]; try discriminate;
      simpl in H.
    + destruct (ObjectDuplicateOfAt e _); try discriminate. simpl in H.
      injection H as <- <-. apply translate_frame.
    + destruct (ObjectLengthAt e _) as [n | | |]; try discriminate.
      simpl in H.
      destruct (ObjectIsArgumentsAt e _) as [a | | |]; try discriminate.
      simpl in H.
      eapply same_but_translation_trans;
        [| eapply (for_each_value_preserves same_but_translation);
           [apply same_but_translation_refl
           | apply same_but_translation_trans
           | apply IH | exact H]].
      destruct a; apply translate_frame.
  - repeat match type of H with
           | (if ?b then _ else _) = _ => destruct b
           end;
      try discriminate;
      try (injection H as <- <-; apply translate_frame).
    pose proof (DefineDeoptimizationLiteral_frame
                  (handle (LookupConstant (context cfg) (index op))) s)
      as Hlit.
    destruct (DefineDeoptimizationLiteral _ s) as [i s1]. simpl in Hlit.
    injection H as <- <-.
    eapply same_but_translation_trans; [exact Hlit | apply translate_frame].
Qed.

Lemma WriteTranslation_eq cfg e s :
  WriteTranslation cfg e s =
  (s ← match outer e with
       | None => Ok s
       | Some o => WriteTranslation cfg o s
       end;
   '(_, s) ←
     for_each_value (AddToTranslation (enough_fuel e) cfg e) e 0%nat
       (translation_size e) 0%nat
       {| object_index_pointer := 0; dematerialized_index_pointer := 0 |}
       (WriteTranslationFrame e s);
   Ok s).
Proof. destruct e; reflexivity. Qed.

Lemma WriteTranslation_frame cfg e : forall s s',
  WriteTranslation cfg e s = Ok s' -> same_but_translation s s'.
Proof.
  induction e as [e IH] using LEnvironment_outer_ind. intros s s' H.
  rewrite WriteTranslation_eq in H.
  assert (Hout : exists s1,
    match outer e with
    | Some o => WriteTranslation cfg o s
    | None => Ok s
    end = Ok s1 /\ same_but_translation s s1).
  { destruct (outer e) as [o |].
    - destruct (WriteTranslation cfg o s) as [s1 | | |] eqn:E;
        try discriminate.
      exists s1. split; [reflexivity |]. now apply (IH o).
    - exists s. split; [reflexivity | apply same_but_translation_refl]. }
  destruct Hout as (s1 & E1 & F1). rewrite E1 in H.
  unfold mbind at 1, Res_bind at 1 in H.
  destruct (for_each_value _ _ _ _ _ _ _) as [[cur2 s2] | | |] eqn:E2;
    try discriminate.
  injection H as <-.
  eapply same_but_translation_trans; [exact F1 |].
  eapply same_but_translation_trans; [apply translate_frame |].
  eapply (for_each_value_preserves same_but_translation);
    [apply same_but_translation_refl | apply same_but_translation_trans
     | | exact E2].
  intros v t u cur st cur' st'. apply AddToTranslation_frame.
Qed.

End TranslationFrame.

(** ** Registering an environment for deoptimization *)

Section RegisterFacts.

Import Ia32 Lithium LCodeGen.

Lemma set_environments_same s : set_environments (environments s) s = s.
Proof. now destruct s. Qed.

Lemma fields_of_set_has_been_used e s :
  fields_of e (set_has_been_used e s) =
  {| has_been_used := true; registration := registration (fields_of e s) |}.
Proof.
  unfold fields_of at 1, set_has_been_used. simpl.
  now rewrite lookup_insert_eq.
Qed.

Lemma set_has_been_used_registered e s r :
  environments s !! env_id e
  = Some {| has_been_used := true; registration := r |} ->
  set_has_been_used e s = s.
Proof.
  intros H. unfold set_has_been_used, fields_of. rewrite H. simpl.
  rewrite insert_id by exact H. apply set_environments_same.
Qed.

(** What a successful registration does to a state: it marks the
    environment as used, and either finds it registered, or writes its
    translation and registers it. *)
Lemma RegisterEnvironmentForDeoptimization_spec cfg e mode s s1 :
  RegisterEnvironmentForDeoptimization cfg e mode s = Ok s1 ->
  (HasBeenRegistered e s = true /\ s1 = set_has_been_used e s) \/
  (HasBeenRegistered e s = false /\
   exists s_w,
     WriteTranslation cfg e
       (translate [BEGIN (length (chain e))
                         (length (filter (fun e => frame_type e = JS_FUNCTION)
                                         (chain e)))]
                  (set_has_been_used e s)) = Ok s_w /\
     s1 = set_deoptimizations (deoptimizations_ s ++ [e])
            (LEnvironment_Register e (length (deoptimizations_ s))
               (length (translations_ s))
               (if decide (mode = kLazyDeopt) then masm_pc_offset s else -1)
               s_w)).
Proof.
  unfold RegisterEnvironmentForDeoptimization. intros H.
  assert (Hreg : HasBeenRegistered e (set_has_been_used e s)
                 = HasBeenRegistered e s).
  { unfold HasBeenRegistered. now rewrite fields_of_set_has_been_used. }
  rewrite Hreg in H.
  destruct (HasBeenRegistered e s) eqn:E.
  - left. split; [reflexivity |]. now injection H as <-.
  - right. split; [reflexivity |].
    destruct (WriteTranslation cfg e _) as [s_w | | |] eqn:W;
      try discriminate.
    exists s_w. split; [reflexivity |].
    simpl in H. injection H as <-.
    destruct (WriteTranslation_frame _ _ _ _ W)
      as (Hc & _ & _ & _ & Hd & _ & _ & _).
    simpl in Hc, Hd. unfold masm_pc_offset. now rewrite Hc, Hd.
Qed.

(** After a successful registration the environment is marked as used
    and registered, in the map of environment fields. *)
Lemma RegisterEnvironmentForDeoptimization_registered cfg e mode s s1 :
  RegisterEnvironmentForDeoptimization cfg e mode s = Ok s1 ->
  exists r,
    environments s1 !! env_id e
    = Some {| has_been_used := true; registration := Some r |}.
Proof.
  intros H.
  destruct (RegisterEnvironmentForDeoptimization_spec _ _ _ _ _ H)
    as [[Hreg ->] | [Hreg (s_w & W & ->)]].
  - unfold HasBeenRegistered in Hreg. apply bool_decide_eq_true in Hreg.
    destruct Hreg as [r Hr]. exists r.
    unfold set_has_been_used. simpl. rewrite lookup_insert_eq.
    now rewrite Hr.
  - eexists. simpl. rewrite lookup_insert_eq.
    destruct (WriteTranslation_frame _ _ _ _ W)
      as (_ & _ & _ & _ & _ & _ & He & _).
    unfold fields_of. rewrite He. simpl. rewrite lookup_insert_eq.
    reflexivity.
Qed.

(** C4: once [RegisterEnvironmentForDeoptimization] has succeeded on an
    environment, a second call on it, in whichever mode, succeeds and
    leaves the whole state as it is: no translation command, no entry of
    the deoptimization table and no change of the registered indices and
    code offset. The first call on an unregistered environment adds the
    one table entry and registers the one translation index. *)
Theorem RegisterEnvironmentForDeoptimization_idempotent
        cfg e mode1 mode2 s s1 :
  RegisterEnvironmentForDeoptimization cfg e mode1 s = Ok s1 ->
  RegisterEnvironmentForDeoptimization cfg e mode2 s1 = Ok s1 /\
  (HasBeenRegistered e s = false ->
   deoptimizations_ s1 = deoptimizations_ s ++ [e] /\
   registration (fields_of e s1)
   = Some {| deoptimization_index := length (deoptimizations_ s);
             translation_index := length (translations_ s);
             pc_offset := if decide (mode1 = kLazyDeopt)
                          then masm_pc_offset s else -1 |}) /\
  (HasBeenRegistered e s = true ->
   deoptimizations_ s1 = deoptimizations_ s /\
   translations_ s1 = translations_ s /\
   registration (fields_of e s1) = registration (fields_of e s)).
Proof.
  intros H. split; [| split].
  - destruct (RegisterEnvironmentForDeoptimization_registered _ _ _ _ _ H)
      as [r Hr].
    unfold RegisterEnvironmentForDeoptimization.
    rewrite (set_has_been_used_registered _ _ _ Hr).
    unfold HasBeenRegistered, fields_of. rewrite Hr. reflexivity.
  - intros Hun.
    destruct (RegisterEnvironmentForDeoptimization_spec _ _ _ _ _ H)
      as [[Hreg _] | [_ (s_w & W & ->)]]; [congruence |].
    split; [reflexivity |].
    unfold fields_of. simpl. now rewrite lookup_insert_eq.
  - intros Hreg.
    destruct (RegisterEnvironmentForDeoptimization_spec _ _ _ _ _ H)
      as [[_ ->] | [Hun _]]; [| congruence].
    split; [reflexivity |]. split; [reflexivity |].
    now rewrite fields_of_set_has_been_used.
Qed.

End RegisterFacts.

Section RegisterExamples.

Import Ia32 Lithium LCodeGen SampleCodeGen.

(** Registering the sample inner environment writes the translation of
    both frames once. *)
Example register_inner_environment :
  translations_
  <$> RegisterEnvironmentForDeoptimization config inner_environment
        kLazyDeopt (initial true)
  = Ok [BEGIN 2 2; BeginFrame JS_FUNCTION 1 70; StoreStackSlot 0;
        BeginFrame JS_FUNCTION 2 71; StoreRegister eax;
        BeginCapturedObject 2; StoreInt32StackSlot 4;
        BeginArgumentsObject 1; StoreDoubleRegister 1;
        StoreLiteral 0; DuplicateObject 0].
Proof. vm_compute. reflexivity. Qed.

Lemma RegisterEnvironmentForDeoptimization_idempotent_witness :
  exists s1,
    RegisterEnvironmentForDeoptimization config inner_environment
      kLazyDeopt (initial true) = Ok s1 /\
    RegisterEnvironmentForDeoptimization config inner_environment
      kNoLazyDeopt s1 = Ok s1 /\
    deoptimizations_ s1 = [inner_environment] /\
    registration (fields_of inner_environment s1)
    = Some {| deoptimization_index := 0; translation_index := 0;
              pc_offset := 0 |}.
Proof.
  destruct (RegisterEnvironmentForDeoptimization config inner_environment
              kLazyDeopt (initial true)) as [s1 | | |] eqn:E;
    [| vm_compute in E; discriminate ..].
  exists s1. split; [reflexivity |].
  destruct (RegisterEnvironmentForDeoptimization_idempotent
              config inner_environment kLazyDeopt kNoLazyDeopt
              (initial true) s1 E) as (H1 & H2 & _).
  split; [exact H1 |]. apply H2. reflexivity.
Defined.

End RegisterExamples.

(** ** Deoptimization guards and the jump table *)

Section DeoptimizeFacts.

Import Ia32 Lithium LCodeGen.

Lemma RegisterEnvironmentForDeoptimization_again cfg e mode s r :
  environments s !! env_id e
  = Some {| has_been_used := true; registration := Some r |} ->
  RegisterEnvironmentForDeoptimization cfg e mode s = Ok s.
Proof.
  intros Hr. unfold RegisterEnvironmentForDeoptimization.
  rewrite (set_has_been_used_registered _ _ _ Hr).
  unfold HasBeenRegistered, fields_of. rewrite Hr. reflexivity.
Qed.

(** Registration leaves the code, the jump table and the frame flag as
    they are. *)
Lemma RegisterEnvironmentForDeoptimization_frame cfg e mode s s0 :
  RegisterEnvironmentForDeoptimization cfg e mode s = Ok s0 ->
  code s0 = code s /\ jump_table_ s0 = jump_table_ s /\
  frame_is_built_ s0 = frame_is_built_ s.
Proof.
  intros H.
  destruct (RegisterEnvironmentForDeoptimization_spec _ _ _ _ _ H)
    as [[_ ->] | [_ (s_w & W & ->)]]; [repeat split |].
  destruct (WriteTranslation_frame _ _ _ _ W)
    as (Hc & _ & Hf & Hj & _).
  simpl in *. auto.
Qed.

(** A guard on a registered environment, without the stress and trap
    instrumentation. *)
Lemma DeoptimizeIf_registered cfg cc instr reason bailout_type s r entry :
  environments s !! env_id (environment instr)
  = Some {| has_been_used := true; registration := Some r |} ->
  GetDeoptimizationEntry cfg (deoptimization_index r) bailout_type
  = Some entry ->
  DeoptEveryNTimes cfg = false -> ShouldTrapOnDeopt cfg = false ->
  DeoptimizeIf cfg cc instr reason bailout_type s =
  Ok (if calls_in_line cc s then
        let s :=
          emit [DeoptComment (MakeDeoptInfo instr reason); call entry] s in
        LogDeoptCallPosition (masm_pc_offset s) (instr_inlining_id instr) s
      else
        let table :=
          table_after cfg (guard_entry instr reason bailout_type entry s)
                      (jump_table_ s) in
        emit [jump_to_entry cc (pred (length table))]
             (set_jump_table table s)).
Proof.
  intros Hr Hentry Hstress Htrap. unfold DeoptimizeIf.
  rewrite (RegisterEnvironmentForDeoptimization_again _ _ _ _ _ Hr).
  simpl. unfold fields_of. rewrite Hr. simpl. rewrite Hentry.
  rewrite Hstress, Htrap. unfold calls_in_line.
  destruct (bool_decide (cc = no_condition) && frame_is_built_ s);
    [reflexivity |].
  unfold table_after, guard_entry, jump_to_entry, last_label.
  destruct (FLAG_trace_deopt cfg || is_profiling cfg || _);
    destruct (decide (cc = no_condition)); try reflexivity;
    destruct s; reflexivity.
Qed.

(** A guard leaves the fields of a registered environment as they
    are. *)
Lemma DeoptimizeIf_environments cfg cc instr reason bailout_type s s1 r :
  environments s !! env_id (environment instr)
  = Some {| has_been_used := true; registration := Some r |} ->
  DeoptimizeIf cfg cc instr reason bailout_type s = Ok s1 ->
  environments s1 = environments s.
Proof.
  intros Hr. unfold DeoptimizeIf.
  rewrite (RegisterEnvironmentForDeoptimization_again _ _ _ _ _ Hr).
  simpl. unfold fields_of. rewrite Hr. simpl.
  destruct (GetDeoptimizationEntry cfg _ _) as [entry |];
    [| intros H; now injection H as <-].
  destruct (DeoptEveryNTimes cfg), (ShouldTrapOnDeopt cfg); simpl;
    destruct (bool_decide (cc = no_condition) && _);
    try (intros H; now injection H as <-);
    destruct (FLAG_trace_deopt cfg || is_profiling cfg || _);
    destruct (decide (cc = no_condition));
    intros H; now injection H as <-.
Qed.

Lemma consecutive_guards_environments cfg instr reason bailout_type r :
  forall ccs s s',
    environments s !! env_id (environment instr)
    = Some {| has_been_used := true; registration := Some r |} ->
    consecutive_guards cfg instr reason bailout_type ccs s = Ok s' ->
    environments s' = environments s.
Proof.
  induction ccs as [| cc ccs IH]; intros s s' Hr H; simpl in H.
  - now injection H as <-.
  - destruct (DeoptimizeIf cfg cc instr reason bailout_type s)
      as [s1 | | |] eqn:E; try discriminate.
    simpl in H.
    pose proof (DeoptimizeIf_environments _ _ _ _ _ _ _ _ Hr E) as He.
    rewrite (IH s1 s'); [exact He | now rewrite He | exact H].
Qed.

Lemma DeoptimizeIf_after_register cfg cc instr reason bailout_type s s0 :
  RegisterEnvironmentForDeoptimization cfg (environment instr)
    kNoLazyDeopt s = Ok s0 ->
  DeoptimizeIf cfg cc instr reason bailout_type s
  = DeoptimizeIf cfg cc instr reason bailout_type s0.
Proof.
  intros R.
  destruct (RegisterEnvironmentForDeoptimization_registered _ _ _ _ _ R)
    as [r Hr].
  unfold DeoptimizeIf. rewrite R.
  now rewrite (RegisterEnvironmentForDeoptimization_again _ _ _ _ _ Hr).
Qed.

(** Consecutive guards through the jump table on a registered
    environment: they succeed, each emits its one jump, and each passes
    the table through [table_after]. *)
Lemma consecutive_guards_registered cfg instr reason bailout_type r entry :
  GetDeoptimizationEntry cfg (deoptimization_index r) bailout_type
  = Some entry ->
  DeoptEveryNTimes cfg = false -> ShouldTrapOnDeopt cfg = false ->
  forall ccs s,
    environments s !! env_id (environment instr)
    = Some {| has_been_used := true; registration := Some r |} ->
    Forall (fun cc => calls_in_line cc s = false) ccs ->
    let table_entry := guard_entry instr reason bailout_type entry s in
    exists s',
      consecutive_guards cfg instr reason bailout_type ccs s = Ok s' /\
      code s' = code s ++ guard_jumps cfg table_entry (jump_table_ s) ccs /\
      jump_table_ s'
      = Nat.iter (length ccs) (table_after cfg table_entry) (jump_table_ s).
Proof.
  intros Hentry Hstress Htrap.
  induction ccs as [| cc ccs IH]; intros s Hr Hroute table_entry.
  - exists s. simpl. now rewrite app_nil_r.
  - apply Forall_cons in Hroute as [Hcc Hroute]. simpl.
    rewrite (DeoptimizeIf_registered _ _ _ _ _ _ _ _ Hr Hentry Hstress Htrap).
    rewrite Hcc. simpl.
    set (s1 := emit _ _).
    destruct (IH s1) as (s' & Hrun & Hcode & Htable);
      [exact Hr | exact Hroute |].
    exists s'. split; [exact Hrun |].
    change (guard_entry instr reason bailout_type entry s1)
      with table_entry in Hcode, Htable.
    split.
    + rewrite Hcode. simpl. now rewrite <- app_assoc.
    + rewrite Htable. apply Nat.iter_swap.
Qed.

(** Without tracing and profiling, a second pass through [table_after]
    adds nothing. *)
Lemma table_after_again cfg table_entry table :
  FLAG_trace_deopt cfg || is_profiling cfg = false ->
  IsEquivalentTo cfg table_entry table_entry = true ->
  table_after cfg table_entry (table_after cfg table_entry table)
  = table_after cfg table_entry table.
Proof.
  intros Htrace Hrefl. unfold table_after. rewrite Htrace. simpl.
  destruct (last table) as [l |] eqn:El.
  - destruct (IsEquivalentTo cfg table_entry l) eqn:E; simpl.
    + now rewrite El, E.
    + now rewrite last_snoc, Hrefl.
  - now rewrite last_snoc, Hrefl.
Qed.

Lemma table_after_iter cfg table_entry table n :
  FLAG_trace_deopt cfg || is_profiling cfg = false ->
  IsEquivalentTo cfg table_entry table_entry = true ->
  Nat.iter (S n) (table_after cfg table_entry) table
  = table_after cfg table_entry table.
Proof.
  intros Htrace Hrefl. induction n as [| n IH]; [reflexivity |].
  rewrite Nat.iter_succ, IH. now apply table_after_again.
Qed.

Lemma table_after_tracing cfg table_entry table n :
  FLAG_trace_deopt cfg || is_profiling cfg = true ->
  Nat.iter n (table_after cfg table_entry) table
  = table ++ replicate n table_entry.
Proof.
  intros Htrace. revert table.
  induction n as [| n IH]; intros table.
  - simpl. now rewrite app_nil_r.
  - rewrite Nat.iter_succ_r, IH. unfold table_after. rewrite Htrace.
    simpl. now rewrite <- app_assoc.
Qed.

Lemma guard_jumps_shared cfg table_entry ccs : forall table,
  FLAG_trace_deopt cfg || is_profiling cfg = false ->
  IsEquivalentTo cfg table_entry table_entry = true ->
  guard_jumps cfg table_entry table ccs
  = map (fun cc =>
           jump_to_entry cc
             (pred (length (table_after cfg table_entry table)))) ccs.
Proof.
  intros table Htrace Hrefl. revert table.
  induction ccs as [| cc ccs IH]; intros table; [reflexivity |].
  simpl. rewrite IH. now rewrite table_after_again.
Qed.

Lemma guard_jumps_tracing cfg table_entry ccs : forall table,
  FLAG_trace_deopt cfg || is_profiling cfg = true ->
  guard_jumps cfg table_entry table ccs
  = imap (fun i cc => jump_to_entry cc (length table + i)) ccs.
Proof.
  intros table Htrace. revert table.
  induction ccs as [| cc ccs IH]; intros table; [reflexivity |].
  simpl. rewrite IH. unfold table_after. rewrite Htrace. simpl.
  rewrite length_app. simpl. f_equal.
  - f_equal. lia.
  - apply imap_ext. intros i c _. simpl. f_equal. lia.
Qed.

(** An unconditional guard in a built frame calls the entry in line and
    leaves the jump table alone. *)
Lemma DeoptimizeIf_in_line cfg cc instr reason bailout_type s s1 r entry :
  DeoptEveryNTimes cfg = false -> ShouldTrapOnDeopt cfg = false ->
  calls_in_line cc s = true ->
  DeoptimizeIf cfg cc instr reason bailout_type s = Ok s1 ->
  registration (fields_of (environment instr) s1) = Some r ->
  GetDeoptimizationEntry cfg (deoptimization_index r) bailout_type
  = Some entry ->
  jump_table_ s1 = jump_table_ s /\
  code s1
  = code s ++ [DeoptComment (MakeDeoptInfo instr reason); call entry].
Proof.
  intros Hstress Htrap Hcc Hrun Hreg Hentry.
  assert (R : exists s0,
    RegisterEnvironmentForDeoptimization cfg (environment instr)
      kNoLazyDeopt s = Ok s0).
  { unfold DeoptimizeIf in Hrun.
    destruct (RegisterEnvironmentForDeoptimization _ _ _ s);
      try discriminate. eauto. }
  destruct R as [s0 R].
  rewrite (DeoptimizeIf_after_register _ _ _ _ _ _ _ R) in Hrun.
  destruct (RegisterEnvironmentForDeoptimization_registered _ _ _ _ _ R)
    as [r0 Hr0].
  destruct (RegisterEnvironmentForDeoptimization_frame _ _ _ _ _ R)
    as (Hc & Hj & Hf).
  pose proof (DeoptimizeIf_environments _ _ _ _ _ _ _ _ Hr0 Hrun) as He.
  unfold fields_of in Hreg. rewrite He, Hr0 in Hreg. simpl in Hreg.
  injection Hreg as ->.
  rewrite (DeoptimizeIf_registered _ _ _ _ _ _ _ _ Hr0 Hentry Hstress Htrap)
    in Hrun.
  unfold calls_in_line in *. rewrite Hf, Hcc in Hrun.
  injection Hrun as <-. simpl. now rewrite Hc, Hj.
Qed.

(** C7: consecutive guards of one instruction, with one reason and
    bailout type, that do not call the entry in line (a condition is
    present or the frame is not built) each emit one jump to the last
    entry of the jump table. Without tracing and profiling they share one
    entry: the table gains the entry of the guards once, unless its last
    entry is already equivalent, in which case it gains nothing; only the
    last entry is looked at. With tracing or profiling every guard adds
    its entry. *)
Theorem DeoptimizeIf_jump_table_sharing
        cfg instr reason bailout_type ccs s s' r entry :
  ccs <> [] ->
  DeoptEveryNTimes cfg = false -> ShouldTrapOnDeopt cfg = false ->
  Forall (fun cc => calls_in_line cc s = false) ccs ->
  consecutive_guards cfg instr reason bailout_type ccs s = Ok s' ->
  registration (fields_of (environment instr) s') = Some r ->
  GetDeoptimizationEntry cfg (deoptimization_index r) bailout_type
  = Some entry ->
  let table_entry := guard_entry instr reason bailout_type entry s in
  IsEquivalentTo cfg table_entry table_entry = true ->
  (FLAG_trace_deopt cfg || is_profiling cfg = false ->
   jump_table_ s'
   = match last (jump_table_ s) with
     | None => [table_entry]
     | Some last_entry =>
         if IsEquivalentTo cfg table_entry last_entry then jump_table_ s
         else jump_table_ s ++ [table_entry]
     end /\
   code s'
   = code s ++ map (fun cc => jump_to_entry cc (last_label s')) ccs) /\
  (FLAG_trace_deopt cfg || is_profiling cfg = true ->
   jump_table_ s' = jump_table_ s ++ replicate (length ccs) table_entry /\
   code s'
   = code s ++ imap (fun i cc =>
                       jump_to_entry cc (length (jump_table_ s) + i)) ccs).
Proof.
  intros Hne Hstress Htrap Hroute Hrun Hreg Hentry table_entry Hrefl.
  destruct ccs as [| cc ccs]; [contradiction |].
  assert (R : exists s0,
    RegisterEnvironmentForDeoptimization cfg (environment instr)
      kNoLazyDeopt s = Ok s0).
  { simpl in Hrun. unfold DeoptimizeIf in Hrun.
    destruct (RegisterEnvironmentForDeoptimization _ _ _ s);
      try discriminate. eauto. }
  destruct R as [s0 R].
  assert (Hrun0 : consecutive_guards cfg instr reason bailout_type
                    (cc :: ccs) s0 = Ok s').
  { simpl in *.
    now rewrite <- (DeoptimizeIf_after_register _ _ _ _ _ _ _ R). }
  destruct (RegisterEnvironmentForDeoptimization_registered _ _ _ _ _ R)
    as [r0 Hr0].
  destruct (RegisterEnvironmentForDeoptimization_frame _ _ _ _ _ R)
    as (Hc & Hj & Hf).
  pose proof (consecutive_guards_environments _ _ _ _ _ _ _ _ Hr0 Hrun0)
    as He.
  unfold fields_of in Hreg. rewrite He, Hr0 in Hreg. simpl in Hreg.
  injection Hreg as ->.
  assert (Hroute0 : Forall (fun cc => calls_in_line cc s0 = false)
                           (cc :: ccs)).
  { unfold calls_in_line in *. now rewrite Hf. }
  destruct (consecutive_guards_registered cfg instr reason bailout_type
              _ _ Hentry Hstress Htrap (cc :: ccs) s0 Hr0 Hroute0)
    as (s'' & Hrun' & Hcode & Htable).
  rewrite Hrun0 in Hrun'. injection Hrun' as <-.
  assert (Hte : guard_entry instr reason bailout_type entry s0
                = table_entry).
  { unfold table_entry, guard_entry. now rewrite Hf. }
  rewrite Hte, Hc, Hj in *. clear Hte.
  split; intros Htrace.
  - change (length (cc :: ccs)) with (S (length ccs)) in Htable.
    rewrite table_after_iter in Htable by assumption.
    rewrite guard_jumps_shared in Hcode by assumption.
    unfold last_label. rewrite Hcode, Htable. split; [| reflexivity].
    unfold table_after. rewrite Htrace. simpl.
    destruct (last (jump_table_ s)) as [l |] eqn:El.
    + now destruct (IsEquivalentTo cfg table_entry l).
    + apply last_None in El. now rewrite El.
  - rewrite table_after_tracing in Htable by assumption.
    rewrite guard_jumps_tracing in Hcode by assumption.
    now rewrite Hcode, Htable.
Qed.

End DeoptimizeFacts.

Section DeoptimizeExamples.

Import Ia32 Lithium LCodeGen SampleCodeGen.

(** Three conditional guards of the sample instruction share the one
    entry they add to an empty jump table. *)
Lemma DeoptimizeIf_jump_table_sharing_witness :
  exists s',
    consecutive_guards config instruction kOverflow EAGER
      [overflow; equal; negative] (initial true) = Ok s' /\
    jump_table_ s'
    = [guard_entry instruction kOverflow EAGER 9000 (initial true)] /\
    code s' = [j_table overflow 0; j_table equal 0; j_table negative 0].
Proof.
  let result :=
    eval vm_compute in
      (consecutive_guards config instruction kOverflow EAGER
         [overflow; equal; negative] (initial true)) in
  match result with
  | Ok ?s' => pose (final := s')
  end.
  assert (E : consecutive_guards config instruction kOverflow EAGER
                [overflow; equal; negative] (initial true) = Ok final).
  { vm_compute. reflexivity. }
  exists final. split; [exact E |].
  destruct (DeoptimizeIf_jump_table_sharing config instruction kOverflow
              EAGER [overflow; equal; negative] (initial true) final
              {| deoptimization_index := 0; translation_index := 0;
                 pc_offset := -1 |} 9000)
    as [H _].
  - discriminate.
  - reflexivity.
  - reflexivity.
  - repeat constructor.
  - exact E.
  - vm_compute. reflexivity.
  - reflexivity.
  - vm_compute. reflexivity.
  - destruct (H eq_refl) as [Htable Hcode]. split; assumption.
Defined.

(** With [--trace-deopt] the same three guards add three entries. *)
Example DeoptimizeIf_tracing :
  jump_table_
  <$> consecutive_guards tracing_config instruction kOverflow EAGER
        [overflow; equal; negative] (initial true)
  = Ok (replicate 3
          (guard_entry instruction kOverflow EAGER 9000 (initial true))).
Proof. vm_compute. reflexivity. Qed.

(** Only the last entry is looked at: a guard of the first instruction
    after a guard of another one adds its entry again. *)
Example DeoptimizeIf_last_entry_only :
  jump_table_
  <$> (s ← DeoptimizeIf config equal instruction kOverflow EAGER
             (initial true);
       s ← DeoptimizeIf config equal other_instruction kOverflow EAGER s;
       DeoptimizeIf config equal instruction kOverflow EAGER s)
  = Ok [guard_entry instruction kOverflow EAGER 9000 (initial true);
        guard_entry other_instruction kOverflow EAGER 9016 (initial true);
        guard_entry instruction kOverflow EAGER 9000 (initial true)].
Proof. vm_compute. reflexivity. Qed.

(** An unconditional guard in a built frame calls the entry in line; in
    a frame not yet built it jumps to a new entry that needs a frame. *)
Example DeoptimizeIf_unconditional :
  (fun s => (code s, jump_table_ s))
  <$> DeoptimizeIf config no_condition instruction kHole EAGER
        (initial true)
  = Ok ([DeoptComment (MakeDeoptInfo instruction kHole); call 9000], [])
  /\
  (fun s => (code s, jump_table_ s))
  <$> DeoptimizeIf config no_condition instruction kHole EAGER
        (initial false)
  = Ok ([jmp_table 0],
        [guard_entry instruction kHole EAGER 9000 (initial false)]).
Proof. split; vm_compute; reflexivity. Qed.

End DeoptimizeExamples.

(** ** Translations: reading back what was written *)

Section DecoderFacts.

Import Ia32 Lithium LCodeGen.

(** *** Segments of lists *)

Lemma segment_nil {A} (l : list A) start : segment l start [].
Proof. unfold segment. simpl. now rewrite take_0. Qed.

Lemma segment_app {A} (l : list A) start xs ys :
  segment l start xs -> segment l (start + length xs) ys ->
  segment l start (xs ++ ys).
Proof.
  unfold segment. intros Hx Hy.
  rewrite length_app, <- take_take_drop, drop_drop, Hx, Hy. reflexivity.
Qed.

Lemma segment_cons {A} (l : list A) start x xs :
  l !! start = Some x -> segment l (S start) xs ->
  segment l start (x :: xs).
Proof.
  intros Hx Hxs. apply (segment_app l start [x] xs).
  - unfold segment. rewrite (drop_S _ _ _ Hx). simpl. now rewrite take_0.
  - simpl. now rewrite Nat.add_1_r.
Qed.

Lemma segment_lookup {A} (l : list A) start xs k x :
  segment l start xs -> xs !! k = Some x -> l !! (start + k)%nat = Some x.
Proof.
  unfold segment. intros <- H.
  apply lookup_take_Some in H as [H _]. now rewrite lookup_drop in H.
Qed.

Lemma logical_slots_lookup cfg e i v :
  values e !! i = Some v ->
  logical_slots cfg e !! i = Some (logical_slot cfg e i).
Proof.
  intros H. apply lookup_lt_Some in H. unfold logical_slots.
  rewrite list_lookup_fmap, lookup_seq_lt by exact H. reflexivity.
Qed.

(** *** Codes of slots and frames *)

Lemma slot_code_grows pool pool' x cmds :
  pool `prefix_of` pool' -> slot_code pool x cmds ->
  slot_code pool' x cmds.
Proof.
  intros Hp H literals rest fuel Hl Hf. apply H; [| exact Hf].
  now transitivity pool'.
Qed.

Lemma frames_code_grows pool pool' frames cmds :
  pool `prefix_of` pool' -> frames_code pool frames cmds ->
  frames_code pool' frames cmds.
Proof.
  intros Hp H literals rest rest_frames Hl. apply H.
  now transitivity pool'.
Qed.

Lemma frames_code_nil pool : frames_code pool [] [].
Proof. intros literals rest rest_frames _ Hrest fuel Hf. now apply Hrest. Qed.

Lemma frames_code_app pool frames1 cmds1 frames2 cmds2 :
  frames_code pool frames1 cmds1 -> frames_code pool frames2 cmds2 ->
  frames_code pool (frames1 ++ frames2) (cmds1 ++ cmds2).
Proof.
  intros H1 H2 literals rest rest_frames Hl Hrest fuel Hf.
  rewrite <- !app_assoc in *. apply H1; [exact Hl | | exact Hf].
  intros fuel' Hf'. now apply H2.
Qed.

(** The commands of a slot begin with a command that is no frame. *)
Lemma slot_code_head pool x cmds :
  slot_code pool x cmds ->
  exists c cs, cmds = c :: cs /\
               forall type count function, c <> BeginFrame type count function.
Proof.
  intros H. specialize (H pool [] (length cmds)).
  rewrite app_nil_r in H.
  destruct cmds as [| c cs].
  - specialize (H ltac:(reflexivity) ltac:(reflexivity)). discriminate.
  - exists c, cs. split; [reflexivity |]. intros type count function ->.
    specialize (H ltac:(reflexivity) ltac:(reflexivity)). discriminate.
Qed.

Lemma decode_fields_code pool xs cmdss :
  Forall2 (slot_code pool) xs cmdss ->
  forall literals rest fuel,
    pool `prefix_of` literals -> (length (concat cmdss) <= fuel)%nat ->
    decode_fields (decode_slot fuel literals) (length xs)
                  (concat cmdss ++ rest) = Some (xs, rest).
Proof.
  induction 1 as [| x cmds xs cmdss Hx _ IH]; intros literals rest fuel Hl Hf.
  - reflexivity.
  - simpl in *. rewrite length_app in Hf. rewrite <- app_assoc.
    rewrite (Hx literals _ fuel Hl) by lia. simpl.
    rewrite (IH literals rest fuel Hl) by lia. reflexivity.
Qed.

(** An object: its begin command with the number of its fields, then the
    commands of its fields. *)
Lemma slot_code_object pool is_arguments xs cmdss :
  Forall2 (slot_code pool) xs cmdss ->
  slot_code pool (SObject is_arguments xs)
    ((if is_arguments then BeginArgumentsObject (length xs)
      else BeginCapturedObject (length xs)) :: concat cmdss).
Proof.
  intros H literals rest fuel Hl Hf. simpl in Hf.
  destruct fuel as [| fuel]; [lia |].
  destruct is_arguments; simpl;
    rewrite (decode_fields_code _ _ _ H literals rest fuel Hl) by lia;
    reflexivity.
Qed.

Lemma slot_code_duplicate pool object_index :
  slot_code pool (SDuplicate object_index) [DuplicateObject object_index].
Proof.
  intros literals rest fuel _ Hf. simpl in Hf.
  destruct fuel as [| fuel]; [lia | reflexivity].
Qed.

Lemma decode_values_code pool xs cmdss :
  Forall2 (slot_code pool) xs cmdss ->
  forall literals rest fuel,
    pool `prefix_of` literals ->
    rest = [] \/
    (exists type count function cs,
        rest = BeginFrame type count function :: cs) ->
    (length (concat cmdss ++ rest) <= fuel)%nat ->
    decode_values fuel literals (concat cmdss ++ rest) = Some (xs, rest).
Proof.
  induction 1 as [| x cmds xs cmdss Hx _ IH];
    intros literals rest fuel Hl Hrest Hf.
  - simpl. destruct Hrest as [-> | (type & count & function & cs & ->)];
      now destruct fuel.
  - destruct (slot_code_head _ _ _ Hx) as (c & cs & -> & Hc).
    simpl in Hf. rewrite !length_app in Hf.
    destruct fuel as [| fuel]; [lia |].
    assert (Hslot :
      decode_slot (S fuel) literals
                  ((c :: cs) ++ (concat cmdss ++ rest))
      = Some (x, concat cmdss ++ rest)).
    { apply Hx; [exact Hl | simpl; lia]. }
    assert (Hvalues :
      decode_values fuel literals (concat cmdss ++ rest) = Some (xs, rest)).
    { apply IH; [exact Hl | exact Hrest | rewrite length_app; lia]. }
    change (concat ((c :: cs) :: cmdss) ++ rest)
      with (c :: ((cs ++ concat cmdss) ++ rest)).
    change ((c :: cs) ++ concat cmdss ++ rest)
      with (c :: (cs ++ concat cmdss ++ rest)) in Hslot.
    rewrite <- app_assoc.
    destruct c; try (exfalso; eapply Hc; reflexivity);
      cbn [decode_values]; rewrite Hslot; cbn [mbind option_bind];
      rewrite Hvalues; reflexivity.
Qed.

(** The frames that follow are none, or begin with a frame. *)
Lemma decode_frames_head literals rest rest_frames :
  (forall fuel, (length rest <= fuel)%nat ->
                decode_frames fuel literals rest = Some rest_frames) ->
  rest = [] \/
  (exists type count function cs,
      rest = BeginFrame type count function :: cs).
Proof.
  intros H. specialize (H (length rest) ltac:(reflexivity)).
  destruct rest as [| c cs]; [now left |].
  destruct c; try discriminate. right. eauto.
Qed.

(** A frame: its begin command, then the commands of its slots. *)
Lemma frames_code_frame pool type count function xs cmdss :
  Forall2 (slot_code pool) xs cmdss ->
  frames_code pool
    [{| frame_kind := type; frame_parameter_count := count;
        frame_function := function; slots := xs |}]
    (BeginFrame type count function :: concat cmdss).
Proof.
  intros H literals rest rest_frames Hl Hrest fuel Hf.
  simpl in Hf. destruct fuel as [| fuel]; [lia |].
  simpl.
  rewrite (decode_values_code _ _ _ H literals rest fuel Hl
             (decode_frames_head _ _ _ Hrest)) by lia.
  simpl. rewrite Hrest; [reflexivity |].
  rewrite length_app in Hf. lia.
Qed.

End DecoderFacts.

Section EncoderFacts.

Import Ia32 Lithium LCodeGen.

Lemma DefineDeoptimizationLiteral_spec handle s i s1 :
  DefineDeoptimizationLiteral handle s = (i, s1) ->
  translations_ s1 = translations_ s /\
  deoptimization_literals_ s `prefix_of` deoptimization_literals_ s1 /\
  deoptimization_literals_ s1 !! i = Some handle.
Proof.
  unfold DefineDeoptimizationLiteral.
  destruct (list_find _ _) as [[j y] |] eqn:E; intros H;
    injection H as <- <-.
  - apply list_find_Some in E as (Hj & -> & _). auto.
  - simpl. split; [reflexivity |]. split; [now apply prefix_app_r |].
    now apply list_lookup_middle.
Qed.

(** A value: one store command. *)
Lemma reads_value cfg e i cur s s1 c view :
  translations_ s1 = translations_ s ->
  deoptimization_literals_ s `prefix_of` deoptimization_literals_ s1 ->
  logical_slot cfg e i = Some view ->
  (forall literals,
      deoptimization_literals_ s1 `prefix_of` literals ->
      decode_store literals c = Some view) ->
  reads_slot cfg e i cur s cur (translate [c] s1) (SValue view) [c].
Proof.
  intros Ht Hp Hview Hstore. unfold reads_slot. simpl.
  rewrite !Nat.add_0_r, Ht.
  repeat split; try reflexivity; try apply segment_nil; try assumption.
  intros literals rest fuel Hl Hf. simpl in Hf.
  destruct fuel as [| fuel]; [lia |].
  specialize (Hstore literals Hl).
  destruct c; try discriminate; simpl in *;
    first [now rewrite Hstore | now injection Hstore as <-].
Qed.

(** The loop reads what each of its steps reads. *)
Lemma for_each_value_reads cfg add e offset :
  (forall i v cur s cur' s',
      values e !! i = Some v ->
      add v (HasTaggedValueAt e i) (HasUint32ValueAt e i) cur s
      = Ok (cur', s') ->
      exists x cmds, reads_slot cfg e i cur s cur' s' x cmds) ->
  forall count i cur s cur' s',
    for_each_value add e offset count i cur s = Ok (cur', s') ->
    exists xs cmdss,
      length xs = count /\
      reads_slots cfg e (offset + i) cur s cur' s' xs cmdss.
Proof.
  intros Hadd.
  induction count as [| count IH]; intros i cur s cur' s' H; simpl in H.
  - injection H as <- <-. exists [], []. split; [reflexivity |].
    unfold reads_slots. simpl. rewrite !Nat.add_0_r, app_nil_r.
    repeat split; try reflexivity; try apply segment_nil. constructor.
  - unfold at_ in H.
    destruct (values e !! (offset + i)%nat) as [v |] eqn:Ev;
      [| discriminate].
    simpl in H.
    destruct (add v _ _ cur s) as [[cur1 s1] | | |] eqn:E; try discriminate.
    simpl in H.
    destruct (Hadd _ _ _ _ _ _ Ev E) as (x & cmds & Hx).
    destruct (IH _ _ _ _ _ H) as (xs & cmdss & Hlen & Hxs).
    exists (x :: xs), (cmds :: cmdss). split; [simpl; now rewrite Hlen |].
    destruct Hx as (Ht & Hp & Hcode & Hown & Ho & Hd & Hso & Hsr).
    destruct Hxs as (Ht' & Hp' & Hcode' & Hown' & Ho' & Hd' & Hso' & Hsr').
    unfold reads_slots. simpl.
    split; [rewrite Ht', Ht; now rewrite <- app_assoc |].
    split; [now transitivity (deoptimization_literals_ s1) |].
    split; [constructor; [eapply slot_code_grows; eassumption | exact Hcode']
           |].
    split.
    { apply segment_cons.
      - rewrite (logical_slots_lookup _ _ _ _ Ev). now rewrite Hown.
      - now rewrite <- Nat.add_succ_r. }
    rewrite !length_app, fmap_app.
    split; [lia |]. split; [lia |].
    split.
    { apply segment_app; [exact Hso | now rewrite <- Ho]. }
    apply segment_app; [exact Hsr |].
    rewrite length_fmap, <- Nat.add_assoc, <- Hd. exact Hsr'.
Qed.

Lemma object_views_lookup e i m :
  at_ (object_mapping_ e) i = Ok m ->
  object_views e !! i = Some (object_view m).
Proof.
  unfold at_, object_views. rewrite list_lookup_fmap.
  destruct (object_mapping_ e !! i); [| discriminate].
  intros H. now injection H as ->.
Qed.

Lemma AddToTranslation_reads cfg e fuel : forall i v cur s cur' s',
  values e !! i = Some v ->
  AddToTranslation fuel cfg e v (HasTaggedValueAt e i)
                   (HasUint32ValueAt e i) cur s = Ok (cur', s') ->
  exists x cmds, reads_slot cfg e i cur s cur' s' x cmds.
Proof.
  induction fuel as [| fuel IH]; intros i v cur s cur' s' Hv H;
    [discriminate |].
  assert (Hslot : logical_slot cfg e i
                  = match v with
                    | materialization_marker => Some object_marker
                    | operand op =>
                        logical_operand cfg op (HasTaggedValueAt e i)
                                        (HasUint32ValueAt e i)
                    end).
  { unfold logical_slot. now rewrite Hv. }
  destruct v as [| op]; simpl in H.
  - unfold ObjectIsDuplicateAt, ObjectDuplicateOfAt, ObjectLengthAt,
      ObjectIsArgumentsAt in H.
    destruct (at_ (object_mapping_ e) (object_index_pointer cur))
      as [m | | |] eqn:Em; try discriminate.
    apply object_views_lookup in Em. simpl in H.
    unfold object_view in Em.
    destruct (IsDuplicate m).
    + simpl in H. injection H as <- <-.
      exists (SDuplicate (LengthOrDupe m)),
             [DuplicateObject (LengthOrDupe m)].
      unfold reads_slot. simpl.
      split; [reflexivity |]. split; [reflexivity |].
      split; [apply slot_code_duplicate |].
      split; [exact Hslot |]. split; [lia |]. split; [lia |].
      split; [| apply segment_nil].
      apply segment_cons; [exact Em | apply segment_nil].
    + simpl in H.
      apply (for_each_value_reads cfg) in H; [| exact IH].
      destruct H as (xs & cmdss & Hlen
                     & Ht & Hp & Hcode & Hown & Ho & Hd & Hso & Hsr).
      simpl in Ho, Hd, Hso, Hsr. rewrite Nat.add_0_r in Hown.
      exists (SObject (IsArguments m) xs),
             ((if IsArguments m
               then BeginArgumentsObject (length xs)
               else BeginCapturedObject (length xs)) :: concat cmdss).
      unfold reads_slot. simpl.
      split.
      { rewrite Ht, Hlen. destruct (IsArguments m); simpl;
          now rewrite <- app_assoc. }
      split.
      { destruct (IsArguments m); exact Hp. }
      split; [now apply slot_code_object |].
      split; [exact Hslot |].
      rewrite length_app, length_map, fmap_app.
      split; [lia |]. split; [lia |].
      split.
      { apply segment_cons; [now rewrite Hlen | exact Hso]. }
      apply segment_app; [exact Hown |].
      rewrite length_fmap, length_map, Hlen, <- Nat.add_assoc.
      exact Hsr.
  - destruct op as [k idx].
    unfold IsStackSlot, IsDoubleStackSlot, IsFloat32x4StackSlot,
      IsFloat64x2StackSlot, IsInt32x4StackSlot, IsRegister,
      IsDoubleRegister, IsFloat32x4Register, IsFloat64x2Register,
      IsInt32x4Register, IsConstantOperand in H.
    unfold logical_operand in Hslot.
    destruct k; simpl in H, Hslot; try discriminate;
      try (destruct (HasTaggedValueAt e i);
           [| destruct (HasUint32ValueAt e i)]);
      try (injection H as <- <-; eexists (SValue _), [_];
           eapply reads_value;
           [reflexivity | reflexivity | exact Hslot
            | intros; reflexivity]).
    all: destruct (DefineDeoptimizationLiteral _ s) as [j s1] eqn:El.
    all: apply DefineDeoptimizationLiteral_spec in El as (Ht & Hp & Hj).
    all: injection H as <- <-; eexists (SValue _), [_].
    all: eapply reads_value; [exact Ht | exact Hp | exact Hslot |].
    all: intros literals Hl; simpl.
    all: now rewrite (prefix_lookup_Some _ _ _ _ Hj Hl).
Qed.

End EncoderFacts.

(** *** The counter of [AddToTranslation] never runs out *)

Section RoundTrip.

Import Ia32 Lithium LCodeGen.

Lemma for_each_value_fuel cfg add e offset lo :
  (forall i v cur s cur' s',
      values e !! i = Some v ->
      add v (HasTaggedValueAt e i) (HasUint32ValueAt e i) cur s
      = Ok (cur', s') ->
      exists x cmds, reads_slot cfg e i cur s cur' s' x cmds) ->
  (forall q v cur s,
      values e !! q = Some v -> (lo <= q)%nat ->
      (q < translation_size e + dematerialized_index_pointer cur)%nat ->
      add v (HasTaggedValueAt e q) (HasUint32ValueAt e q) cur s
      <> OutOfFuel) ->
  forall count i cur s,
    (lo <= offset + i)%nat ->
    (offset + i + count
     <= translation_size e + dematerialized_index_pointer cur)%nat ->
    for_each_value add e offset count i cur s <> OutOfFuel.
Proof.
  intros Hreads Hfuel.
  induction count as [| count IH]; intros i cur s Hlo Hhi; simpl;
    [discriminate |].
  unfold at_.
  destruct (values e !! (offset + i)%nat) as [v |] eqn:Ev;
    [| discriminate].
  simpl.
  destruct (add v _ _ cur s) as [[cur1 s1] | | |] eqn:E;
    try discriminate.
  - simpl. apply IH; [lia |].
    destruct (Hreads _ _ _ _ _ _ Ev E)
      as (x & cmds & _ & _ & _ & _ & _ & Hd & _).
    lia.
  - exfalso. apply (Hfuel _ _ cur s Ev Hlo); [lia | exact E].
Qed.

Lemma AddToTranslation_fuel cfg e : forall fuel i v cur s,
  values e !! i = Some v ->
  (i < translation_size e + dematerialized_index_pointer cur)%nat ->
  (length (values e) <= fuel + i)%nat ->
  AddToTranslation fuel cfg e v (HasTaggedValueAt e i)
                   (HasUint32ValueAt e i) cur s <> OutOfFuel.
Proof.
  induction fuel as [| fuel IH]; intros i v cur s Hv Hi Hlen.
  - apply lookup_lt_Some in Hv. lia.
  - destruct v as [| op]; simpl.
    + unfold ObjectIsDuplicateAt, ObjectDuplicateOfAt, ObjectLengthAt,
        ObjectIsArgumentsAt.
      unfold at_.
      destruct (object_mapping_ e !! object_index_pointer cur) as [m |];
        try discriminate.
      simpl. destruct (IsDuplicate m); [discriminate |]. simpl.
      apply (for_each_value_fuel cfg _ _ _ (S i)).
      * apply AddToTranslation_reads.
      * intros q v cur1 s1 Hq Hlo Hhi. apply IH; [exact Hq | exact Hhi | lia].
      * lia.
      * simpl. lia.
    + destruct op as [k idx].
      unfold IsStackSlot, IsDoubleStackSlot, IsFloat32x4StackSlot,
        IsFloat64x2StackSlot, IsInt32x4StackSlot, IsRegister,
        IsDoubleRegister, IsFloat32x4Register, IsFloat64x2Register,
        IsInt32x4Register, IsConstantOperand.
      destruct k; simpl; try discriminate;
        try (destruct (HasTaggedValueAt e i);
             [| destruct (HasUint32ValueAt e i)]; discriminate).
      now destruct (DefineDeoptimizationLiteral _ s).
Qed.

Lemma WriteTranslation_fuel cfg e : forall s,
  WriteTranslation cfg e s <> OutOfFuel.
Proof.
  induction e as [e IH] using LEnvironment_outer_ind. intros s.
  rewrite WriteTranslation_eq.
  assert (Hloop : forall s1,
    for_each_value (AddToTranslation (enough_fuel e) cfg e) e 0%nat
      (translation_size e) 0%nat
      {| object_index_pointer := 0; dematerialized_index_pointer := 0 |}
      s1 <> OutOfFuel).
  { intros s1. apply (for_each_value_fuel cfg _ _ _ 0%nat).
    - apply AddToTranslation_reads.
    - intros q v cur s2 Hq _ Hhi.
      apply AddToTranslation_fuel; [exact Hq | exact Hhi |].
      unfold enough_fuel. lia.
    - lia.
    - simpl. lia. }
  destruct (outer e) as [o |].
  - specialize (IH o eq_refl s).
    destruct (WriteTranslation cfg o s) as [s1 | | |];
      try discriminate; [| contradiction].
    simpl. specialize (Hloop (WriteTranslationFrame e s1)).
    destruct (for_each_value _ _ _ _ _ _ _) as [[cur2 s2] | | |];
      try discriminate. contradiction.
  - simpl. specialize (Hloop (WriteTranslationFrame e s)).
    destruct (for_each_value _ _ _ _ _ _ _) as [[cur2 s2] | | |];
      try discriminate. contradiction.
Qed.

Lemma RegisterEnvironmentForDeoptimization_fuel cfg e mode s :
  RegisterEnvironmentForDeoptimization cfg e mode s <> OutOfFuel.
Proof.
  unfold RegisterEnvironmentForDeoptimization.
  destruct (HasBeenRegistered e _); [discriminate |].
  match goal with
  | |- context [WriteTranslation cfg e ?s1] =>
      pose proof (WriteTranslation_fuel cfg e s1) as H;
        destruct (WriteTranslation cfg e s1)
  end; try discriminate. contradiction.
Qed.

Lemma DeoptimizeIf_fuel cfg cc instr reason bailout_type s :
  DeoptimizeIf cfg cc instr reason bailout_type s <> OutOfFuel.
Proof.
  unfold DeoptimizeIf.
  pose proof (RegisterEnvironmentForDeoptimization_fuel
                cfg (environment instr) kNoLazyDeopt s) as H.
  destruct (RegisterEnvironmentForDeoptimization _ _ _ s) as [s0 | | |];
    try discriminate; [| contradiction].
  simpl. destruct (registration _); [| discriminate].
  destruct (GetDeoptimizationEntry _ _ _); [| discriminate].
  destruct (bool_decide (cc = no_condition) && _); [discriminate |].
  now destruct (decide (cc = no_condition)).
Qed.

(** *** Reading a written translation back *)

Lemma chain_eq e :
  chain e = e :: match outer e with
                 | None => []
                 | Some o => chain o
                 end.
Proof. now destruct e. Qed.

Lemma WriteTranslation_reads cfg e : forall s s',
  WriteTranslation cfg e s = Ok s' ->
  exists cmds frames,
    translations_ s' = translations_ s ++ cmds /\
    deoptimization_literals_ s `prefix_of` deoptimization_literals_ s' /\
    frames_code (deoptimization_literals_ s') frames cmds /\
    Forall2 (frame_of cfg) (rev (chain e)) frames.
Proof.
  induction e as [e IH] using LEnvironment_outer_ind. intros s s' H.
  rewrite WriteTranslation_eq in H. rewrite chain_eq.
  assert (Hout : exists s1 cmds0 frames0,
    match outer e with
    | Some o => WriteTranslation cfg o s
    | None => Ok s
    end = Ok s1 /\
    translations_ s1 = translations_ s ++ cmds0 /\
    deoptimization_literals_ s `prefix_of` deoptimization_literals_ s1 /\
    frames_code (deoptimization_literals_ s1) frames0 cmds0 /\
    Forall2 (frame_of cfg)
            (rev match outer e with
                 | None => []
                 | Some o => chain o
                 end) frames0).
  { destruct (outer e) as [o |].
    - destruct (WriteTranslation cfg o s) as [s1 | | |] eqn:E;
        try discriminate.
      destruct (IH o eq_refl _ _ E) as (cmds0 & frames0 & Hr).
      exists s1, cmds0, frames0. split; [reflexivity | exact Hr].
    - exists s, [], []. rewrite app_nil_r.
      repeat split; try reflexivity; [apply frames_code_nil | constructor]. }
  destruct Hout as (s1 & cmds0 & frames0 & E1 & Ht0 & Hp0 & Hc0 & Hf0).
  rewrite E1 in H. unfold mbind at 1, Res_bind at 1 in H.
  destruct (for_each_value _ _ _ _ _ _ _) as [[cur2 s2] | | |] eqn:E2;
    try discriminate.
  injection H as <-.
  apply (for_each_value_reads cfg) in E2;
    [| apply AddToTranslation_reads].
  destruct E2 as (xs & cmdss & Hlen
                  & Ht & Hp & Hcode & Hown & Ho & Hd & Hso & Hsr).
  simpl in Ht, Hp, Hown, Hso, Hsr.
  exists (cmds0 ++ BeginFrame (frame_type e) (parameter_count e) (closure e)
                :: concat cmdss),
         (frames0 ++ [{| frame_kind := frame_type e;
                         frame_parameter_count := parameter_count e;
                         frame_function := closure e; slots := xs |}]).
  split.
  { rewrite Ht, Ht0. rewrite <- !app_assoc. reflexivity. }
  split; [now transitivity (deoptimization_literals_ s1) |].
  split.
  { apply frames_code_app.
    - eapply frames_code_grows; eassumption.
    - now apply frames_code_frame. }
  simpl. apply Forall2_app; [exact Hf0 |].
  constructor; [| constructor].
  unfold frame_of. simpl.
  repeat split; try assumption.
  unfold layout. rewrite fmap_app.
  apply segment_app; [exact Hown |].
  rewrite length_fmap, length_map, Hlen. simpl.
  now rewrite Nat.add_0_r in Hsr.
Qed.

(** Each slot of a decoded frame is the value at its position in the
    environment. *)
Lemma frame_of_slot cfg e frame i x :
  frame_of cfg e frame -> slots frame !! i = Some x ->
  logical_slot cfg e i = Some (own x).
Proof.
  intros (_ & _ & _ & _ & Hlayout & _) Hx.
  assert (Hi : (Some <$> layout (slots frame)) !! i = Some (Some (own x))).
  { unfold layout. rewrite list_lookup_fmap, lookup_app_l.
    - now rewrite list_lookup_fmap, Hx.
    - rewrite length_map. now apply lookup_lt_Some in Hx. }
  apply (segment_lookup _ _ _ _ _ Hlayout) in Hi. simpl in Hi.
  unfold logical_slots in Hi. rewrite list_lookup_fmap in Hi.
  destruct (seq 0 (length (values e)) !! i) as [j |] eqn:Ej;
    [| discriminate].
  apply lookup_seq in Ej as [-> _]. simpl in Hi. now injection Hi.
Qed.

(** Commands that are read back as frames before whatever follows are
    read back as these frames when nothing follows. *)
Lemma frames_code_decode pool frames cmds :
  frames_code pool frames cmds ->
  decode_frames (length cmds) pool cmds = Some frames.
Proof.
  intros Hcode. specialize (Hcode pool [] []).
  rewrite !app_nil_r in Hcode. apply Hcode; [reflexivity | | reflexivity].
  intros fuel _. now destruct fuel.
Qed.

(** C2: [WriteTranslation] never exhausts the counter of the model, and
    when it succeeds the commands it has appended are read back, with the
    literal pool it leaves, as one frame for each environment of the
    chain, outermost first. Each frame gives its environment back: one
    slot for each of the [translation_size] values, every slot and every
    field of an object with the kind and the location or literal of the
    value at its position, every object with the field count and the
    arguments flag of the object mapping and with exactly that many
    fields read after its begin command, and every duplicate as a
    reference to the object of its index, with no fields. *)
Theorem translation_roundtrip cfg e s :
  WriteTranslation cfg e s <> OutOfFuel /\
  forall s',
    WriteTranslation cfg e s = Ok s' ->
    exists cmds frames,
      translations_ s' = translations_ s ++ cmds /\
      decode_frames (length cmds) (deoptimization_literals_ s') cmds
      = Some frames /\
      Forall2 (frame_of cfg) (rev (chain e)) frames.
Proof.
  split.
  - (* the counter *)
    apply WriteTranslation_fuel.
  - (* the round trip *)
    intros s' H.
    destruct (WriteTranslation_reads _ _ _ _ H)
      as (cmds & frames & Ht & _ & Hcode & Hframes).
    exists cmds, frames.
    split; [exact Ht |].
    split; [| exact Hframes].
    now apply frames_code_decode.
Qed.

(** The translation of a newly registered environment begins at its
    translation index, and is read back as the frames of its chain. *)
Lemma registered_translation_decodes cfg e mode s s1 r :
  HasBeenRegistered e s = false ->
  RegisterEnvironmentForDeoptimization cfg e mode s = Ok s1 ->
  registration (fields_of e s1) = Some r ->
  exists frames,
    decode (deoptimization_literals_ s1)
           (drop (translation_index r) (translations_ s1))
    = Some (length (chain e),
            length (filter (fun e => frame_type e = JS_FUNCTION) (chain e)),
            frames) /\
    Forall2 (frame_of cfg) (rev (chain e)) frames.
Proof.
  intros Hun H Hr.
  destruct (RegisterEnvironmentForDeoptimization_spec _ _ _ _ _ H)
    as [[Hreg _] | [_ (s_w & W & ->)]]; [congruence |].
  unfold fields_of in Hr. simpl in Hr. rewrite lookup_insert_eq in Hr.
  injection Hr as <-. simpl.
  destruct (WriteTranslation_reads _ _ _ _ W)
    as (cmds & frames & Ht & _ & Hcode & Hframes).
  exists frames. split; [| exact Hframes].
  simpl in *. rewrite Ht, <- app_assoc, drop_app_length. simpl.
  now rewrite (frames_code_decode _ _ _ Hcode).
Qed.

End RoundTrip.

Section RoundTripExamples.

Import Ia32 Lithium LCodeGen SampleCodeGen.

(** The translation of the sample inner environment is read back as the
    two frames of its chain, and their layout is the values of the
    environments, position by position. *)
Example sample_translation_decodes :
  (fun s => decode (deoptimization_literals_ s) (translations_ s))
  <$> RegisterEnvironmentForDeoptimization config inner_environment
        kLazyDeopt (initial true)
  = Ok (Some (2%nat, 2%nat, sample_frames)) /\
  Some <$> layout (slots inner_frame)
  = logical_slots config inner_environment /\
  flat_map objects (slots inner_frame) = object_views inner_environment.
Proof. repeat split; vm_compute; reflexivity. Qed.

Lemma translation_roundtrip_witness :
  exists s' frames,
    WriteTranslation config inner_environment (initial true) = Ok s' /\
    decode_frames (length (translations_ s'))
                  (deoptimization_literals_ s') (translations_ s')
    = Some frames /\
    Forall2 (frame_of config) [outer_environment; inner_environment] frames.
Proof.
  let result :=
    eval vm_compute in
      (WriteTranslation config inner_environment (initial true)) in
  match result with
  | Ok ?s' => pose (final := s')
  end.
  assert (E : WriteTranslation config inner_environment (initial true)
              = Ok final).
  { vm_compute. reflexivity. }
  destruct (translation_roundtrip config inner_environment (initial true))
    as [_ H].
  destruct (H final E) as (cmds & frames & Ht & Hdecode & Hframes).
  simpl in Ht. subst cmds.
  exists final, frames. split; [exact E |]. split; [exact Hdecode |].
  exact Hframes.
Defined.

(** An environment whose values end before the fields of its object do
    is not encoded: the access past the end is reported. *)
Example truncated_environment_is_rejected :
  WriteTranslation config
    {| env_id := 3; frame_type := JS_FUNCTION; parameter_count := 0;
       closure := 72; translation_size := 1;
       values := [materialization_marker; operand (stack_slot 1)];
       is_tagged_ := [false; true]; is_uint32_ := [false; false];
       object_mapping_ :=
         [{| LengthOrDupe := 2; IsArguments := false;
             IsDuplicate := false |}];
       outer := None |}
    (initial true)
  = OutOfRange.
Proof. reflexivity. Qed.

End RoundTripExamples.

(** ** Guards: the other outcomes of [DeoptimizeIf] *)

Section GuardFacts.

Import Ia32 Lithium LCodeGen.

(** Registration leaves everything but the translations, the literals,
    the deoptimization table and the fields of environments as it is. *)
Lemma RegisterEnvironmentForDeoptimization_keeps cfg e mode s s0 :
  RegisterEnvironmentForDeoptimization cfg e mode s = Ok s0 ->
  code s0 = code s /\ aborted s0 = aborted s /\
  frame_is_built_ s0 = frame_is_built_ s /\
  jump_table_ s0 = jump_table_ s /\
  safepoints_ s0 = safepoints_ s /\
  deopt_call_positions s0 = deopt_call_positions s.
Proof.
  intros H.
  destruct (RegisterEnvironmentForDeoptimization_spec _ _ _ _ _ H)
    as [[_ ->] | [_ (s_w & W & ->)]]; [repeat split |].
  destruct (WriteTranslation_frame _ _ _ _ W)
    as (Hc & Ha & Hf & Hj & _ & Hs & _ & Hd).
  simpl in *. auto 10.
Qed.

(** A guard begins with the registration of its environment; what
    follows sees the environment registered. *)
Lemma DeoptimizeIf_registers cfg cc instr reason bailout_type s s' :
  DeoptimizeIf cfg cc instr reason bailout_type s = Ok s' ->
  exists s0 r,
    RegisterEnvironmentForDeoptimization cfg (environment instr)
      kNoLazyDeopt s = Ok s0 /\
    environments s0 !! env_id (environment instr)
    = Some {| has_been_used := true; registration := Some r |} /\
    DeoptimizeIf cfg cc instr reason bailout_type s0 = Ok s' /\
    environments s' = environments s0.
Proof.
  intros Hrun.
  assert (R : exists s0,
    RegisterEnvironmentForDeoptimization cfg (environment instr)
      kNoLazyDeopt s = Ok s0).
  { unfold DeoptimizeIf in Hrun.
    destruct (RegisterEnvironmentForDeoptimization _ _ _ s);
      try discriminate. eauto. }
  destruct R as [s0 R].
  rewrite (DeoptimizeIf_after_register _ _ _ _ _ _ _ R) in Hrun.
  destruct (RegisterEnvironmentForDeoptimization_registered _ _ _ _ _ R)
    as [r Hr].
  exists s0, r. repeat split; try assumption.
  eapply DeoptimizeIf_environments; eassumption.
Qed.

(** What a guard on a registered environment does, flag by flag. *)
Lemma DeoptimizeIf_unfold cfg cc instr reason bailout_type s r :
  environments s !! env_id (environment instr)
  = Some {| has_been_used := true; registration := Some r |} ->
  DeoptimizeIf cfg cc instr reason bailout_type s =
  match GetDeoptimizationEntry cfg (deoptimization_index r) bailout_type with
  | None => Ok (Abort kBailoutWasNotPrepared s)
  | Some entry =>
      let s :=
        if DeoptEveryNTimes cfg then
          emit ([pushfd; push eax; mov_from_stress_count eax;
                 Asm (sub eax (Immediate 1)); Asm (j not_zero 0%nat)]
                ++ (if FLAG_trap_on_deopt cfg then [Asm int3] else [])
                ++ [Asm (mov eax (Immediate (FLAG_deopt_every_n_times cfg)));
                    mov_to_stress_count eax; pop eax; popfd; call entry;
                    Asm (bind 0%nat);
                    mov_to_stress_count eax; pop eax; popfd]) s
        else s in
      let s :=
        if ShouldTrapOnDeopt cfg then
          emit ((if decide (cc = no_condition) then []
                 else [Asm (j (NegateCondition cc) 1%nat)])
                ++ [Asm int3; Asm (bind 1%nat)]) s
        else s in
      if calls_in_line cc s then
        let s :=
          emit [DeoptComment (MakeDeoptInfo instr reason); call entry] s in
        Ok (LogDeoptCallPosition (masm_pc_offset s)
              (instr_inlining_id instr) s)
      else
        let table :=
          table_after cfg (guard_entry instr reason bailout_type entry s)
                      (jump_table_ s) in
        Ok (emit [jump_to_entry cc (pred (length table))]
                 (set_jump_table table s))
  end.
Proof.
  intros Hr. unfold DeoptimizeIf.
  rewrite (RegisterEnvironmentForDeoptimization_again _ _ _ _ _ Hr).
  simpl. unfold fields_of. rewrite Hr. simpl.
  destruct (GetDeoptimizationEntry cfg _ _) as [entry |]; [| reflexivity].
  set (s1 := if DeoptEveryNTimes cfg then _ else s).
  set (s2 := if ShouldTrapOnDeopt cfg then _ else s1).
  unfold calls_in_line.
  destruct (bool_decide (cc = no_condition) && frame_is_built_ s2);
    [reflexivity |].
  unfold table_after, guard_entry, jump_to_entry, last_label.
  destruct (FLAG_trace_deopt cfg || is_profiling cfg || _);
    destruct (decide (cc = no_condition)); try reflexivity;
    destruct s2; reflexivity.
Qed.

(** X1: a guard whose deoptimization entry has not been prepared aborts
    the compilation with [kBailoutWasNotPrepared]; it emits no code and
    leaves the jump table and the logged call positions as they are. *)
Theorem DeoptimizeIf_not_prepared cfg cc instr reason bailout_type s s' r :
  DeoptimizeIf cfg cc instr reason bailout_type s = Ok s' ->
  registration (fields_of (environment instr) s') = Some r ->
  GetDeoptimizationEntry cfg (deoptimization_index r) bailout_type = None ->
  aborted s' = Some kBailoutWasNotPrepared /\
  code s' = code s /\ jump_table_ s' = jump_table_ s /\
  deopt_call_positions s' = deopt_call_positions s.
Proof.
  intros Hrun Hreg Hentry.
  destruct (DeoptimizeIf_registers _ _ _ _ _ _ _ Hrun)
    as (s0 & r0 & R & Hr0 & Hrun0 & He).
  unfold fields_of in Hreg. rewrite He, Hr0 in Hreg. simpl in Hreg.
  injection Hreg as ->.
  rewrite (DeoptimizeIf_unfold _ _ _ _ _ _ _ Hr0), Hentry in Hrun0.
  injection Hrun0 as <-.
  destruct (RegisterEnvironmentForDeoptimization_keeps _ _ _ _ _ R)
    as (Hc & _ & _ & Hj & _ & Hd).
  simpl. auto.
Qed.

(** X2: without the stress and trap instrumentation, an unconditional
    guard in a built frame emits the deoptimization comment and a call to
    the entry, logs the position after the call with the inlining id of
    the instruction, and leaves the jump table as it is. *)
Theorem DeoptimizeIf_direct_call cfg instr reason bailout_type s s' r entry :
  DeoptEveryNTimes cfg = false -> ShouldTrapOnDeopt cfg = false ->
  frame_is_built_ s = true ->
  DeoptimizeIf cfg no_condition instr reason bailout_type s = Ok s' ->
  registration (fields_of (environment instr) s') = Some r ->
  GetDeoptimizationEntry cfg (deoptimization_index r) bailout_type
  = Some entry ->
  code s' = code s ++ [DeoptComment (MakeDeoptInfo instr reason); call entry]
  /\ jump_table_ s' = jump_table_ s /\
  deopt_call_positions s'
  = deopt_call_positions s
    ++ [(masm_pc_offset s + 2, instr_inlining_id instr)] /\
  aborted s' = aborted s.
Proof.
  intros Hstress Htrap Hframe Hrun Hreg Hentry.
  destruct (DeoptimizeIf_registers _ _ _ _ _ _ _ Hrun)
    as (s0 & r0 & R & Hr0 & Hrun0 & He).
  unfold fields_of in Hreg. rewrite He, Hr0 in Hreg. simpl in Hreg.
  injection Hreg as ->.
  destruct (RegisterEnvironmentForDeoptimization_keeps _ _ _ _ _ R)
    as (Hc & Ha & Hf & Hj & _ & Hd).
  rewrite (DeoptimizeIf_unfold _ _ _ _ _ _ _ Hr0), Hentry, Hstress, Htrap
    in Hrun0.
  unfold calls_in_line in Hrun0. rewrite Hf, Hframe in Hrun0.
  simpl in Hrun0. injection Hrun0 as <-. simpl.
  rewrite Hc, Ha, Hj, Hd. repeat split.
  unfold masm_pc_offset. simpl. rewrite Hc, length_app. simpl.
  do 3 f_equal. lia.
Qed.

Lemma names_entry_grows table table' e :
  (length table <= length table')%nat ->
  names_entry table e -> names_entry table' e.
Proof. intros Hl. destruct e; simpl; auto; lia. Qed.

Lemma table_after_length cfg table_entry table :
  (length table <= length (table_after cfg table_entry table))%nat /\
  (0 < length (table_after cfg table_entry table))%nat /\
  table `prefix_of` table_after cfg table_entry table.
Proof.
  unfold table_after.
  destruct (FLAG_trace_deopt cfg || is_profiling cfg) eqn:E; simpl.
  - rewrite length_app. simpl. split; [lia |]. split; [lia |].
    now apply prefix_app_r.
  - destruct (last table) as [l |] eqn:El.
    + assert (0 < length table)%nat.
      { destruct table; [discriminate | simpl; lia]. }
      destruct (negb _).
      * rewrite length_app. simpl. split; [lia |]. split; [lia |].
        now apply prefix_app_r.
      * split; [lia |]. split; [lia | reflexivity].
    + rewrite length_app. simpl. split; [lia |]. split; [lia |].
      now apply prefix_app_r.
Qed.

(** X3: whatever the flags, a guard keeps the jump table consistent with
    the code: if every jump to a jump-table entry names an entry of the
    table before, so it does after, and the table only grows at its
    end. *)
Theorem DeoptimizeIf_table_jumps_bound
        cfg cc instr reason bailout_type s s' :
  DeoptimizeIf cfg cc instr reason bailout_type s = Ok s' ->
  table_jumps_bound s ->
  table_jumps_bound s' /\ jump_table_ s `prefix_of` jump_table_ s'.
Proof.
  intros Hrun Hinv.
  destruct (DeoptimizeIf_registers _ _ _ _ _ _ _ Hrun)
    as (s0 & r0 & R & Hr0 & Hrun0 & _).
  destruct (RegisterEnvironmentForDeoptimization_keeps _ _ _ _ _ R)
    as (Hc & _ & _ & Hj & _).
  unfold table_jumps_bound in *. rewrite <- Hc, <- Hj in *.
  clear Hc Hj R Hrun s.
  rewrite (DeoptimizeIf_unfold _ _ _ _ _ _ _ Hr0) in Hrun0.
  destruct (GetDeoptimizationEntry cfg _ _) as [entry |];
    [| injection Hrun0 as <-; simpl; auto].
  cbv zeta in Hrun0.
  set (s1 := if DeoptEveryNTimes cfg then _ else s0) in Hrun0.
  assert (H1 : Forall (names_entry (jump_table_ s0)) (code s1) /\
               jump_table_ s1 = jump_table_ s0).
  { unfold s1. destruct (DeoptEveryNTimes cfg); [| auto]. simpl.
    split; [| reflexivity]. apply Forall_app. split; [exact Hinv |].
    destruct (FLAG_trap_on_deopt cfg); repeat constructor. }
  clearbody s1.
  set (s2 := if ShouldTrapOnDeopt cfg then _ else s1) in Hrun0.
  assert (H2 : Forall (names_entry (jump_table_ s0)) (code s2) /\
               jump_table_ s2 = jump_table_ s0).
  { destruct H1 as [H1 H1']. unfold s2.
    destruct (ShouldTrapOnDeopt cfg); [| auto]. simpl.
    split; [| exact H1']. apply Forall_app. split; [exact H1 |].
    destruct (decide (cc = no_condition)); repeat constructor. }
  clearbody s2. destruct H2 as [H2 H2']. clear H1 s1.
  destruct (calls_in_line cc s2).
  - injection Hrun0 as <-. simpl. rewrite H2'. split; [| reflexivity].
    apply Forall_app. split; [exact H2 | repeat constructor].
  - injection Hrun0 as <-. simpl. rewrite H2'.
    destruct (table_after_length cfg
                (guard_entry instr reason bailout_type entry s2)
                (jump_table_ s0)) as (Hle & Hpos & Hpre).
    split; [| exact Hpre].
    apply Forall_app. split.
    + eapply Forall_impl; [exact H2 |].
      intros e. now apply names_entry_grows.
    + constructor; [| constructor].
      unfold jump_to_entry. destruct (decide _); simpl; lia.
Qed.

(** A guard with a bailout type that is not eager adds no eager entry. *)
Lemma DeoptimizeIf_no_eager_entry cfg cc instr reason bailout_type s s' :
  bailout_type <> EAGER ->
  DeoptimizeIf cfg cc instr reason bailout_type s = Ok s' ->
  no_eager_entry s -> no_eager_entry s'.
Proof.
  intros Hbt Hrun Hinv.
  destruct (DeoptimizeIf_registers _ _ _ _ _ _ _ Hrun)
    as (s0 & r0 & R & Hr0 & Hrun0 & _).
  destruct (RegisterEnvironmentForDeoptimization_keeps _ _ _ _ _ R)
    as (_ & _ & _ & Hj & _).
  unfold no_eager_entry in *. rewrite <- Hj in *. clear Hj R Hrun s.
  rewrite (DeoptimizeIf_unfold _ _ _ _ _ _ _ Hr0) in Hrun0.
  destruct (GetDeoptimizationEntry cfg _ _) as [entry |];
    [| injection Hrun0 as <-; simpl; auto].
  cbv zeta in Hrun0.
  set (s1 := if DeoptEveryNTimes cfg then _ else s0) in Hrun0.
  assert (H1 : jump_table_ s1 = jump_table_ s0)
    by (unfold s1; now destruct (DeoptEveryNTimes cfg)).
  clearbody s1.
  set (s2 := if ShouldTrapOnDeopt cfg then _ else s1) in Hrun0.
  assert (H2 : jump_table_ s2 = jump_table_ s0)
    by (unfold s2; now destruct (ShouldTrapOnDeopt cfg)).
  clearbody s2.
  destruct (calls_in_line cc s2); injection Hrun0 as <-; simpl;
    rewrite H2; [exact Hinv |].
  unfold table_after. destruct (_ || _); [| exact Hinv].
  apply Forall_app. split; [exact Hinv |]. now repeat constructor.
Qed.

(** X4: in a stub no guard bails out eagerly: [DoDeoptimize] turns an
    eager bailout into a lazy one, [DeoptimizeIf] without a bailout type
    chooses the lazy one, and neither adds an eager entry to a jump table
    that has none. *)
Theorem stub_guards_are_not_eager cfg instr reason s s' :
  IsStub (context cfg) = true ->
  no_eager_entry s ->
  (forall type, DoDeoptimize cfg instr type reason s = Ok s' ->
                no_eager_entry s') /\
  (forall cc, DeoptimizeIf_default cfg cc instr reason s = Ok s' ->
              no_eager_entry s').
Proof.
  intros Hstub Hinv. split.
  - intros type Hrun. unfold DoDeoptimize in Hrun. rewrite Hstub in Hrun.
    eapply DeoptimizeIf_no_eager_entry; [| exact Hrun | exact Hinv].
    simpl. destruct (bool_decide_reflect (type = EAGER)); [discriminate |].
    assumption.
  - intros cc Hrun. unfold DeoptimizeIf_default in Hrun.
    rewrite Hstub in Hrun.
    eapply DeoptimizeIf_no_eager_entry; [| exact Hrun | exact Hinv].
    discriminate.
Qed.

End GuardFacts.

Section GuardExamples.

Import Ia32 Lithium LCodeGen SampleCodeGen SampleGuards.

(** Binds [name] to the state that the run [run] ends in. *)
Ltac pose_final name run :=
  let result := eval vm_compute in run in
  match result with
  | Ok ?s' => pose (name := s')
  end.

Lemma DeoptimizeIf_not_prepared_witness :
  exists s',
    DeoptimizeIf unprepared_config equal instruction kHole EAGER
                 (initial true) = Ok s' /\
    aborted s' = Some kBailoutWasNotPrepared /\
    code s' = [] /\ jump_table_ s' = [] /\ deopt_call_positions s' = [].
Proof.
  pose_final final
    (DeoptimizeIf unprepared_config equal instruction kHole EAGER
                  (initial true)).
  assert (E : DeoptimizeIf unprepared_config equal instruction kHole EAGER
                           (initial true) = Ok final).
  { vm_compute. reflexivity. }
  exists final. split; [exact E |].
  apply (DeoptimizeIf_not_prepared unprepared_config equal instruction
           kHole EAGER (initial true) final
           {| deoptimization_index := 0; translation_index := 0;
              pc_offset := -1 |} E).
  - vm_compute. reflexivity.
  - reflexivity.
Defined.

Lemma DeoptimizeIf_direct_call_witness :
  exists s',
    DeoptimizeIf config no_condition instruction kHole EAGER
                 (initial true) = Ok s' /\
    code s' = [DeoptComment (MakeDeoptInfo instruction kHole); call 9000] /\
    jump_table_ s' = [] /\ deopt_call_positions s' = [(2, 0)] /\
    aborted s' = None.
Proof.
  pose_final final
    (DeoptimizeIf config no_condition instruction kHole EAGER
                  (initial true)).
  assert (E : DeoptimizeIf config no_condition instruction kHole EAGER
                           (initial true) = Ok final).
  { vm_compute. reflexivity. }
  exists final. split; [exact E |].
  apply (DeoptimizeIf_direct_call config instruction kHole EAGER
           (initial true) final
           {| deoptimization_index := 0; translation_index := 0;
              pc_offset := -1 |} 9000);
    try exact E; try reflexivity; vm_compute; reflexivity.
Defined.

Lemma DeoptimizeIf_table_jumps_bound_witness :
  exists s',
    DeoptimizeIf stress_config less instruction kOutOfBounds EAGER
                 (initial false) = Ok s' /\
    table_jumps_bound s' /\ [] `prefix_of` jump_table_ s'.
Proof.
  pose_final final
    (DeoptimizeIf stress_config less instruction kOutOfBounds EAGER
                  (initial false)).
  assert (E : DeoptimizeIf stress_config less instruction kOutOfBounds
                           EAGER (initial false) = Ok final).
  { vm_compute. reflexivity. }
  exists final. split; [exact E |].
  apply (DeoptimizeIf_table_jumps_bound stress_config less instruction
           kOutOfBounds EAGER (initial false) final E).
  constructor.
Defined.

Lemma stub_guards_are_not_eager_witness :
  exists s',
    DoDeoptimize stub_config instruction EAGER kHole (initial false)
    = Ok s' /\
    no_eager_entry s'.
Proof.
  pose_final final
    (DoDeoptimize stub_config instruction EAGER kHole (initial false)).
  assert (E : DoDeoptimize stub_config instruction EAGER kHole
                           (initial false) = Ok final).
  { vm_compute. reflexivity. }
  exists final. split; [exact E |].
  destruct (stub_guards_are_not_eager stub_config instruction kHole
              (initial false) final) as [H _];
    [reflexivity | constructor |].
  exact (H EAGER E).
Defined.

(** The stress mode counts down before the guard proper; the jump to the
    table entry still comes last. *)
Example DeoptimizeIf_stress :
  (fun s => (length (code s), last (code s), length (jump_table_ s)))
  <$> DeoptimizeIf stress_config less instruction kOutOfBounds EAGER
        (initial false)
  = Ok (19%nat, Some (j_table less 0), 1%nat).
Proof. vm_compute. reflexivity. Qed.

(** In a stub an eager [LDeoptimize] without a frame goes through a lazy
    entry of the jump table. *)
Example DoDeoptimize_in_stub :
  (fun s => bailout_type <$> jump_table_ s)
  <$> DoDeoptimize stub_config instruction EAGER kHole (initial false)
  = Ok [LAZY].
Proof. vm_compute. reflexivity. Qed.

End GuardExamples.

(** ** Branches: where control goes *)

Section BranchMoreFacts.

Import Ia32 Lithium LithiumOps.

Local Arguments Int32.wrap : simpl never.
Local Arguments Int32.signed : simpl never.
Local Arguments get : simpl never.
Local Arguments set_flags : simpl never.

(** The negated condition holds exactly when the condition does not. *)
Lemma holds_negate f cc :
  cc <> no_condition ->
  holds f (NegateCondition cc) = negb <$> holds f cc.
Proof.
  intros Hcc. destruct f as [[[] |] [[] |] [[] |] [[] |]];
    destruct cc; try contradiction; reflexivity.
Qed.

(** The signed reading of a register pattern, and the difference of two
    patterns, by cases. *)
Lemma signed_pattern a :
  0 <= a < Int32.modulus ->
  Int32.signed a = if a <? Int32.half_modulus then a else a - Int32.modulus.
Proof. intros Ha. unfold Int32.signed. now rewrite wrap_small. Qed.

Lemma wrap_sub_cases a b :
  0 <= a < Int32.modulus -> 0 <= b < Int32.modulus ->
  Int32.wrap (a - b) = if a <? b then a - b + Int32.modulus else a - b.
Proof.
  intros Ha Hb. destruct (Z.ltb_spec a b).
  - rewrite <- (wrap_add_multiple (a - b) 1), Z.mul_1_l.
    apply wrap_small. lia.
  - apply wrap_small. lia.
Qed.

(** Unfolds the flags of [cmp a, b] on two patterns and decides the
    resulting comparisons. *)
Ltac compare_patterns Ha Hb :=
  unfold sub_flags, result_flags, msb, out_of_range; simpl;
  rewrite ?wrap_wrap;
  rewrite ?(wrap_sub_cases _ _ Ha Hb), ?(signed_pattern _ Ha),
    ?(signed_pattern _ Hb);
  f_equal;
  match goal with
  | a : Z, b : Z |- _ =>
      destruct (Z.ltb_spec a b), (Z.ltb_spec a Int32.half_modulus),
        (Z.ltb_spec b Int32.half_modulus)
  end;
  Int32.numerals;
  repeat match goal with
         | |- context [?x <? ?y] => destruct (Z.ltb_spec x y)
         | |- context [?x <=? ?y] => destruct (Z.leb_spec x y)
         | |- context [?x =? ?y] => destruct (Z.eqb_spec x y)
         end;
  simpl; try reflexivity; lia.

(** The conditions of the signed comparisons after [cmp a, b]. *)
Lemma holds_less a b :
  0 <= a < Int32.modulus -> 0 <= b < Int32.modulus ->
  holds (sub_flags a b) less = Some (Int32.signed a <? Int32.signed b).
Proof. intros Ha Hb. compare_patterns Ha Hb. Qed.

Lemma holds_greater_equal a b :
  0 <= a < Int32.modulus -> 0 <= b < Int32.modulus ->
  holds (sub_flags a b) greater_equal
  = Some (Int32.signed b <=? Int32.signed a).
Proof. intros Ha Hb. compare_patterns Ha Hb. Qed.

Lemma holds_less_equal a b :
  0 <= a < Int32.modulus -> 0 <= b < Int32.modulus ->
  holds (sub_flags a b) less_equal
  = Some (Int32.signed a <=? Int32.signed b).
Proof. intros Ha Hb. compare_patterns Ha Hb. Qed.

Lemma holds_greater a b :
  0 <= a < Int32.modulus -> 0 <= b < Int32.modulus ->
  holds (sub_flags a b) greater = Some (Int32.signed b <? Int32.signed a).
Proof. intros Ha Hb. compare_patterns Ha Hb. Qed.

(** Where the code of [EmitBranch] leaves control. *)
Lemma EmitBranch_outcome c instr cc m b :
  LookupDestination c (TrueDestination c instr) = TrueDestination c instr ->
  holds (flags m) cc = Some b ->
  execute (EmitBranch c instr cc) m
  = goes_to c (if b then TrueDestination c instr
               else FalseDestination c instr) m.
Proof.
  intros Hidem Hcc. unfold EmitBranch, execute, goes_to.
  set (left_block := TrueDestination c instr) in *.
  set (right_block := FalseDestination c instr) in *.
  destruct (Z.eqb_spec right_block left_block) as [Esame | Hdiff];
    [| destruct (bool_decide_reflect (cc = no_condition)) as [-> | Hcond]];
    simpl.
  - unfold EmitGoto, IsNextEmittedBlock. rewrite Hidem, Esame.
    destruct b; now destruct (left_block =? GetNextEmittedBlock c).
  - simpl in Hcc. injection Hcc as <-.
    unfold EmitGoto, IsNextEmittedBlock. rewrite Hidem.
    now destruct (left_block =? GetNextEmittedBlock c).
  - pose proof (holds_negate (flags m) cc Hcond) as Hneg.
    rewrite Hcc in Hneg.
    destruct b; simpl in Hneg |- *;
      destruct (Z.eqb_spec left_block (GetNextEmittedBlock c));
      destruct (Z.eqb_spec right_block (GetNextEmittedBlock c));
      simpl; rewrite ?Hcc, ?Hneg; simpl; try reflexivity; congruence.
Qed.

(** X5: the code of [EmitBranch] hands control to the true destination
    when the condition holds and to the false destination when it does
    not, falling through exactly when that destination is emitted next;
    [EmitFalseBranch] jumps to the false destination when the condition
    holds and falls through otherwise; [DoGoto] hands control to the
    destination of its block. None of them changes the machine. *)
Theorem branches_go_to_their_destination c instr cc m b :
  LookupDestination c (TrueDestination c instr) = TrueDestination c instr ->
  holds (flags m) cc = Some b ->
  execute (EmitBranch c instr cc) m
  = goes_to c (if b then TrueDestination c instr
               else FalseDestination c instr) m /\
  execute (EmitFalseBranch c instr cc) m
  = (if b then UnboundLabel (GetAssemblyLabel c (FalseDestination c instr))
     else Done m) /\
  execute (DoGoto c (LControlInstruction.true_block_id instr)) m
  = goes_to c (TrueDestination c instr) m.
Proof.
  intros Hidem Hcc. split; [now apply EmitBranch_outcome |]. split.
  - unfold EmitFalseBranch, execute.
    destruct (decide (cc = no_condition)) as [-> | Hcond]; simpl.
    + simpl in Hcc. now injection Hcc as <-.
    + rewrite Hcc. now destruct b.
  - unfold DoGoto, EmitGoto, IsNextEmittedBlock, execute, goes_to.
    fold (TrueDestination c instr).
    now destruct (TrueDestination c instr =? GetNextEmittedBlock c).
Qed.

Lemma land_tag_mask v :
  0 <= v -> (Z.land v (Int32.wrap kSmiTagMask) =? 0) = Z.even v.
Proof.
  intros Hv. change (Int32.wrap kSmiTagMask) with (Z.ones 1).
  rewrite Z.land_ones by lia. change (2 ^ 1) with 2.
  rewrite Zeven_mod. reflexivity.
Qed.

Lemma test_tag_mask m o :
  flags (do_test m o (Immediate kSmiTagMask))
  = logic_flags (Z.land (value m o) (Int32.wrap kSmiTagMask)) /\
  holds (flags (do_test m o (Immediate kSmiTagMask))) zero
  = Some (Z.even (value m o)).
Proof.
  split; [reflexivity |].
  unfold do_test, logic_flags, result_flags. simpl.
  f_equal. rewrite <- land_tag_mask by apply value_range.
  f_equal. apply wrap_small.
  pose proof (value_range m o) as Hv.
  change (Int32.wrap kSmiTagMask) with (Z.ones 1).
  rewrite Z.land_ones by lia. change (2 ^ 1) with 2.
  pose proof (Z.mod_pos_bound (value m o) 2 ltac:(lia)).
  Int32.numerals. lia.
Qed.

(** X6: the two tests of the tag of a small integer agree. [DoCheckSmi]
    falls through when the value has the tag bit clear and deoptimizes
    with the reason "not a Smi" otherwise; [DoIsSmiAndBranch] hands
    control to the true destination when the tag bit is clear and to the
    false destination otherwise. Both leave registers and memory as they
    are. *)
Theorem smi_tests_read_the_tag_bit c value instr m :
  LIsSmiAndBranch.value instr = value ->
  LookupDestination c (TrueDestination c (LIsSmiAndBranch.control instr))
  = TrueDestination c (LIsSmiAndBranch.control instr) ->
  let v := Ia32.value m (ToOperand c value) in
  exists m',
    regs m' = regs m /\ mem m' = mem m /\
    execute (DoCheckSmi c value) m
    = (if Z.even v then Done m' else Deopt kNotASmi m') /\
    execute (DoIsSmiAndBranch c instr) m
    = goes_to c (if Z.even v
                 then TrueDestination c (LIsSmiAndBranch.control instr)
                 else FalseDestination c (LIsSmiAndBranch.control instr))
              m'.
Proof.
  intros Hvalue Hidem v.
  exists (do_test m (ToOperand c value) (Immediate kSmiTagMask)).
  destruct (test_tag_mask m (ToOperand c value)) as [_ Hzero].
  fold v in Hzero.
  split; [reflexivity |]. split; [reflexivity |]. split.
  - unfold DoCheckSmi, DeoptimizeIf, execute.
    change (run None ([test ?o ?i] ++ ?rest) m)
      with (run None rest (do_test m o i)).
    rewrite (run_guard _ _ _ (negb (Z.even v)));
      [now destruct (Z.even v) |].
    change not_zero with (NegateCondition zero).
    rewrite holds_negate by discriminate. now rewrite Hzero.
  - unfold DoIsSmiAndBranch, execute. rewrite Hvalue. simpl.
    apply (EmitBranch_outcome c (LIsSmiAndBranch.control instr) zero _ _
             Hidem Hzero).
Qed.

(** Decides what the condition of a comparison token holds of, after
    [cmp a, b] and after [cmp b, a] with the condition commuted. *)
Ltac token_cases op is_unsigned Ha Hb Hcc :=
  let Heq := fresh "Heq" in
  let Hsym := fresh "Hsym" in
  match type of Ha with
  | 0 <= ?a < _ =>
      match type of Hb with
      | 0 <= ?b < _ =>
          assert (Heq : (Int32.signed a =? Int32.signed b) = (a =? b));
          [ rewrite (signed_pattern _ Ha), (signed_pattern _ Hb);
            Int32.numerals;
            destruct (Z.eqb_spec a b), (Z.ltb_spec a 2147483648),
              (Z.ltb_spec b 2147483648); try lia;
            match goal with
            | |- (?x =? ?y) = _ => destruct (Z.eqb_spec x y)
            end; lia
          | assert (Hsym : (b =? a) = (a =? b)) by apply Z.eqb_sym;
            destruct op; try discriminate; destruct is_unsigned;
            simpl in Hcc; injection Hcc as <-;
            cbn [compares CommuteCondition]; rewrite ?Heq;
            rewrite ?holds_equal, ?holds_not_equal, ?holds_below,
              ?holds_above, ?holds_below_equal, ?holds_above_equal,
              ?holds_less, ?holds_greater, ?holds_less_equal,
              ?holds_greater_equal by assumption;
            rewrite ?Hsym; split; reflexivity ]
      end
  end.

(** X7: [TokenToCondition] gives, for each comparison token, the
    condition that holds after [cmp left, right] exactly when the token's
    comparison holds of the two operands, read as unsigned or as signed
    32-bit numbers as asked; after the operands are exchanged, the
    commuted condition decides the same. *)
Theorem TokenToCondition_decides op is_unsigned cc a b :
  0 <= a < Int32.modulus -> 0 <= b < Int32.modulus ->
  TokenToCondition op is_unsigned = Some cc ->
  let read := fun x => if is_unsigned then x else Int32.signed x in
  holds (sub_flags a b) cc = Some (compares op (read a) (read b)) /\
  holds (sub_flags b a) (CommuteCondition cc)
  = Some (compares op (read a) (read b)).
Proof.
  intros Ha Hb Hcc read. unfold read.
  token_cases op is_unsigned Ha Hb Hcc.
Qed.

(** X26: [DoCompareNumericAndBranch] on integers, with at most one
    constant operand and a comparison token: the code compares and then
    hands control to the true destination exactly when the comparison of
    the token holds of the left and the right operand, read as unsigned
    numbers if one of them is flagged [kUint32] and as signed numbers
    otherwise; a constant operand is compared as an immediate, with the
    condition commuted when it is the left one. Registers and memory stay
    as they were. *)
Theorem DoCompareNumericAndBranch_decides (c : Context)
        (instr : LCompareNumericAndBranch.t) m cc :
  let left := LCompareNumericAndBranch.left instr in
  let right := LCompareNumericAndBranch.right instr in
  let representation := LCompareNumericAndBranch.representation instr in
  let control := LCompareNumericAndBranch.control instr in
  let op := LCompareNumericAndBranch.op instr in
  let is_unsigned :=
    LCompareNumericAndBranch.left_kUint32 instr
    || LCompareNumericAndBranch.right_kUint32 instr in
  let operand o :=
    if IsConstantOperand o then ToImmediate c o representation
    else ToOperand c o in
  let read x := if is_unsigned then x else Int32.signed x in
  LCompareNumericAndBranch.is_double instr = false ->
  TokenToCondition op is_unsigned = Some cc ->
  IsConstantOperand left && IsConstantOperand right = false ->
  (IsConstantOperand left = false -> IsConstantOperand right = false ->
   kind left = REGISTER) ->
  LookupDestination c (TrueDestination c control)
  = TrueDestination c control ->
  exists code m',
    DoCompareNumericAndBranch c instr = Some code /\
    regs m' = regs m /\ mem m' = mem m /\
    execute code m
    = goes_to c (if compares op (read (value m (operand left)))
                                (read (value m (operand right)))
                 then TrueDestination c control
                 else FalseDestination c control) m'.
Proof.
  intros left right representation control op is_unsigned operand read
    Hdouble Hcc Hboth Hreg Hidem.
  unfold DoCompareNumericAndBranch.
  fold left right representation control op.
  rewrite Hdouble. cbn [orb]. fold is_unsigned. rewrite Hcc, Hboth.
  cbn [mbind option_bind].
  assert (Hflags :
    holds (sub_flags (value m (operand left)) (value m (operand right))) cc
    = Some (compares op (read (value m (operand left)))
                        (read (value m (operand right)))) /\
    holds (sub_flags (value m (operand right)) (value m (operand left)))
          (CommuteCondition cc)
    = Some (compares op (read (value m (operand left)))
                        (read (value m (operand right))))).
  { pose proof (value_range m (operand left)) as Ha.
    pose proof (value_range m (operand right)) as Hb.
    unfold read. clear read Hboth Hreg. clearbody op is_unsigned.
    generalize dependent (value m (operand left)).
    generalize dependent (value m (operand right)).
    intros b Hb a Ha.
    token_cases op is_unsigned Ha Hb Hcc. }
  destruct Hflags as [Hplain Hcomm].
  unfold operand in *.
  destruct (IsConstantOperand right) eqn:Eright.
  - (* The right operand is an immediate. *)
    rewrite andb_true_r in Hboth. rewrite Hboth in *.
    eexists. exists (do_cmp m (ToOperand c left)
                       (ToImmediate c right representation)).
    split; [reflexivity |]. split; [reflexivity |].
    split; [reflexivity |].
    unfold execute. cbn [app run].
    apply (EmitBranch_outcome c control cc _ _ Hidem). exact Hplain.
  - destruct (IsConstantOperand left) eqn:Eleft.
    + (* The left operand is an immediate: the operands are exchanged. *)
      eexists. exists (do_cmp m (ToOperand c right)
                         (ToImmediate c left representation)).
      split; [reflexivity |]. split; [reflexivity |].
      split; [reflexivity |].
      unfold execute. cbn [app run].
      apply (EmitBranch_outcome c control _ _ _ Hidem). exact Hcomm.
    + assert (Eop : ToOperand c left = Reg (ToRegister c left)).
      { unfold ToOperand, IsRegister.
        now rewrite (Hreg eq_refl eq_refl), bool_decide_eq_true_2. }
      rewrite Eop in Hplain.
      eexists. exists (do_cmp m (ToRegister c left) (ToOperand c right)).
      split; [reflexivity |]. split; [reflexivity |].
      split; [reflexivity |].
      unfold execute. cbn [app run]. rewrite Eop.
      apply (EmitBranch_outcome c control cc _ _ Hidem). exact Hplain.
Qed.


End BranchMoreFacts.

Section BranchMoreExamples.

Import Ia32 Lithium LithiumOps.

(** With the flags clear, [less] does not hold: a branch to block 3 or
    block 7, the block emitted next, falls through. *)
Lemma branches_go_to_their_destination_witness :
  let m := Sample.machine 1 2 3 4 0 in
  execute (EmitBranch Sample.context (Sample.branch 3 7) less) m = Done m /\
  execute (EmitFalseBranch Sample.context (Sample.branch 3 7) less) m
  = Done m /\
  execute (DoGoto Sample.context 3) m = UnboundLabel 3%nat.
Proof.
  intros m.
  exact (branches_go_to_their_destination Sample.context
           (Sample.branch 3 7) less m false eq_refl eq_refl).
Defined.

(** The value 6 in [eax] has the tag bit clear: the check falls through,
    and the branch goes to its true destination, block 3. *)
Lemma smi_tests_read_the_tag_bit_witness :
  let m := Sample.machine 6 0 0 0 0 in
  let instr := {| LIsSmiAndBranch.value := Sample.reg 0;
                  LIsSmiAndBranch.control := Sample.branch 3 7 |} in
  exists m',
    regs m' = regs m /\ mem m' = mem m /\
    execute (DoCheckSmi Sample.context (Sample.reg 0)) m = Done m' /\
    execute (DoIsSmiAndBranch Sample.context instr) m = UnboundLabel 3%nat.
Proof.
  intros m instr.
  destruct (smi_tests_read_the_tag_bit Sample.context (Sample.reg 0)
              instr m eq_refl eq_refl) as (m' & Hr & Hm & H1 & H2).
  exists m'. repeat split; assumption.
Defined.

(** Signed, the pattern of -1 is less than 1; unsigned, it is not. *)
Lemma TokenToCondition_decides_witness :
  holds (sub_flags (Int32.wrap (-1)) 1) less = Some true /\
  holds (sub_flags 1 (Int32.wrap (-1))) greater = Some true.
Proof.
  apply (TokenToCondition_decides LT false less (Int32.wrap (-1)) 1);
    [vm_compute; split; [discriminate | reflexivity]
    | vm_compute; split; [discriminate | reflexivity]
    | reflexivity].
Defined.

Example TokenToCondition_unsigned :
  TokenToCondition LT true = Some below /\
  holds (sub_flags (Int32.wrap (-1)) 1) below = Some false /\
  TokenToCondition IN false = None.
Proof. repeat split. Qed.

(** An odd value fails [DoCheckSmi]. *)
Example DoCheckSmi_odd :
  exists m', execute (DoCheckSmi Sample.context (Sample.reg 0))
                     (Sample.machine 7 0 0 0 0) = Deopt kNotASmi m'.
Proof. eexists. reflexivity. Qed.

End BranchMoreExamples.

(** ** Arithmetic of the machine on signed numbers *)

Section MachineFacts.

Import Ia32.

Local Arguments Int32.wrap : simpl never.
Local Arguments Int32.signed : simpl never.
Local Arguments get : simpl never.
Local Arguments set : simpl never.
Local Arguments set_flags : simpl never.

(** A register pattern is the pattern of its signed reading. *)
Lemma wrap_signed_get m r : Int32.wrap (Int32.signed (get m r)) = get m r.
Proof. rewrite wrap_signed. apply wrap_get. Qed.

Lemma signed_get_range m r : Int32.in_range (Int32.signed (get m r)).
Proof. apply signed_range. Qed.

(** The pattern of a number in the [int32] range, by cases. *)
Lemma wrap_in_range x :
  Int32.in_range x ->
  Int32.wrap x = if x <? 0 then x + Int32.modulus else x.
Proof.
  intros Hx. destruct (Z.ltb_spec x 0).
  - rewrite <- (wrap_add_multiple x 1), Z.mul_1_l.
    apply wrap_small. Int32.numerals. lia.
  - apply wrap_small. Int32.numerals. lia.
Qed.

(** The sign bit of a pattern is the sign of its signed reading. *)
Lemma msb_signed a : msb a = (Int32.signed a <? 0).
Proof.
  unfold msb, Int32.signed. pose proof (wrap_range a) as H.
  Int32.numerals.
  destruct (Z.leb_spec 2147483648 (Int32.wrap a)),
    (Z.ltb_spec (Int32.wrap a) 2147483648); try lia;
    match goal with
    | |- _ = (?x <? 0) => destruct (Z.ltb_spec x 0)
    end; lia.
Qed.

(** A pattern is zero exactly when its signed reading is. *)
Lemma wrap_zero_signed a : (Int32.wrap a =? 0) = (Int32.signed a =? 0).
Proof.
  unfold Int32.signed. pose proof (wrap_range a) as H. Int32.numerals.
  destruct (Z.ltb_spec (Int32.wrap a) 2147483648);
    destruct (Z.eqb_spec (Int32.wrap a) 0); try reflexivity;
    match goal with
    | |- _ = (?x =? 0) => destruct (Z.eqb_spec x 0)
    end; lia.
Qed.

(** The signed reading of the pattern of a number in range is the
    number. *)
Lemma signed_wrap_in_range x :
  Int32.in_range x -> Int32.signed (Int32.wrap x) = x.
Proof. apply signed_small. Qed.

(** [test r, r]: the flags tell whether the signed value is zero or
    negative. *)
Lemma test_self m (r : Register) :
  let x := Int32.signed (get m r) in
  holds (flags (do_test m r r)) zero = Some (x =? 0) /\
  holds (flags (do_test m r r)) sign = Some (x <? 0).
Proof.
  unfold do_test, logic_flags, result_flags. simpl.
  rewrite Z.land_diag, wrap_zero_signed, msb_signed. auto.
Qed.

(** [cmp r, imm] for a constant in range: equality of signed values. *)
Lemma cmp_immediate_equal m (r : Register) k :
  Int32.in_range k ->
  holds (flags (do_cmp m r (Immediate k))) equal
  = Some (Int32.signed (get m r) =? k).
Proof.
  intros Hk. unfold do_cmp. rewrite flags_set_flags. cbn [value].
  rewrite holds_equal by (apply wrap_range || apply get_range).
  f_equal. rewrite <- (signed_wrap_in_range k Hk) at 2.
  pose proof (get_range m r) as Ha. pose proof (wrap_range k) as Hb.
  rewrite (signed_pattern _ Ha), (signed_pattern _ Hb). Int32.numerals.
  destruct (Z.eqb_spec (get m r) (Int32.wrap k)),
    (Z.ltb_spec (get m r) 2147483648),
    (Z.ltb_spec (Int32.wrap k) 2147483648);
    match goal with
    | |- _ = (?x =? ?y) => destruct (Z.eqb_spec x y)
    end; lia.
Qed.

(** Negation: the signed value changes sign, except for [kMinInt], for
    which the overflow flag is set. *)
Lemma neg_signed m r :
  let x := Int32.signed (get m r) in
  let m' := do_neg m r in
  get m' r = Int32.wrap (- x) /\
  (x <> Int32.kMinInt -> Int32.signed (get m' r) = - x) /\
  holds (flags m') overflow = Some (x =? Int32.kMinInt) /\
  holds (flags m') zero = Some (x =? 0) /\
  holds (flags m') negative
  = Some ((0 <? x) || (x =? Int32.kMinInt)).
Proof.
  intros x m'. unfold m', do_neg.
  rewrite get_set_flags, get_set_same, flags_set_flags.
  unfold result_flags, msb. simpl. rewrite ?wrap_wrap.
  pose proof (get_range m r) as Ha.
  assert (Hx : x = Int32.signed (get m r)) by reflexivity.
  rewrite (signed_pattern _ Ha) in Hx.
  assert (Hneg : Int32.wrap (- get m r)
                 = if get m r =? 0 then 0 else Int32.modulus - get m r).
  { destruct (Z.eqb_spec (get m r) 0) as [-> | Hne]; [reflexivity |].
    rewrite <- (wrap_add_multiple _ 1), Z.mul_1_l.
    rewrite wrap_small by lia. lia. }
  assert (Hnegx : Int32.wrap (- x) = Int32.wrap (- get m r)).
  { rewrite Hx. destruct (_ <? _); [reflexivity |].
    replace (- (get m r - Int32.modulus))
      with (- get m r + 1 * Int32.modulus) by lia.
    now rewrite wrap_add_multiple. }
  rewrite Hnegx.
  assert (Hs : Int32.signed (Int32.wrap (- get m r))
               = if Int32.wrap (- get m r) <? Int32.half_modulus
                 then Int32.wrap (- get m r)
                 else Int32.wrap (- get m r) - Int32.modulus).
  { apply signed_pattern, wrap_range. }
  rewrite Hs, Hneg. clear Hs Hneg Hnegx. clearbody x. clear m'.
  generalize dependent (get m r). intros a Ha Hx.
  Int32.numerals.
  destruct (Z.eqb_spec a 0), (Z.ltb_spec a 2147483648); subst x.
  all: repeat split; try (intros ?); try f_equal.
  all: repeat match goal with
              | |- context [?u <? ?v] => destruct (Z.ltb_spec u v)
              | |- context [?u <=? ?v] => destruct (Z.leb_spec u v)
              | |- context [?u =? ?v] => destruct (Z.eqb_spec u v)
              end; simpl; try reflexivity; try lia.
Qed.

Lemma holds_not f cc b :
  cc <> no_condition -> holds f cc = Some b ->
  holds f (NegateCondition cc) = Some (negb b).
Proof. intros Hcc H. rewrite holds_negate by exact Hcc. now rewrite H. Qed.

(** A register that an instruction does not write keeps its value. *)
Lemma get_do_test m a b r : get (do_test m a b) r = get m r.
Proof. reflexivity. Qed.

Lemma get_do_cmp m a b r : get (do_cmp m a b) r = get m r.
Proof. reflexivity. Qed.

Lemma get_do_neg_other m r r' : r' <> r -> get (do_neg m r) r' = get m r'.
Proof.
  intros H. unfold do_neg. rewrite get_set_flags. now apply get_set_other.
Qed.

End MachineFacts.

(** ** Absolute value, minimum and maximum *)

Section AbsFacts.

Import Ia32 Lithium LithiumOps.

Local Arguments Int32.wrap : simpl never.
Local Arguments Int32.signed : simpl never.
Local Arguments get : simpl never.
Local Arguments set : simpl never.
Local Arguments set_flags : simpl never.

(** X8: [EmitIntegerMathAbs] leaves the absolute value of the signed
    input in the input register, and deoptimizes with the reason
    "overflow" exactly for [kMinInt], whose absolute value is no [int32];
    it changes no other register and no memory. *)
Theorem EmitIntegerMathAbs_result c value m :
  let input_reg := ToRegister c value in
  let x := Int32.signed (get m input_reg) in
  exists m',
    execute (EmitIntegerMathAbs c value) m
    = (if x =? Int32.kMinInt then Deopt kOverflow m' else Done m') /\
    (x <> Int32.kMinInt -> Int32.signed (get m' input_reg) = Z.abs x) /\
    (forall r, r <> input_reg -> get m' r = get m r) /\
    mem m' = mem m.
Proof.
  intros r x. unfold EmitIntegerMathAbs, DeoptimizeIf, execute.
  fold r. cbn [app run].
  destruct (test_self m r) as [_ Hsign]. fold x in Hsign.
  apply (holds_not _ sign) in Hsign; [| discriminate].
  change (NegateCondition sign) with not_sign in Hsign.
  rewrite Hsign. pose proof (signed_get_range m r) as Hrange. fold x in Hrange.
  destruct (Z.ltb_spec x 0) as [Hneg | Hpos]; cbn [negb run].
  - destruct (neg_signed (do_test m r r) r) as (_ & Hval & _ & _ & Hn).
    rewrite get_do_test in Hval, Hn. fold x in Hval, Hn.
    rewrite Hn.
    replace (0 <? x) with false by (symmetry; apply Z.ltb_ge; lia).
    exists (do_neg (do_test m r r) r). simpl orb.
    destruct (Z.eqb_spec x Int32.kMinInt) as [E | E]; cbn [run].
    + split; [reflexivity |]. split; [contradiction |].
      split; [| reflexivity].
      intros r' Hr'. now rewrite get_do_neg_other, get_do_test.
    + split; [reflexivity |]. split; [intros _; rewrite Hval; lia |].
      split; [| reflexivity].
      intros r' Hr'. now rewrite get_do_neg_other, get_do_test.
  - rewrite decide_True by reflexivity. cbn [run].
    exists (do_test m r r).
    replace (x =? Int32.kMinInt) with false
      by (symmetry; apply Z.eqb_neq; Int32.numerals; lia).
    split; [reflexivity |]. split; [intros _; rewrite get_do_test; lia |].
    split; reflexivity.
Qed.

(** An operand that is written holds what was written. *)
Lemma value_write_same m o v :
  (forall k, o <> Immediate k) ->
  value (write m o v) o = Int32.wrap v.
Proof.
  intros Hopnd. destruct o as [r | b i d | k].
  - simpl. apply get_set_same.
  - simpl. unfold store, address. simpl.
    rewrite wrap_wrap, Z.eqb_refl. apply wrap_wrap.
  - now destruct (Hopnd k).
Qed.

(** X9: for the integer representations [DoMathMinMax] never
    deoptimizes: it leaves in the left operand the smaller, or the
    larger, of the two operands read as signed 32-bit numbers, a
    constant right operand being encoded in the representation of the
    instruction. The left operand is a register or a stack slot, and a
    register when the right operand is no constant (the [DCHECK] of
    [ToRegister]). *)
Theorem DoMathMinMax_result c instr m :
  IsSmiOrInteger32 (LMathMinMax.representation instr) = true ->
  kind (LMathMinMax.left instr) = REGISTER
  \/ (kind (LMathMinMax.left instr) = STACK_SLOT /\
      IsConstantOperand (LMathMinMax.right instr) = true) ->
  let left_op := ToOperand c (LMathMinMax.left instr) in
  let right_op :=
    if IsConstantOperand (LMathMinMax.right instr)
    then ToImmediate c (LMathMinMax.right instr)
                     (LMathMinMax.representation instr)
    else ToOperand c (LMathMinMax.right instr) in
  let a := Int32.signed (value m left_op) in
  let b := Int32.signed (value m right_op) in
  exists code m',
    DoMathMinMax c instr = Some code /\
    execute code m = Done m' /\
    Int32.signed (value m' left_op)
    = match LMathMinMax.operation instr with
      | kMathMin => Z.min a b
      | kMathMax => Z.max a b
      end.
Proof.
  intros Hrep Hleft left_op right_op a b.
  assert (Hop : forall k, left_op <> Immediate k).
  { intros k. unfold left_op, ToOperand, IsRegister, IsDoubleRegister,
      IsFloat32x4Register, IsFloat64x2Register, IsInt32x4Register.
    destruct Hleft as [-> | [-> _]]; simpl; [discriminate |].
    destruct (NeedsEagerFrame c); discriminate. }
  set (cc := match LMathMinMax.operation instr with
             | kMathMin => less_equal
             | kMathMax => greater_equal
             end).
  assert (Hcode :
    DoMathMinMax c instr
    = Some [cmp left_op right_op; j cc 0%nat; mov left_op right_op;
            bind 0%nat]).
  { unfold DoMathMinMax. rewrite Hrep. fold cc. unfold right_op.
    destruct (IsConstantOperand (LMathMinMax.right instr)) eqn:Ec;
      [reflexivity |].
    destruct Hleft as [Hk | [_ Hk]]; [| discriminate].
    unfold left_op, ToOperand, IsRegister. now rewrite Hk. }
  rewrite Hcode.
  exists [cmp left_op right_op; j cc 0%nat; mov left_op right_op;
          bind 0%nat].
  enough (exists m',
    execute [cmp left_op right_op; j cc 0%nat; mov left_op right_op;
             bind 0%nat] m = Done m' /\
    Int32.signed (value m' left_op)
    = match LMathMinMax.operation instr with
      | kMathMin => Z.min a b
      | kMathMax => Z.max a b
      end) as (m' & H1 & H2) by (exists m'; auto).
  pose proof (value_range m left_op) as Ha.
  pose proof (value_range m right_op) as Hb.
  assert (Hcc : holds (flags (do_cmp m left_op right_op)) cc
                = Some match LMathMinMax.operation instr with
                       | kMathMin => a <=? b
                       | kMathMax => b <=? a
                       end).
  { unfold do_cmp, cc. rewrite flags_set_flags.
    destruct (LMathMinMax.operation instr).
    - now apply holds_less_equal.
    - now apply holds_greater_equal. }
  assert (Ea : a = Int32.signed (value m left_op)) by reflexivity.
  assert (Eb : b = Int32.signed (value m right_op)) by reflexivity.
  clearbody a b cc left_op right_op.
  unfold execute. cbn [run]. rewrite Hcc.
  destruct (match LMathMinMax.operation instr with
            | kMathMin => a <=? b
            | kMathMax => b <=? a
            end) eqn:Ecmp; cbn [run].
  - rewrite decide_True by reflexivity. cbn [run].
    eexists. split; [reflexivity |].
    unfold do_cmp. rewrite value_set_flags, <- Ea.
    destruct (LMathMinMax.operation instr);
      apply Z.leb_le in Ecmp; lia.
  - eexists. split; [reflexivity |].
    rewrite (value_write_same _ _ _ Hop).
    unfold do_cmp. rewrite value_set_flags, value_wrap, <- Eb.
    destruct (LMathMinMax.operation instr);
      apply Z.leb_gt in Ecmp; lia.
Qed.

End AbsFacts.

(** ** Division: the blocks the lowering functions share *)

Section DivBlocks.

Import Ia32 Lithium.

Local Arguments Int32.wrap : simpl never.
Local Arguments Int32.signed : simpl never.
Local Arguments get : simpl never.
Local Arguments set : simpl never.
Local Arguments set_flags : simpl never.

(** The quotient of two [int32] numbers leaves the [int32] range for
    [kMinInt / -1] only. *)
Lemma quot_out_of_range x y :
  Int32.in_range x -> Int32.in_range y -> y <> 0 ->
  out_of_range (Z.quot x y)
  = (x =? Int32.kMinInt) && (y =? -1).
Proof.
  intros Hx Hy Hy0.
  assert (Habs : Z.abs (Z.quot x y) = Z.quot (Z.abs x) (Z.abs y))
    by (symmetry; now apply Z.quot_abs).
  assert (Hle : Z.quot (Z.abs x) (Z.abs y) <= Z.abs x).
  { rewrite <- (Z.quot_1_r (Z.abs x)) at 2.
    apply Z.quot_le_compat_l; lia. }
  unfold out_of_range.
  destruct (Z.eqb_spec x Int32.kMinInt) as [-> | Hmin];
    [destruct (Z.eqb_spec y (-1)) as [-> | Hone] |].
  - reflexivity.
  - destruct (Z.eq_dec y 1) as [-> | H1]; [reflexivity |].
    simpl. apply orb_false_iff.
    assert (H2 : Z.quot (Z.abs Int32.kMinInt) (Z.abs y)
                 <= Z.quot (Z.abs Int32.kMinInt) 2)
      by (apply Z.quot_le_compat_l; [vm_compute; discriminate | lia]).
    change (Z.quot (Z.abs Int32.kMinInt) 2) with 1073741824 in H2.
    Int32.numerals. split; apply Z.ltb_ge; lia.
  - simpl. apply orb_false_iff. Int32.numerals.
    split; [apply Z.ltb_ge | apply Z.ltb_ge]; lia.
Qed.

(** [cdq] and [idiv]: the signed quotient and remainder of [eax] by a
    register that is neither [eax] nor [edx]; the division faults for a
    zero divisor and for [kMinInt / -1]. *)
Lemma cdq_idiv m (d : Register) :
  d <> eax -> d <> edx ->
  let x := Int32.signed (get m eax) in
  let y := Int32.signed (get m d) in
  if (y =? 0) || ((x =? Int32.kMinInt) && (y =? -1))
  then do_idiv (do_cdq m) d = None
  else exists m',
      do_idiv (do_cdq m) d = Some m' /\
      Int32.signed (get m' eax) = Z.quot x y /\
      Int32.signed (get m' edx) = Z.rem x y /\
      (forall r, r <> eax -> r <> edx -> get m' r = get m r) /\
      mem m' = mem m.
Proof.
  intros Hd1 Hd2 x y.
  pose proof (signed_get_range m eax) as Hx. fold x in Hx.
  pose proof (signed_get_range m d) as Hy. fold y in Hy.
  assert (Hdividend :
    Int32.signed (get (do_cdq m) edx) * Int32.modulus + get (do_cdq m) eax
    = x).
  { unfold do_cdq. rewrite get_set_same, get_set_other by discriminate.
    rewrite msb_signed. fold x.
    pose proof (get_range m eax) as Ha.
    assert (Ex : x = Int32.signed (get m eax)) by reflexivity.
    rewrite (signed_pattern _ Ha) in Ex.
    destruct (Z.ltb_spec x 0).
    - change (Int32.signed (Int32.wrap (-1))) with (-1).
      revert Ex. Int32.numerals.
      destruct (Z.ltb_spec (get m eax) 2147483648); lia.
    - change (Int32.signed (Int32.wrap 0)) with 0.
      revert Ex. Int32.numerals.
      destruct (Z.ltb_spec (get m eax) 2147483648); lia. }
  assert (Hdivisor : Int32.signed (get (do_cdq m) d) = y).
  { unfold do_cdq. now rewrite get_set_other. }
  unfold do_idiv. rewrite Hdividend, Hdivisor.
  destruct (Z.eqb_spec y 0) as [Hy0 | Hy0]; [reflexivity |].
  rewrite (quot_out_of_range x y Hx Hy Hy0). simpl orb.
  destruct ((x =? Int32.kMinInt) && (y =? -1)) eqn:Eovf; [reflexivity |].
  eexists. split; [reflexivity |].
  assert (Hq : Int32.in_range (Z.quot x y)).
  { pose proof (quot_out_of_range x y Hx Hy Hy0) as H.
    rewrite Eovf in H. unfold out_of_range in H.
    apply orb_false_iff in H as [H1 H2].
    apply Z.ltb_ge in H1, H2. split; assumption. }
  assert (Hr : Int32.in_range (Z.rem x y)).
  { pose proof (Z.rem_bound_abs x y Hy0). revert Hy. Int32.numerals. lia. }
  split; [| split; [| split]].
  - rewrite get_set_flags, get_set_other, get_set_same by discriminate.
    now apply signed_wrap_in_range.
  - rewrite get_set_flags, get_set_same. now apply signed_wrap_in_range.
  - intros r Hr1 Hr2.
    rewrite get_set_flags, !get_set_other by assumption.
    unfold do_cdq. now rewrite get_set_other.
  - reflexivity.
Qed.

(** The check for a zero divisor. *)
Lemma run_zero_check (d : Register) reason rest m :
  run None (test d d :: Guard zero reason :: rest) m
  = if Int32.signed (get m d) =? 0 then Deopt reason (do_test m d d)
    else run None rest (do_test m d d).
Proof.
  cbn [run]. destruct (test_self m d) as [-> _].
  now destruct (_ =? 0).
Qed.

(** The check for a remainder. *)
Lemma run_zero_check_not (d : Register) reason rest m :
  run None (test d d :: Guard not_zero reason :: rest) m
  = if negb (Int32.signed (get m d) =? 0)
    then Deopt reason (do_test m d d)
    else run None rest (do_test m d d).
Proof.
  cbn [run]. destruct (test_self m d) as [Hz _].
  apply (holds_not _ zero) in Hz; [| discriminate].
  change (NegateCondition zero) with not_zero in Hz. rewrite Hz.
  now destruct (_ =? 0).
Qed.

(** The check for [0 / -x]. *)
Lemma run_minus_zero_check (x d : Register) L rest m :
  run None (test x x :: j not_zero L :: test d d
            :: Guard sign kMinusZero :: bind L :: rest) m
  = if Int32.signed (get m x) =? 0 then
      if Int32.signed (get m d) <? 0
      then Deopt kMinusZero (do_test (do_test m x x) d d)
      else run None rest (do_test (do_test m x x) d d)
    else run None rest (do_test m x x).
Proof.
  cbn [run].
  destruct (test_self m x) as [Hz _].
  apply (holds_not _ zero) in Hz; [| discriminate].
  change (NegateCondition zero) with not_zero in Hz. rewrite Hz.
  destruct (Int32.signed (get m x) =? 0); cbn [negb].
  - destruct (test_self (do_test m x x) d) as [_ ->].
    rewrite get_do_test. now destruct (_ <? 0).
  - now rewrite decide_True.
Qed.

(** The check for [kMinInt / -1]. *)
Lemma run_overflow_check (x d : Register) L rest m :
  run None (cmp x (Immediate Int32.kMinInt) :: j not_zero L
            :: cmp d (Immediate (-1))
            :: Guard zero kOverflow :: bind L :: rest) m
  = if Int32.signed (get m x) =? Int32.kMinInt then
      if Int32.signed (get m d) =? -1
      then Deopt kOverflow
             (do_cmp (do_cmp m x (Immediate Int32.kMinInt)) d
                     (Immediate (-1)))
      else run None rest
             (do_cmp (do_cmp m x (Immediate Int32.kMinInt)) d
                     (Immediate (-1)))
    else run None rest (do_cmp m x (Immediate Int32.kMinInt)).
Proof.
  cbn [run].
  pose proof (cmp_immediate_equal m x Int32.kMinInt
                ltac:(vm_compute; split; discriminate)) as Hz.
  apply holds_not in Hz; [| discriminate].
  change (NegateCondition equal) with not_zero in Hz. rewrite Hz.
  destruct (Int32.signed (get m x) =? Int32.kMinInt); cbn [negb].
  - pose proof (cmp_immediate_equal
                  (do_cmp m x (Immediate Int32.kMinInt)) d (-1)
                  ltac:(vm_compute; split; discriminate)) as Ho.
    change zero with equal. rewrite Ho, get_do_cmp.
    now destruct (_ =? -1).
  - now rewrite decide_True.
Qed.

(** The three checks that open [DoDivI] and [DoFlooringDivI]: they stop
    with the first reason that applies, and leave registers and memory as
    they were. *)
Lemma run_div_checks z mz ov (x d : Register) L0 L1 rest m :
  let a := Int32.signed (get m x) in
  let b := Int32.signed (get m d) in
  exists m1,
    (forall r, get m1 r = get m r) /\ mem m1 = mem m /\
    run None
      (when z ([test d d] ++ DeoptimizeIf zero kDivisionByZero) ++
       when mz ([test x x; j not_zero L0; test d d]
                ++ DeoptimizeIf sign kMinusZero ++ [bind L0]) ++
       when ov ([cmp x (Immediate Int32.kMinInt); j not_zero L1;
                 cmp d (Immediate (-1))]
                ++ DeoptimizeIf zero kOverflow ++ [bind L1]) ++
       rest) m
    = if z && (b =? 0) then Deopt kDivisionByZero m1
      else if mz && (a =? 0) && (b <? 0) then Deopt kMinusZero m1
      else if ov && (a =? Int32.kMinInt) && (b =? -1)
           then Deopt kOverflow m1
      else run None rest m1.
Proof.
  intros a b.
  assert (H1 : exists m1,
    (forall r, get m1 r = get m r) /\ mem m1 = mem m /\
    forall rest',
      run None (when z ([test d d] ++ DeoptimizeIf zero kDivisionByZero)
                ++ rest') m
      = if z && (b =? 0) then Deopt kDivisionByZero m1
        else run None rest' m1).
  { destruct z; cbn [when app DeoptimizeIf andb].
    - exists (do_test m d d). repeat split. intros rest'.
      apply run_zero_check.
    - exists m. repeat split. }
  destruct H1 as (m1 & Hr1 & Hm1 & ->).
  destruct (z && (b =? 0)); [exists m1; now repeat split |].
  assert (H2 : exists m2,
    (forall r, get m2 r = get m r) /\ mem m2 = mem m /\
    forall rest',
      run None (when mz ([test x x; j not_zero L0; test d d]
                         ++ DeoptimizeIf sign kMinusZero ++ [bind L0])
                ++ rest') m1
      = if mz && (a =? 0) && (b <? 0) then Deopt kMinusZero m2
        else run None rest' m2).
  { destruct mz; cbn [when app DeoptimizeIf andb].
    - destruct (a =? 0) eqn:Ea; [destruct (b <? 0) eqn:Eb |].
      + exists (do_test (do_test m1 x x) d d). repeat split; try assumption.
        intros rest'. rewrite run_minus_zero_check, !Hr1.
        fold a b. now rewrite Ea, Eb.
      + exists (do_test (do_test m1 x x) d d). repeat split; try assumption.
        intros rest'. rewrite run_minus_zero_check, !Hr1.
        fold a b. now rewrite Ea, Eb.
      + exists (do_test m1 x x). repeat split; try assumption.
        intros rest'. rewrite run_minus_zero_check, !Hr1.
        fold a. now rewrite Ea.
    - exists m1. now repeat split. }
  destruct H2 as (m2 & Hr2 & Hm2 & ->).
  destruct (mz && (a =? 0) && (b <? 0)); [exists m2; now repeat split |].
  destruct ov; cbn [when app DeoptimizeIf andb].
  - rewrite run_overflow_check, !Hr2. fold a b.
    destruct (a =? Int32.kMinInt); [destruct (b =? -1) |];
      eexists; (split; [| split; [| reflexivity]]);
      try assumption; intros r; rewrite ?get_do_cmp; apply Hr2.
  - exists m2. now repeat split.
Qed.

(** The checks followed by the division itself. *)
Lemma run_checked_idiv z mz ov (d : Register) L0 L1 rest m :
  d <> eax -> d <> edx ->
  let x := Int32.signed (get m eax) in
  let y := Int32.signed (get m d) in
  exists m1,
    (forall r, r <> eax -> r <> edx -> get m1 r = get m r) /\
    mem m1 = mem m /\
    run None
      (when z ([test d d] ++ DeoptimizeIf zero kDivisionByZero) ++
       when mz ([test eax eax; j not_zero L0; test d d]
                ++ DeoptimizeIf sign kMinusZero ++ [bind L0]) ++
       when ov ([cmp eax (Immediate Int32.kMinInt); j not_zero L1;
                 cmp d (Immediate (-1))]
                ++ DeoptimizeIf zero kOverflow ++ [bind L1]) ++
       cdq :: idiv d :: rest) m
    = (if y =? 0 then
         if z then Deopt kDivisionByZero m1 else DivideError
       else if mz && (x =? 0) && (y <? 0) then Deopt kMinusZero m1
       else if (x =? Int32.kMinInt) && (y =? -1) then
         if ov then Deopt kOverflow m1 else DivideError
       else run None rest m1) /\
    (y <> 0 -> mz && (x =? 0) && (y <? 0) = false ->
     (x =? Int32.kMinInt) && (y =? -1) = false ->
     Int32.signed (get m1 eax) = Z.quot x y /\
     Int32.signed (get m1 edx) = Z.rem x y).
Proof.
  intros Hd1 Hd2 x y.
  destruct (run_div_checks z mz ov eax d L0 L1 (cdq :: idiv d :: rest) m)
    as (m1 & Hr1 & Hm1 & ->).
  fold x y.
  pose proof (cdq_idiv m1 d Hd1 Hd2) as Hdiv.
  cbn zeta in Hdiv. rewrite !Hr1 in Hdiv. fold x y in Hdiv.
  destruct (Z.eqb_spec y 0) as [Hy0 | Hy0].
  { rewrite andb_true_r. cbn [orb] in Hdiv.
    exists m1. split; [auto |]. split; [exact Hm1 |].
    split; [| intros H; now destruct H].
    destruct z; [reflexivity |].
    rewrite Hy0, !andb_false_r. cbn [run]. now rewrite Hdiv. }
  rewrite andb_false_r. cbn [orb] in Hdiv.
  destruct (mz && (x =? 0) && (y <? 0)) eqn:Emz.
  { exists m1. split; [auto |]. split; [exact Hm1 |].
    split; [reflexivity | discriminate]. }
  rewrite <- andb_assoc.
  destruct ((x =? Int32.kMinInt) && (y =? -1)) eqn:Eovf.
  { exists m1. split; [auto |]. split; [exact Hm1 |].
    split; [| discriminate].
    destruct ov; [reflexivity |]. cbn [andb run]. now rewrite Hdiv. }
  rewrite andb_false_r.
  destruct Hdiv as (m2 & Hidiv & Hq & Hrem & Hr2 & Hm2).
  exists m2. split; [intros r H1 H2; now rewrite Hr2, Hr1 |].
  split; [congruence |].
  split; [cbn [run]; now rewrite Hidiv | now split].
Qed.

End DivBlocks.

(** ** Division of two registers *)

Section DivMoreFacts.

Import Ia32 Lithium LithiumOps.

Local Arguments Int32.wrap : simpl never.
Local Arguments Int32.signed : simpl never.
Local Arguments get : simpl never.
Local Arguments set : simpl never.
Local Arguments set_flags : simpl never.

Variable c : Context.

(** X10: [DoDivI], with the registers its assertions ask for: the code
    deoptimizes for a zero divisor, for [0 / -x] and for [kMinInt / -1]
    when the instruction carries the flag of that check, and for an
    inexact quotient unless all uses truncate; without the flag, a zero
    divisor and [kMinInt / -1] run into the divide error of [idiv].
    Otherwise the code runs to its end with the quotient rounded toward
    zero in [eax] and the remainder in [edx]. No other register and no
    memory changes. *)
Theorem DoDivI_result (instr : LDivI.t) m :
  let hdiv := LDivI.CheckFlag instr in
  let divisor := ToRegister c (LDivI.divisor instr) in
  let x := Int32.signed (get m eax) in
  let y := Int32.signed (get m divisor) in
  ToRegister c (LDivI.dividend instr) = eax ->
  ToRegister c (LDivI.temp instr) = edx ->
  divisor <> eax -> divisor <> edx ->
  exists m',
    execute (DoDivI c instr) m
    = (if y =? 0 then
         if hdiv kCanBeDivByZero then Deopt kDivisionByZero m'
         else DivideError
       else if hdiv kBailoutOnMinusZero && (x =? 0) && (y <? 0) then
         Deopt kMinusZero m'
       else if (x =? Int32.kMinInt) && (y =? -1) then
         if hdiv kCanOverflow then Deopt kOverflow m' else DivideError
       else if negb (hdiv kAllUsesTruncatingToInt32)
               && negb (Z.rem x y =? 0) then
         Deopt kLostPrecision m'
       else Done m') /\
    (forall r, r <> eax -> r <> edx -> get m' r = get m r) /\
    mem m' = mem m /\
    (forall m'', execute (DoDivI c instr) m = Done m'' ->
       Int32.signed (get m'' eax) = Z.quot x y /\
       Int32.signed (get m'' edx) = Z.rem x y).
Proof.
  intros hdiv divisor x y Hdividend Hremainder Hd1 Hd2.
  unfold execute, DoDivI. rewrite Hdividend, Hremainder.
  fold hdiv divisor.
  set (rest := when (negb (hdiv kAllUsesTruncatingToInt32)) _).
  change ([cdq; idiv divisor] ++ rest) with (cdq :: idiv divisor :: rest).
  destruct (run_checked_idiv (hdiv kCanBeDivByZero)
              (hdiv kBailoutOnMinusZero) (hdiv kCanOverflow)
              divisor 0%nat 1%nat rest m Hd1 Hd2)
    as (m1 & Hr1 & Hm1 & -> & Hvalues).
  fold x y in Hvalues |- *.
  destruct (Z.eqb_spec y 0) as [Hy0 | Hy0].
  { exists m1. repeat split; auto; destruct (hdiv kCanBeDivByZero);
      discriminate. }
  destruct (hdiv kBailoutOnMinusZero && (x =? 0) && (y <? 0)) eqn:Emz.
  { exists m1. repeat split; auto; discriminate. }
  destruct ((x =? Int32.kMinInt) && (y =? -1)) eqn:Eovf.
  { exists m1. repeat split; auto; destruct (hdiv kCanOverflow);
      discriminate. }
  destruct (Hvalues Hy0 eq_refl eq_refl) as [Hq Hrem].
  subst rest.
  destruct (hdiv kAllUsesTruncatingToInt32); cbn [negb when app andb].
  - cbn [run]. exists m1. split; [reflexivity |].
    split; [exact Hr1 |]. split; [exact Hm1 |].
    intros m'' [= <-]. now split.
  - unfold Lithium.DeoptimizeIf. rewrite run_zero_check_not, Hrem.
    exists (do_test m1 edx edx).
    split; [now destruct (Z.rem x y =? 0) |].
    split; [intros r H1 H2; rewrite get_do_test; now apply Hr1 |].
    split; [exact Hm1 |].
    destruct (Z.rem x y =? 0); cbn [negb run]; [| discriminate].
    intros m'' [= <-]. rewrite !get_do_test. now split.
Qed.

End DivMoreFacts.

(** ** Flooring division and remainder of two registers *)

Section FlooringFacts.

Import Ia32 Lithium LithiumOps.

Local Arguments Int32.wrap : simpl never.
Local Arguments Int32.signed : simpl never.
Local Arguments get : simpl never.
Local Arguments set : simpl never.
Local Arguments set_flags : simpl never.

(** The sign bit of a pattern is bit 31 of any number with that pattern. *)
Lemma msb_testbit v : msb v = Z.testbit v 31.
Proof.
  unfold msb, Int32.wrap, Int32.modulus.
  rewrite <- (Z.mod_pow2_bits_low v 32 31) by lia.
  pose proof (Z.mod_pos_bound v (2 ^ 32) ltac:(lia)) as Hv.
  set (u := v mod 2 ^ 32) in *. clearbody u.
  rewrite Z.testbit_eqb by lia.
  unfold Int32.half_modulus.
  change (2 ^ 31) with 2147483648 in *.
  change (2 ^ 32) with 4294967296 in *.
  destruct (Z.leb_spec 2147483648 u), (Z.eqb_spec ((u / 2147483648) mod 2) 1);
    try reflexivity; exfalso; Z.div_mod_to_equations; lia.
Qed.

Lemma msb_lxor a b : msb (Z.lxor a b) = xorb (msb a) (msb b).
Proof. rewrite !msb_testbit. apply Z.lxor_spec. Qed.

(** An arithmetic shift by 31 leaves the sign only. *)
Lemma shiftr_31 s :
  Int32.in_range s -> Z.shiftr s 31 = if s <? 0 then -1 else 0.
Proof.
  intros Hs. rewrite Z.shiftr_div_pow2 by lia.
  change (2 ^ 31) with 2147483648. revert Hs. Int32.numerals. intros Hs.
  destruct (Z.ltb_spec s 0); Z.div_mod_to_equations; lia.
Qed.

(** The quotient rounded down, from the quotient rounded toward zero and
    its remainder. *)
Lemma floor_from_quot x y :
  y <> 0 ->
  x / y = Z.quot x y
          + (if Z.rem x y =? 0 then 0
             else if xorb (Z.rem x y <? 0) (y <? 0) then -1 else 0).
Proof.
  intros Hy. symmetry.
  pose proof (Z.quot_rem' x y) as Hx.
  pose proof (Z.rem_bound_abs x y Hy) as Hb.
  set (q := Z.quot x y) in *. set (r := Z.rem x y) in *.
  clearbody q r.
  destruct (Z.eqb_spec r 0) as [-> | Hr].
  - apply Z.div_unique_exact; [exact Hy | lia].
  - destruct (Z.ltb_spec r 0), (Z.ltb_spec y 0); cbn [xorb].
    + apply (Z.div_unique x y _ r); lia.
    + apply (Z.div_unique x y _ (r + y)); lia.
    + apply (Z.div_unique x y _ (r + y)); lia.
    + apply (Z.div_unique x y _ r); lia.
Qed.

(** The quotient rounded down stays in the [int32] range, [kMinInt / -1]
    apart. *)
Lemma floor_in_range x y :
  Int32.in_range x -> Int32.in_range y -> y <> 0 ->
  (x =? Int32.kMinInt) && (y =? -1) = false ->
  Int32.in_range (x / y).
Proof.
  intros Hx Hy Hy0 Hovf.
  assert (Hcase : x <> Int32.kMinInt \/ y <> -1).
  { apply andb_false_iff in Hovf as [H | H]; apply Z.eqb_neq in H; auto. }
  revert Hx Hy Hcase. Int32.numerals. intros Hx Hy Hcase.
  destruct (Z.lt_total y 0) as [Hneg | [-> | Hpos]]; [| easy |].
  - assert (H1 : x / y <= 2147483647).
    { destruct (Z.eq_dec y (-1)) as [-> | Hne].
      - assert (E : x / -1 = - x)
          by (symmetry; apply Z.div_unique_exact; lia).
        lia.
      - Z.div_mod_to_equations. nia. }
    assert (H2 : -2147483648 <= x / y) by (Z.div_mod_to_equations; nia).
    lia.
  - split; Z.div_mod_to_equations; nia.
Qed.

(** [xor]: the sign of the result tells whether the signs differ. *)
Lemma xor_sign m (r d : Register) :
  (Int32.signed (get (do_logic Z.lxor m r d) r) <? 0)
  = xorb (Int32.signed (get m r) <? 0) (Int32.signed (get m d) <? 0).
Proof.
  unfold do_logic. cbn [value].
  rewrite get_set_flags, get_set_same, <- !msb_signed.
  unfold msb at 1. rewrite wrap_wrap. apply msb_lxor.
Qed.

(** [sar] by 31: all ones for a negative number, zero otherwise. *)
Lemma sar_31 m r :
  get (do_sar m r 31) r
  = Int32.wrap (if Int32.signed (get m r) <? 0 then -1 else 0).
Proof.
  unfold do_sar. change (Z.land 31 31 =? 0) with false. cbv iota.
  change (Z.land 31 31) with 31.
  rewrite get_set_flags, get_set_same.
  now rewrite shiftr_31 by apply signed_get_range.
Qed.

Lemma get_sar_other m r r' n : r' <> r -> get (do_sar m r n) r' = get m r'.
Proof.
  intros H. unfold do_sar. destruct (_ =? 0); [reflexivity |].
  rewrite get_set_flags. now apply get_set_other.
Qed.

Lemma get_logic_other op m r o r' :
  r' <> r -> get (do_logic op m r o) r' = get m r'.
Proof.
  intros H. unfold do_logic. rewrite get_set_flags. now apply get_set_other.
Qed.

(** [add] of two registers, read as signed numbers. *)
Lemma add_signed m (r s : Register) :
  get (do_add m r s) r
  = Int32.wrap (Int32.signed (get m r) + Int32.signed (get m s)).
Proof.
  unfold do_add. cbn [value]. rewrite get_set_flags, get_set_same.
  destruct (signed_congruent (get m r)) as [q ->].
  destruct (signed_congruent (get m s)) as [q' ->].
  replace (get m r + q * Int32.modulus + (get m s + q' * Int32.modulus))
    with (get m r + get m s + (q + q') * Int32.modulus) by ring.
  now rewrite wrap_add_multiple.
Qed.

Lemma get_add_other m r o r' : r' <> r -> get (do_add m r o) r' = get m r'.
Proof.
  intros H. unfold do_add. rewrite get_set_flags. now apply get_set_other.
Qed.

Lemma mem_do_sar m r n : mem (do_sar m r n) = mem m.
Proof. unfold do_sar. now destruct (_ =? 0). Qed.

Variable c : Context.

(** X11: [DoFlooringDivI], with the registers its assertions ask for:
    the checks are those of [DoDivI], without the one for an inexact
    quotient; when the code runs to its end, [eax] holds the quotient
    rounded toward minus infinity. No register other than [eax] and [edx]
    and no memory changes. *)
Theorem DoFlooringDivI_result (instr : LFlooringDivI.t) m :
  let hdiv := LFlooringDivI.CheckFlag instr in
  let divisor := ToRegister c (LFlooringDivI.divisor instr) in
  let x := Int32.signed (get m eax) in
  let y := Int32.signed (get m divisor) in
  ToRegister c (LFlooringDivI.dividend instr) = eax ->
  ToRegister c (LFlooringDivI.temp instr) = edx ->
  ToRegister c (LFlooringDivI.result instr) = eax ->
  divisor <> eax -> divisor <> edx ->
  exists m',
    execute (DoFlooringDivI c instr) m
    = (if y =? 0 then
         if hdiv kCanBeDivByZero then Deopt kDivisionByZero m'
         else DivideError
       else if hdiv kBailoutOnMinusZero && (x =? 0) && (y <? 0) then
         Deopt kMinusZero m'
       else if (x =? Int32.kMinInt) && (y =? -1) then
         if hdiv kCanOverflow then Deopt kOverflow m' else DivideError
       else Done m') /\
    (forall r, r <> eax -> r <> edx -> get m' r = get m r) /\
    mem m' = mem m /\
    (forall m'', execute (DoFlooringDivI c instr) m = Done m'' ->
       Int32.signed (get m'' eax) = x / y).
Proof.
  intros hdiv divisor x y Hdividend Hremainder Hresult Hd1 Hd2.
  unfold execute, DoFlooringDivI. rewrite Hdividend, Hremainder, Hresult.
  fold hdiv divisor.
  match goal with
  | |- context [[cdq; idiv divisor; ?a; ?b; ?d; ?e; ?f; ?g]] =>
      set (rest := [a; b; d; e; f; g]);
      change [cdq; idiv divisor; a; b; d; e; f; g]
        with (cdq :: idiv divisor :: rest)
  end.
  destruct (run_checked_idiv (hdiv kCanBeDivByZero)
              (hdiv kBailoutOnMinusZero) (hdiv kCanOverflow)
              divisor 0%nat 1%nat rest m Hd1 Hd2)
    as (m1 & Hr1 & Hm1 & -> & Hvalues).
  fold x y in Hvalues |- *.
  destruct (Z.eqb_spec y 0) as [Hy0 | Hy0].
  { exists m1. repeat split; auto; destruct (hdiv kCanBeDivByZero);
      discriminate. }
  destruct (hdiv kBailoutOnMinusZero && (x =? 0) && (y <? 0)) eqn:Emz.
  { exists m1. repeat split; auto; discriminate. }
  destruct ((x =? Int32.kMinInt) && (y =? -1)) eqn:Eovf.
  { exists m1. repeat split; auto; destruct (hdiv kCanOverflow);
      discriminate. }
  destruct (Hvalues Hy0 eq_refl eq_refl) as [Hq Hrem].
  pose proof (floor_from_quot x y Hy0) as Hfloor.
  pose proof (floor_in_range x y (signed_get_range m eax)
                (signed_get_range m divisor) Hy0 Eovf) as Hrange.
  subst rest. cbn [run].
  destruct (test_self m1 edx) as [-> _]. rewrite Hrem.
  destruct (Z.rem x y =? 0) eqn:Er.
  - rewrite decide_True by reflexivity.
    exists (do_test m1 edx edx). split; [reflexivity |].
    split; [intros r H1 H2; rewrite get_do_test; now apply Hr1 |].
    split; [exact Hm1 |].
    intros m'' [= <-]. rewrite get_do_test, Hq. lia.
  - set (m3 := do_test m1 edx edx).
    set (m4 := do_logic Z.lxor m3 edx divisor).
    set (m5 := do_sar m4 edx 31).
    exists (do_add m5 eax edx). split; [reflexivity |].
    split; [| split].
    + intros r H1 H2. rewrite get_add_other by exact H1.
      subst m5. rewrite get_sar_other by exact H2.
      subst m4. rewrite get_logic_other by exact H2.
      subst m3. rewrite get_do_test. now apply Hr1.
    + unfold do_add. rewrite mem_set_flags, mem_set.
      subst m5. now rewrite mem_do_sar.
    + intros m'' [= <-]. rewrite add_signed.
      assert (E5 : Int32.signed (get m5 eax) = Z.quot x y).
      { subst m5. rewrite get_sar_other by discriminate.
        subst m4. rewrite get_logic_other by discriminate. exact Hq. }
      assert (E4 : Int32.signed (get m5 edx)
                   = if xorb (Z.rem x y <? 0) (y <? 0) then -1 else 0).
      { subst m5. rewrite sar_31. subst m4. rewrite xor_sign.
        subst m3. rewrite !get_do_test, Hrem.
        rewrite Hr1 by assumption. fold y.
        now destruct (xorb _ _). }
      rewrite E5, E4, signed_wrap_in_range; rewrite <- Hfloor; auto.
Qed.

End FlooringFacts.

(** ** Remainder of two registers *)

Section ModFacts.

Import Ia32 Lithium LithiumOps.

Local Arguments Int32.wrap : simpl never.
Local Arguments Int32.signed : simpl never.
Local Arguments get : simpl never.
Local Arguments set : simpl never.
Local Arguments set_flags : simpl never.

Lemma test_zero m (r : Register) :
  holds (flags (do_test m r r)) equal
  = Some (Int32.signed (get m r) =? 0).
Proof. now destruct (test_self m r). Qed.

Lemma test_not_zero m (r : Register) :
  holds (flags (do_test m r r)) not_equal
  = Some (negb (Int32.signed (get m r) =? 0)).
Proof. apply (holds_not _ equal); [discriminate | apply test_zero]. Qed.

Lemma test_sign m (r : Register) :
  holds (flags (do_test m r r)) negative
  = Some (Int32.signed (get m r) <? 0).
Proof. now destruct (test_self m r). Qed.

Lemma test_not_sign m (r : Register) :
  holds (flags (do_test m r r)) positive
  = Some (negb (Int32.signed (get m r) <? 0)).
Proof. apply (holds_not _ negative); [discriminate | apply test_sign]. Qed.

Lemma cmp_immediate_not_equal m (r : Register) k :
  Int32.in_range k ->
  holds (flags (do_cmp m r (Immediate k))) not_equal
  = Some (negb (Int32.signed (get m r) =? k)).
Proof.
  intros Hk. apply (holds_not _ equal); [discriminate |].
  now apply cmp_immediate_equal.
Qed.

(** [idiv] does not read the flags. *)
Lemma do_idiv_set_flags m f d : do_idiv (set_flags m f) d = do_idiv m d.
Proof. reflexivity. Qed.

Lemma get_do_cdq_eax m : get (do_cdq m) eax = get m eax.
Proof. unfold do_cdq. now rewrite get_set_other. Qed.

Lemma kMinInt_in_range : Int32.in_range Int32.kMinInt.
Proof. vm_compute. split; discriminate. Qed.

Lemma minus_one_in_range : Int32.in_range (-1).
Proof. vm_compute. split; discriminate. Qed.

Variable c : Context.

(** X12: [DoModI], with the registers its assertions ask for: the code
    deoptimizes for a zero divisor when the instruction carries
    [kCanBeDivByZero], and with the reason "minus zero" when it carries
    [kBailoutOnMinusZero] and a negative dividend leaves the remainder 0;
    [kMinInt % -1] gives 0 without a division when the instruction carries
    [kCanOverflow]. Without the flags, a zero divisor and [kMinInt % -1]
    run into the divide error of [idiv]. When the code runs to its end,
    [edx] holds the remainder with the sign of the dividend. *)
Theorem DoModI_result (instr : LModI.t) m :
  let hmod := LModI.CheckFlag instr in
  let right_reg := ToRegister c (LModI.right instr) in
  let x := Int32.signed (get m eax) in
  let y := Int32.signed (get m right_reg) in
  ToRegister c (LModI.left instr) = eax ->
  ToRegister c (LModI.result instr) = edx ->
  right_reg <> eax -> right_reg <> edx ->
  exists m',
    execute (DoModI c instr) m
    = (if y =? 0 then
         if hmod kCanBeDivByZero then Deopt kDivisionByZero m'
         else DivideError
       else if (x =? Int32.kMinInt) && (y =? -1) then
         if hmod kCanOverflow then
           if hmod kBailoutOnMinusZero then Deopt kMinusZero m'
           else Done m'
         else DivideError
       else if hmod kBailoutOnMinusZero && (x <? 0)
               && (Z.rem x y =? 0) then
         Deopt kMinusZero m'
       else Done m') /\
    (forall r, r <> eax -> r <> edx -> get m' r = get m r) /\
    mem m' = mem m /\
    (forall m'', execute (DoModI c instr) m = Done m'' ->
       Int32.signed (get m'' edx) = Z.rem x y).
Proof.
  intros hmod d x y Hleft Hresult Hd1 Hd2.
  unfold execute, DoModI, Move_immediate, Lithium.DeoptimizeIf.
  rewrite Hleft, Hresult. fold hmod d.
  pose proof (cdq_idiv m d Hd1 Hd2) as Hdiv. cbn zeta in Hdiv.
  fold x y in Hdiv.
  destruct (hmod kCanBeDivByZero) eqn:Ez, (hmod kCanOverflow) eqn:Eov,
    (hmod kBailoutOnMinusZero) eqn:Emz.
  all: cbn [when app run negb andb orb].
  all: rewrite ?test_zero, ?test_not_sign,
         ?(cmp_immediate_equal _ _ _ kMinInt_in_range),
         ?(cmp_immediate_not_equal _ _ _ kMinInt_in_range),
         ?(cmp_immediate_equal _ _ _ minus_one_in_range),
         ?(cmp_immediate_not_equal _ _ _ minus_one_in_range).
  all: repeat (progress
                 rewrite ?get_do_cdq_eax, ?get_do_test, ?get_do_cmp).
  all: fold x y.
  all: repeat match goal with
       | |- context [do_idiv ?M ?D] =>
           tryif constr_eq M (do_cdq m) then fail
           else change (do_idiv M D) with (do_idiv (do_cdq m) D)
       end.
  all: destruct (Z.eqb_spec y 0) as [Hy0 | Hy0];
    destruct (Z.eqb_spec x Int32.kMinInt) as [Hmin | Hmin];
    destruct (Z.eqb_spec y (-1)) as [Hone | Hone];
    destruct (Z.ltb_spec x 0) as [Hneg | Hneg];
    cbn [negb andb orb] in *.
  all: rewrite ?decide_True by reflexivity.
  all: rewrite ?decide_False by discriminate.
  all: try (exfalso; congruence).
  all: try (exfalso; revert Hmin Hneg; Int32.numerals; lia).
  all: first
    [ destruct Hdiv as (m2 & Hidiv & _ & Hrem & Hr2 & Hm2); rewrite ?Hidiv
    | rewrite ?Hdiv ].
  all: cbn [run]; rewrite ?test_zero, ?get_do_test.
  all: try rewrite Hrem.
  all: destruct (Z.eqb_spec (Z.rem x y) 0) as [Hr0 | Hr0].
  all: match goal with
       | |- exists _, DivideError = _ /\ _ => exists m
       | |- _ => eexists
       end; (split; [reflexivity |]).
  all: cbn [write value].
  all: (split; [| split]).
  all: try discriminate.
  all: try (intros r H1 H2;
            repeat (progress rewrite ?get_do_test, ?get_do_cmp,
                      ?get_set_other by exact H2);
            solve [auto]).
  all: try reflexivity.
  all: try exact Hm2.
  all: try (intros m'' [= <-]; rewrite ?get_do_test; exact Hrem).
  all: try (intros m'' [= <-]; rewrite get_set_same, Hmin, Hone;
            reflexivity).
Qed.

End ModFacts.

(** ** Division and remainder by a power of two *)

Section PowerOf2Facts.

Import Ia32 Lithium LithiumOps.

Local Arguments Int32.wrap : simpl never.
Local Arguments Int32.signed : simpl never.
Local Arguments get : simpl never.
Local Arguments set : simpl never.
Local Arguments set_flags : simpl never.

Lemma div_pow2_in_range s n :
  0 <= n -> Int32.in_range s -> Int32.in_range (s / 2 ^ n).
Proof.
  intros Hn Hs. pose proof (Z.pow_pos_nonneg 2 n ltac:(lia) Hn) as Hp.
  set (p := 2 ^ n) in *. clearbody p.
  revert Hs. Int32.numerals. intros Hs.
  split; Z.div_mod_to_equations; nia.
Qed.

(** [sar]: the signed value divided by a power of two, rounded down. *)
Lemma sar_signed m r n :
  0 < n <= 31 ->
  Int32.signed (get (do_sar m r n) r) = Int32.signed (get m r) / 2 ^ n.
Proof.
  intros Hn. unfold do_sar. rewrite land_31 by lia.
  destruct (Z.eqb_spec n 0) as [? | _]; [lia |].
  rewrite get_set_flags, get_set_same, Z.shiftr_div_pow2 by lia.
  apply signed_wrap_in_range, div_pow2_in_range; [lia |].
  apply signed_get_range.
Qed.

Lemma WhichPowerOf2Abs_pow2 d k :
  0 <= k -> Z.abs d = 2 ^ k -> WhichPowerOf2Abs d = k.
Proof.
  intros Hk Hd. unfold WhichPowerOf2Abs. rewrite Hd.
  now apply Z.log2_pow2.
Qed.

Lemma neg_overflow m r :
  holds (flags (do_neg m r)) overflow
  = Some (Int32.signed (get m r) =? Int32.kMinInt).
Proof. now destruct (neg_signed m r) as (_ & _ & H & _). Qed.

Lemma neg_no_overflow m r :
  holds (flags (do_neg m r)) no_overflow
  = Some (negb (Int32.signed (get m r) =? Int32.kMinInt)).
Proof.
  apply (holds_not _ overflow); [discriminate | apply neg_overflow].
Qed.

Lemma neg_zero m r :
  holds (flags (do_neg m r)) equal = Some (Int32.signed (get m r) =? 0).
Proof. now destruct (neg_signed m r) as (_ & _ & _ & H & _). Qed.

Lemma neg_value m r :
  Int32.signed (get m r) <> Int32.kMinInt ->
  Int32.signed (get (do_neg m r) r) = - Int32.signed (get m r).
Proof. now destruct (neg_signed m r) as (_ & H & _). Qed.

Lemma mem_do_neg m r : mem (do_neg m r) = mem m.
Proof. reflexivity. Qed.

(** [kMinInt] divided by a negative power of two other than -1. *)
Lemma kMinInt_quot_pow2 k :
  1 <= k <= 31 ->
  Int32.signed (Int32.wrap (Z.quot Int32.kMinInt (- 2 ^ k)))
  = Int32.kMinInt / - 2 ^ k.
Proof.
  intros Hk. unfold Int32.kMinInt.
  rewrite Z.quot_opp_opp, Z.div_opp_opp by lia.
  rewrite Z.quot_div_nonneg by lia.
  rewrite <- Z.pow_sub_r by lia.
  apply signed_wrap_in_range.
  pose proof (Z.pow_le_mono_r 2 (31 - k) 30 ltac:(lia) ltac:(lia)).
  pose proof (Z.pow_pos_nonneg 2 (31 - k) ltac:(lia) ltac:(lia)).
  Int32.numerals. change (2 ^ 30) with 1073741824 in *. lia.
Qed.

Variable c : Context.

(** X13: [DoFlooringDivByPowerOf2I], for a divisor [2^k] or [-2^k]: the
    code is empty for the divisor 1 and a single shift for the other
    positive divisors; for a negative divisor it deoptimizes with "minus
    zero" for the dividend 0 when the instruction carries
    [kBailoutOnMinusZero], and with "overflow" for [kMinInt / -1] when it
    carries [kLeftCanBeMinInt]. When the code runs to its end, the register
    holds the quotient rounded toward minus infinity, unless the dividend
    is [kMinInt], the divisor is negative and the instruction does not
    carry [kLeftCanBeMinInt]. *)
Theorem DoFlooringDivByPowerOf2I_result
        (instr : LFlooringDivByPowerOf2I.t) m k :
  let hydrogen := LFlooringDivByPowerOf2I.CheckFlag instr in
  let dividend := ToRegister c (LFlooringDivByPowerOf2I.dividend instr) in
  let divisor := LFlooringDivByPowerOf2I.divisor instr in
  let x := Int32.signed (get m dividend) in
  0 <= k <= 31 -> Z.abs divisor = 2 ^ k -> Int32.in_range divisor ->
  exists m',
    execute (DoFlooringDivByPowerOf2I c instr) m
    = (if (divisor <? 0) && hydrogen kBailoutOnMinusZero && (x =? 0)
       then Deopt kMinusZero m'
       else if (divisor =? -1) && hydrogen kLeftCanBeMinInt
               && (x =? Int32.kMinInt)
       then Deopt kOverflow m'
       else Done m') /\
    (forall r, r <> dividend -> get m' r = get m r) /\
    mem m' = mem m /\
    (hydrogen kLeftCanBeMinInt = true \/ x <> Int32.kMinInt
     \/ 0 < divisor ->
     forall m'', execute (DoFlooringDivByPowerOf2I c instr) m = Done m'' ->
       Int32.signed (get m'' dividend) = x / divisor).
Proof.
  intros hydrogen r d x Hk Hd Hrange.
  unfold execute, DoFlooringDivByPowerOf2I, Lithium.DeoptimizeIf.
  fold hydrogen r d. rewrite (WhichPowerOf2Abs_pow2 d k) by (lia || exact Hd).
  destruct (Z.eqb_spec d 1) as [Hd1 | Hd1].
  { exists m. rewrite Hd1. cbn [Z.ltb Z.compare andb Z.eqb run].
    repeat split. intros _ m'' [= <-]. fold x. now rewrite Z.div_1_r. }
  destruct (Z.ltb_spec 1 d) as [Hpos | Hneg].
  { assert (Ed : d = 2 ^ k) by lia.
    assert (Hk1 : 0 < k).
    { destruct (Z.eq_dec k 0) as [-> | ?]; [| lia]. cbn in Ed. lia. }
    exists (do_sar m r k).
    destruct (Z.ltb_spec d 0) as [? | _]; [lia |].
    destruct (Z.eqb_spec d (-1)) as [? | _]; [lia |].
    cbn [andb run]. split; [reflexivity |].
    split; [intros r' Hr'; now apply get_sar_other |].
    split; [apply mem_do_sar |].
    intros _ m'' [= <-]. rewrite sar_signed by lia. now rewrite Ed. }
  assert (Ed : d = - 2 ^ k).
  { pose proof (Z.pow_pos_nonneg 2 k ltac:(lia) ltac:(lia)). lia. }
  destruct (Z.ltb_spec d 0) as [_ | ?]; [| lia].
  cbn [andb app run].
  assert (Hfloor : x / d = - x / 2 ^ k).
  { rewrite Ed, <- (Z.opp_involutive x) at 1.
    apply Z.div_opp_opp. lia. }
  assert (Hk1 : d <> -1 -> 0 < k).
  { intros Hne. destruct (Z.eq_dec k 0) as [-> | ?]; [| lia].
    cbn in Ed. lia. }
  assert (Hminus : d = -1 -> x / d = - x).
  { intros ->. symmetry. apply Z.div_unique_exact; lia. }
  destruct (hydrogen kBailoutOnMinusZero) eqn:Emz,
    (hydrogen kLeftCanBeMinInt) eqn:Emin;
    destruct (Z.eqb_spec d (-1)) as [Hone | Hone];
    cbn [when app run negb andb];
    rewrite ?neg_zero, ?neg_overflow, ?neg_no_overflow; fold x;
    destruct (Z.eqb_spec x 0) as [Hx0 | Hx0];
    destruct (Z.eqb_spec x Int32.kMinInt) as [Hmin | Hmin];
    cbn [negb run];
    rewrite ?decide_True by reflexivity;
    rewrite ?decide_False by discriminate;
    try (exfalso; rewrite Hx0 in Hmin; discriminate).
  all: cbn [write value].
  all: eexists; (split; [reflexivity |]).
  all: (split; [| split]).
  all: try (intros r' Hr';
            rewrite ?get_sar_other, ?get_set_other, ?get_do_neg_other
              by exact Hr'; reflexivity).
  all: rewrite ?mem_do_sar; try reflexivity.
  all: try discriminate.
  all: intros Hpre m'' [= <-].
  all: try (rewrite get_set_same, wrap_wrap, Hmin, Ed;
            apply kMinInt_quot_pow2; specialize (Hk1 Hone); lia).
  all: assert (Hne : x <> Int32.kMinInt)
    by (first [ exact Hmin
              | destruct Hpre as [? | [? | ?]];
                [discriminate | assumption | lia] ]).
  all: try (rewrite (Hminus Hone); now apply neg_value).
  all: specialize (Hk1 Hone).
  all: rewrite sar_signed, neg_value by (lia || exact Hne).
  all: now rewrite Hfloor.
Qed.

Lemma mask_pow2 d k :
  Z.abs d = 2 ^ k -> (if d <? 0 then - (d + 1) else d - 1) = Z.ones k.
Proof.
  intros Hd. rewrite Z.ones_equiv. destruct (Z.ltb_spec d 0); lia.
Qed.

(** [and] with the mask [2^k - 1] leaves the pattern modulo [2^k]. *)
Lemma and_mask m r k :
  0 <= k <= 31 ->
  get (do_logic Z.land m r (Immediate (Z.ones k))) r = get m r mod 2 ^ k.
Proof.
  intros Hk. unfold do_logic. cbn [value].
  rewrite get_set_flags, get_set_same.
  pose proof (Z.pow_pos_nonneg 2 k ltac:(lia) ltac:(lia)) as Hp.
  pose proof (Z.pow_le_mono_r 2 k 31 ltac:(lia) ltac:(lia)) as Hle.
  assert (Hones : Int32.wrap (Z.ones k) = Z.ones k).
  { apply wrap_small. rewrite Z.ones_equiv. Int32.numerals. lia. }
  rewrite Hones, Z.land_ones by lia.
  apply wrap_small.
  pose proof (Z.mod_pos_bound (get m r) (2 ^ k) Hp).
  Int32.numerals. lia.
Qed.

(** The pattern of a number and the number agree modulo [2^k]. *)
Lemma wrap_mod_pow2 a k :
  0 <= k <= 31 -> Int32.wrap a mod 2 ^ k = a mod 2 ^ k.
Proof.
  intros Hk. unfold Int32.wrap, Int32.modulus.
  apply Z.mod_mod_divide.
  exists (2 ^ (32 - k)). rewrite <- Z.pow_add_r by lia.
  f_equal. lia.
Qed.

Lemma rem_pow2 x d k :
  0 <= k -> Z.abs d = 2 ^ k ->
  Z.rem x d = if x <? 0 then - (- x mod 2 ^ k) else x mod 2 ^ k.
Proof.
  intros Hk Hd.
  pose proof (Z.pow_pos_nonneg 2 k ltac:(lia) Hk) as Hp.
  rewrite <- (Z.rem_abs_r x d) by lia. rewrite Hd.
  destruct (Z.ltb_spec x 0).
  - rewrite <- (Z.opp_involutive x) at 1.
    rewrite Z.rem_opp_l by lia. f_equal. apply Z.rem_mod_nonneg; lia.
  - apply Z.rem_mod_nonneg; lia.
Qed.

(** X14: [DoModByPowerOf2I], for a divisor [2^k] or [-2^k]: the code
    deoptimizes with "minus zero" when the instruction carries
    [kLeftCanBeNegative] and [kBailoutOnMinusZero] and a negative dividend
    leaves the remainder 0, and in no other case. When the code runs to
    its end, the register holds the remainder with the sign of the
    dividend, unless the dividend is negative and the instruction does not
    carry [kLeftCanBeNegative]. *)
Theorem DoModByPowerOf2I_result (instr : LModByPowerOf2I.t) m k :
  let hmod := LModByPowerOf2I.CheckFlag instr in
  let dividend := ToRegister c (LModByPowerOf2I.dividend instr) in
  let divisor := LModByPowerOf2I.divisor instr in
  let x := Int32.signed (get m dividend) in
  0 <= k <= 31 -> Z.abs divisor = 2 ^ k ->
  exists m',
    execute (DoModByPowerOf2I c instr) m
    = (if hmod kLeftCanBeNegative && (x <? 0)
          && hmod kBailoutOnMinusZero && (Z.rem x divisor =? 0)
       then Deopt kMinusZero m'
       else Done m') /\
    (forall r, r <> dividend -> get m' r = get m r) /\
    mem m' = mem m /\
    (hmod kLeftCanBeNegative = true \/ 0 <= x ->
     forall m'', execute (DoModByPowerOf2I c instr) m = Done m'' ->
       Int32.signed (get m'' dividend) = Z.rem x divisor).
Proof.
  intros hmod r d x Hk Hd.
  unfold execute, DoModByPowerOf2I, Lithium.DeoptimizeIf.
  fold hmod r d. rewrite (mask_pow2 d k Hd).
  pose proof (Z.pow_pos_nonneg 2 k ltac:(lia) ltac:(lia)) as Hp.
  pose proof (Z.pow_le_mono_r 2 k 31 ltac:(lia) ltac:(lia)) as Hle.
  pose proof (rem_pow2 x d k ltac:(lia) Hd) as Hrem.
  pose proof (signed_get_range m r) as Hx. fold x in Hx.
  (* The path of a dividend that is not negative. *)
  assert (Hplain : 0 <= x -> forall m0,
    (forall r', get m0 r' = get m r') ->
    Int32.signed (get (do_logic Z.land m0 r (Immediate (Z.ones k))) r)
    = Z.rem x d).
  { intros Hx0 m0 Hm0. rewrite and_mask, Hm0 by exact Hk.
    destruct (Z.ltb_spec x 0) as [? | _]; [lia |].
    assert (Ex : get m r = x).
    { rewrite <- (wrap_signed_get m r). fold x. apply wrap_small.
      revert Hx. Int32.numerals. lia. }
    rewrite Ex, Hrem. apply signed_in_range.
    pose proof (Z.mod_pos_bound x (2 ^ k) Hp). Int32.numerals. lia. }
  (* The path of a negative dividend. *)
  set (m1 := do_neg (do_test m r r) r).
  set (m2 := do_logic Z.land m1 r (Immediate (Z.ones k))).
  assert (Hm2 : Int32.signed (get m2 r) = - x mod 2 ^ k).
  { unfold m2. rewrite and_mask by exact Hk. unfold m1.
    destruct (neg_signed (do_test m r r) r) as (-> & _).
    rewrite get_do_test. fold x.
    rewrite wrap_mod_pow2 by exact Hk. apply signed_in_range.
    pose proof (Z.mod_pos_bound (- x) (2 ^ k) Hp). Int32.numerals. lia. }
  assert (Hm3 : x < 0 -> Int32.signed (get (do_neg m2 r) r) = Z.rem x d).
  { intros Hneg. rewrite neg_value, Hm2, Hrem.
    - now destruct (Z.ltb_spec x 0); [| lia].
    - rewrite Hm2. pose proof (Z.mod_pos_bound (- x) (2 ^ k) Hp).
      Int32.numerals. lia. }
  assert (Hzero : x < 0 ->
    (Int32.signed (get m2 r) =? 0) = (Z.rem x d =? 0)).
  { intros Hneg. rewrite Hm2, Hrem.
    destruct (Z.ltb_spec x 0); [| lia].
    destruct (Z.eqb_spec (- x mod 2 ^ k) 0),
      (Z.eqb_spec (- (- x mod 2 ^ k)) 0); lia || reflexivity. }
  destruct (hmod kLeftCanBeNegative) eqn:Eneg;
    cbn [when app run andb].
  - rewrite test_not_sign. fold x.
    destruct (Z.ltb_spec x 0) as [Hneg | Hpos]; cbn [negb].
    + fold m1 m2.
      destruct (hmod kBailoutOnMinusZero) eqn:Emz; cbn [when app run andb].
      * rewrite neg_zero, (Hzero Hneg).
        exists (do_neg m2 r).
        split; [now destruct (Z.rem x d =? 0) |].
        split; [intros r' Hr'; rewrite get_do_neg_other by exact Hr';
                unfold m2; rewrite get_logic_other by exact Hr';
                unfold m1; now rewrite get_do_neg_other |].
        split; [reflexivity |].
        intros _ m''. destruct (Z.rem x d =? 0); [discriminate |].
        intros [= <-]. now apply Hm3.
      * exists (do_neg m2 r). split; [reflexivity |].
        split; [intros r' Hr'; rewrite get_do_neg_other by exact Hr';
                unfold m2; rewrite get_logic_other by exact Hr';
                unfold m1; now rewrite get_do_neg_other |].
        split; [reflexivity |].
        intros _ m'' [= <-]. now apply Hm3.
    + destruct (hmod kBailoutOnMinusZero); cbn [when app run andb];
        rewrite decide_True by reflexivity; cbn [run].
      all: eexists; (split; [reflexivity |]).
      all: split; [intros r' Hr'; rewrite get_logic_other by exact Hr';
                   apply get_do_test |].
      all: split; [reflexivity |].
      all: intros _ m'' [= <-]; apply (Hplain Hpos).
      all: intros r'; apply get_do_test.
  - eexists. split; [reflexivity |].
    split; [intros r' Hr'; now apply get_logic_other |].
    split; [reflexivity |].
    intros [? | Hpos] m'' [= <-]; [discriminate |]. now apply Hplain.
Qed.

End PowerOf2Facts.

(** ** Truncating division by a power of two *)

Section DivByPowerOf2Facts.

Import Ia32 Lithium LithiumOps.

Local Arguments Int32.wrap : simpl never.
Local Arguments Int32.signed : simpl never.
Local Arguments get : simpl never.
Local Arguments set : simpl never.
Local Arguments set_flags : simpl never.

(** [shr]: the pattern divided by a power of two. *)
Lemma shr_value m r n :
  0 < n <= 31 -> get (do_shr m r n) r = Z.shiftr (get m r) n.
Proof.
  intros Hn. unfold do_shr. rewrite land_31 by lia.
  destruct (Z.eqb_spec n 0) as [? | _]; [lia |].
  rewrite get_set_flags, get_set_same. apply wrap_small.
  rewrite Z.shiftr_div_pow2 by lia.
  pose proof (get_range m r) as Ha.
  pose proof (Z.pow_pos_nonneg 2 n ltac:(lia) ltac:(lia)) as Hp.
  set (p := 2 ^ n) in *. clearbody p.
  split; Z.div_mod_to_equations; nia.
Qed.

Lemma get_shr_other m r r' n : r' <> r -> get (do_shr m r n) r' = get m r'.
Proof.
  intros H. unfold do_shr. destruct (_ =? 0); [reflexivity |].
  rewrite get_set_flags. now apply get_set_other.
Qed.

Lemma mem_do_shr m r n : mem (do_shr m r n) = mem m.
Proof. unfold do_shr. now destruct (_ =? 0). Qed.

(** The rounding term of the division: [2^k - 1] for a negative dividend,
    from its sign bits. *)
Lemma sign_spread a k :
  0 <= a < Int32.modulus -> 1 <= k <= 31 ->
  Z.shiftr (if 1 <? k
            then Int32.wrap (if Int32.signed a <? 0 then -1 else 0)
            else a) (32 - k)
  = if Int32.signed a <? 0 then 2 ^ k - 1 else 0.
Proof.
  intros Ha Hk. rewrite Z.shiftr_div_pow2 by lia.
  destruct (Z.ltb_spec 1 k) as [Hk1 | Hk1].
  - destruct (Int32.signed a <? 0).
    + change (Int32.wrap (-1)) with (Z.ones 32).
      rewrite Z.ones_div_pow2 by lia.
      replace (32 - (32 - k)) with k by lia. apply Z.ones_equiv.
    + reflexivity.
  - assert (k = 1) as -> by lia. change (2 ^ (32 - 1)) with 2147483648.
    rewrite (signed_pattern a Ha). revert Ha. Int32.numerals. intros Ha.
    destruct (Z.ltb_spec a 2147483648);
      [destruct (Z.ltb_spec a 0) | destruct (Z.ltb_spec (a - 4294967296) 0)];
      try lia; cbn; Z.div_mod_to_equations; lia.
Qed.

(** The quotient rounded toward zero, from the shift that rounds down. *)
Lemma quot_pow2 x k :
  0 <= k ->
  Z.quot x (2 ^ k) = (x + (if x <? 0 then 2 ^ k - 1 else 0)) / 2 ^ k.
Proof.
  intros Hk. pose proof (Z.pow_pos_nonneg 2 k ltac:(lia) Hk) as Hp.
  set (p := 2 ^ k) in *. clearbody p.
  destruct (Z.ltb_spec x 0) as [Hneg | Hpos].
  - rewrite <- (Z.opp_involutive x) at 1.
    rewrite Z.quot_opp_l, Z.quot_div_nonneg by lia.
    pose proof (Z.div_mod (- x) p ltac:(lia)) as Hdm.
    pose proof (Z.mod_pos_bound (- x) p Hp) as Hb.
    apply (Z.div_unique _ p _ (p - 1 - (- x) mod p)); lia.
  - rewrite Z.add_0_r. apply Z.quot_div_nonneg; lia.
Qed.

(** The shifts of [DoDivByPowerOf2I]: the quotient by [2^k] rounded toward
    zero, negated on demand. *)
Lemma run_div_pow2_shifts m0 (res dvd : Register) k (negate : bool) :
  res <> dvd -> 0 <= k <= 31 ->
  let x := Int32.signed (get m0 dvd) in
  exists m',
    run None
      (Move res dvd ++
       when (0 <? k)
         (when (1 <? k) [sar res 31] ++
          [shr res (32 - k); add res dvd; sar res k]) ++
       when negate [neg res]) m0
    = Done m' /\
    (forall r, r <> res -> get m' r = get m0 r) /\
    mem m' = mem m0 /\
    (~ (negate = true /\ k = 0 /\ x = Int32.kMinInt) ->
     Int32.signed (get m' res)
     = if negate then - Z.quot x (2 ^ k) else Z.quot x (2 ^ k)).
Proof.
  intros Hne Hk x. unfold Move. rewrite decide_False by exact Hne.
  set (m1 := write m0 res (value m0 dvd)).
  assert (H1 : get m1 res = get m0 dvd).
  { unfold m1. cbn [write value]. rewrite get_set_same. apply wrap_get. }
  assert (H1o : forall r, r <> res -> get m1 r = get m0 r).
  { intros r Hr. unfold m1. cbn [write]. now apply get_set_other. }
  assert (Hshift : exists m4,
    run None
      ([mov res dvd] ++
       when (0 <? k)
         (when (1 <? k) [sar res 31] ++
          [shr res (32 - k); add res dvd; sar res k]) ++
       when negate [neg res]) m0
    = run None (when negate [neg res]) m4 /\
    (forall r, r <> res -> get m4 r = get m0 r) /\
    mem m4 = mem m0 /\
    Int32.signed (get m4 res) = Z.quot x (2 ^ k)).
  { cbn [app run]. fold m1.
    destruct (Z.ltb_spec 0 k) as [Hk0 | Hk0]; cbn [when app].
    - set (m1' := if 1 <? k then do_sar m1 res 31 else m1).
      set (m2 := do_shr m1' res (32 - k)).
      set (m3 := do_add m2 res dvd).
      exists (do_sar m3 res k).
      assert (H1' : get m1' res
                    = if 1 <? k
                      then Int32.wrap (if x <? 0 then -1 else 0)
                      else get m0 dvd).
      { unfold m1'. destruct (1 <? k); [| exact H1].
        rewrite sar_31, H1. reflexivity. }
      assert (H1'o : forall r, r <> res -> get m1' r = get m0 r).
      { intros r Hr. unfold m1'. destruct (1 <? k); [| now apply H1o].
        rewrite get_sar_other by exact Hr. now apply H1o. }
      assert (H2 : get m2 res = if x <? 0 then 2 ^ k - 1 else 0).
      { unfold m2. rewrite shr_value, H1' by lia.
        apply (sign_spread (get m0 dvd)); [apply get_range | lia]. }
      assert (H2o : forall r, r <> res -> get m2 r = get m0 r).
      { intros r Hr. unfold m2. rewrite get_shr_other by exact Hr.
        now apply H1'o. }
      pose proof (Z.pow_pos_nonneg 2 k ltac:(lia) ltac:(lia)) as Hp.
      pose proof (Z.pow_le_mono_r 2 k 31 ltac:(lia) ltac:(lia)) as Hle.
      pose proof (signed_get_range m0 dvd) as Hx. fold x in Hx.
      assert (H3 : Int32.signed (get m3 res)
                   = x + (if x <? 0 then 2 ^ k - 1 else 0)).
      { unfold m3. rewrite add_signed, H2, (H2o dvd) by congruence.
        fold x.
        assert (Hb : Int32.signed (if x <? 0 then 2 ^ k - 1 else 0)
                     = if x <? 0 then 2 ^ k - 1 else 0).
        { apply signed_in_range. revert Hx. Int32.numerals.
          destruct (x <? 0); lia. }
        rewrite Hb, Z.add_comm.
        apply signed_wrap_in_range. revert Hx. Int32.numerals.
        destruct (Z.ltb_spec x 0); lia. }
      split; [| split; [| split]].
      + destruct (1 <? k) eqn:E; cbn [when app run]; subst m1' m2 m3;
          rewrite ?E; reflexivity.
      + intros r Hr. rewrite get_sar_other by exact Hr.
        unfold m3. rewrite get_add_other by exact Hr. now apply H2o.
      + rewrite mem_do_sar. unfold m3, do_add.
        rewrite mem_set_flags, mem_set. unfold m2. rewrite mem_do_shr.
        unfold m1'. destruct (1 <? k); [rewrite mem_do_sar |]; reflexivity.
      + rewrite sar_signed, H3 by lia. symmetry. apply quot_pow2. lia.
    - exists m1. assert (k = 0) as -> by lia.
      split; [reflexivity |]. split; [exact H1o |].
      split; [reflexivity |].
      rewrite H1. fold x. change (2 ^ 0) with 1. now rewrite Z.quot_1_r. }
  destruct Hshift as (m4 & -> & H4o & H4m & H4).
  destruct negate; cbn [when run].
  - exists (do_neg m4 res). split; [reflexivity |].
    split; [intros r Hr; rewrite get_do_neg_other by exact Hr;
            now apply H4o |].
    split; [exact H4m |].
    intros Hsafe. rewrite neg_value, H4; [reflexivity |].
    rewrite H4. intros Hmin. apply Hsafe. split; [reflexivity |].
    pose proof (signed_get_range m0 dvd) as Hx. fold x in Hx.
    destruct (Z.eq_dec k 0) as [-> | Hk0].
    + change (2 ^ 0) with 1 in Hmin. rewrite Z.quot_1_r in Hmin. auto.
    + exfalso.
      pose proof (Z.pow_le_mono_r 2 1 k ltac:(lia) ltac:(lia)) as Hp.
      change (2 ^ 1) with 2 in Hp.
      rewrite quot_pow2 in Hmin by lia.
      set (p := 2 ^ k) in *. clearbody p.
      revert Hx Hmin. Int32.numerals. intros Hx Hmin.
      destruct (Z.ltb_spec x 0); Z.div_mod_to_equations; nia.
  - exists m4. split; [reflexivity |]. split; [exact H4o |].
    split; [exact H4m |]. intros _. exact H4.
Qed.

(** [test] with the mask [2^k - 1]: whether the division is exact. *)
Lemma test_mask m (r : Register) d k :
  0 <= k <= 31 -> Z.abs d = 2 ^ k ->
  holds (flags (do_test m r (Immediate (Z.ones k)))) not_equal
  = Some (negb (Z.rem (Int32.signed (get m r)) d =? 0)).
Proof.
  intros Hk Hd. unfold do_test. rewrite flags_set_flags.
  unfold logic_flags, result_flags, holds. cbn [ZF value fmap option_fmap
    option_map].
  pose proof (Z.pow_pos_nonneg 2 k ltac:(lia) ltac:(lia)) as Hp.
  pose proof (Z.pow_le_mono_r 2 k 31 ltac:(lia) ltac:(lia)) as Hle.
  assert (Hones : Int32.wrap (Z.ones k) = Z.ones k).
  { apply wrap_small. rewrite Z.ones_equiv. Int32.numerals. lia. }
  rewrite Hones, Z.land_ones by lia.
  set (x := Int32.signed (get m r)).
  assert (E : get m r mod 2 ^ k = x mod 2 ^ k).
  { rewrite <- (wrap_signed_get m r). now apply wrap_mod_pow2. }
  rewrite E.
  assert (Hsmall : Int32.wrap (x mod 2 ^ k) = x mod 2 ^ k).
  { apply wrap_small. pose proof (Z.mod_pos_bound x (2 ^ k) Hp).
    Int32.numerals. lia. }
  rewrite Hsmall. do 2 f_equal.
  rewrite <- (Z.rem_abs_r x d), Hd by lia.
  pose proof (Z.rem_mod_eq_0 x (2 ^ k) ltac:(lia)) as Hiff.
  destruct (Z.eqb_spec (x mod 2 ^ k) 0), (Z.eqb_spec (Z.rem x (2 ^ k)) 0);
    tauto || reflexivity.
Qed.

Variable c : Context.

(** X15: [DoDivByPowerOf2I], for a divisor [2^k] or [-2^k] and a result
    register other than the dividend: the code deoptimizes with "minus
    zero" for [0 / -2^k], with "overflow" for [kMinInt / -1] and with
    "lost precision" for an inexact quotient by a divisor other than 1 and
    -1, each when the flags of the instruction ask for the check. When the
    code runs to its end, the result register holds the quotient rounded
    toward zero, [kMinInt / -1] apart; only the result register
    changes. *)
Theorem DoDivByPowerOf2I_result (instr : LDivByPowerOf2I.t) m k :
  let hdiv := LDivByPowerOf2I.CheckFlag instr in
  let dividend := ToRegister c (LDivByPowerOf2I.dividend instr) in
  let divisor := LDivByPowerOf2I.divisor instr in
  let result := ToRegister c (LDivByPowerOf2I.result instr) in
  let x := Int32.signed (get m dividend) in
  0 <= k <= 31 -> Z.abs divisor = 2 ^ k -> result <> dividend ->
  exists m',
    execute (DoDivByPowerOf2I c instr) m
    = (if hdiv kBailoutOnMinusZero && (divisor <? 0) && (x =? 0) then
         Deopt kMinusZero m'
       else if hdiv kCanOverflow && (divisor =? -1)
               && (x =? Int32.kMinInt) then
         Deopt kOverflow m'
       else if negb (hdiv kAllUsesTruncatingToInt32)
               && negb (divisor =? 1) && negb (divisor =? -1)
               && negb (Z.rem x divisor =? 0) then
         Deopt kLostPrecision m'
       else Done m') /\
    (forall r, r <> result -> get m' r = get m r) /\
    mem m' = mem m /\
    (~ (divisor = -1 /\ x = Int32.kMinInt) ->
     forall m'', execute (DoDivByPowerOf2I c instr) m = Done m'' ->
       Int32.signed (get m'' result) = Z.quot x divisor).
Proof.
  intros hdiv dvd d res x Hk Hd Hne.
  unfold execute, DoDivByPowerOf2I, Lithium.DeoptimizeIf.
  fold hdiv dvd d res.
  rewrite (mask_pow2 d k Hd), (WhichPowerOf2Abs_pow2 d k) by (lia || exact Hd).
  pose proof (Z.pow_pos_nonneg 2 k ltac:(lia) ltac:(lia)) as Hp.
  set (tail := Move res dvd ++ _).
  (* The shifts, from any machine the checks leave. *)
  assert (Htail : forall m0,
    (forall r, get m0 r = get m r) -> mem m0 = mem m ->
    exists m',
      run None tail m0 = Done m' /\
      (forall r, r <> res -> get m' r = get m r) /\
      mem m' = mem m /\
      (~ (d = -1 /\ x = Int32.kMinInt) ->
       Int32.signed (get m' res) = Z.quot x d)).
  { intros m0 Hregs Hmem.
    destruct (run_div_pow2_shifts m0 res dvd k (d <? 0) Hne Hk)
      as (m' & Hrun & Ho & Hm & Hv).
    rewrite Hregs in Hv. fold x in Hv.
    exists m'. split; [exact Hrun |].
    split; [intros r Hr; now rewrite Ho, Hregs |].
    split; [congruence |].
    intros Hsafe. rewrite Hv.
    - destruct (Z.ltb_spec d 0).
      + replace d with (- 2 ^ k) by lia. now rewrite Z.quot_opp_r by lia.
      + now replace d with (2 ^ k) by lia.
    - intros (Hlt & -> & Hmin). apply Hsafe. split; [| exact Hmin].
      change (2 ^ 0) with 1 in Hd. apply Z.ltb_lt in Hlt. lia. }
  clearbody tail.
  (* The check for [0 / -x]. *)
  assert (H1 : exists m1,
    (forall r, get m1 r = get m r) /\ mem m1 = mem m /\
    forall rest,
      run None (when (hdiv kBailoutOnMinusZero && (d <? 0))
                  ([test dvd dvd] ++ [Guard zero kMinusZero]) ++ rest) m
      = if hdiv kBailoutOnMinusZero && (d <? 0) && (x =? 0)
        then Deopt kMinusZero m1 else run None rest m1).
  { destruct (hdiv kBailoutOnMinusZero && (d <? 0)); cbn [when app andb].
    - exists (do_test m dvd dvd). repeat split. intros rest.
      apply run_zero_check.
    - exists m. repeat split. }
  destruct H1 as (m1 & Hr1 & Hm1 & ->).
  destruct (hdiv kBailoutOnMinusZero && (d <? 0) && (x =? 0)).
  { exists m1. repeat split; auto; discriminate. }
  (* The check for [kMinInt / -1]. *)
  assert (H2 : exists m2,
    (forall r, get m2 r = get m r) /\ mem m2 = mem m /\
    forall rest,
      run None (when (hdiv kCanOverflow && (d =? -1))
                  ([cmp dvd (Immediate Int32.kMinInt)]
                   ++ [Guard zero kOverflow]) ++ rest) m1
      = if hdiv kCanOverflow && (d =? -1) && (x =? Int32.kMinInt)
        then Deopt kOverflow m2 else run None rest m2).
  { destruct (hdiv kCanOverflow && (d =? -1)); cbn [when app andb].
    - exists (do_cmp m1 dvd (Immediate Int32.kMinInt)).
      split; [intros r; rewrite get_do_cmp; apply Hr1 |].
      split; [exact Hm1 |]. intros rest. cbn [run].
      change zero with equal.
      rewrite (cmp_immediate_equal _ _ _ kMinInt_in_range), Hr1. fold x.
      now destruct (x =? Int32.kMinInt).
    - exists m1. now repeat split. }
  destruct H2 as (m2 & Hr2 & Hm2 & ->).
  destruct (hdiv kCanOverflow && (d =? -1) && (x =? Int32.kMinInt)).
  { exists m2. repeat split; auto; discriminate. }
  (* The check for a remainder. *)
  destruct (negb (hdiv kAllUsesTruncatingToInt32) && negb (d =? 1)
            && negb (d =? -1)); cbn [when app andb].
  - cbn [run]. change not_zero with not_equal.
    rewrite (test_mask m2 dvd d k Hk Hd), Hr2. fold x.
    destruct (Z.rem x d =? 0); cbn [negb].
    + destruct (Htail (do_test m2 dvd (Immediate (Z.ones k))))
        as (m' & Hrun & Ho & Hm & Hv);
        [intros r; rewrite get_do_test; apply Hr2 | exact Hm2 |].
      rewrite Hrun. exists m'. split; [reflexivity |].
      split; [exact Ho |]. split; [exact Hm |].
      intros Hsafe m'' [= <-]. now apply Hv.
    + exists (do_test m2 dvd (Immediate (Z.ones k))).
      split; [reflexivity |].
      split; [intros r _; rewrite get_do_test; apply Hr2 |].
      split; [exact Hm2 |]. discriminate.
  - destruct (Htail m2 Hr2 Hm2) as (m' & Hrun & Ho & Hm & Hv).
    rewrite Hrun. exists m'. split; [reflexivity |].
    split; [exact Ho |]. split; [exact Hm |].
    intros Hsafe m'' [= <-]. now apply Hv.
Qed.

End DivByPowerOf2Facts.

(** ** Multiplication of two registers *)

Section MulMoreFacts.

Import Ia32 Lithium LithiumOps.

Local Arguments Int32.wrap : simpl never.
Local Arguments Int32.signed : simpl never.
Local Arguments get : simpl never.
Local Arguments set : simpl never.
Local Arguments set_flags : simpl never.
Local Arguments out_of_range : simpl never.

Lemma msb_lor a b : msb (Z.lor a b) = msb a || msb b.
Proof. rewrite !msb_testbit. apply Z.lor_spec. Qed.

(** [or]: the sign of the result tells whether either sign is set. *)
Lemma or_sign m (r : Register) (o : Operand) :
  holds (flags (do_logic Z.lor m r o)) negative
  = Some ((Int32.signed (get m r) <? 0) || (Int32.signed (value m o) <? 0)).
Proof.
  unfold do_logic. rewrite flags_set_flags.
  unfold logic_flags, result_flags, holds. cbn [SF].
  now rewrite msb_lor, !msb_signed.
Qed.

(** [imul]: the product and its overflow flag. *)
Lemma imul_overflow m r a b :
  holds (flags (do_imul m r a b)) overflow
  = Some (out_of_range (Int32.signed a * Int32.signed b)).
Proof. reflexivity. Qed.

Lemma get_imul_same m r a b :
  get (do_imul m r a b) r = Int32.wrap (Int32.signed a * Int32.signed b).
Proof. unfold do_imul. now rewrite get_set_flags, get_set_same. Qed.

Lemma get_imul_other m r a b r' :
  r' <> r -> get (do_imul m r a b) r' = get m r'.
Proof.
  intros H. unfold do_imul. rewrite get_set_flags. now apply get_set_other.
Qed.

Variable c : Context.

(** X16: [DoMulI] for a right operand in a register and the
    representation [Integer32], with a temporary register other than the
    two operands: the code deoptimizes with "overflow" exactly when the
    instruction carries [kCanOverflow] and the product of the signed
    operands leaves the [int32] range, and otherwise with "minus zero"
    exactly when it carries [kBailoutOnMinusZero], the low 32 bits of
    the product are zero and one operand is negative; without
    [kCanOverflow] that includes products other than zero, such as
    [65536 * -65536]. In every case the left register holds the low 32
    bits of the product; only the left and the temporary register
    change. *)
Theorem DoMulI_registers (instr : LMulI.t) m :
  let hydrogen := LMulI.CheckFlag instr in
  let left := ToRegister c (LMulI.left instr) in
  let right := ToRegister c (LMulI.right instr) in
  let temp := ToRegister c (LMulI.temp instr) in
  let x := Int32.signed (get m left) in
  let y := Int32.signed (get m right) in
  kind (LMulI.right instr) = REGISTER ->
  IsSmi (LMulI.representation instr) = false ->
  temp <> left -> temp <> right ->
  exists m',
    execute (DoMulI c instr) m
    = (if hydrogen kCanOverflow && out_of_range (x * y) then
         Deopt kOverflow m'
       else if hydrogen kBailoutOnMinusZero && (Int32.wrap (x * y) =? 0)
               && ((x <? 0) || (y <? 0)) then
         Deopt kMinusZero m'
       else Done m') /\
    get m' left = Int32.wrap (x * y) /\
    (forall r, r <> left -> r <> temp -> get m' r = get m r) /\
    mem m' = mem m.
Proof.
  intros hydrogen left right temp x y Hkind Hrepr Htl Htr.
  unfold execute, DoMulI, Lithium.DeoptimizeIf, ToOperand,
    IsConstantOperand, IsRegister.
  rewrite Hkind, Hrepr.
  rewrite (bool_decide_eq_false_2 (REGISTER = CONSTANT_OPERAND))
    by discriminate.
  rewrite (bool_decide_eq_true_2 (REGISTER = REGISTER)) by reflexivity.
  fold hydrogen left right temp.
  set (p := x * y).
  assert (Hzero : (Int32.signed (Int32.wrap p) =? 0) = (Int32.wrap p =? 0))
    by now rewrite <- wrap_zero_signed, wrap_wrap.
  destruct (hydrogen kBailoutOnMinusZero) eqn:Emz;
    cbn [when app run write value andb].
  - (* The left operand is kept in the temporary register. *)
    set (m0 := set m temp (get m left)).
    assert (Hl : get m0 left = get m left)
      by (apply get_set_other; congruence).
    assert (Hr : get m0 right = get m right)
      by (apply get_set_other; congruence).
    assert (Ht : Int32.signed (get m0 temp) = x)
      by (unfold m0; now rewrite get_set_same, wrap_get).
    rewrite Hl, Hr. fold x y p.
    set (m1 := do_imul m0 left (get m left) (get m right)).
    assert (H1 : get m1 left = Int32.wrap p) by apply get_imul_same.
    assert (H1t : Int32.signed (get m1 temp) = x).
    { unfold m1. rewrite get_imul_other by exact Htl. exact Ht. }
    assert (Hothers : forall m2,
      (forall r, r <> temp -> get m2 r = get m1 r) ->
      forall r, r <> left -> r <> temp -> get m2 r = get m r).
    { intros m2 H2 r Hrl Hrt. rewrite H2 by exact Hrt.
      unfold m1. rewrite get_imul_other by exact Hrl.
      now apply get_set_other. }
    assert (Hguard :
      let m2 := do_test m1 left left in
      let m3 := do_logic Z.lor m2 temp right in
      exists m',
        run None [test left left; j not_zero 0%nat; or_ temp right;
                  Guard sign kMinusZero; bind 0%nat] m1
        = (if (Int32.wrap p =? 0) && ((x <? 0) || (y <? 0))
           then Deopt kMinusZero m' else Done m') /\
        get m' left = Int32.wrap p /\
        (forall r, r <> left -> r <> temp -> get m' r = get m r) /\
        mem m' = mem m).
    { intros m2 m3. cbn [run]. rewrite test_not_zero, H1, Hzero.
      destruct (Z.eqb_spec (Int32.wrap p) 0) as [Hp0 | Hp0]; cbn [negb andb].
      - change sign with negative. rewrite or_sign. cbn [value].
        rewrite !get_do_test, H1t.
        assert (Hsame : (x <? 0) || (Int32.signed (get m1 right) <? 0)
                        = (x <? 0) || (y <? 0)).
        { destruct (decide (right = left)) as [E | E].
          - rewrite E, H1, Hp0.
            assert (Ey : y = x) by (unfold y, x; now rewrite E).
            rewrite Ey.
            change (Int32.signed 0 <? 0) with false.
            now rewrite orb_false_r, orb_diag.
          - unfold m1. now rewrite get_imul_other, Hr by exact E. }
        rewrite Hsame. exists m3.
        split; [now destruct ((x <? 0) || (y <? 0)) |].
        split; [unfold m3, m2; rewrite get_logic_other by congruence;
                now rewrite get_do_test |].
        split; [| reflexivity].
        apply Hothers. intros r Hrt. unfold m3, m2.
        now rewrite get_logic_other, get_do_test by exact Hrt.
      - rewrite decide_True by reflexivity. cbn [run].
        exists m2. split; [reflexivity |].
        split; [unfold m2; now rewrite get_do_test |].
        split; [| reflexivity].
        apply Hothers. intros r _. apply get_do_test. }
    destruct (hydrogen kCanOverflow) eqn:Eov; cbn [when app run andb].
    + rewrite (imul_overflow m0 left (get m left) (get m right) :
                 holds (flags m1) overflow = Some (out_of_range p)).
      destruct (out_of_range p).
      * exists m1. split; [reflexivity |]. split; [exact H1 |].
        split; [| reflexivity].
        apply Hothers. reflexivity.
      * exact Hguard.
    + exact Hguard.
  - fold x y p.
    set (m1 := do_imul m left (get m left) (get m right)).
    destruct (hydrogen kCanOverflow) eqn:Eov; cbn [when app run andb].
    + rewrite (imul_overflow m left (get m left) (get m right) :
                 holds (flags m1) overflow = Some (out_of_range p)).
      exists m1. split; [now destruct (out_of_range p) |].
      split; [apply get_imul_same |].
      split; [intros r Hrl _; now apply get_imul_other | reflexivity].
    + exists m1. split; [reflexivity |].
      split; [apply get_imul_same |].
      split; [intros r Hrl _; now apply get_imul_other | reflexivity].
Qed.

End MulMoreFacts.

(** ** The arithmetic lowerings on sample machines *)

Section ArithmeticExamples.

Import Ia32 Lithium LithiumOps SampleOps.

(** The smaller of -5 and 3. *)
Lemma DoMathMinMax_result_witness :
  exists code m',
    DoMathMinMax Sample.context (min_max kMathMin) = Some code /\
    execute code (Sample.machine (-5) 3 0 0 0) = Done m' /\
    Int32.signed (get m' eax) = -5.
Proof.
  exact (DoMathMinMax_result Sample.context (min_max kMathMin)
           (Sample.machine (-5) 3 0 0 0) eq_refl (or_introl eq_refl)).
Defined.

(** [-7 / 2] is -3 with the remainder -1 when all uses truncate. *)
Lemma DoDivI_result_witness :
  exists m',
    execute (DoDivI Sample.context (Sample.div_regs all_flags))
            (Sample.machine (-7) 2 0 0 0) = Done m' /\
    Int32.signed (get m' eax) = -3 /\ Int32.signed (get m' edx) = -1.
Proof.
  destruct (DoDivI_result Sample.context (Sample.div_regs all_flags)
              (Sample.machine (-7) 2 0 0 0) eq_refl eq_refl
              ltac:(discriminate) ltac:(discriminate))
    as (m' & Hrun & _ & _ & Hvalue).
  exists m'. split; [exact Hrun | exact (Hvalue m' Hrun)].
Defined.

(** The flooring [-7 / 2] is -4. *)
Lemma DoFlooringDivI_result_witness :
  exists m',
    execute (DoFlooringDivI Sample.context (flooring_div_regs all_flags))
            (Sample.machine (-7) 2 0 0 0) = Done m' /\
    Int32.signed (get m' eax) = -4.
Proof.
  destruct (DoFlooringDivI_result Sample.context
              (flooring_div_regs all_flags)
              (Sample.machine (-7) 2 0 0 0) eq_refl eq_refl eq_refl
              ltac:(discriminate) ltac:(discriminate))
    as (m' & Hrun & _ & _ & Hvalue).
  exists m'. split; [exact Hrun | exact (Hvalue m' Hrun)].
Defined.

(** [-7 % 2] is -1; [-8 % 2] is minus zero. *)
Lemma DoModI_result_witness :
  (exists m',
      execute (DoModI Sample.context (mod_regs all_flags))
              (Sample.machine (-7) 2 0 0 0) = Done m' /\
      Int32.signed (get m' edx) = -1) /\
  (exists m',
      execute (DoModI Sample.context (mod_regs all_flags))
              (Sample.machine (-8) 2 0 0 0) = Deopt kMinusZero m').
Proof.
  split.
  - destruct (DoModI_result Sample.context (mod_regs all_flags)
                (Sample.machine (-7) 2 0 0 0) eq_refl eq_refl
                ltac:(discriminate) ltac:(discriminate))
      as (m' & Hrun & _ & _ & Hvalue).
    exists m'. split; [exact Hrun | exact (Hvalue m' Hrun)].
  - destruct (DoModI_result Sample.context (mod_regs all_flags)
                (Sample.machine (-8) 2 0 0 0) eq_refl eq_refl
                ltac:(discriminate) ltac:(discriminate))
      as (m' & Hrun & _).
    exists m'. exact Hrun.
Defined.

(** The flooring [-7 / -4] is 1. *)
Lemma DoFlooringDivByPowerOf2I_result_witness :
  exists m',
    execute (DoFlooringDivByPowerOf2I Sample.context
               (flooring_div_pow2 (-4) all_flags))
            (Sample.machine 0 (-7) 0 0 0) = Done m' /\
    Int32.signed (get m' ecx) = 1.
Proof.
  destruct (DoFlooringDivByPowerOf2I_result Sample.context
              (flooring_div_pow2 (-4) all_flags)
              (Sample.machine 0 (-7) 0 0 0) 2
              ltac:(lia) eq_refl ltac:(vm_compute; split; discriminate))
    as (m' & Hrun & _ & _ & Hvalue).
  exists m'. split; [exact Hrun |].
  exact (Hvalue (or_introl eq_refl) m' Hrun).
Defined.

(** [-7 % 4] is -3. *)
Lemma DoModByPowerOf2I_result_witness :
  exists m',
    execute (DoModByPowerOf2I Sample.context (mod_pow2 4 all_flags))
            (Sample.machine 0 (-7) 0 0 0) = Done m' /\
    Int32.signed (get m' ecx) = -3.
Proof.
  destruct (DoModByPowerOf2I_result Sample.context (mod_pow2 4 all_flags)
              (Sample.machine 0 (-7) 0 0 0) 2 ltac:(lia) eq_refl)
    as (m' & Hrun & _ & _ & Hvalue).
  exists m'. split; [exact Hrun |].
  exact (Hvalue (or_introl eq_refl) m' Hrun).
Defined.

(** [-7 / -4] rounded toward zero is 1 when all uses truncate. *)
Lemma DoDivByPowerOf2I_result_witness :
  exists m',
    execute (DoDivByPowerOf2I Sample.context
               (Sample.div_pow2 (-4) all_flags))
            (Sample.machine 0 (-7) 0 0 0) = Done m' /\
    Int32.signed (get m' eax) = 1.
Proof.
  destruct (DoDivByPowerOf2I_result Sample.context
              (Sample.div_pow2 (-4) all_flags)
              (Sample.machine 0 (-7) 0 0 0) 2
              ltac:(lia) eq_refl ltac:(discriminate))
    as (m' & Hrun & _ & _ & Hvalue).
  exists m'. split; [exact Hrun |].
  refine (Hvalue _ m' Hrun). intros [H _]. discriminate H.
Defined.

(** [0 * -3] is minus zero; [65536 * 65536] overflows. *)
Lemma DoMulI_registers_witness :
  (exists m',
      execute (DoMulI Sample.context (mul_regs all_flags))
              (Sample.machine 0 (-3) 0 0 0) = Deopt kMinusZero m') /\
  (exists m',
      execute (DoMulI Sample.context (mul_regs all_flags))
              (Sample.machine 65536 65536 0 0 0) = Deopt kOverflow m').
Proof.
  split.
  - destruct (DoMulI_registers Sample.context (mul_regs all_flags)
                (Sample.machine 0 (-3) 0 0 0) eq_refl eq_refl
                ltac:(discriminate) ltac:(discriminate))
      as (m' & Hrun & _).
    exists m'. exact Hrun.
  - destruct (DoMulI_registers Sample.context (mul_regs all_flags)
                (Sample.machine 65536 65536 0 0 0) eq_refl eq_refl
                ltac:(discriminate) ltac:(discriminate))
      as (m' & Hrun & _).
    exists m'. exact Hrun.
Defined.

(** Without [kCanOverflow] the test for minus zero reads the low 32 bits
    of the product: [65536 * -65536] is [-2^32] and deoptimizes with
    "minus zero". *)
Example DoMulI_low_bits_zero :
  exists m',
    execute (DoMulI Sample.context
               (mul_regs (fun f =>
                  match f with kBailoutOnMinusZero => true | _ => false
                  end)))
            (Sample.machine 65536 (-65536) 0 0 0) = Deopt kMinusZero m'.
Proof. eexists. vm_compute. reflexivity. Qed.

(** The absolute value of [kMinInt] does not exist. *)
Example EmitIntegerMathAbs_kMinInt :
  exists m',
    execute (EmitIntegerMathAbs Sample.context (Sample.reg 0))
            (Sample.machine Int32.kMinInt 0 0 0 0) = Deopt kOverflow m'.
Proof. eexists. reflexivity. Qed.

End ArithmeticExamples.

(** ** The tables of the SIMD operations and the shuffle selectors *)

Section TableFacts.

Import Ia32 Lithium LithiumOps.

(** X17: The two lists of SIMD128 loads and stores agree:
    [GetSIMD128LoadStoreBytes] gives 4, 8, 12 or 16 bytes for exactly the
    operations that [IsSIMD128LoadStoreOp] accepts, and reaches its
    [UNREACHABLE] branch, with the value -1, for every other builtin. *)
Theorem SIMD128_bytes_defined (op : BuiltinFunctionId) :
  if IsSIMD128LoadStoreOp op
  then In (GetSIMD128LoadStoreBytes op) [4; 8; 12; 16]
  else GetSIMD128LoadStoreBytes op = -1.
Proof. destruct op; cbn; tauto. Qed.

(** X18: A shuffle selector keeps its lane numbers: from the byte that
    [ComputeShuffleSelect] packs, the two-bit field [i] gives back the
    [i]-th argument, and likewise for the one-bit fields of
    [ComputeShuffleSelect64x2], for the lane numbers that the assertions of
    the two functions allow. *)
Theorem ComputeShuffleSelect_fields x y z w :
  0 <= x < 4 -> 0 <= y < 4 -> 0 <= z < 4 -> 0 <= w < 4 ->
  let r := ComputeShuffleSelect x y z w in
  0 <= r < 256 /\
  Z.land r 3 = x /\ Z.land (Z.shiftr r 2) 3 = y /\
  Z.land (Z.shiftr r 4) 3 = z /\ Z.land (Z.shiftr r 6) 3 = w /\
  (x < 2 -> y < 2 ->
   let r2 := ComputeShuffleSelect64x2 x y in
   Z.land r2 1 = x /\ Z.land (Z.shiftr r2 1) 1 = y /\ 0 <= r2 < 4).
Proof.
  intros Hx Hy Hz Hw.
  assert (Ex : x = 0 \/ x = 1 \/ x = 2 \/ x = 3) by lia.
  assert (Ey : y = 0 \/ y = 1 \/ y = 2 \/ y = 3) by lia.
  assert (Ez : z = 0 \/ z = 1 \/ z = 2 \/ z = 3) by lia.
  assert (Ew : w = 0 \/ w = 1 \/ w = 2 \/ w = 3) by lia.
  destruct Ex as [-> | [-> | [-> | ->]]], Ey as [-> | [-> | [-> | ->]]],
    Ez as [-> | [-> | [-> | ->]]], Ew as [-> | [-> | [-> | ->]]];
    vm_compute; repeat split; try discriminate; intros; lia.
Qed.

End TableFacts.

(** ** The operand of an array element *)

Section ArrayOperandFacts.

Import Ia32 Lithium LithiumOps.

Local Arguments Int32.wrap : simpl never.
Local Arguments Int32.signed : simpl never.
Local Arguments get : simpl never.

Lemma wrap_add_signed_r a b :
  Int32.wrap (a + Int32.signed b) = Int32.wrap (a + b).
Proof.
  destruct (signed_congruent b) as [q ->].
  replace (a + (b + q * Int32.modulus)) with (a + b + q * Int32.modulus)
    by ring.
  apply wrap_add_multiple.
Qed.

Lemma wrap_add_mul_wrap a k p b :
  Int32.wrap (a + Int32.wrap k * p + b) = Int32.wrap (a + k * p + b).
Proof.
  unfold Int32.wrap.
  rewrite (Z.add_mod (a + k mod Int32.modulus * p)),
    (Z.add_mod (a + k * p) b) by (vm_compute; discriminate).
  f_equal. f_equal.
  rewrite (Z.add_mod a), (Z.add_mod a (k * p)) by (vm_compute; discriminate).
  f_equal. f_equal.
  rewrite Z.mul_mod_idemp_l by (vm_compute; discriminate). reflexivity.
Qed.

(** The four high bits of a pattern are clear below [2^28] only. *)
Lemma land_high_bits a :
  0 <= a < Int32.modulus ->
  (Z.land a 4026531840 =? 0) = (a <? 268435456).
Proof.
  intros Ha. destruct (Z.ltb_spec a 268435456) as [Hlt | Hge].
  - apply Z.eqb_eq.
    assert (Elow : Z.land a (Z.ones 28) = a).
    { rewrite Z.land_ones by lia. apply Z.mod_small.
      change (2 ^ 28) with 268435456. lia. }
    rewrite <- Elow, <- Z.land_assoc.
    change (Z.land (Z.ones 28) 4026531840) with 0. apply Z.land_0_r.
  - apply Z.eqb_neq. intros E.
    apply (f_equal (fun v => Z.shiftr v 28)) in E.
    rewrite Z.shiftr_land in E.
    change (Z.shiftr 4026531840 28) with (Z.ones 4) in E.
    change (Z.shiftr 0 28) with 0 in E.
    rewrite Z.land_ones, Z.shiftr_div_pow2 in E by lia.
    change (2 ^ 28) with 268435456 in E. change (2 ^ 4) with 16 in E.
    revert Ha. Int32.numerals. intros Ha.
    Z.div_mod_to_equations. lia.
Qed.

Variable c : Context.

(** X19: [BuildFastArrayOperand] addresses element [k]: the operand it
    builds is a memory operand at the elements pointer plus [k] times the
    element size plus the base offset, modulo [2^32], for a constant key
    [k], for a register key that holds [k] as an [int32], and for a
    register key that holds [k] as a small integer when the elements are
    at least two bytes wide; the last two without pre-scaling. *)
Theorem BuildFastArrayOperand_address
        (elements_pointer key : LOperand) (key_representation : Representation)
        (elements_kind : ElementsKind) (base_offset : Z) (m : Machine) k :
  let shift_size := ElementsKindToShiftSize c elements_kind in
  0 <= shift_size ->
  (IsConstantOperand key = true /\ ToInteger32 c key = k) \/
  (IsConstantOperand key = false /\
   ExternalArrayOpRequiresPreScale c key_representation elements_kind
   = false /\
   ((IsSmi key_representation = false /\
     get m (ToRegister c key) = Int32.wrap k) \/
    (IsSmi key_representation = true /\ 1 <= shift_size /\
     get m (ToRegister c key) = Int32.wrap (Z.shiftl k kSmiTagSize)))) ->
  exists base index disp,
    fst (BuildFastArrayOperand c elements_pointer key key_representation
           elements_kind base_offset)
    = Mem base index disp /\
    address m base index disp
    = Int32.wrap (get m (ToRegister c elements_pointer)
                  + k * 2 ^ shift_size + base_offset).
Proof.
  intros shift_size Hshift Hkey. unfold BuildFastArrayOperand.
  fold shift_size.
  destruct Hkey as [[-> Hk] | (-> & -> & Hreg)].
  - do 3 eexists. split; [reflexivity |]. unfold address.
    rewrite Hk, Z.add_0_r, Z.shiftl_mul_pow2 by exact Hshift.
    rewrite wrap_add_signed_r. f_equal. ring.
  - destruct Hreg as [[-> Hget] | (-> & Hone & Hget)]; cbn [andb].
    + do 3 eexists. split; [reflexivity |]. unfold address.
      rewrite Hget. apply wrap_add_mul_wrap.
    + destruct (Z.leb_spec 1 shift_size) as [_ | ?]; [| lia].
      do 3 eexists. split; [reflexivity |]. unfold address.
      rewrite Hget, wrap_add_mul_wrap. f_equal. f_equal. f_equal.
      unfold kSmiTagSize. rewrite Z.shiftl_mul_pow2 by lia.
      rewrite <- Z.mul_assoc, <- Z.pow_add_r by lia.
      f_equal. f_equal. lia.
Qed.

(** X20: [BuildFastArrayOperand] asks for the abort
    [kArrayIndexConstantValueTooBig] exactly for a constant key that is
    negative or not below [2^28]; a key in a register never aborts. *)
Theorem BuildFastArrayOperand_abort
        (elements_pointer key : LOperand) (key_representation : Representation)
        (elements_kind : ElementsKind) (base_offset : Z) :
  let k := ToInteger32 c key in
  Int32.in_range k ->
  snd (BuildFastArrayOperand c elements_pointer key key_representation
         elements_kind base_offset)
  = if IsConstantOperand key && ((k <? 0) || (2 ^ 28 <=? k))
    then Some kArrayIndexConstantValueTooBig else None.
Proof.
  intros k Hk. unfold BuildFastArrayOperand. fold k.
  destruct (IsConstantOperand key); [| reflexivity]. cbn [snd andb].
  rewrite land_high_bits by apply wrap_range.
  rewrite (wrap_in_range k Hk). change (2 ^ 28) with 268435456.
  revert Hk. Int32.numerals. intros Hk.
  destruct (Z.ltb_spec k 0); cbn [orb].
  - destruct (Z.ltb_spec (k + 4294967296) 268435456); [lia | reflexivity].
  - destruct (Z.ltb_spec k 268435456), (Z.leb_spec 268435456 k);
      reflexivity || lia.
Qed.

End ArrayOperandFacts.

Section ArrayOperandExamples.

Import Ia32 Lithium LithiumOps.

(** The selector of the lanes 3, 2, 1, 0 is [0x1b]. *)
Lemma ComputeShuffleSelect_fields_witness :
  ComputeShuffleSelect 3 2 1 0 = 27 /\
  Z.land 27 3 = 3 /\ Z.land (Z.shiftr 27 2) 3 = 2 /\
  Z.land (Z.shiftr 27 4) 3 = 1 /\ Z.land (Z.shiftr 27 6) 3 = 0.
Proof.
  destruct (ComputeShuffleSelect_fields 3 2 1 0
              ltac:(lia) ltac:(lia) ltac:(lia) ltac:(lia))
    as (_ & H0 & H1 & H2 & H3 & _).
  split; [reflexivity |]. repeat split; assumption.
Defined.

(** Element 5 of four-byte elements at [eax], with the key as a small
    integer in [ecx] and the base offset 7: [eax + 5 * 4 + 7]. *)
Lemma BuildFastArrayOperand_address_witness :
  exists base index disp,
    fst (BuildFastArrayOperand Sample.context (Sample.reg 0) (Sample.reg 1)
           kSmi FAST_ELEMENTS 7)
    = Mem base index disp /\
    address (Sample.machine 1000 10 0 0 0) base index disp = 1027.
Proof.
  apply (BuildFastArrayOperand_address Sample.context (Sample.reg 0)
           (Sample.reg 1) kSmi FAST_ELEMENTS 7
           (Sample.machine 1000 10 0 0 0) 5).
  - vm_compute. discriminate.
  - right. split; [reflexivity |]. split; [reflexivity |].
    right. split; [reflexivity |].
    split; [vm_compute; discriminate | reflexivity].
Defined.

(** The constant number 99 is the key -1: too big. *)
Lemma BuildFastArrayOperand_abort_witness :
  snd (BuildFastArrayOperand Sample.context (Sample.reg 0)
         (Sample.constant 99) kInteger32 FAST_ELEMENTS 7)
  = Some kArrayIndexConstantValueTooBig.
Proof.
  apply (BuildFastArrayOperand_abort Sample.context (Sample.reg 0)
           (Sample.constant 99) kInteger32 FAST_ELEMENTS 7).
  vm_compute. split; discriminate.
Defined.

End ArrayOperandExamples.

Section CompareExamples.

Import Ia32 Lithium LithiumOps SampleOps.

(** -1 is less than 3 as a signed number: control goes to block 3. *)
Lemma DoCompareNumericAndBranch_decides_witness :
  exists code m',
    DoCompareNumericAndBranch Sample.context compare_less = Some code /\
    regs m' = regs (Sample.machine (-1) 0 0 0 0) /\
    mem m' = mem (Sample.machine (-1) 0 0 0 0) /\
    execute code (Sample.machine (-1) 0 0 0 0) = UnboundLabel 3%nat.
Proof.
  exact (DoCompareNumericAndBranch_decides Sample.context compare_less
           (Sample.machine (-1) 0 0 0 0) less
           eq_refl eq_refl eq_refl (fun _ _ => eq_refl) eq_refl).
Defined.

End CompareExamples.

(** ** Division and remainder by a constant *)

Section DivByConstFacts.

Import Ia32 Lithium LithiumOps.

Local Arguments Int32.wrap : simpl never.
Local Arguments Int32.signed : simpl never.
Local Arguments get : simpl never.
Local Arguments set : simpl never.
Local Arguments set_flags : simpl never.

(** [TruncatingDiv] leaves the quotient in [edx] and changes [eax]. *)
Lemma get_TruncatingDiv_edx m r k :
  get (do_TruncatingDiv m r k) edx
  = Int32.wrap (Z.quot (Int32.signed (get m r)) k).
Proof.
  unfold do_TruncatingDiv.
  now rewrite get_set_flags, get_set_other, get_set_same by discriminate.
Qed.

Lemma get_TruncatingDiv_other m r k r' :
  r' <> eax -> r' <> edx -> get (do_TruncatingDiv m r k) r' = get m r'.
Proof.
  intros H1 H2. unfold do_TruncatingDiv.
  now rewrite get_set_flags, !get_set_other by assumption.
Qed.

Lemma get_sub_same m r o :
  get (do_sub m r o) r = Int32.wrap (get m r - value m o).
Proof. unfold do_sub. now rewrite get_set_flags, get_set_same. Qed.

Lemma get_sub_other m r o r' : r' <> r -> get (do_sub m r o) r' = get m r'.
Proof.
  intros H. unfold do_sub. rewrite get_set_flags. now apply get_set_other.
Qed.

Lemma flags_do_sub m r o :
  flags (do_sub m r o) = sub_flags (get m r) (value m o).
Proof. reflexivity. Qed.

(** Two numbers with the same pattern that differ by less than [2^32]
    are equal. *)
Lemma wrap_eqb_near u v :
  Z.abs (u - v) < Int32.modulus ->
  (Int32.wrap u =? Int32.wrap v) = (u =? v).
Proof.
  intros Hnear. destruct (Z.eqb_spec u v) as [-> | Hne].
  - apply Z.eqb_refl.
  - apply Z.eqb_neq. intros E. unfold Int32.wrap in E.
    pose proof (Z.div_mod u Int32.modulus ltac:(vm_compute; discriminate)).
    pose proof (Z.div_mod v Int32.modulus ltac:(vm_compute; discriminate)).
    revert Hnear. Int32.numerals. intros Hnear. nia.
Qed.

Lemma quot_rem_abs_r x d :
  d <> 0 ->
  Z.rem x (Z.abs d) = Z.rem x d /\
  Z.quot x d = (if d <? 0 then - Z.quot x (Z.abs d) else Z.quot x (Z.abs d)).
Proof.
  intros Hd. split; [now apply Z.rem_abs_r |].
  destruct (Z.ltb_spec d 0).
  - replace (Z.abs d) with (- d) by lia.
    rewrite Z.quot_opp_r by lia. lia.
  - now replace (Z.abs d) with d by lia.
Qed.

Lemma quot_abs_in_range x d :
  Int32.in_range x -> d <> 0 -> Int32.in_range (Z.quot x (Z.abs d)).
Proof.
  intros Hx Hd.
  assert (H : Z.abs (Z.quot x (Z.abs d)) <= Z.abs x).
  { rewrite <- Z.quot_abs by lia. rewrite Z.abs_idemp.
    rewrite <- (Z.quot_1_r (Z.abs x)) at 2.
    apply Z.quot_le_compat_l; lia. }
  revert Hx. Int32.numerals. intros Hx.
  destruct (Z.eq_dec (Z.quot x (Z.abs d)) 2147483648) as [E | E]; [| lia].
  exfalso. pose proof (Z.quot_rem' x (Z.abs d)) as Hqr.
  pose proof (Z.rem_bound_abs x (Z.abs d) ltac:(lia)) as Hb.
  pose proof (Z.rem_sign_mul x (Z.abs d) ltac:(lia)) as Hs.
  rewrite E in Hqr. nia.
Qed.

Variable c : Context.

(** X27: [DoModByConstI], for a dividend register other than [eax] and
    [edx] and a divisor other than [kMinInt]: the code deoptimizes for the
    divisor 0, and with "minus zero" when the instruction carries
    [kBailoutOnMinusZero], the remainder is 0 and the dividend is
    negative; otherwise it runs to its end with the remainder, of the sign
    of the dividend, in [eax]. Only [eax] and [edx] change. *)
Theorem DoModByConstI_result (instr : LModByConstI.t) m :
  let hmod := LModByConstI.CheckFlag instr in
  let dividend := ToRegister c (LModByConstI.dividend instr) in
  let divisor := LModByConstI.divisor instr in
  let x := Int32.signed (get m dividend) in
  dividend <> eax -> dividend <> edx ->
  Int32.kMinInt < divisor <= Int32.kMaxInt ->
  exists m',
    execute (DoModByConstI c instr) m
    = (if divisor =? 0 then Deopt kDivisionByZero m'
       else if hmod kBailoutOnMinusZero && (Z.rem x divisor =? 0)
               && (x <? 0) then
         Deopt kMinusZero m'
       else Done m') /\
    (forall r, r <> eax -> r <> edx -> get m' r = get m r) /\
    mem m' = mem m /\
    (forall m'', execute (DoModByConstI c instr) m = Done m'' ->
       Int32.signed (get m'' eax) = Z.rem x divisor).
Proof.
  intros hmod r d x Hr1 Hr2 Hd.
  unfold execute, DoModByConstI, Lithium.DeoptimizeIf, Abs.
  fold hmod r d.
  destruct (Z.eqb_spec d 0) as [Hd0 | Hd0].
  { exists m. cbn [run holds]. repeat split; discriminate. }
  pose proof (signed_get_range m r) as Hx. fold x in Hx.
  destruct (quot_rem_abs_r x d Hd0) as [Hrem _].
  pose proof (quot_abs_in_range x d Hx Hd0) as Hq.
  pose proof (Z.quot_rem' x (Z.abs d)) as Hqr.
  pose proof (Z.rem_bound_abs x (Z.abs d) ltac:(lia)) as Hb.
  set (q := Z.quot x (Z.abs d)) in *.
  set (m1 := do_TruncatingDiv m r (Z.abs d)).
  set (m2 := do_imul m1 edx (get m1 edx) (Int32.wrap (Z.abs d))).
  set (m3 := set m2 eax (get m2 r)).
  set (m4 := do_sub m3 eax edx).
  assert (Habs : Int32.in_range (Z.abs d))
    by (revert Hd; Int32.numerals; lia).
  assert (H2 : get m2 edx = Int32.wrap (q * Z.abs d)).
  { unfold m2. rewrite get_imul_same. unfold m1.
    rewrite get_TruncatingDiv_edx. fold x q.
    now rewrite !signed_wrap_in_range. }
  assert (H2r : get m2 r = get m r).
  { unfold m2. rewrite get_imul_other by exact Hr2.
    now apply get_TruncatingDiv_other. }
  assert (H3a : get m3 eax = get m r)
    by (unfold m3; now rewrite get_set_same, wrap_get, H2r).
  assert (H3d : get m3 edx = Int32.wrap (q * Z.abs d))
    by (unfold m3; now rewrite get_set_other by discriminate).
  assert (Hprod : Int32.in_range (q * Z.abs d)).
  { pose proof (Z.rem_sign_mul x (Z.abs d) ltac:(lia)) as Hs.
    revert Hx Habs. Int32.numerals. intros Hx Habs. nia. }
  assert (H4 : Int32.signed (get m4 eax) = Z.rem x d).
  { unfold m4. rewrite get_sub_same. cbn [value]. rewrite H3a, H3d.
    rewrite <- (wrap_signed_get m r). fold x.
    assert (E : Int32.wrap (Int32.wrap x - Int32.wrap (q * Z.abs d))
                = Int32.wrap (Z.rem x (Z.abs d))).
    { apply wrap_eq_mod.
      unfold Int32.wrap.
      pose proof (Z.div_mod x Int32.modulus
                    ltac:(vm_compute; discriminate)) as D1.
      pose proof (Z.div_mod (q * Z.abs d) Int32.modulus
                    ltac:(vm_compute; discriminate)) as D2.
      apply Z.mod_divide; [vm_compute; discriminate |].
      exists (q * Z.abs d / Int32.modulus - x / Int32.modulus). lia. }
    rewrite E, Hrem. apply signed_wrap_in_range.
    rewrite <- Hrem. revert Hx Habs. Int32.numerals. lia. }
  assert (Hzero : holds (flags m4) not_equal
                  = Some (negb (Z.rem x d =? 0))).
  { unfold m4. rewrite flags_do_sub. cbn [value].
    rewrite holds_not_equal by apply get_range.
    rewrite H3a, H3d, <- (wrap_signed_get m r). fold x.
    rewrite wrap_eqb_near
      by (revert Hx Hprod; Int32.numerals; lia).
    do 2 f_equal. rewrite <- Hrem.
    destruct (Z.eqb_spec x (q * Z.abs d)),
      (Z.eqb_spec (Z.rem x (Z.abs d)) 0); lia || reflexivity. }
  assert (Hothers : forall r', r' <> eax -> r' <> edx ->
                               get m4 r' = get m r').
  { intros r' H1 H2'. unfold m4. rewrite get_sub_other by exact H1.
    unfold m3. rewrite get_set_other by exact H1.
    unfold m2. rewrite get_imul_other by exact H2'.
    now apply get_TruncatingDiv_other. }
  cbn [app run write value]. fold m1 m2 m3 m4.
  destruct (hmod kBailoutOnMinusZero); cbn [when app run andb].
  - change not_zero with not_equal. rewrite Hzero.
    destruct (Z.rem x d =? 0); cbn [negb].
    + change (flags (do_cmp m4 r (Immediate 0)))
        with (sub_flags (get m4 r) (Int32.wrap 0)).
      rewrite holds_less by (apply get_range || apply wrap_range).
      assert (Er : get m4 r = get m r) by now apply Hothers.
      rewrite Er. change (Int32.signed (Int32.wrap 0)) with 0. fold x.
      exists (do_cmp m4 r (Immediate 0)).
      split; [now destruct (x <? 0) |].
      split; [intros r' H1 H2'; rewrite get_do_cmp; now apply Hothers |].
      split; [reflexivity |].
      destruct (x <? 0); [discriminate |].
      intros m'' [= <-]. now rewrite get_do_cmp.
    + rewrite decide_True by reflexivity. cbn [run].
      exists m4. split; [reflexivity |]. split; [exact Hothers |].
      split; [reflexivity |]. now intros m'' [= <-].
  - exists m4. split; [reflexivity |]. split; [exact Hothers |].
    split; [reflexivity |]. now intros m'' [= <-].
Qed.

(** X28: [DoDivByConstI], for a dividend register other than [eax] and
    [edx] and a divisor other than [kMinInt]: the code deoptimizes for the
    divisor 0, with "minus zero" for [0 / -k] when the instruction carries
    [kBailoutOnMinusZero], and with "lost precision" for an inexact
    quotient unless all uses truncate; otherwise it runs to its end with
    the quotient rounded toward zero in [edx], [kMinInt / -1] apart. Only
    [eax] and [edx] change. *)
Theorem DoDivByConstI_result (instr : LDivByConstI.t) m :
  let hdiv := LDivByConstI.CheckFlag instr in
  let dividend := ToRegister c (LDivByConstI.dividend instr) in
  let divisor := LDivByConstI.divisor instr in
  let x := Int32.signed (get m dividend) in
  dividend <> eax -> dividend <> edx ->
  Int32.kMinInt < divisor <= Int32.kMaxInt ->
  exists m',
    execute (DoDivByConstI c instr) m
    = (if divisor =? 0 then Deopt kDivisionByZero m'
       else if hdiv kBailoutOnMinusZero && (divisor <? 0) && (x =? 0) then
         Deopt kMinusZero m'
       else if negb (hdiv kAllUsesTruncatingToInt32)
               && negb (Z.rem x divisor =? 0) then
         Deopt kLostPrecision m'
       else Done m') /\
    (forall r, r <> eax -> r <> edx -> get m' r = get m r) /\
    mem m' = mem m /\
    (~ (x = Int32.kMinInt /\ divisor = -1) ->
     forall m'', execute (DoDivByConstI c instr) m = Done m'' ->
       Int32.signed (get m'' edx) = Z.quot x divisor).
Proof.
  intros hdiv r d x Hr1 Hr2 Hd.
  unfold execute, DoDivByConstI, Lithium.DeoptimizeIf, Abs.
  fold hdiv r d.
  destruct (Z.eqb_spec d 0) as [Hd0 | Hd0].
  { exists m. cbn [run holds]. repeat split; discriminate. }
  pose proof (signed_get_range m r) as Hx. fold x in Hx.
  destruct (quot_rem_abs_r x d Hd0) as [_ Hquot].
  pose proof (quot_abs_in_range x d Hx Hd0) as Hq.
  pose proof (Z.quot_rem' x d) as Hqr.
  pose proof (Z.rem_bound_abs x d Hd0) as Hb.
  assert (Hdr : Int32.in_range d) by (revert Hd; Int32.numerals; lia).
  (* The division and what follows it, from any machine the check
     leaves. *)
  match goal with
  | |- context [when (hdiv kBailoutOnMinusZero && (d <? 0)) _ ++ ?t] =>
      set (tail := t)
  end.
  assert (Htail : forall m0,
    (forall r', get m0 r' = get m r') -> mem m0 = mem m ->
    exists m',
      run None tail m0
      = (if negb (hdiv kAllUsesTruncatingToInt32)
            && negb (Z.rem x d =? 0)
         then Deopt kLostPrecision m' else Done m') /\
      (forall r', r' <> eax -> r' <> edx -> get m' r' = get m r') /\
      mem m' = mem m /\
      get m' edx = Int32.wrap (Z.quot x d)).
  { intros m0 Hregs Hmem.
    set (m1 := do_TruncatingDiv m0 r (Z.abs d)).
    set (m2 := if d <? 0 then do_neg m1 edx else m1).
    assert (H1 : get m1 edx = Int32.wrap (Z.quot x (Z.abs d))).
    { unfold m1. now rewrite get_TruncatingDiv_edx, Hregs. }
    assert (H2 : get m2 edx = Int32.wrap (Z.quot x d)).
    { unfold m2. rewrite Hquot. destruct (d <? 0); [| exact H1].
      destruct (neg_signed m1 edx) as (-> & _).
      now rewrite H1, signed_wrap_in_range. }
    assert (H2o : forall r', r' <> eax -> r' <> edx ->
                             get m2 r' = get m r').
    { intros r' Ha Hb'. unfold m2.
      destruct (d <? 0); [rewrite get_do_neg_other by exact Hb' |];
        unfold m1; rewrite get_TruncatingDiv_other by assumption;
        apply Hregs. }
    assert (H2m : mem m2 = mem m).
    { unfold m2. destruct (d <? 0); exact Hmem. }
    assert (Erun : forall rest,
      run None ([TruncatingDiv r (Z.abs d)] ++ when (d <? 0) [neg edx]
                ++ rest) m0
      = run None rest m2).
    { intros rest. cbn [app run]. fold m1. unfold m2.
      now destruct (d <? 0). }
    unfold tail. rewrite Erun.
    destruct (hdiv kAllUsesTruncatingToInt32); cbn [negb when app andb].
    - exists m2. cbn [run]. repeat split; assumption.
    - cbn [run write value].
      set (m3 := set m2 eax (get m2 edx)).
      set (m4 := do_imul m3 eax (get m3 eax) (Int32.wrap d)).
      set (m5 := do_sub m4 eax r).
      assert (H4 : get m4 eax = Int32.wrap (Z.quot x d * d)).
      { unfold m4. rewrite get_imul_same. unfold m3.
        rewrite get_set_same, H2, wrap_wrap.
        rewrite (signed_wrap_in_range d Hdr).
        now rewrite wrap_signed_mul, wrap_mul_wrap_l. }
      assert (H4r : get m4 r = get m r).
      { unfold m4. rewrite get_imul_other by exact Hr1.
        unfold m3. rewrite get_set_other by exact Hr1.
        now apply H2o. }
      assert (Hne : holds (flags m5) not_equal
                    = Some (negb (Z.rem x d =? 0))).
      { unfold m5. rewrite flags_do_sub. cbn [value].
        rewrite holds_not_equal by apply get_range.
        rewrite H4, H4r, <- (wrap_signed_get m r). fold x.
        rewrite wrap_eqb_near by (Int32.numerals; lia).
        do 2 f_equal.
        destruct (Z.eqb_spec (Z.quot x d * d) x),
          (Z.eqb_spec (Z.rem x d) 0); lia || reflexivity. }
      rewrite Hne. exists m5.
      split; [now destruct (Z.rem x d =? 0) |].
      assert (H5o : forall r', r' <> eax -> get m5 r' = get m2 r').
      { intros r' Ha. unfold m5. rewrite get_sub_other by exact Ha.
        unfold m4. rewrite get_imul_other by exact Ha.
        unfold m3. now apply get_set_other. }
      split; [intros r' Ha Hb'; rewrite H5o by exact Ha; now apply H2o |].
      split; [exact H2m |].
      now rewrite H5o by discriminate. }
  assert (Hvalue : forall m',
    get m' edx = Int32.wrap (Z.quot x d) ->
    ~ (x = Int32.kMinInt /\ d = -1) ->
    Int32.signed (get m' edx) = Z.quot x d).
  { intros m' -> Hsafe. apply signed_wrap_in_range.
    pose proof (quot_out_of_range x d Hx Hdr Hd0) as Hout.
    destruct (Z.eqb_spec x Int32.kMinInt), (Z.eqb_spec d (-1));
      try tauto; cbn in Hout; unfold out_of_range in Hout;
      apply orb_false_iff in Hout as [H1 H2];
      apply Z.ltb_ge in H1, H2; split; assumption. }
  clearbody tail.
  destruct (hdiv kBailoutOnMinusZero && (d <? 0)) eqn:Emz;
    cbn [when app andb].
  - rewrite run_zero_check. fold x.
    destruct (x =? 0).
    + exists (do_test m r r). repeat split; discriminate.
    + destruct (Htail (do_test m r r)) as (m' & Hrun & Ho & Hm & He);
        [intros r'; apply get_do_test | reflexivity |].
      rewrite Hrun. exists m'. split; [reflexivity |].
      split; [exact Ho |]. split; [exact Hm |].
      intros Hsafe m''.
      destruct (_ && _); [discriminate |]. intros [= <-].
      now apply Hvalue.
  - destruct (Htail m) as (m' & Hrun & Ho & Hm & He);
      [reflexivity | reflexivity |].
    rewrite Hrun. exists m'. split; [reflexivity |].
    split; [exact Ho |]. split; [exact Hm |].
    intros Hsafe m''.
    destruct (_ && _); [discriminate |]. intros [= <-].
    now apply Hvalue.
Qed.

End DivByConstFacts.

Section DivByConstExamples.

Import Ia32 Lithium LithiumOps SampleOps.

(** [-7 % 3] is -1. *)
Lemma DoModByConstI_result_witness :
  exists m',
    execute (DoModByConstI Sample.context (mod_const 3 all_flags))
            (Sample.machine 0 (-7) 0 0 0) = Done m' /\
    Int32.signed (get m' eax) = -1.
Proof.
  destruct (DoModByConstI_result Sample.context (mod_const 3 all_flags)
              (Sample.machine 0 (-7) 0 0 0)
              ltac:(discriminate) ltac:(discriminate)
              ltac:(vm_compute; split; [reflexivity | discriminate]))
    as (m' & Hrun & _ & _ & Hvalue).
  exists m'. split; [exact Hrun | exact (Hvalue m' Hrun)].
Defined.

(** [-7 / -3] is 2 when all uses truncate; it loses precision when they
    do not. *)
Lemma DoDivByConstI_result_witness :
  (exists m',
      execute (DoDivByConstI Sample.context (Sample.div_const (-3) all_flags))
              (Sample.machine 0 (-7) 0 0 0) = Done m' /\
      Int32.signed (get m' edx) = 2) /\
  (exists m',
      execute (DoDivByConstI Sample.context
                 (Sample.div_const (-3) Sample.no_flags))
              (Sample.machine 0 (-7) 0 0 0) = Deopt kLostPrecision m').
Proof.
  split.
  - destruct (DoDivByConstI_result Sample.context
                (Sample.div_const (-3) all_flags)
                (Sample.machine 0 (-7) 0 0 0)
                ltac:(discriminate) ltac:(discriminate)
                ltac:(vm_compute; split; [reflexivity | discriminate]))
      as (m' & Hrun & _ & _ & Hvalue).
    exists m'. split; [exact Hrun |].
    refine (Hvalue _ m' Hrun). intros [H _]. discriminate H.
  - destruct (DoDivByConstI_result Sample.context
                (Sample.div_const (-3) Sample.no_flags)
                (Sample.machine 0 (-7) 0 0 0)
                ltac:(discriminate) ltac:(discriminate)
                ltac:(vm_compute; split; [reflexivity | discriminate]))
      as (m' & Hrun & _).
    exists m'. exact Hrun.
Defined.

End DivByConstExamples.
